(** * yajson: a shallow embedding of the value model, parser, serializer
      and UTF-8 codec, with the properties checked against the sources.

    Layout of the development
    - bytes are [Z] values in [0, 256); strings and inputs are [list Z];
    - 64-bit integers are [Z] with the wrap-around written out;
    - doubles are IEEE-754 binary64 values of [SpecFloat.spec_float];
    - the parser is a state-and-exception monad over the [Parser] record;
    - the object hash index is a [gmap] from keys to entry positions.  *)

From Stdlib Require Import ZArith List Ascii String Lia Bool.
From Stdlib Require Import Floats.SpecFloat.
From stdpp Require Import gmap list.
Import ListNotations.
Open Scope Z_scope.

(* ===================================================================== *)
(** * Bytes and text                                                      *)
(* ===================================================================== *)

(** A [char] seen as [unsigned char]. *)
Definition is_byte (b : Z) : Prop := 0 <= b < 256.

(** The bytes of a source-level string literal. *)
Definition bytes_of_string (s : string) : list Z :=
  map (fun c => Z.of_N (N_of_ascii c)) (list_ascii_of_string s).

(** [static_cast<char>] of an unsigned value, read back as [unsigned char]. *)
Definition to_char (x : Z) : Z := x mod 256.

(* ===================================================================== *)
(** * detail/utf8.hpp                                                     *)
(* ===================================================================== *)

Module utf8.

(** [unsigned encode(uint32_t cp, char* buf)]: the bytes written to [buf];
    the returned count is their number (0 for an invalid code point). *)
Definition encode (cp : Z) : list Z :=
  if cp <? 0x80 then
    [to_char cp]
  else if cp <? 0x800 then
    [to_char (Z.lor 0xC0 (Z.shiftr cp 6));
     to_char (Z.lor 0x80 (Z.land cp 0x3F))]
  else if cp <? 0x10000 then
    [to_char (Z.lor 0xE0 (Z.shiftr cp 12));
     to_char (Z.lor 0x80 (Z.land (Z.shiftr cp 6) 0x3F));
     to_char (Z.lor 0x80 (Z.land cp 0x3F))]
  else if cp <=? 0x10FFFF then
    [to_char (Z.lor 0xF0 (Z.shiftr cp 18));
     to_char (Z.lor 0x80 (Z.land (Z.shiftr cp 12) 0x3F));
     to_char (Z.lor 0x80 (Z.land (Z.shiftr cp 6) 0x3F));
     to_char (Z.lor 0x80 (Z.land cp 0x3F))]
  else [].

(** [sequence_length(lead)]: 1-4 for a valid leading byte, 0 otherwise. *)
Definition sequence_length (lead : Z) : nat :=
  if lead <? 0x80 then 1%nat
  else if Z.land lead 0xE0 =? 0xC0 then 2%nat
  else if Z.land lead 0xF0 =? 0xE0 then 3%nat
  else if Z.land lead 0xF8 =? 0xF0 then 4%nat
  else 0%nat.

(** The initial code-point bits taken from the leading byte
    ([switch (len)] of [decode] and of [validate]). *)
Definition lead_bits (len : nat) (lead : Z) : option Z :=
  match len with
  | 2%nat => Some (Z.land lead 0x1F)
  | 3%nat => Some (Z.land lead 0x0F)
  | 4%nat => Some (Z.land lead 0x07)
  | _ => None
  end.

(** The continuation loop of [decode]: [for (i = 1; i < len; ++i)].
    [inr i] is the early exit at index [i] (invalid continuation byte). *)
Fixpoint decode_cont (bytes : list Z) (i : nat) (cp : Z) : Z + nat :=
  match bytes with
  | [] => inl cp
  | byte :: bs =>
      if Z.land byte 0xC0 =? 0x80
      then decode_cont bs (S i) (Z.lor (Z.shiftl cp 6) (Z.land byte 0x3F))
      else inr i
  end.

Definition overlong (len : nat) (cp : Z) : bool :=
  ((len =? 2)%nat && (cp <? 0x80)) ||
  ((len =? 3)%nat && (cp <? 0x800)) ||
  ((len =? 4)%nat && (cp <? 0x10000)).

Definition surrogate (cp : Z) : bool := (0xD800 <=? cp) && (cp <=? 0xDFFF).

(** [uint32_t decode(const char*& ptr, const char* end)].  The argument is
    the byte range [ptr, end); the result is the code point and the range
    left after [ptr] has been advanced.  The source reads [*ptr] without a
    check, so the empty range is outside its contract; the model answers
    U+FFFD there. *)
Definition decode (l : list Z) : Z * list Z :=
  match l with
  | [] => (0xFFFD, [])
  | lead :: tl =>
      let len := sequence_length lead in
      if (len =? 0)%nat || (length l <? len)%nat then (0xFFFD, tl)
      else if (len =? 1)%nat then (lead, tl)
      else
        match lead_bits len lead with
        | None => (0xFFFD, tl)
        | Some cp0 =>
            match decode_cont (take (len - 1) tl) 1 cp0 with
            | inr i => (0xFFFD, drop i l)
            | inl cp =>
                if overlong len cp then (0xFFFD, drop len l)
                else if surrogate cp then (0xFFFD, drop len l)
                else if cp >? 0x10FFFF then (0xFFFD, drop len l)
                else (cp, drop len l)
            end
        end
  end.

(** [bool validate(const char* ptr, const char* end)].  Every iteration of
    the [while (ptr < end)] loop advances [ptr], so [length l] iterations
    are enough; the fuel only makes the recursion structural. *)
Fixpoint validate_loop (fuel : nat) (l : list Z) : bool :=
  match l with
  | [] => true
  | lead :: tl =>
      match fuel with
      | O => false
      | S fuel' =>
          if lead <? 0x80 then validate_loop fuel' tl
          else
            let len := sequence_length lead in
            if (len =? 0)%nat || (length l <? len)%nat then false
            else if negb (forallb (fun b => Z.land b 0xC0 =? 0x80)
                                  (take (len - 1) tl)) then false
            else
              match lead_bits len lead with
              | None => false
              | Some cp0 =>
                  let cp := fold_left
                              (fun cp b => Z.lor (Z.shiftl cp 6) (Z.land b 0x3F))
                              (take (len - 1) tl) cp0 in
                  if overlong len cp then false
                  else if surrogate cp then false
                  else if cp >? 0x10FFFF then false
                  else validate_loop fuel' (drop len l)
              end
      end
  end.

Definition validate (l : list Z) : bool := validate_loop (length l) l.

(** Repeated [decode] over a whole range, as the [ensure_ascii] loop of the
    serializer runs it: each step is recorded as the bytes it consumed and
    the code point it returned. *)
Fixpoint decode_steps (fuel : nat) (l : list Z) : list (list Z * Z) :=
  match fuel, l with
  | S fuel', _ :: _ =>
      let '(cp, rest) := decode l in
      (take (length l - length rest) l, cp) :: decode_steps fuel' rest
  | _, _ => []
  end.

Definition decode_all (l : list Z) : list (list Z * Z) :=
  decode_steps (length l) l.

End utf8.


(* ===================================================================== *)
(** * error.hpp                                                           *)
(* ===================================================================== *)

(** [enum class errc]. *)
Inductive errc : Type :=
  | ok
  | unexpected_end_of_input | unexpected_character | invalid_escape
  | invalid_unicode_escape | invalid_number | unterminated_string
  | unterminated_array | unterminated_object | trailing_content
  | max_depth_exceeded | invalid_literal | duplicate_key | invalid_utf8
  | invalid_comment
  | type_mismatch | out_of_range | key_not_found | integer_overflow
  | nan_or_infinity.

(** The enumerator values. *)
Definition errc_value (e : errc) : Z :=
  match e with
  | ok => 0
  | unexpected_end_of_input => 1 | unexpected_character => 2
  | invalid_escape => 3 | invalid_unicode_escape => 4 | invalid_number => 5
  | unterminated_string => 6 | unterminated_array => 7
  | unterminated_object => 8 | trailing_content => 9
  | max_depth_exceeded => 10 | invalid_literal => 11 | duplicate_key => 12
  | invalid_utf8 => 13 | invalid_comment => 14
  | type_mismatch => 50 | out_of_range => 51 | key_not_found => 52
  | integer_overflow => 53
  | nan_or_infinity => 80
  end.

(** [struct SourceLocation]: 1-based line and column, 0-based byte offset. *)
Record SourceLocation : Type := mkLoc {
  line : nat;
  column : nat;
  offset : nat
}.

(** [class ParseError]: the error code and the position; the [what()]
    text is not part of the model. *)
Record ParseError : Type := mkParseError {
  code : errc;
  location : SourceLocation
}.

(** [template <typename T> struct result]: the value and the error code;
    a [std::error_code] is modelled by its enumerator, [ok] when empty. *)
Record result (T : Type) : Type := mkResult {
  value : T;
  ec : errc
}.
Arguments mkResult {T} value ec.
Arguments value {T} r.
Arguments ec {T} r.

(** The exceptions.  [TypeError] and [OutOfRangeError] are
    [std::system_error]s built from a fixed code ([errc::type_mismatch] and
    [errc::out_of_range]) and a message; [OtherException] stands for
    whatever else the [catch (...)] of [try_parse] may see. *)
Inductive exn : Type :=
  | ExnParseError (e : ParseError)
  | TypeError (msg : list Z)
  | OutOfRangeError (msg : list Z)
  | OtherException.

(** The [code()] of an exception that is a [std::system_error]. *)
Definition exn_code (e : exn) : option errc :=
  match e with
  | ExnParseError e => Some (code e)
  | TypeError _ => Some type_mismatch
  | OutOfRangeError _ => Some out_of_range
  | OtherException => None
  end.

(** What a call that may throw does: it returns or it throws. *)
Inductive outcome (T : Type) : Type :=
  | Returns (v : T)
  | Throws (e : exn).
Arguments Returns {T} v.
Arguments Throws {T} e.

(* ===================================================================== *)
(** * Machine integers and doubles                                        *)
(* ===================================================================== *)

Definition UINT64_MAX : Z := 18446744073709551615.
Definition INT64_MAX : Z := 9223372036854775807.
Definition INT64_MIN : Z := -9223372036854775808.

(** Conversion to [uint64_t] and to [int64_t] (two's complement). *)
Definition to_uint64 (z : Z) : Z := z mod 2 ^ 64.
Definition to_int64 (z : Z) : Z := (z + 2 ^ 63) mod 2 ^ 64 - 2 ^ 63.

Definition is_uint64 (z : Z) : Prop := 0 <= z <= UINT64_MAX.
Definition is_int64 (z : Z) : Prop := INT64_MIN <= z <= INT64_MAX.

(** IEEE-754 binary64. *)
Abbreviation double := spec_float.
Definition dprec : Z := 53.
Definition demax : Z := 1024.

(** [static_cast<double>] of an integer: round to nearest, ties to even. *)
Definition double_of_Z (z : Z) : double := binary_normalize dprec demax z 0 false.
Definition dmul (a b : double) : double := SFmul dprec demax a b.
Definition ddiv (a b : double) : double := SFdiv dprec demax a b.
Definition dneg (a : double) : double := SFopp a.
Definition deq (a b : double) : bool := SFeqb a b.
Definition dlt (a b : double) : bool := SFltb a b.
Definition dle (a b : double) : bool := SFleb a b.
Definition disnan (a : double) : bool :=
  match a with S754_nan => true | _ => false end.
Definition disinf (a : double) : bool :=
  match a with S754_infinity _ => true | _ => false end.
Definition dsignbit (a : double) : bool :=
  match a with
  | S754_zero s | S754_infinity s | S754_finite s _ _ => s
  | S754_nan => false
  end.

(** The decimal conversions of the C++ standard library, which the parser
    and the serializer call and which are not code of this repository.
    [from_chars text] is [std::from_chars] (or [strtod]) over the number
    token: [None] when the conversion reports an error.  [to_chars d] is
    the text written by [std::to_chars] (or [snprintf] with [%.17g]). *)
Class Charconv : Type := {
  from_chars : list Z -> option double;
  to_chars : double -> list Z
}.

(* ===================================================================== *)
(** * fwd.hpp and value.hpp: the value model                              *)
(* ===================================================================== *)

(** [enum class Type : uint8_t]. *)
Module Type_.
Inductive t : Type :=
  | Null | Bool | Integer | Float | String | Array | Object | UInteger.
End Type_.

(** [class JsonValue]: the tag with its payload.  A JSON string is its byte
    sequence (inline, heap and arena storage hold the same bytes); an array
    is the element vector; an object is the [entries] vector of the
    [Object] struct.  The [index_] of an object is a cache computed from
    [entries] (see [Object_rebuild_index]) and is not stored here: a
    [JsonValue] is what a value holds, and the lookups given on it are
    those of a value in which no object has an index that lags behind its
    entries.  The value with the [index_] of each of its objects is
    [Stored.t] below. *)
Unset Elimination Schemes.
Inductive JsonValue : Type :=
  | JNull
  | JBool (b : bool)
  | JInteger (i : Z)
  | JUInteger (u : Z)
  | JFloat (d : double)
  | JString (s : list Z)
  | JArray (arr : list JsonValue)
  | JObject (entries : list (list Z * JsonValue)).
Set Elimination Schemes.

Abbreviation Entries := (list (list Z * JsonValue)).

Definition type (v : JsonValue) : Type_.t :=
  match v with
  | JNull => Type_.Null
  | JBool _ => Type_.Bool
  | JInteger _ => Type_.Integer
  | JUInteger _ => Type_.UInteger
  | JFloat _ => Type_.Float
  | JString _ => Type_.String
  | JArray _ => Type_.Array
  | JObject _ => Type_.Object
  end.

Definition is_null (v : JsonValue) : bool :=
  match v with JNull => true | _ => false end.
Definition is_bool (v : JsonValue) : bool :=
  match v with JBool _ => true | _ => false end.
Definition is_integer (v : JsonValue) : bool :=
  match v with JInteger _ => true | _ => false end.
Definition is_uinteger (v : JsonValue) : bool :=
  match v with JUInteger _ => true | _ => false end.
Definition is_float (v : JsonValue) : bool :=
  match v with JFloat _ => true | _ => false end.
Definition is_string (v : JsonValue) : bool :=
  match v with JString _ => true | _ => false end.
Definition is_array (v : JsonValue) : bool :=
  match v with JArray _ => true | _ => false end.
Definition is_object (v : JsonValue) : bool :=
  match v with JObject _ => true | _ => false end.
Definition is_number (v : JsonValue) : bool :=
  is_integer v || is_uinteger v || is_float v.

(** [Object::kIndexThreshold] and [Object::use_index]. *)
Definition kIndexThreshold : nat := 16.

Definition Object_use_index (entries : Entries) : bool :=
  (kIndexThreshold <=? length entries)%nat.

(** [Object::rebuild_index]: one forward pass assigning position [i] to
    the key of entry [i], so the last position of a key wins. *)
Definition Object_rebuild_index {V : Type} (entries : list (list Z * V))
  : gmap (list Z) nat :=
  fold_left (fun (m : gmap (list Z) nat) (ie : nat * (list Z * V)) =>
               <[ fst (snd ie) := fst ie ]> m)
            (imap (fun i e => (i, e)) entries) ∅.

(** The linear scan [for (auto& [k, v] : entries) if (k == key) return &v]:
    the position of the first entry with that key. *)
Fixpoint Object_linear_find {V : Type} (entries : list (list Z * V))
    (key : list Z) : option nat :=
  match entries with
  | [] => None
  | (k, _) :: rest =>
      if bool_decide (k = key) then Some 0%nat
      else S <$> Object_linear_find rest key
  end.

(** [Object::find] on an object whose index, if it has one, describes its
    entries: the position of the entry the returned pointer refers to, or
    [None] for [nullptr].  With 16 entries or more the source consults
    [index_], created by [ensure_index] when absent; here the index is
    [rebuild_index] of the entries.  An index left behind by a mutation
    that did not refresh it is not in [Entries]: the lookups that read
    the stored index are [Object.find] and [Stored.find] below. *)
Definition Object_find_pos (entries : Entries) (key : list Z) : option nat :=
  if Object_use_index entries then Object_rebuild_index entries !! key
  else Object_linear_find entries key.

Definition Object_find (entries : Entries) (key : list Z) : option JsonValue :=
  match Object_find_pos entries key with
  | Some i => snd <$> entries !! i
  | None => None
  end.

(** ** Typed access *)

(** [type_name(t)]. *)
Definition type_name (t : Type_.t) : list Z :=
  bytes_of_string
    match t with
    | Type_.Null => "null"
    | Type_.Bool => "bool"
    | Type_.Integer => "integer"
    | Type_.Float => "float"
    | Type_.String => "string"
    | Type_.Array => "array"
    | Type_.Object => "object"
    | Type_.UInteger => "uinteger"
    end.

Definition type_error {T : Type} (expected : string) (v : JsonValue) : outcome T :=
  Throws (TypeError (bytes_of_string "expected " ++ bytes_of_string expected
                     ++ bytes_of_string ", got " ++ type_name (type v))).

Definition as_bool (v : JsonValue) : outcome bool :=
  match v with
  | JBool b => Returns b
  | _ => type_error "bool" v
  end.

Definition as_integer (v : JsonValue) : outcome Z :=
  match v with
  | JInteger i => Returns i
  | JUInteger u =>
      if u <=? INT64_MAX then Returns (to_int64 u) else type_error "integer" v
  | _ => type_error "integer" v
  end.

Definition as_uinteger (v : JsonValue) : outcome Z :=
  match v with
  | JUInteger u => Returns u
  | JInteger i =>
      if 0 <=? i then Returns (to_uint64 i) else type_error "uinteger" v
  | _ => type_error "uinteger" v
  end.

Definition as_float (v : JsonValue) : outcome double :=
  match v with
  | JFloat d => Returns d
  | JInteger i => Returns (double_of_Z i)
  | JUInteger u => Returns (double_of_Z u)
  | _ => type_error "number" v
  end.

Definition as_string_view (v : JsonValue) : outcome (list Z) :=
  match v with
  | JString s => Returns s
  | _ => type_error "string" v
  end.

Definition as_array (v : JsonValue) : outcome (list JsonValue) :=
  match v with
  | JArray a => Returns a
  | _ => type_error "array" v
  end.

Definition as_object (v : JsonValue) : outcome Entries :=
  match v with
  | JObject o => Returns o
  | _ => type_error "object" v
  end.

(** [size()] and [empty()] of [JsonValue]. *)
Definition value_size (v : JsonValue) : nat :=
  match v with
  | JArray a => length a
  | JObject o => length o
  | _ => 0%nat
  end.

Definition value_empty (v : JsonValue) : bool :=
  match v with
  | JNull => true
  | JArray a => (length a =? 0)%nat
  | JObject o => (length o =? 0)%nat
  | _ => false
  end.

(** ** Indexing by key *)

Definition key_not_found_message (key : list Z) : list Z :=
  bytes_of_string "key not found: " ++ [34] ++ key ++ [34].

(** [JsonValue& Object::operator[](std::string_view key)] on such an
    object: the entries after the call and the position of the entry the
    returned reference designates. *)
Definition Object_index (entries : Entries) (key : list Z) : Entries * nat :=
  match Object_find_pos entries key with
  | Some i => (entries, i)
  | None => (entries ++ [(key, JNull)], length entries)
  end.

(** ** Mutation of objects *)

(** [Object::emplace_back(key, value)]: an append without any lookup. *)
Definition Object_emplace_back (entries : Entries) (key : list Z) (value : JsonValue)
  : Entries := entries ++ [(key, value)].

(** ** Equality *)

(** The nesting depth: 0 for a scalar, one more than the deepest member
    for a container. *)
Fixpoint depth (v : JsonValue) : nat :=
  match v with
  | JArray a => S (fold_right (fun x acc => Nat.max (depth x) acc) 0%nat a)
  | JObject o => S (fold_right (fun e acc => Nat.max (depth (snd e)) acc) 0%nat o)
  | _ => 0%nat
  end.

(** [std::equal] over two element vectors of equal size. *)
Fixpoint forallb2 {A B : Type} (f : A -> B -> bool) (l1 : list A) (l2 : list B)
  : bool :=
  match l1, l2 with
  | [], [] => true
  | x :: r1, y :: r2 => f x y && forallb2 f r1 r2
  | _, _ => false
  end.

(** [JsonValue::operator==] with [Object::operator==] inlined.  The
    recursion of the source alternates between the two sides (an object
    looks each of its keys up in the other object and asks the found value
    to compare itself with its own), so it is driven by fuel; [false] at
    exhaustion.  The lookup is [Object_find]: this is the comparison of
    two values in which no object has an index that lags behind its
    entries; [Stored.equal] below is the comparison that reads the index
    each object carries. *)
Fixpoint equal_fuel (fuel : nat) (a b : JsonValue) : bool :=
  match fuel with
  | O => false
  | S n =>
      match a, b with
      | JNull, JNull => true
      | JBool x, JBool y => eqb x y
      | JInteger x, JInteger y => x =? y
      | JUInteger x, JUInteger y => x =? y
      | JFloat x, JFloat y => deq x y
      | JString x, JString y => bool_decide (x = y)
      | JArray x, JArray y =>
          (length x =? length y)%nat && forallb2 (equal_fuel n) x y
      | JObject x, JObject y =>
          (length x =? length y)%nat
          && forallb (fun e =>
                        match Object_find y (fst e) with
                        | None => false
                        | Some p => equal_fuel n p (snd e)
                        end) x
      (* different kinds: only numbers can still be equal *)
      | JInteger sv, JUInteger uv | JUInteger uv, JInteger sv =>
          (0 <=? sv) && (to_uint64 sv =? uv)
      | JInteger i, JFloat d => deq (double_of_Z i) d
      | JFloat d, JInteger i => deq d (double_of_Z i)
      | JUInteger u, JFloat d => deq (double_of_Z u) d
      | JFloat d, JUInteger u => deq d (double_of_Z u)
      | _, _ => false
      end
  end.

(** [a == b]: one unit of fuel for every level of [a] and one more. *)
Definition equal (a b : JsonValue) : bool := equal_fuel (S (depth a)) a b.

(* ===================================================================== *)
(** * parse_options.hpp and config.hpp                                    *)
(* ===================================================================== *)

(** [YAJSON_MAX_DEPTH]. *)
Definition YAJSON_MAX_DEPTH : nat := 512.

Module ParseOptions.

Record t : Type := mk {
  allow_comments : bool;
  allow_trailing_commas : bool;
  allow_single_quotes : bool;
  allow_unquoted_keys : bool;
  allow_nan_inf : bool;
  allow_hex_numbers : bool;
  allow_control_chars : bool;
  allow_duplicate_keys : bool;
  max_depth : nat
}.

(** The member initializers: every extension off, duplicates allowed,
    [max_depth = 0] for the configured default. *)
Definition default : t :=
  mk false false false false false false false true 0.

Definition strict : t := default.

Definition lenient : t :=
  mk true true true true true false false true 0.

Definition json5 : t :=
  mk true true true true true true true true 0.

Definition with_max_depth (o : t) (d : nat) : t :=
  mk (allow_comments o) (allow_trailing_commas o) (allow_single_quotes o)
     (allow_unquoted_keys o) (allow_nan_inf o) (allow_hex_numbers o)
     (allow_control_chars o) (allow_duplicate_keys o) d.

Definition with_allow_comments (o : t) (b : bool) : t :=
  mk b (allow_trailing_commas o) (allow_single_quotes o)
     (allow_unquoted_keys o) (allow_nan_inf o) (allow_hex_numbers o)
     (allow_control_chars o) (allow_duplicate_keys o) (max_depth o).

Definition with_allow_duplicate_keys (o : t) (b : bool) : t :=
  mk (allow_comments o) (allow_trailing_commas o) (allow_single_quotes o)
     (allow_unquoted_keys o) (allow_nan_inf o) (allow_hex_numbers o)
     (allow_control_chars o) b (max_depth o).

Definition with_allow_control_chars (o : t) (b : bool) : t :=
  mk (allow_comments o) (allow_trailing_commas o) (allow_single_quotes o)
     (allow_unquoted_keys o) (allow_nan_inf o) (allow_hex_numbers o)
     b (allow_duplicate_keys o) (max_depth o).

Definition with_allow_hex_numbers (o : t) (b : bool) : t :=
  mk (allow_comments o) (allow_trailing_commas o) (allow_single_quotes o)
     (allow_unquoted_keys o) (allow_nan_inf o) b
     (allow_control_chars o) (allow_duplicate_keys o) (max_depth o).

End ParseOptions.

(* ===================================================================== *)
(** * detail/simd.hpp                                                     *)
(* ===================================================================== *)

(** The three scanners, in their scalar form.  The vector loops of the
    header compute the same position a lane at a time; a pointer into the
    scanned range is modelled as the range that starts at it. *)
Module simd.

Definition is_ws (c : Z) : bool :=
  (c =? 32) || (c =? 9) || (c =? 10) || (c =? 13).

(** [skip_whitespace(ptr, end)]. *)
Fixpoint skip_whitespace (l : list Z) : list Z :=
  match l with
  | [] => []
  | c :: r => if negb (is_ws c) then l else skip_whitespace r
  end.

(** [find_string_delimiter(ptr, end)]: stops at a double quote or a
    backslash. *)
Fixpoint find_string_delimiter (l : list Z) : list Z :=
  match l with
  | [] => []
  | c :: r => if (c =? 34) || (c =? 92) then l else find_string_delimiter r
  end.

(** [find_needs_escape<EnsureAscii>(ptr, end)]. *)
Fixpoint find_needs_escape (EnsureAscii : bool) (l : list Z) : list Z :=
  match l with
  | [] => []
  | c :: r =>
      if (c <? 0x20) || (c =? 34) || (c =? 92) then l
      else if EnsureAscii && (0x80 <=? c) then l
      else find_needs_escape EnsureAscii r
  end.

End simd.

(* ===================================================================== *)
(** * parser.hpp: class detail::Parser                                    *)
(* ===================================================================== *)

Module Parser.
Import ParseOptions.

(** The parser object.  [ptr_] is the unread range from [ptr_] to [end_];
    [begin_] is the whole input, so the read position is the difference
    of the two lengths.  The allocator handles ([temp_mr_], [arena_],
    [resource_]) select where storage lives and are not modelled. *)
Record t : Type := mk {
  ptr_ : list Z;
  begin_ : list Z;
  opts_ : ParseOptions.t;
  depth_ : nat;
  max_depth_ : nat
}.

(** The constructor. *)
Definition make (input : list Z) (opts : ParseOptions.t) : t :=
  mk input input opts 0
     (if (0 <? max_depth opts)%nat then max_depth opts else YAJSON_MAX_DEPTH).

Definition with_ptr (p : t) (l : list Z) : t :=
  mk l (begin_ p) (opts_ p) (depth_ p) (max_depth_ p).

Definition with_depth (p : t) (d : nat) : t :=
  mk (ptr_ p) (begin_ p) (opts_ p) d (max_depth_ p).

(** ** The monad: parser state, [ParseError] exceptions, and fuel for the
    loops and the recursion that are not structural. *)
Inductive Res (A : Type) : Type :=
  | Ok (a : A) (p : t)
  | Throw (e : ParseError)
  | OutOfFuel.
Arguments Ok {A} a p.
Arguments Throw {A} e.
Arguments OutOfFuel {A}.

Definition M (A : Type) : Type := t -> Res A.

Definition ret {A : Type} (a : A) : M A := fun p => Ok a p.

Definition bind {A B : Type} (m : M A) (k : A -> M B) : M B :=
  fun p =>
    match m p with
    | Ok a p' => k a p'
    | Throw e => Throw e
    | OutOfFuel => OutOfFuel
    end.

Notation "x <- m ;; k" := (bind m (fun x => k))
  (at level 20, m at level 99, k at level 200, only parsing).
Notation "m ;; k" := (bind m (fun _ => k))
  (at level 100, k at level 200, only parsing, right associativity).

Definition out_of_fuel {A : Type} : M A := fun _ => OutOfFuel.
Definition get_ptr : M (list Z) := fun p => Ok (ptr_ p) p.
Definition set_ptr (l : list Z) : M unit := fun p => Ok tt (with_ptr p l).
Definition get_opts : M ParseOptions.t := fun p => Ok (opts_ p) p.

(** ** Error reporting *)

(** [current_location]: line and column by a scan from [begin_] to [ptr_]. *)
Definition current_location (p : t) : SourceLocation :=
  let consumed := take (length (begin_ p) - length (ptr_ p)) (begin_ p) in
  fold_left
    (fun loc c =>
       if c =? 10 then mkLoc (S (line loc)) 1 (offset loc)
       else mkLoc (line loc) (S (column loc)) (offset loc))
    consumed (mkLoc 1 1 (length consumed)).

Definition error {A : Type} (c : errc) : M A :=
  fun p => Throw (mkParseError c (current_location p)).

Definition error_unexpected_end {A : Type} : M A :=
  error unexpected_end_of_input.

Definition error_unexpected_char {A : Type} : M A :=
  fun p =>
    match ptr_ p with
    | [] => error_unexpected_end p
    | _ :: _ => error unexpected_character p
    end.

(** ** Depth tracking *)

Definition push_depth : M unit :=
  fun p =>
    let p' := with_depth p (S (depth_ p)) in
    if (max_depth_ p' <? depth_ p')%nat then error max_depth_exceeded p'
    else Ok tt p'.

(** [--depth_] on a [size_t]: from 0 the counter wraps to the largest
    value.  ([push_depth] is reached with the counter at most [max_depth_],
    where [++depth_] does not wrap.) *)
Definition size_t_pred (d : nat) : nat :=
  match d with
  | O => Z.to_nat UINT64_MAX
  | S d' => d'
  end.

Definition pop_depth : M unit :=
  fun p => Ok tt (with_depth p (size_t_pred (depth_ p))).

(** ** Whitespace and comments *)

(** The tail loop of [skip_whitespace_slow]. *)
Fixpoint skip_whitespace_tail (l : list Z) : list Z :=
  match l with
  | [] => []
  | c :: r =>
      if (c =? 32) || (c =? 10) || (c =? 13) || (c =? 9)
      then skip_whitespace_tail r else l
  end.

Definition skip_whitespace_slow (l : list Z) : list Z :=
  if (16 <=? length l)%nat then simd.skip_whitespace l
  else skip_whitespace_tail l.

(** [skip_whitespace]: the three fast checks compare a byte with the space
    character only ([> ' ']), so the first two step over any byte below
    0x21 that is followed by a byte above 0x20. *)
Definition skip_whitespace_ptr (l : list Z) : list Z :=
  match l with
  | c0 :: r0 =>
      if c0 >? 32 then l
      else
        match r0 with
        | c1 :: r1 =>
            if c1 >? 32 then r0
            else
              match r1 with
              | c2 :: _ => if c2 >? 32 then r1 else skip_whitespace_slow l
              | [] => skip_whitespace_slow l
              end
        | [] => skip_whitespace_slow l
        end
  | [] => skip_whitespace_slow l
  end.

Definition skip_whitespace : M unit :=
  fun p => Ok tt (with_ptr p (skip_whitespace_ptr (ptr_ p))).

(** [while (ptr_ < end_ && *ptr_ != '\n') ++ptr_]. *)
Fixpoint skip_line (l : list Z) : list Z :=
  match l with
  | [] => []
  | c :: r => if c =? 10 then l else skip_line r
  end.

(** The block-comment loop: [while (ptr_ + 1 < end_)], leaving at the
    closing pair or with fewer than two bytes unread. *)
Fixpoint skip_block (l : list Z) : list Z :=
  match l with
  | c0 :: r0 =>
      match r0 with
      | c1 :: r1 => if (c0 =? 42) && (c1 =? 47) then r1 else skip_block r0
      | [] => l
      end
  | [] => []
  end.

(** [skip_comments]: the outer [while (ptr_ + 1 < end_ && *ptr_ == '/')]. *)
Fixpoint skip_comments_ptr (fuel : nat) (l : list Z) : option (list Z) :=
  match fuel with
  | O => None
  | S fuel' =>
      match l with
      | c0 :: c1 :: r =>
          if c0 =? 47 then
            if c1 =? 47 then
              skip_comments_ptr fuel' (skip_whitespace_ptr (drop 1 (skip_line r)))
            else if c1 =? 42 then
              skip_comments_ptr fuel' (skip_whitespace_ptr (skip_block r))
            else Some l
          else Some l
      | _ => Some l
      end
  end.

Definition skip_comments (fuel : nat) : M unit :=
  fun p =>
    match skip_comments_ptr fuel (ptr_ p) with
    | Some l => Ok tt (with_ptr p l)
    | None => OutOfFuel
    end.

Definition skip_comments_and_ws (fuel : nat) : M unit :=
  skip_comments fuel ;; skip_whitespace.

Definition skip_ws_and_comments (fuel : nat) : M unit :=
  skip_whitespace ;;
  opts <- get_opts ;;
  if allow_comments opts then skip_comments_and_ws fuel else ret tt.

(** ** Character reading *)

Definition peek : M Z :=
  fun p => match ptr_ p with [] => Ok 0 p | c :: _ => Ok c p end.

Definition advance : M Z :=
  fun p =>
    match ptr_ p with
    | [] => error_unexpected_end p
    | c :: r => Ok c (with_ptr p r)
    end.

Definition expect (c : Z) : M unit :=
  fun p =>
    match ptr_ p with
    | c' :: r => if c' =? c then Ok tt (with_ptr p r)
                 else error unexpected_character p
    | [] => error_unexpected_end p
    end.

Definition expect_literal (literal : list Z) : M unit :=
  fun p =>
    let len := length literal in
    if (length (ptr_ p) <? len)%nat
       || negb (bool_decide (take len (ptr_ p) = literal))
    then error invalid_literal p
    else Ok tt (with_ptr p (drop len (ptr_ p))).

(** ** Literals *)

Definition parse_null : M JsonValue :=
  expect_literal (bytes_of_string "null") ;; ret JNull.

Definition parse_true : M JsonValue :=
  expect_literal (bytes_of_string "true") ;; ret (JBool true).

Definition parse_false : M JsonValue :=
  expect_literal (bytes_of_string "false") ;; ret (JBool false).

Definition parse_nan : M JsonValue :=
  expect_literal (bytes_of_string "NaN") ;; ret (JFloat S754_nan).

Definition parse_infinity (negative : bool) : M JsonValue :=
  expect_literal (bytes_of_string "Infinity") ;;
  ret (JFloat (S754_infinity negative)).

(** ** Strings *)

(** [kHexTable]: 0xFF for a byte that is no hex digit, the nibble
    otherwise. *)
Definition kHexTable : list Z :=
  [0xFF;0xFF;0xFF;0xFF;0xFF;0xFF;0xFF;0xFF; 0xFF;0xFF;0xFF;0xFF;0xFF;0xFF;0xFF;0xFF;
   0xFF;0xFF;0xFF;0xFF;0xFF;0xFF;0xFF;0xFF; 0xFF;0xFF;0xFF;0xFF;0xFF;0xFF;0xFF;0xFF;
   0xFF;0xFF;0xFF;0xFF;0xFF;0xFF;0xFF;0xFF; 0xFF;0xFF;0xFF;0xFF;0xFF;0xFF;0xFF;0xFF;
   0x00;0x01;0x02;0x03;0x04;0x05;0x06;0x07; 0x08;0x09;0xFF;0xFF;0xFF;0xFF;0xFF;0xFF;
   0xFF;0x0A;0x0B;0x0C;0x0D;0x0E;0x0F;0xFF; 0xFF;0xFF;0xFF;0xFF;0xFF;0xFF;0xFF;0xFF;
   0xFF;0xFF;0xFF;0xFF;0xFF;0xFF;0xFF;0xFF; 0xFF;0xFF;0xFF;0xFF;0xFF;0xFF;0xFF;0xFF;
   0xFF;0x0A;0x0B;0x0C;0x0D;0x0E;0x0F;0xFF; 0xFF;0xFF;0xFF;0xFF;0xFF;0xFF;0xFF;0xFF;
   0xFF;0xFF;0xFF;0xFF;0xFF;0xFF;0xFF;0xFF; 0xFF;0xFF;0xFF;0xFF;0xFF;0xFF;0xFF;0xFF;
   0xFF;0xFF;0xFF;0xFF;0xFF;0xFF;0xFF;0xFF; 0xFF;0xFF;0xFF;0xFF;0xFF;0xFF;0xFF;0xFF;
   0xFF;0xFF;0xFF;0xFF;0xFF;0xFF;0xFF;0xFF; 0xFF;0xFF;0xFF;0xFF;0xFF;0xFF;0xFF;0xFF;
   0xFF;0xFF;0xFF;0xFF;0xFF;0xFF;0xFF;0xFF; 0xFF;0xFF;0xFF;0xFF;0xFF;0xFF;0xFF;0xFF;
   0xFF;0xFF;0xFF;0xFF;0xFF;0xFF;0xFF;0xFF; 0xFF;0xFF;0xFF;0xFF;0xFF;0xFF;0xFF;0xFF;
   0xFF;0xFF;0xFF;0xFF;0xFF;0xFF;0xFF;0xFF; 0xFF;0xFF;0xFF;0xFF;0xFF;0xFF;0xFF;0xFF;
   0xFF;0xFF;0xFF;0xFF;0xFF;0xFF;0xFF;0xFF; 0xFF;0xFF;0xFF;0xFF;0xFF;0xFF;0xFF;0xFF;
   0xFF;0xFF;0xFF;0xFF;0xFF;0xFF;0xFF;0xFF; 0xFF;0xFF;0xFF;0xFF;0xFF;0xFF;0xFF;0xFF;
   0xFF;0xFF;0xFF;0xFF;0xFF;0xFF;0xFF;0xFF; 0xFF;0xFF;0xFF;0xFF;0xFF;0xFF;0xFF;0xFF].

(** A lookup [kHexTable[static_cast<unsigned char>(c)]]. *)
Definition hex_nibble (c : Z) : Z := nth (Z.to_nat c) kHexTable 0xFF.

(** The loop of [parse_hex4] over the four bytes; [None] at a byte that
    is no hex digit. *)
Fixpoint hex4_loop (bytes : list Z) (val : Z) : option Z :=
  match bytes with
  | [] => Some val
  | c :: r =>
      let nib := hex_nibble c in
      if nib >? 15 then None
      else hex4_loop r (Z.lor (Z.shiftl val 4) nib)
  end.

Definition parse_hex4 : M Z :=
  fun p =>
    if (length (ptr_ p) <? 4)%nat then error invalid_unicode_escape p
    else
      match hex4_loop (take 4 (ptr_ p)) 0 with
      | None => error invalid_unicode_escape p
      | Some val => Ok val (with_ptr p (drop 4 (ptr_ p)))
      end.

(** [parse_unicode_escape(out)]: the value is [out] with the UTF-8 bytes
    of the code point appended. *)
Definition parse_unicode_escape (out : list Z) : M (list Z) :=
  cp <- parse_hex4 ;;
  cp' <-
    (if (0xD800 <=? cp) && (cp <=? 0xDBFF) then
       l <- get_ptr ;;
       match l with
       | c0 :: c1 :: r =>
           if (c0 =? 92) && (c1 =? 117) then
             set_ptr r ;;
             low <- parse_hex4 ;;
             if (low <? 0xDC00) || (0xDFFF <? low)
             then error invalid_unicode_escape
             else ret (0x10000 + Z.shiftl (cp - 0xD800) 10 + (low - 0xDC00))
           else error invalid_unicode_escape
       | _ => error invalid_unicode_escape
       end
     else if (0xDC00 <=? cp) && (cp <=? 0xDFFF) then
       error invalid_unicode_escape
     else ret cp) ;;
  ret (out ++ utf8.encode cp').

(** [parse_escape(out)], entered after the backslash. *)
Definition parse_escape (out : list Z) : M (list Z) :=
  l <- get_ptr ;;
  match l with
  | [] => error invalid_escape
  | c :: r =>
      set_ptr r ;;
      if c =? 34 then ret (out ++ [34])
      else if c =? 92 then ret (out ++ [92])
      else if c =? 47 then ret (out ++ [47])
      else if c =? 98 then ret (out ++ [8])
      else if c =? 102 then ret (out ++ [12])
      else if c =? 110 then ret (out ++ [10])
      else if c =? 114 then ret (out ++ [13])
      else if c =? 116 then ret (out ++ [9])
      else if c =? 39 then
        opts <- get_opts ;;
        if allow_single_quotes opts then ret (out ++ [39])
        else error invalid_escape
      else if c =? 117 then parse_unicode_escape out
      else error invalid_escape
  end.

(** The scalar search of the single-quote branch:
    [while (ptr_ < end_ && *ptr_ != quote && *ptr_ != '\\') ++ptr_]. *)
Fixpoint find_quote_or_backslash (quote : Z) (l : list Z) : list Z :=
  match l with
  | [] => []
  | c :: r =>
      if (c =? quote) || (c =? 92) then l
      else find_quote_or_backslash quote r
  end.

(** [parse_string_content_into(result, quote)]: the value is the final
    [result].  One unit of fuel per iteration of the [for (;;)] loop. *)
Fixpoint parse_string_content_into (fuel : nat) (result : list Z) (quote : Z)
  : M (list Z) :=
  match fuel with
  | O => out_of_fuel
  | S fuel' =>
      l <- get_ptr ;;
      let delim :=
        if quote =? 34 then simd.find_string_delimiter l
        else find_quote_or_backslash quote l in
      let result := result ++ take (length l - length delim) l in
      set_ptr delim ;;
      match delim with
      | [] => error unterminated_string
      | c :: r =>
          set_ptr r ;;
          if c =? quote then ret result
          else
            result' <- parse_escape result ;;
            parse_string_content_into fuel' result' quote
      end
  end.

(** [parse_string]: a double-quoted key. *)
Definition parse_string (fuel : nat) : M (list Z) :=
  expect 34 ;;
  l <- get_ptr ;;
  let delim := simd.find_string_delimiter l in
  let slow :=
    set_ptr delim ;;
    parse_string_content_into fuel (take (length l - length delim) l) 34 in
  match delim with
  | c :: r =>
      if c =? 34 then
        set_ptr r ;;
        ret (take (length l - length delim) l)
      else slow
  | [] => slow
  end.

Definition parse_string_sq (fuel : nat) : M (list Z) :=
  expect 39 ;;
  parse_string_content_into fuel [] 39.

(** [pmr_string_to_value]: on every path the value holds the bytes of the
    buffer (pointing into the arena or copied). *)
Definition pmr_string_to_value (s : list Z) : JsonValue := JString s.

Definition parse_string_value (fuel : nat) : M JsonValue :=
  expect 34 ;;
  l <- get_ptr ;;
  let delim := simd.find_string_delimiter l in
  let slow :=
    set_ptr delim ;;
    buf <- parse_string_content_into fuel
             (take (length l - length delim) l) 34 ;;
    ret (pmr_string_to_value buf) in
  match delim with
  | c :: r =>
      if c =? 34 then
        set_ptr r ;;
        ret (JString (take (length l - length delim) l))
      else slow
  | [] => slow
  end.

Definition parse_string_value_sq (fuel : nat) : M JsonValue :=
  expect 39 ;;
  buf <- parse_string_content_into fuel [] 39 ;;
  ret (pmr_string_to_value buf).

(** ** Numbers *)

(** [static_cast<unsigned>(c - '0') <= 9u]: the byte is a decimal digit. *)
Definition is_digit (c : Z) : bool := (48 <=? c) && (c <=? 57).

Definition kOverflowThreshold : Z := UINT64_MAX / 10.
Definition kOverflowLastDigit : Z := UINT64_MAX mod 10.
Definition kMaxMantissaDigits : Z := 19.

(** [while (ptr_ < end_ && is a digit) ++ptr_]. *)
Fixpoint skip_digits (l : list Z) : list Z :=
  match l with
  | [] => []
  | c :: r => if is_digit c then skip_digits r else l
  end.

(** The integer-digit loop after the first digit.  The result is the
    position reached, [int_val], [int_overflow] and [int_digits]. *)
Fixpoint scan_int (l : list Z) (int_val : Z) (int_digits : Z)
  : list Z * Z * bool * Z :=
  match l with
  | [] => ([], int_val, false, int_digits)
  | c :: r =>
      if is_digit c then
        let digit := c - 48 in
        if (int_val >? kOverflowThreshold)
           || ((int_val =? kOverflowThreshold) && (digit >? kOverflowLastDigit))
        then (skip_digits r, int_val, true, int_digits)
        else scan_int r (to_uint64 (int_val * 10 + digit)) (int_digits + 1)
      else (l, int_val, false, int_digits)
  end.

(** The fractional-digit loop.  The result is the position reached,
    [mantissa], [frac_digits], [total_digits] and [mantissa_overflow]. *)
Fixpoint scan_frac (l : list Z) (mantissa frac_digits total_digits : Z)
                   (mantissa_overflow : bool)
  : list Z * Z * Z * Z * bool :=
  match l with
  | [] => ([], mantissa, frac_digits, total_digits, mantissa_overflow)
  | c :: r =>
      if is_digit c then
        let digit := c - 48 in
        if total_digits <? kMaxMantissaDigits then
          scan_frac r (to_uint64 (mantissa * 10 + digit)) (frac_digits + 1)
                    (total_digits + 1) mantissa_overflow
        else scan_frac r mantissa frac_digits total_digits true
      else (l, mantissa, frac_digits, total_digits, mantissa_overflow)
  end.

(** The exponent-digit loop, with its clamp at 400. *)
Fixpoint scan_exp (l : list Z) (explicit_exp : Z) : list Z * Z :=
  match l with
  | [] => ([], explicit_exp)
  | c :: r =>
      if is_digit c then
        let e := explicit_exp * 10 + (c - 48) in
        scan_exp r (if e >? 400 then 400 else e)
      else (l, explicit_exp)
  end.

(** [kPow10]: the doubles 1e0 .. 1e22, each an exact power of ten. *)
Definition kPow10 : list double :=
  map (fun k => double_of_Z (10 ^ Z.of_nat k)) (seq 0 23).

(** The loop of [parse_hex_number]: the position reached, [val] and
    [has_digit]. *)
Fixpoint scan_hex (l : list Z) (val : Z) (has_digit : bool)
  : list Z * Z * bool :=
  match l with
  | [] => ([], val, has_digit)
  | h :: r =>
      let step digit := scan_hex r (to_uint64 (Z.lor (Z.shiftl val 4) digit)) true in
      if (48 <=? h) && (h <=? 57) then step (h - 48)
      else if (97 <=? h) && (h <=? 102) then step (h - 97 + 10)
      else if (65 <=? h) && (h <=? 70) then step (h - 65 + 10)
      else (l, val, has_digit)
  end.

(** [parse_hex_number(negative)], entered with [ptr_] at the [0x]. *)
Definition parse_hex_number (negative : bool) : M JsonValue :=
  l <- get_ptr ;;
  set_ptr (drop 2 l) ;;
  match drop 2 l with
  | [] => error invalid_number
  | _ :: _ =>
      let '(rest, val, has_digit) := scan_hex (drop 2 l) 0 false in
      set_ptr rest ;;
      if negb has_digit then error invalid_number
      else
        let signed_val := to_int64 val in
        ret (JInteger (if negative then to_int64 (- signed_val) else signed_val))
  end.

Section WithCharconv.
Context `{Charconv}.

(** [parse_float_slow(start)]: the standard conversion over the token
    from [start] to [ptr_]. *)
Definition parse_float_slow (start : list Z) : M JsonValue :=
  l <- get_ptr ;;
  match from_chars (take (length start - length l) start) with
  | Some dbl_val => ret (JFloat dbl_val)
  | None => error invalid_number
  end.

(** The tail of [parse_number], from the test of [is_float] and
    [int_overflow] on. *)
Definition number_result (start : list Z) (negative is_float int_overflow : bool)
    (int_val mantissa frac_digits explicit_exp : Z) (mantissa_overflow : bool)
  : M JsonValue :=
  let kMaxNeg := to_uint64 (INT64_MAX + 1) in
  let float_path :=
    let exp10 := explicit_exp - frac_digits in
    if negb mantissa_overflow && negb int_overflow
       && (-22 <=? exp10) && (exp10 <=? 22)
    then
      let d :=
        if 0 <=? exp10
        then dmul (double_of_Z mantissa) (nth (Z.to_nat exp10) kPow10 S754_nan)
        else ddiv (double_of_Z mantissa) (nth (Z.to_nat (- exp10)) kPow10 S754_nan) in
      ret (JFloat (if negative then dneg d else d))
    else parse_float_slow start in
  if negb is_float && negb int_overflow then
    if negative then
      if int_val <=? kMaxNeg
      then ret (JInteger (to_int64 (- to_int64 int_val)))
      else float_path
    else
      if int_val <=? INT64_MAX
      then ret (JInteger (to_int64 int_val))
      else ret (JUInteger int_val)
  else float_path.

(** [parse_number].  It is entered with a byte at [ptr_] (a minus sign or
    a digit); on the empty range, where the source would read past the
    end, the model reports an invalid number. *)
Definition parse_number : M JsonValue :=
  start <- get_ptr ;;
  opts <- get_opts ;;
  match start with
  | [] => error invalid_number
  | c0 :: r0 =>
      let negative := c0 =? 45 in
      let after_sign := if negative then r0 else start in
      set_ptr after_sign ;;
      match after_sign with
      | [] => error invalid_number
      | c :: r =>
          if negative && allow_nan_inf opts && (c =? 73) then parse_infinity true
          else if allow_hex_numbers opts && (c =? 48)
                  && match r with
                     | x :: _ => (x =? 120) || (x =? 88)
                     | [] => false
                     end
          then parse_hex_number negative
          else if negb (is_digit c) then error invalid_number
          else
            (* integer part *)
            let '(l1, int_val, int_overflow, int_digits) :=
              if c =? 48 then (r, 0, false, 0)
              else scan_int r (c - 48) 1 in
            set_ptr l1 ;;
            (* fractional part *)
            frac <-
              match l1 with
              | dot :: l2 =>
                  if dot =? 46 then
                    set_ptr l2 ;;
                    match l2 with
                    | d :: _ =>
                        if is_digit d then
                          let '(l3, mantissa, frac_digits, total_digits, mo) :=
                            scan_frac l2 int_val 0 int_digits int_overflow in
                          set_ptr l3 ;;
                          ret (true, mantissa, frac_digits, mo)
                        else error invalid_number
                    | [] => error invalid_number
                    end
                  else ret (false, int_val, 0, int_overflow)
              | [] => ret (false, int_val, 0, int_overflow)
              end ;;
            let '(is_float1, mantissa, frac_digits, mantissa_overflow) := frac in
            (* exponent part *)
            l4 <- get_ptr ;;
            ex <-
              match l4 with
              | e :: l5 =>
                  if (e =? 101) || (e =? 69) then
                    let '(neg_exp, l6) :=
                      match l5 with
                      | s :: l6 =>
                          if (s =? 43) || (s =? 45) then (s =? 45, l6)
                          else (false, l5)
                      | [] => (false, l5)
                      end in
                    set_ptr l6 ;;
                    match l6 with
                    | d :: _ =>
                        if is_digit d then
                          let '(l7, explicit_exp) := scan_exp l6 0 in
                          set_ptr l7 ;;
                          ret (true, if neg_exp then - explicit_exp else explicit_exp)
                        else error invalid_number
                    | [] => error invalid_number
                    end
                  else ret (is_float1, 0)
              | [] => ret (is_float1, 0)
              end ;;
            let '(is_float, explicit_exp) := ex in
            number_result start negative is_float int_overflow
                          int_val mantissa frac_digits explicit_exp
                          mantissa_overflow
      end
  end.

(** ** Arrays and objects *)

Definition is_ident_start (c : Z) : bool :=
  ((97 <=? c) && (c <=? 122)) || ((65 <=? c) && (c <=? 90))
  || (c =? 95) || (c =? 36).

Definition is_ident_char (c : Z) : bool :=
  is_ident_start c || ((48 <=? c) && (c <=? 57)).

(** [while (ptr_ < end_ && is_ident_char( *ptr_ )) ++ptr_]. *)
Fixpoint skip_ident (l : list Z) : list Z :=
  match l with
  | [] => []
  | c :: r => if is_ident_char c then skip_ident r else l
  end.

Definition parse_unquoted_key : M (list Z) :=
  start <- get_ptr ;;
  match start with
  | c :: r =>
      if is_ident_start c then
        let l := skip_ident r in
        set_ptr l ;;
        ret (take (length start - length l) start)
      else error unexpected_character
  | [] => error unexpected_character
  end.

(** The compaction pass of [finalize_object]: keep the entries whose
    recorded index equals their position [i].  The index of the source
    holds views of the keys stored in the entries, and the pass moves
    kept entries down while it reads them; the model holds the keys
    themselves, as the views show them before any entry is moved. *)
Fixpoint compact_entries (index : gmap (list Z) nat) (i : nat) (entries : Entries)
  : Entries :=
  match entries with
  | [] => []
  | e :: r =>
      if bool_decide (index !! fst e = Some i)
      then e :: compact_entries index (S i) r
      else compact_entries index (S i) r
  end.

(** The quadratic pass of [finalize_object]: an entry with a later entry
    of the same key is erased. *)
Fixpoint dedup_small (entries : Entries) : Entries :=
  match entries with
  | [] => []
  | e :: r =>
      if existsb (fun e' => bool_decide (fst e = fst e')) r
      then dedup_small r
      else e :: dedup_small r
  end.

(** [finalize_object(obj)]: the entries of the finished object. *)
Definition finalize_object (entries : Entries) : Entries :=
  let n := length entries in
  if (kIndexThreshold <=? n)%nat then
    let index := Object_rebuild_index entries in
    if (size index <? n)%nat then compact_entries index 0 entries
    else entries
  else if (2 <=? n)%nat then dedup_small entries
  else entries.

(** The insertion of one parsed entry when duplicate keys are forbidden:
    the entry is appended, its key is offered to [seen_keys], and on a
    collision the entry is popped again before the error is raised.
    [inr] is that exit, with the entries as the pop leaves them. *)
Definition insert_checked (entries : Entries) (seen_keys : gset (list Z))
    (key : list Z) (value : JsonValue)
  : Entries * gset (list Z) + Entries :=
  let entries := entries ++ [(key, value)] in
  if bool_decide (key ∈ seen_keys) then inr (removelast entries)
  else inl (entries, {[ key ]} ∪ seen_keys).

(** [parse_value], [parse_array] and [parse_object].  The two [for (;;)]
    loops are [array_loop] and [object_loop]; every call of the group
    spends one unit of fuel.  The capacity estimate made before the loops
    (the count-ahead scan and [reserve]) has no effect on the value and
    is left out.  [seen_keys] is the set the source creates when duplicate
    keys are forbidden; it is empty and unused otherwise.  The source
    keeps in it views of the keys stored in the entries; the model keeps
    the keys, which is what the views show as long as the entries stay
    where they are: [reserve] is called with 8 or more before the loop,
    so the entries of an object of up to 8 entries are never moved. *)
Fixpoint parse_value (fuel : nat) : M JsonValue :=
  match fuel with
  | O => out_of_fuel
  | S n =>
      skip_ws_and_comments fuel ;;
      l <- get_ptr ;;
      opts <- get_opts ;;
      match l with
      | [] => error_unexpected_end
      | c :: _ =>
          if c =? 34 then parse_string_value fuel
          else if c =? 39 then
            if allow_single_quotes opts then parse_string_value_sq fuel
            else error_unexpected_char
          else if c =? 123 then parse_object n
          else if c =? 91 then parse_array n
          else if c =? 116 then parse_true
          else if c =? 102 then parse_false
          else if c =? 110 then parse_null
          else if (c =? 45) || is_digit c then parse_number
          else if c =? 78 then
            if allow_nan_inf opts then parse_nan else error_unexpected_char
          else if c =? 73 then
            if allow_nan_inf opts then parse_infinity false
            else error_unexpected_char
          else error_unexpected_char
      end
  end

with parse_array (fuel : nat) : M JsonValue :=
  match fuel with
  | O => out_of_fuel
  | S n =>
      l0 <- get_ptr ;;
      set_ptr (drop 1 l0) ;;
      push_depth ;;
      skip_ws_and_comments fuel ;;
      l <- get_ptr ;;
      match l with
      | [] => error unterminated_array
      | c :: r =>
          if c =? 93 then
            set_ptr r ;; pop_depth ;; ret (JArray [])
          else array_loop n []
      end
  end

with array_loop (fuel : nat) (arr : list JsonValue) : M JsonValue :=
  match fuel with
  | O => out_of_fuel
  | S n =>
      v <- parse_value n ;;
      let arr := arr ++ [v] in
      skip_ws_and_comments fuel ;;
      l <- get_ptr ;;
      opts <- get_opts ;;
      match l with
      | [] => error unterminated_array
      | c :: r =>
          if c =? 44 then
            set_ptr r ;;
            skip_ws_and_comments fuel ;;
            l' <- get_ptr ;;
            match l' with
            | c' :: r' =>
                if allow_trailing_commas opts && (c' =? 93) then
                  set_ptr r' ;; pop_depth ;; ret (JArray arr)
                else array_loop n arr
            | [] => array_loop n arr
            end
          else if c =? 93 then
            set_ptr r ;; pop_depth ;; ret (JArray arr)
          else error unexpected_character
      end
  end

with parse_object (fuel : nat) : M JsonValue :=
  match fuel with
  | O => out_of_fuel
  | S n =>
      l0 <- get_ptr ;;
      set_ptr (drop 1 l0) ;;
      push_depth ;;
      skip_ws_and_comments fuel ;;
      l <- get_ptr ;;
      match l with
      | [] => error unterminated_object
      | c :: r =>
          if c =? 125 then
            set_ptr r ;; pop_depth ;; ret (JObject [])
          else object_loop n [] ∅
      end
  end

with object_loop (fuel : nat) (entries : Entries) (seen_keys : gset (list Z))
  : M JsonValue :=
  match fuel with
  | O => out_of_fuel
  | S n =>
      skip_ws_and_comments fuel ;;
      l <- get_ptr ;;
      opts <- get_opts ;;
      key <-
        match l with
        | c :: _ =>
            if c =? 34 then parse_string fuel
            else if allow_single_quotes opts && (c =? 39) then parse_string_sq fuel
            else if allow_unquoted_keys opts && is_ident_start c
            then parse_unquoted_key
            else error unterminated_object
        | [] => error unterminated_object
        end ;;
      skip_ws_and_comments fuel ;;
      expect 58 ;;
      value <- parse_value n ;;
      state <-
        (if allow_duplicate_keys opts
         then ret (entries ++ [(key, value)], seen_keys)
         else
           match insert_checked entries seen_keys key value with
           | inl st => ret st
           | inr _ => error duplicate_key
           end) ;;
      let '(entries, seen_keys) := state in
      skip_ws_and_comments fuel ;;
      l1 <- get_ptr ;;
      match l1 with
      | [] => error unterminated_object
      | c :: r =>
          if c =? 44 then
            set_ptr r ;;
            skip_ws_and_comments fuel ;;
            l' <- get_ptr ;;
            match l' with
            | c' :: r' =>
                if allow_trailing_commas opts && (c' =? 125) then
                  set_ptr r' ;; pop_depth ;;
                  ret (JObject (finalize_object entries))
                else object_loop n entries seen_keys
            | [] => object_loop n entries seen_keys
            end
          else if c =? 125 then
            set_ptr r ;; pop_depth ;;
            ret (JObject (finalize_object entries))
          else error unexpected_character
      end
  end.

(** The fuel handed to [parse_value]: three units for every input byte
    and one more (see [parse_total]). *)
Definition parse_fuel (input : list Z) : nat := (3 * length input + 1)%nat.

(** The body of [Parser::parse]: the root value, then nothing but
    whitespace and comments up to the end of the input. *)
Definition parse_document (fuel : nat) : M JsonValue :=
  result <- parse_value fuel ;;
  skip_whitespace ;;
  opts <- get_opts ;;
  (if allow_comments opts then skip_comments fuel else ret tt) ;;
  l <- get_ptr ;;
  match l with
  | _ :: _ => error trailing_content
  | [] => ret result
  end.

(** [Parser::parse(input, opts)].  The run never exhausts its fuel
    ([parse_total]), so the last case does not occur. *)
Definition parse (input : list Z) (opts : ParseOptions.t) : outcome JsonValue :=
  match parse_document (parse_fuel input) (make input opts) with
  | Ok v _ => Returns v
  | Throw e => Throws (ExnParseError e)
  | OutOfFuel => Throws OtherException
  end.

(** [Parser::try_parse(input, opts)]: the [try] block around [parse] with
    its two handlers. *)
Definition try_parse (input : list Z) (opts : ParseOptions.t) : result JsonValue :=
  match parse input opts with
  | Returns v => mkResult v ok
  | Throws (ExnParseError e) => mkResult JNull (code e)
  | Throws _ => mkResult JNull unexpected_character
  end.

End WithCharconv.
End Parser.

(** ** The public parsing API: [yajson::parse] and [yajson::try_parse].
    The overloads without options pass [ParseOptions.default]. *)
Definition parse `{Charconv} (input : list Z) (opts : ParseOptions.t)
  : outcome JsonValue := Parser.parse input opts.

Definition try_parse `{Charconv} (input : list Z) (opts : ParseOptions.t)
  : result JsonValue := Parser.try_parse input opts.

(* ===================================================================== *)
(** * detail/dtoa.hpp                                                     *)
(* ===================================================================== *)

(** [kDigitPairs]: the two-digit table "00" .. "99". *)
Definition kDigitPairs : list Z :=
  bytes_of_string
    ("00010203040506070809" ++ "10111213141516171819" ++
     "20212223242526272829" ++ "30313233343536373839" ++
     "40414243444546474849" ++ "50515253545556575859" ++
     "60616263646566676869" ++ "70717273747576777879" ++
     "80818283848586878889" ++ "90919293949596979899")%string.

(** [kPow10U64]: 0 as a sentinel, then 10^1 .. 10^19. *)
Definition kPow10U64 : list Z :=
  0 :: map (fun i => 10 ^ Z.of_nat i) (seq 1 19).

(** [kMaxSafeInteger] = 2^53. *)
Definition kMaxSafeInteger : double := double_of_Z 9007199254740992.

(** [count_digits(val)] in its [__builtin_clzll] form: the number of
    significant bits gives an approximation of the decimal logarithm,
    corrected by one table lookup. *)
Definition count_digits (val : Z) : Z :=
  let bits := 64 - (63 - Z.log2 (Z.lor val 1)) in
  let approx := Z.shiftr (bits * 1233) 12 in
  approx - (if val <? nth (Z.to_nat approx) kPow10U64 0 then 1 else 0) + 1.

(** The loop [while (val >= 100)] of [write_u64], writing a pair of digits
    below position [p].  The result is the buffer, the remaining [val]. *)
Fixpoint write_pairs (fuel : nat) (buf : list Z) (val : Z) (p : nat)
  : list Z * Z :=
  match fuel with
  | O => (buf, val)
  | S fuel' =>
      if 100 <=? val then
        let idx := Z.to_nat ((val mod 100) * 2) in
        let p := (p - 2)%nat in
        let buf := <[ p := nth idx kDigitPairs 0 ]> buf in
        let buf := <[ S p := nth (S idx) kDigitPairs 0 ]> buf in
        write_pairs fuel' buf (val / 100) p
      else (buf, val)
  end.

(** [write_u64(buf, val)]: the bytes between [buf] and the returned
    pointer.  The buffer has [len] cells, filled from the right; a
    64-bit value has at most ten pairs of digits. *)
Definition write_u64 (val : Z) : list Z :=
  if val =? 0 then [48]
  else
    let len := Z.to_nat (count_digits val) in
    let '(buf, val) := write_pairs 10 (replicate len 0) val len in
    if 10 <=? val then
      let idx := Z.to_nat (val * 2) in
      <[ 1%nat := nth (S idx) kDigitPairs 0 ]> (<[ 0%nat := nth idx kDigitPairs 0 ]> buf)
    else <[ 0%nat := 48 + val ]> buf.

(** [std::floor] on doubles. *)
Definition dfloor (d : double) : double :=
  match d with
  | S754_finite s m e =>
      if 0 <=? e then d
      else
        let q := 2 ^ (- e) in
        let z := if s then - ((Z.pos m + q - 1) / q) else Z.pos m / q in
        if z =? 0 then S754_zero s else double_of_Z z
  | _ => d
  end.

(** [static_cast<uint64_t>] of a double that holds a non-negative integer
    below 2^64. *)
Definition uint64_of_double (d : double) : Z :=
  match d with
  | S754_finite false m e =>
      if 0 <=? e then Z.pos m * 2 ^ e else Z.pos m / 2 ^ (- e)
  | _ => 0
  end.

(** The text of the fixed-point branch: [ival] with the decimal point
    [k] digits from the right. *)
Definition fixed_point_text (ival : Z) (k : nat) : list Z :=
  let digits := write_u64 ival in
  let total_digits := Z.of_nat (length digits) in
  let int_digits := total_digits - Z.of_nat k in
  if int_digits <=? 0 then
    [48; 46] ++ replicate (Z.to_nat (- int_digits)) 48 ++ digits
  else
    take (Z.to_nat int_digits) digits ++ [46] ++ drop (Z.to_nat int_digits) digits.

(** The loop [for (int k = 1; k <= 9; ++k)] of the fixed-point branch,
    over the values of [k] still to be tried. *)
Fixpoint fixed_point_loop (val : double) (ks : list nat) : option (list Z) :=
  match ks with
  | [] => None
  | k :: ks' =>
      let scaled := dmul val (double_of_Z (10 ^ Z.of_nat k)) in
      if dlt kMaxSafeInteger scaled then None
      else if deq scaled (dfloor scaled)
      then Some (fixed_point_text (uint64_of_double scaled) k)
      else fixed_point_loop val ks'
  end.

Definition has_dot (text : list Z) : bool :=
  existsb (fun c => (c =? 46) || (c =? 101) || (c =? 69)) text.

(** [fast_dtoa(buf, val)]: the characters written, for a [val] that is
    neither NaN nor infinite. *)
Definition fast_dtoa `{Charconv} (val : double) : list Z :=
  if dsignbit val && deq val (S754_zero false) then [48; 46; 48]
  else
    let sign := if dsignbit val then [45] else [] in
    let val := if dsignbit val then dneg val else val in
    if dle val kMaxSafeInteger && deq val (dfloor val) then
      sign ++ write_u64 (uint64_of_double val) ++ [46; 48]
    else
      match
        (if dlt val (double_of_Z (10 ^ 15))
            && dlt (ddiv (double_of_Z 1) (double_of_Z (10 ^ 6))) val
         then fixed_point_loop val (seq 1 9) else None)
      with
      | Some text => sign ++ text
      | None =>
          let text := to_chars val in
          sign ++ text ++ (if has_dot text then [] else [46; 48])
      end.

(* ===================================================================== *)
(** * serializer.hpp                                                      *)
(* ===================================================================== *)

Module SerializeOptions.

Record t : Type := mk {
  indent : Z;
  ensure_ascii : bool;
  allow_nan_inf : bool;
  sort_keys : bool
}.

Definition default : t := mk (-1) false false false.

End SerializeOptions.

(** [kHexDigits]. *)
Definition kHexDigits : list Z := bytes_of_string "0123456789abcdef".

(** [kControlEscapes.entries[i]] for [i] below 32, as
    [make_control_escape_table] builds it: the six-byte form, overwritten
    by the two-byte form at five positions. *)
Definition kControlEscapes (i : Z) : list Z :=
  if i =? 0x08 then [92; 98]
  else if i =? 0x09 then [92; 116]
  else if i =? 0x0A then [92; 110]
  else if i =? 0x0C then [92; 102]
  else if i =? 0x0D then [92; 114]
  else [92; 117; 48; 48;
        nth (Z.to_nat (Z.land (Z.shiftr i 4) 0xF)) kHexDigits 0;
        nth (Z.to_nat (Z.land i 0xF)) kHexDigits 0].

(** The interface the serializer asks of its [Output] parameter. *)
Class Output (Sink : Type) : Type := {
  write_char : Z -> Sink -> Sink;
  write_bytes : list Z -> Sink -> Sink
}.

(** [class StringOutput]: the filled part of [buf_] (so [pos_] is its
    length) and the result string. *)
Module StringOutput.

Record t : Type := mk {
  buf_ : list Z;
  result_ : list Z
}.

Definition kBufSize : nat := 4096.

Definition init : t := mk [] [].

Definition flush (o : t) : t :=
  if (0 <? length (buf_ o))%nat then mk [] (result_ o ++ buf_ o) else o.

Definition write_slow (s : list Z) (o : t) : t :=
  let o := flush o in
  if (kBufSize <=? length s)%nat then mk (buf_ o) (result_ o ++ s)
  else mk s (result_ o).

Definition write_c (c : Z) (o : t) : t :=
  let o := if (kBufSize <=? length (buf_ o))%nat then flush o else o in
  mk (buf_ o ++ [c]) (result_ o).

Definition write (s : list Z) (o : t) : t :=
  if (length (buf_ o) + length s <=? kBufSize)%nat
  then mk (buf_ o ++ s) (result_ o)
  else write_slow s o.

(** [result()]. *)
Definition result (o : t) : list Z := result_ (flush o).

End StringOutput.

#[export] Instance StringOutput_Output : Output StringOutput.t := {
  write_char := StringOutput.write_c;
  write_bytes := StringOutput.write
}.

(** [class SerializerCore<Output, Pretty, EnsureAscii>].  The state is the
    output and [current_indent_]; every member maps a state to the state
    it leaves. *)
Module SerializerCore.
Import SerializeOptions.

Section Core.
Context `{Charconv} {Sink : Type} `{Output Sink}.
Variables (Pretty EnsureAscii : bool) (opts_ : SerializeOptions.t).

Record state : Type := mkState {
  out_ : Sink;
  current_indent_ : Z
}.

Definition put_char (c : Z) (s : state) : state :=
  mkState (write_char c (out_ s)) (current_indent_ s).

Definition put (bytes : list Z) (s : state) : state :=
  mkState (write_bytes bytes (out_ s)) (current_indent_ s).

Definition add_indent (d : Z) (s : state) : state :=
  mkState (out_ s) (current_indent_ s + d).

Definition kMaxIndentBuf : Z := 256.

(** The chunked loop of [write_indent]; an indent of [n] takes at most
    [n] chunks. *)
Fixpoint write_indent_loop (fuel : nat) (n : Z) (s : state) : state :=
  match fuel with
  | O => s
  | S fuel' =>
      if 0 <? n then
        let chunk := if n <? kMaxIndentBuf then n else kMaxIndentBuf in
        write_indent_loop fuel' (n - chunk) (put (replicate (Z.to_nat chunk) 32) s)
      else s
  end.

Definition write_indent (s : state) : state :=
  if Pretty then
    write_indent_loop (Z.to_nat (current_indent_ s)) (current_indent_ s) s
  else s.

Definition write_newline (s : state) : state :=
  if Pretty then put_char 10 s else s.

Definition write_integer (val : Z) (s : state) : state :=
  if val <? 0
  then put ([45] ++ write_u64 (to_uint64 (to_uint64 (Z.lnot val) + 1))) s
  else put (write_u64 (to_uint64 val)) s.

Definition write_uinteger (val : Z) (s : state) : state :=
  put (write_u64 val) s.

Definition write_float (val : double) (s : state) : state :=
  if disnan val then
    if allow_nan_inf opts_ then put (bytes_of_string "NaN") s
    else put (bytes_of_string "null") s
  else if disinf val then
    if allow_nan_inf opts_ then
      let s := if dlt val (S754_zero false) then put_char 45 s else s in
      put (bytes_of_string "Infinity") s
    else put (bytes_of_string "null") s
  else put (fast_dtoa val) s.

Definition write_u16 (val : Z) : list Z :=
  [92; 117;
   nth (Z.to_nat (Z.land (Z.shiftr val 12) 0xF)) kHexDigits 0;
   nth (Z.to_nat (Z.land (Z.shiftr val 8) 0xF)) kHexDigits 0;
   nth (Z.to_nat (Z.land (Z.shiftr val 4) 0xF)) kHexDigits 0;
   nth (Z.to_nat (Z.land val 0xF)) kHexDigits 0].

Definition write_escaped_codepoint (cp : Z) (s : state) : state :=
  if cp <=? 0xFFFF then put (write_u16 (cp mod 2 ^ 16)) s
  else
    let adj := cp - 0x10000 in
    let s := put (write_u16 ((0xD800 + Z.shiftr adj 10) mod 2 ^ 16)) s in
    put (write_u16 ((0xDC00 + Z.land adj 0x3FF) mod 2 ^ 16)) s.

(** The loop [while (ptr < str_end)] of [write_string] over the unread
    part [ptr] of the string; every iteration advances. *)
Fixpoint write_string_loop (fuel : nat) (ptr : list Z) (s : state) : state :=
  match fuel with
  | O => s
  | S fuel' =>
      match ptr with
      | [] => s
      | _ :: _ =>
          let safe_end := simd.find_needs_escape EnsureAscii ptr in
          let s :=
            if (length safe_end <? length ptr)%nat
            then put (take (length ptr - length safe_end) ptr) s else s in
          match safe_end with
          | [] => s
          | c :: rest =>
              if c <? 0x20 then
                write_string_loop fuel' rest (put (kControlEscapes c) s)
              else if c =? 34 then
                write_string_loop fuel' rest (put [92; 34] s)
              else if c =? 92 then
                write_string_loop fuel' rest (put [92; 92] s)
              else if EnsureAscii && (0x80 <=? c) then
                let '(cp, p) := utf8.decode safe_end in
                write_string_loop fuel' p (write_escaped_codepoint cp s)
              else write_string_loop fuel' rest s
          end
      end
  end.

Definition write_string (str : list Z) (s : state) : state :=
  let s := put_char 34 s in
  let s := write_string_loop (length str) str s in
  put_char 34 s.

Section Containers.
(** [write_value], as the container members call it back. *)
Variable write_value : JsonValue -> state -> state.

(** The element loop of [write_array]; [first] is [i == 0]. *)
Fixpoint write_array_loop (arr : list JsonValue) (first : bool) (s : state)
  : state :=
  match arr with
  | [] => s
  | v :: rest =>
      let s := if first then s else write_newline (put_char 44 s) in
      let s := write_indent s in
      let s := write_value v s in
      write_array_loop rest false s
  end.

Definition write_array (arr : list JsonValue) (s : state) : state :=
  match arr with
  | [] => put (bytes_of_string "[]") s
  | _ :: _ =>
      let s := put_char 91 s in
      let s := if Pretty then add_indent (indent opts_) s else s in
      let s := write_newline s in
      let s := write_array_loop arr true s in
      let s := if Pretty then add_indent (- indent opts_) s else s in
      let s := write_newline s in
      let s := write_indent s in
      put_char 93 s
  end.

(** One entry: indent, key, colon, value. *)
Definition write_entry (key : list Z) (wv : state -> state) (s : state) : state :=
  let s := write_indent s in
  let s := write_string key s in
  let s := put_char 58 s in
  let s := if Pretty then put_char 32 s else s in
  wv s.

(** The entry loop shared by [write_object_ordered] and
    [write_object_sorted], over entries paired with the writer of their
    value. *)
Fixpoint write_entries (es : list (list Z * (state -> state))) (first : bool)
    (s : state) : state :=
  match es with
  | [] => s
  | (key, wv) :: rest =>
      let s := if first then s else write_newline (put_char 44 s) in
      write_entries rest false (write_entry key wv s)
  end.

(** [std::string::operator<]: lexicographic on the bytes. *)
Fixpoint key_lt (a b : list Z) : bool :=
  match a, b with
  | _, [] => false
  | [], _ :: _ => true
  | x :: a', y :: b' => (x <? y) || ((x =? y) && key_lt a' b')
  end.

(** The [std::sort] of the entry positions by key.  The order the
    standard leaves open between equal keys is fixed here to the order of
    the entries. *)
Fixpoint insert_by_key {A : Type} (e : list Z * A) (sorted : list (list Z * A))
  : list (list Z * A) :=
  match sorted with
  | [] => [e]
  | e' :: rest =>
      if key_lt (fst e') (fst e) || negb (key_lt (fst e) (fst e'))
      then e' :: insert_by_key e rest
      else e :: sorted
  end.

Definition sort_by_key {A : Type} (es : list (list Z * A)) : list (list Z * A) :=
  fold_left (fun sorted e => insert_by_key e sorted) es [].

Definition write_object (obj : Entries) (s : state) : state :=
  match obj with
  | [] => put (bytes_of_string "{}") s
  | _ :: _ =>
      let s := put_char 123 s in
      let s := if Pretty then add_indent (indent opts_) s else s in
      let s := write_newline s in
      let es := map (fun e => (fst e, write_value (snd e))) obj in
      let s := if sort_keys opts_
               then write_entries (sort_by_key es) true s
               else write_entries es true s in
      let s := if Pretty then add_indent (- indent opts_) s else s in
      let s := write_newline s in
      let s := write_indent s in
      put_char 125 s
  end.

End Containers.

Fixpoint write_value (v : JsonValue) (s : state) : state :=
  match v with
  | JNull => put (bytes_of_string "null") s
  | JBool b =>
      if b then put (bytes_of_string "true") s
      else put (bytes_of_string "false") s
  | JInteger i => write_integer i s
  | JUInteger u => write_uinteger u s
  | JFloat d => write_float d s
  | JString str => write_string str s
  | JArray arr => write_array write_value arr s
  | JObject obj => write_object write_value obj s
  end.

(** [serialize(value)]. *)
Definition serialize (value : JsonValue) (out : Sink) : Sink :=
  out_ (write_value value (mkState out 0)).

End Core.
End SerializerCore.

(** [SerializerImpl<Output>::serialize]: the choice among the four
    instantiations. *)
Definition SerializerImpl_serialize `{Charconv} {Sink : Type} `{Output Sink}
    (opts : SerializeOptions.t) (value : JsonValue) (out : Sink) : Sink :=
  let pretty := 0 <=? SerializeOptions.indent opts in
  let ascii := SerializeOptions.ensure_ascii opts in
  if pretty then
    if ascii then SerializerCore.serialize true true opts value out
    else SerializerCore.serialize true false opts value out
  else
    if ascii then SerializerCore.serialize false true opts value out
    else SerializerCore.serialize false false opts value out.

(** [Serializer::serialize] to a string.  The size hint only reserves
    capacity. *)
Definition Serializer_serialize `{Charconv} (opts : SerializeOptions.t)
    (value : JsonValue) : list Z :=
  StringOutput.result (SerializerImpl_serialize opts value StringOutput.init).

(** [yajson::serialize(value, opts)] and [JsonValue::dump(opts)]. *)
Definition serialize `{Charconv} (value : JsonValue) (opts : SerializeOptions.t)
  : list Z := Serializer_serialize opts value.

(** [JsonValue::dump(indent)], [indent = -1] by default. *)
Definition dump `{Charconv} (value : JsonValue) (indent : Z) : list Z :=
  Serializer_serialize (SerializeOptions.mk indent false false false) value.

(* ===================================================================== *)
(** * Notions used in the statements                                      *)
(* ===================================================================== *)

(** ** UTF-8 *)

(** The leading and continuation bytes [encode] writes. *)
Definition lead2 (h : Z) : Z := to_char (Z.lor 0xC0 h).
Definition lead3 (h : Z) : Z := to_char (Z.lor 0xE0 h).
Definition lead4 (h : Z) : Z := to_char (Z.lor 0xF0 h).
Definition contb (l : Z) : Z := to_char (Z.lor 0x80 l).

(** The three final checks of [decode]. *)
Definition finish (len : nat) (cp : Z) (rest : list Z) : Z * list Z :=
  if utf8.overlong len cp then (0xFFFD, rest)
  else if utf8.surrogate cp then (0xFFFD, rest)
  else if cp >? 0x10FFFF then (0xFFFD, rest)
  else (cp, rest).

Definition bad (len : nat) (cp : Z) : bool :=
  utf8.overlong len cp || utf8.surrogate cp || (cp >? 0x10FFFF).

(** A decoding step is good when it yields U+FFFD only for the encoding
    EF BF BD of U+FFFD itself. *)
Definition good (s : list Z * Z) : Prop :=
  snd s = 0xFFFD -> fst s = [0xEF; 0xBF; 0xBD].

Abbreviation isc := (fun b : Z => Z.land b 0xC0 =? 0x80).
Abbreviation acc := (fun cp b : Z => Z.lor (Z.shiftl cp 6) (Z.land b 0x3F)).

(** ** Inputs of the scenarios *)

Definition nested_text : list Z := bytes_of_string "[[[[[1]]]]]".
Definition nested_value : JsonValue :=
  JArray [JArray [JArray [JArray [JArray [JInteger 1]]]]].

(** The text [{"a":[{"b":{}}]}]: an object in an object in an array in an
    object. *)
Definition braces_text : list Z :=
  [123; 34; 97; 34; 58; 91; 123; 34; 98; 34; 58; 123; 125; 125; 93; 125].
Definition braces_value : JsonValue :=
  JObject [([97], JArray [JObject [([98], JObject [])]])].

(** The text [{"a":1,"a":2}]. *)
Definition dup_text : list Z :=
  [123; 34; 97; 34; 58; 49; 44; 34; 97; 34; 58; 50; 125].

(** An instance of the standard conversions for running the definitions
    on inputs that never reach them. *)
Definition no_charconv : Charconv :=
  {| from_chars := fun _ => None; to_chars := fun _ => [] |}.

(** ** Number tokens *)

Definition is_hex_digit (h : Z) : bool :=
  ((48 <=? h) && (h <=? 57)) || ((97 <=? h) && (h <=? 102))
  || ((65 <=? h) && (h <=? 70)).

Definition hex_digit_value (h : Z) : Z :=
  if (48 <=? h) && (h <=? 57) then h - 48
  else if (97 <=? h) && (h <=? 102) then h - 97 + 10
  else h - 65 + 10.

(** The mathematical value of a hex digit string read after [acc]. *)
Definition hex_value_from (acc : Z) (hs : list Z) : Z :=
  fold_left (fun v h => 16 * v + hex_digit_value h) hs acc.

Definition hex_value (hs : list Z) : Z := hex_value_from 0 hs.

Definition no_hex_start (tail : list Z) : Prop :=
  match tail with [] => True | c :: _ => is_hex_digit c = false end.

(** The mathematical value of a decimal digit string read after [acc]. *)
Definition decimal_value_from (acc : Z) (ds : list Z) : Z :=
  fold_left (fun v c => 10 * v + (c - 48)) ds acc.

Definition decimal_value (ds : list Z) : Z := decimal_value_from 0 ds.

(** What may follow an integer token: the end of the input or a byte that
    neither continues the number nor starts a hex prefix. *)
Definition ends_number (tail : list Z) : Prop :=
  match tail with
  | [] => True
  | c :: _ =>
      Parser.is_digit c = false /\ c <> 46 /\ c <> 101 /\ c <> 69
      /\ c <> 120 /\ c <> 88
  end.

(** ** Specifications of parser computations *)

(** [spec m p Q]: from state [p], [m] does not run out of fuel; it returns
    a value and a state satisfying [Q], or throws with a code other than
    [ok]. *)
Definition spec {A : Type} (m : Parser.M A) (p : Parser.t)
    (Q : A -> Parser.t -> Prop) : Prop :=
  match m p with
  | Parser.Ok a p' => Q a p'
  | Parser.Throw e => code e <> ok
  | Parser.OutOfFuel => False
  end.

(** The unread range has not grown, or has shrunk. *)
Definition le_len {A : Type} (p : Parser.t) : A -> Parser.t -> Prop :=
  fun _ p' => (length (Parser.ptr_ p') <= length (Parser.ptr_ p))%nat.
Definition lt_len {A : Type} (p : Parser.t) : A -> Parser.t -> Prop :=
  fun _ p' => (length (Parser.ptr_ p') < length (Parser.ptr_ p))%nat.

(** ** The compact text of a value *)

(** The serializer state over the string sink, and what it has written. *)
Abbreviation out_state := (@SerializerCore.state StringOutput.t).
Abbreviation written :=
  (fun s : out_state => StringOutput.result (SerializerCore.out_ s)).

(** The [n] low decimal digits of [v], the most significant first. *)
Fixpoint digits_n (n : nat) (v : Z) : list Z :=
  match n with
  | O => []
  | S n' => digits_n n' (v / 10) ++ [48 + v mod 10]
  end.

(** What [write_string] writes for one byte, and for a string, when
    [EnsureAscii] is off. *)
Definition escape_byte (c : Z) : list Z :=
  if c <? 0x20 then kControlEscapes c
  else if c =? 34 then [92; 34]
  else if c =? 92 then [92; 92]
  else [c].

Definition escaped (s : list Z) : list Z := flat_map escape_byte s.

Definition string_text (s : list Z) : list Z := [34] ++ escaped s ++ [34].

Definition integer_text (i : Z) : list Z :=
  if i <? 0 then [45] ++ write_u64 (to_uint64 (to_uint64 (Z.lnot i) + 1))
  else write_u64 (to_uint64 i).

Definition float_text `{Charconv} (d : double) : list Z :=
  if disnan d || disinf d then bytes_of_string "null" else fast_dtoa d.

(** The members of a container, separated by commas. *)
Definition joined {A : Type} (text : A -> list Z) (l : list A) : list Z :=
  match l with
  | [] => []
  | x :: r => text x ++ flat_map (fun y => 44 :: text y) r
  end.

(** The output of the compact serializer ([indent < 0], [ensure_ascii],
    [allow_nan_inf] and [sort_keys] off) as a function of the value. *)
Fixpoint compact_text `{Charconv} (v : JsonValue) : list Z :=
  match v with
  | JNull => bytes_of_string "null"
  | JBool b => if b then bytes_of_string "true" else bytes_of_string "false"
  | JInteger i => integer_text i
  | JUInteger u => write_u64 u
  | JFloat d => float_text d
  | JString s => string_text s
  | JArray arr => [91] ++ joined compact_text arr ++ [93]
  | JObject entries =>
      [123]
      ++ joined (fun e => string_text (fst e) ++ [58] ++ compact_text (snd e))
                entries
      ++ [125]
  end.

(** ** Values and their reading back *)

(** The value the parser builds from the text of [v]: an unsigned integer
    that fits [int64_t] comes back as a signed one. *)
Fixpoint reparsed (v : JsonValue) : JsonValue :=
  match v with
  | JUInteger u => if u <=? INT64_MAX then JInteger u else JUInteger u
  | JArray arr => JArray (map reparsed arr)
  | JObject entries => JObject (map (fun e => (fst e, reparsed (snd e))) entries)
  | _ => v
  end.

(** The values the round trip is stated for: no [Float] anywhere, every
    integer in the range of its C++ type, every string and key a byte
    string, and the keys of every object pairwise different. *)
Fixpoint roundtrip_safe (v : JsonValue) : Prop :=
  match v with
  | JNull | JBool _ => True
  | JInteger i => is_int64 i
  | JUInteger u => is_uint64 u
  | JFloat _ => False
  | JString s => Forall is_byte s
  | JArray arr => fold_right (fun x acc => roundtrip_safe x /\ acc) True arr
  | JObject entries =>
      NoDup (map fst entries)
      /\ fold_right (fun e acc =>
                       (Forall is_byte (fst e) /\ roundtrip_safe (snd e)) /\ acc)
                    True entries
  end.

(** The least capacity [parse_object] reserves for the entries before
    its loop. *)
Definition reserved_entries : nat := 8.

(** No object inside [v] has more than [reserved_entries] entries: the
    parser appends them without moving the earlier ones, and the views
    that [seen_keys] holds of their keys stay valid. *)
Fixpoint within_reserve (v : JsonValue) : Prop :=
  match v with
  | JArray arr => fold_right (fun x acc => within_reserve x /\ acc) True arr
  | JObject entries =>
      (length entries <= reserved_entries)%nat
      /\ fold_right (fun e acc => within_reserve (snd e) /\ acc) True entries
  | _ => True
  end.

(** The depth limit in force for a parse with [opts]. *)
Definition effective_max_depth (opts : ParseOptions.t) : nat :=
  Parser.max_depth_ (Parser.make [] opts).

(** What follows a value inside the text of a container, or the end. *)
Definition delimited (rest : list Z) : Prop :=
  match rest with
  | [] => True
  | c :: _ => c = 44 \/ c = 93 \/ c = 125
  end.

(** The body of a block comment that its closing pair ends: no star in
    [body] is directly followed by a slash. *)
Fixpoint no_block_end (body : list Z) : Prop :=
  match body with
  | c0 :: r =>
      match r with
      | c1 :: _ => ~ (c0 = 42 /\ c1 = 47) /\ no_block_end r
      | [] => True
      end
  | [] => True
  end.

(** [n] arrays around [null]. *)
Fixpoint nested_arrays (n : nat) : JsonValue :=
  match n with
  | O => JNull
  | S k => JArray [nested_arrays k]
  end.

(** An object built with two entries of the same key, as
    [Object_emplace_back] allows. *)
Definition twice_a : JsonValue :=
  JObject (Object_emplace_back (Object_emplace_back [] [97] (JInteger 1))
                               [97] (JInteger 2)).

(** A text that begins with a byte no whitespace scan steps over, which
    opens no comment and closes no container. *)
Definition starts_value (l : list Z) : Prop :=
  match l with
  | c :: _ => 32 < c /\ c <> 47 /\ c <> 93 /\ c <> 125
  | [] => False
  end.

(** [parse_value] reads the text of [v] back, whatever follows it, from
    any state with enough fuel and enough depth left. *)
Definition reads_back `{Charconv} (v : JsonValue) : Prop :=
  forall (fuel : nat) (p : Parser.t) (rest : list Z),
    Parser.ptr_ p = compact_text v ++ rest -> delimited rest ->
    (3 * length (Parser.ptr_ p) + 1 <= fuel)%nat ->
    (Parser.depth_ p + depth v <= Parser.max_depth_ p)%nat ->
    Parser.parse_value fuel p = Parser.Ok (reparsed v) (Parser.with_ptr p rest).

(** The values the round trip is stated for, with [Float]s: those of
    [roundtrip_safe], and with them every value in which each [Float] has
    a text that begins a value and is read back as that [Float]. *)
Fixpoint readable `{Charconv} (v : JsonValue) : Prop :=
  match v with
  | JNull | JBool _ => True
  | JInteger i => is_int64 i
  | JUInteger u => is_uint64 u
  | JFloat d => starts_value (float_text d) /\ reads_back (JFloat d)
  | JString s => Forall is_byte s
  | JArray arr => fold_right (fun x acc => readable x /\ acc) True arr
  | JObject entries =>
      NoDup (map fst entries)
      /\ fold_right (fun e acc =>
                       (Forall is_byte (fst e) /\ readable (snd e)) /\ acc)
                    True entries
  end.

(** The text of one object entry, and the entry read back. *)
Abbreviation entry_text :=
  (fun e : list Z * JsonValue =>
     string_text (fst e) ++ [58] ++ compact_text (snd e)).
Abbreviation reparsed_entry :=
  (fun e : list Z * JsonValue => (fst e, reparsed (snd e))).

(** A value with every kind the round trip covers: an object whose key
    [k] holds the array of -5, 18446744073709551615, a string of three
    bytes (a quote, a line feed and 0xC8), null, true and the empty
    object. *)
Definition sample_value : JsonValue :=
  JObject
    [([107],
      JArray [JInteger (-5); JUInteger 18446744073709551615;
              JString [34; 10; 200]; JNull; JBool true; JObject []])].

(** Two doubles: 2^53 - 1, and the double just below 0.9. *)
Definition largest_odd_double : double := S754_finite false 9007199254740991 0.
Definition below_nine_tenths : double :=
  S754_finite false 8106479329266892 (-53).

From Stdlib Require Import Sorted.

(* ===================================================================== *)
(** * fwd.hpp and value.hpp: the [Object] struct with its hash index      *)
(* ===================================================================== *)

Module Object.

(** [struct Object]: the entries and the lazily created index ([None] is
    the null [unique_ptr]).  The index of the source maps views of the
    keys stored in [entries] to positions; the model maps the keys
    themselves.  The views show those keys as long as the entries they
    point into have not been moved since the index was filled, and the
    source refills the index wherever it sees the vector reallocate. *)
Record t : Type := mk {
  entries : Entries;
  index_ : option (gmap (list Z) nat)
}.

(** [Object()]. *)
Definition make : t := mk [] None.

Definition empty (o : t) : bool :=
  match entries o with [] => true | _ => false end.

Definition size (o : t) : nat := length (entries o).

Definition use_index (o : t) : bool :=
  (kIndexThreshold <=? length (entries o))%nat.

(** [rebuild_index()]: a new map, or the old one cleared, filled from
    the entries. *)
Definition rebuild_index (o : t) : t :=
  mk (entries o) (Some (Object_rebuild_index (entries o))).

(** [ensure_index()]. *)
Definition ensure_index (o : t) : t :=
  match index_ o with
  | None => if use_index o then rebuild_index o else o
  | Some _ => o
  end.

(** [update_index_after_push(old_data)], called with an index present
    after an entry was appended.  [moved] is the outcome of the test
    [entries.data() != old_data], which depends on the capacity of the
    vector. *)
Definition update_index_after_push (o : t) (moved : bool) : t :=
  match index_ o with
  | None => o
  | Some index =>
      if moved then mk (entries o) (Some (Object_rebuild_index (entries o)))
      else
        match last (entries o) with
        | Some e => mk (entries o) (Some (<[ fst e := (length (entries o) - 1)%nat ]> index))
        | None => o
        end
  end.

(** [emplace_back(key, value)]. *)
Definition emplace_back (o : t) (key : list Z) (value : JsonValue) (moved : bool)
  : t :=
  let o' := mk (entries o ++ [(key, value)]) (index_ o) in
  match index_ o with
  | Some _ => update_index_after_push o' moved
  | None => o'
  end.

(** [find(key)]: the position of the entry whose value the returned
    pointer refers to ([None] for [nullptr]), and the object after the
    call ([index_] is [mutable]). *)
Definition find_pos (o : t) (key : list Z) : option nat * t :=
  if use_index o then
    let o' := ensure_index o in
    (match index_ o' with
     | Some index => index !! key
     | None => None
     end, o')
  else (Object_linear_find (entries o) key, o).

(** The value behind the pointer.  A position outside the entries, which
    the source would read unchecked, is given as [None]. *)
Definition find (o : t) (key : list Z) : option JsonValue * t :=
  let '(pos, o') := find_pos o key in
  (match pos with
   | Some i => snd <$> entries o' !! i
   | None => None
   end, o').

Definition contains (o : t) (key : list Z) : bool * t :=
  let '(p, o') := find o key in
  (match p with Some _ => true | None => false end, o').

(** [operator[](key)]: the object after the call and the position of the
    entry whose value the returned reference designates. *)
Definition index (o : t) (key : list Z) (moved : bool) : t * nat :=
  let '(pos, o1) := find_pos o key in
  match pos with
  | Some i => (o1, i)
  | None =>
      let o2 := mk (entries o1 ++ [(key, JNull)]) (index_ o1) in
      (match index_ o1 with
       | Some _ => update_index_after_push o2 moved
       | None => o2
       end, length (entries o1))
  end.

(** [at(key)]. *)
Definition at_ (o : t) (key : list Z) : outcome JsonValue * t :=
  let '(p, o') := find o key in
  (match p with
   | Some v => Returns v
   | None => Throws (OutOfRangeError (key_not_found_message key))
   end, o').

(** The loop [for (auto& [k, v] : entries) if (k == key) { v = value;
    return; }] of [insert]: [None] when it ends without a match. *)
Fixpoint assign_first (entries : Entries) (key : list Z) (value : JsonValue)
  : option Entries :=
  match entries with
  | [] => None
  | (k, v) :: r =>
      if bool_decide (k = key) then Some ((k, value) :: r)
      else cons (k, v) <$> assign_first r key value
  end.

(** [insert(key, value)].  Below the threshold the new entry goes to the
    vector directly and the index is left as it is.  In the other branch
    [index_->emplace] meets a key that the lookup has just missed. *)
Definition insert (o : t) (key : list Z) (value : JsonValue) (moved : bool) : t :=
  if (length (entries o) <? kIndexThreshold)%nat then
    match assign_first (entries o) key value with
    | Some es => mk es (index_ o)
    | None => mk (entries o ++ [(key, value)]) (index_ o)
    end
  else
    let o1 := ensure_index o in
    match index_ o1 with
    | None => o1
    | Some index =>
        match index !! key with
        | Some i =>
            mk (alter (fun e => (fst e, value)) i (entries o1)) (index_ o1)
        | None =>
            let es := entries o1 ++ [(key, value)] in
            if moved then rebuild_index (mk es (index_ o1))
            else mk es (Some (<[ key := length (entries o1) ]> index))
        end
    end.

(** The loop of [erase] over the entries: the first entry with the key
    is removed; [None] when there is none. *)
Fixpoint erase_first (entries : Entries) (key : list Z) : option Entries :=
  match entries with
  | [] => None
  | (k, v) :: r =>
      if bool_decide (k = key) then Some r
      else cons (k, v) <$> erase_first r key
  end.

(** [erase(key)]: the result and the object after the call.  The linear
    branch leaves the index as it is. *)
Definition erase (o : t) (key : list Z) : bool * t :=
  match (if use_index o then index_ o else None) with
  | Some index =>
      match index !! key with
      | None => (false, o)
      | Some idx => (true, rebuild_index (mk (delete idx (entries o)) (index_ o)))
      end
  | None =>
      match erase_first (entries o) key with
      | Some es => (true, mk es (index_ o))
      | None => (false, o)
      end
  end.

(** [clear()]. *)
Definition clear (o : t) : t := mk [] None.

(** The copy constructor and the copy assignment: the entries without
    the index. *)
Definition copy (o : t) : t := mk (entries o) None.

End Object.

(** [JsonValue::insert(key, value)] on the entries of an object that has
    no index: the [insert] of the [Object] struct.  Below 16 entries
    [insert] scans the entries and this is what it does to them whatever
    index the object carries. *)
Definition Object_insert (entries : Entries) (key : list Z) (value : JsonValue)
  : Entries :=
  Object.entries (Object.insert (Object.mk entries None) key value false).

(** [JsonValue::erase(key)] on the entries of an object that has no
    index: the [erase] of the [Object] struct; the result and the entries
    after the call.  Below 16 entries [erase] scans the entries and this
    is what it does to them whatever index the object carries; from 16
    entries on an index that exists gives the position, see
    [Object.erase]. *)
Definition Object_erase (entries : Entries) (key : list Z) : bool * Entries :=
  let '(erased, o) := Object.erase (Object.mk entries None) key in
  (erased, Object.entries o).

(** ** Notions used in the statements on objects *)

(** The index is absent, or the object is large enough to use it and the
    index is what [rebuild_index] makes of the entries. *)
Definition index_fresh (o : Object.t) : Prop :=
  match Object.index_ o with
  | None => True
  | Some index =>
      Object.use_index o = true /\ index = Object_rebuild_index (Object.entries o)
  end.

(** The index is absent or describes the entries, used or not. *)
Definition index_in_sync (o : Object.t) : Prop :=
  match Object.index_ o with
  | None => True
  | Some index => index = Object_rebuild_index (Object.entries o)
  end.

(** The keys of an object, in the order of its entries. *)
Definition keys (o : Object.t) : list (list Z) := map fst (Object.entries o).

(** An object of sixteen entries with the keys [a] to [p], holding the
    integers 0 to 15, and no index yet. *)
Definition sixteen_entries : Object.t :=
  Object.mk (map (fun i => ([97 + Z.of_nat i], JInteger (Z.of_nat i))) (seq 0 16))
            None.

(** An object of one entry, the key [a] holding 1. *)
Definition one_entry : Object.t := Object.mk [([97], JInteger 1)] None.

(* ===================================================================== *)
(** * json_pointer.hpp: JSON Pointer (RFC 6901)                           *)
(* ===================================================================== *)

(** [std::to_string] of an unsigned integer: its decimal digits.  A
    64-bit value has at most twenty of them. *)
Fixpoint to_string_loop (fuel : nat) (n : Z) : list Z :=
  match fuel with
  | O => []
  | S fuel' =>
      if n <? 10 then [48 + n]
      else to_string_loop fuel' (n / 10) ++ [48 + n mod 10]
  end.

Definition std_to_string (n : Z) : list Z := to_string_loop 20 n.

(** [std::from_chars] into a [size_t], base 10, as the standard defines
    it for an unsigned type: the longest run of decimal digits at the
    start is the number; no sign and no white space is accepted.  The
    result is the value, the unread rest and the error code. *)
Inductive std_errc : Type :=
  | std_ok | invalid_argument | result_out_of_range.

Fixpoint leading_digits (s : list Z) : list Z :=
  match s with
  | c :: r => if Parser.is_digit c then c :: leading_digits r else []
  | [] => []
  end.

Definition from_chars_size_t (s : list Z) : Z * list Z * std_errc :=
  let digits := leading_digits s in
  let rest := drop (length digits) s in
  match digits with
  | [] => (0, s, invalid_argument)
  | _ :: _ =>
      let v := decimal_value digits in
      if v <=? UINT64_MAX then (v, rest, std_ok)
      else (0, rest, result_out_of_range)
  end.

Module JsonPointer.

(** [class JsonPointer]: the sequence of tokens.  [source_] and
    [unescaped_] are the storage the token views point into; a token is
    modelled by the bytes it shows. *)
Definition t : Type := list (list Z).

(** [std::string_view::find(char)]. *)
Fixpoint find_char (c : Z) (s : list Z) : option nat :=
  match s with
  | [] => None
  | x :: r => if x =? c then Some 0%nat else S <$> find_char c r
  end.

(** [unescape]: [~1] becomes [/] and [~0] becomes [~]; a [~] before
    anything else, or at the end, stays. *)
Fixpoint unescape (sv : list Z) : list Z :=
  match sv with
  | [] => []
  | c :: r =>
      if c =? 126 then
        match r with
        | d :: r' =>
            if d =? 49 then 47 :: unescape r'
            else if d =? 48 then 126 :: unescape r'
            else c :: unescape r
        | [] => c :: unescape r
        end
      else c :: unescape r
  end.

(** [escape]: [~] becomes [~0] and [/] becomes [~1]. *)
Definition escape (s : list Z) : list Z :=
  flat_map (fun c => if c =? 126 then [126; 48]
                     else if c =? 47 then [126; 49]
                     else [c]) s.

(** Pass 1 of the constructor: the segments between the slashes.  Every
    round of the [do ... while (true)] loop removes one segment and one
    slash, so the length of the text plus one bounds the rounds. *)
Fixpoint segments (fuel : nat) (scan : list Z) : list (list Z) :=
  match fuel with
  | O => []
  | S fuel' =>
      match find_char 47 scan with
      | None => [scan]
      | Some pos => take pos scan :: segments fuel' (drop (S pos) scan)
      end
  end.

(** Pass 2: a segment with a [~] is unescaped, the others are taken as
    they are. *)
Definition token_of_segment (seg : list Z) : list Z :=
  match find_char 126 seg with
  | Some _ => unescape seg
  | None => seg
  end.

(** [explicit JsonPointer(std::string_view ptr)]. *)
Definition make (ptr : list Z) : outcome t :=
  match ptr with
  | [] => Returns []
  | c :: src =>
      if negb (c =? 47) then
        Throws (ExnParseError (mkParseError unexpected_character (mkLoc 1 1 0)))
      else Returns (map token_of_segment (segments (S (length src)) src))
  end.

(** [to_string()]. *)
Definition to_string (tokens : t) : list Z :=
  flat_map (fun tok => 47 :: escape tok) tokens.

Definition empty (tokens : t) : bool :=
  match tokens with [] => true | _ => false end.

Definition depth (tokens : t) : nat := length tokens.

(** [operator==]: the token vectors are compared. *)
Definition eqb (a b : t) : bool := bool_decide (a = b).

(** [append(std::string_view token)]: the text is extended and parsed
    again. *)
Definition append (tokens : t) (token : list Z) : outcome t :=
  make (to_string tokens ++ [47] ++ escape token).

(** [append(size_t index)]. *)
Definition append_index (tokens : t) (index : Z) : outcome t :=
  append tokens (std_to_string index).

(** [parent()]: the text of all tokens but the last is built and parsed
    again. *)
Definition parent (tokens : t) : outcome t :=
  match tokens with
  | [] => Returns []
  | _ :: _ =>
      let parent_str := to_string (removelast tokens) in
      match parent_str with
      | [] => Returns []
      | _ :: _ => make parent_str
      end
  end.

(** The messages of [parse_index]. *)
Definition invalid_index_message (tok : list Z) : list Z :=
  bytes_of_string "JSON pointer: invalid array index " ++ [34] ++ tok ++ [34].

Definition index_range_message (idx arr_size : Z) : list Z :=
  bytes_of_string "JSON pointer: array index " ++ std_to_string idx
  ++ bytes_of_string " >= size " ++ std_to_string arr_size.

(** [parse_index(tok, arr_size)]. *)
Definition parse_index (tok : list Z) (arr_size : Z) : outcome Z :=
  match tok with
  | [] => Throws (OutOfRangeError (invalid_index_message tok))
  | c :: r =>
      if (1 <? length tok)%nat && (c =? 48)
      then Throws (OutOfRangeError (invalid_index_message tok))
      else
        let '(idx, p, ec) := from_chars_size_t tok in
        match ec, p with
        | std_ok, [] =>
            if arr_size <=? idx
            then Throws (OutOfRangeError (index_range_message idx arr_size))
            else Returns idx
        | _, _ => Throws (OutOfRangeError (invalid_index_message tok))
        end
  end.

(** The messages of [resolve]. *)
Definition key_missing_message (tok : list Z) (i : nat) : list Z :=
  bytes_of_string "JSON pointer: key not found " ++ [34] ++ tok ++ [34]
  ++ bytes_of_string " at depth " ++ std_to_string (Z.of_nat i).

Definition cannot_index_message (cur : JsonValue) (i : nat) : list Z :=
  bytes_of_string "JSON pointer: cannot index into " ++ type_name (type cur)
  ++ bytes_of_string " at depth " ++ std_to_string (Z.of_nat i).

(** [resolve(root)]: the loop over the tokens from position [i], with
    [cur] the value reached. *)
Fixpoint resolve_loop (tokens : t) (i : nat) (cur : JsonValue)
  : outcome JsonValue :=
  match tokens with
  | [] => Returns cur
  | tok :: rest =>
      match cur with
      | JObject obj =>
          match Object_find obj tok with
          | None => Throws (OutOfRangeError (key_missing_message tok i))
          | Some p => resolve_loop rest (S i) p
          end
      | JArray arr =>
          match parse_index tok (Z.of_nat (length arr)) with
          | Throws e => Throws e
          | Returns idx =>
              match arr !! Z.to_nat idx with
              | Some x => resolve_loop rest (S i) x
              | None => Throws OtherException
              end
          end
      | _ => Throws (TypeError (cannot_index_message cur i))
      end
  end.

Definition resolve (tokens : t) (root : JsonValue) : outcome JsonValue :=
  resolve_loop tokens 0 root.

(** The digit loop of [try_resolve] over the bytes of a token, with the
    [size_t] arithmetic written out; [None] is [return nullptr]. *)
Fixpoint try_index_loop (tok : list Z) (idx : Z) (size : Z) : option Z :=
  match tok with
  | [] => Some idx
  | c :: r =>
      if (c <? 48) || (57 <? c) then None
      else
        let idx := to_uint64 (idx * 10 + to_uint64 (c - 48)) in
        if to_uint64 (size + 1) <=? idx then None
        else try_index_loop r idx size
  end.

(** [try_resolve(root)]: [None] is [nullptr]. *)
Fixpoint try_resolve (tokens : t) (cur : JsonValue) : option JsonValue :=
  match tokens with
  | [] => Some cur
  | tok :: rest =>
      match cur with
      | JObject obj =>
          match Object_find obj tok with
          | None => None
          | Some p => try_resolve rest p
          end
      | JArray arr =>
          match tok with
          | [] => None
          | c :: _ =>
              if (1 <? length tok)%nat && (c =? 48) then None
              else
                match try_index_loop tok 0 (Z.of_nat (length arr)) with
                | None => None
                | Some idx =>
                    if Z.of_nat (length arr) <=? idx then None
                    else
                      match arr !! Z.to_nat idx with
                      | Some x => try_resolve rest x
                      | None => None
                      end
                end
          end
      | _ => None
      end
  end.

(** The free function [resolve(root, pointer)]. *)
Definition resolve_text (root : JsonValue) (pointer : list Z)
  : outcome JsonValue :=
  match make pointer with
  | Throws e => Throws e
  | Returns tokens => resolve tokens root
  end.

(** ** Writing through a pointer *)

Definition cannot_traverse_message (cur : JsonValue) : list Z :=
  bytes_of_string "JSON pointer: cannot traverse " ++ type_name (type cur).

Definition cannot_set_message (cur : JsonValue) : list Z :=
  bytes_of_string "JSON pointer: cannot set in " ++ type_name (type cur).

(** The last step of [set]: [cur] is the container reached, [last] the
    last token.  The result is [cur] after the step and the exception
    thrown, if any. *)
Definition set_last (last : list Z) (cur value : JsonValue)
  : JsonValue * option exn :=
  match cur with
  | JObject entries => (JObject (Object_insert entries last value), None)
  | JArray arr =>
      if bool_decide (last = [45]) then (JArray (arr ++ [value]), None)
      else
        match parse_index last (Z.of_nat (length arr)) with
        | Throws e => (cur, Some e)
        | Returns idx => (JArray (<[ Z.to_nat idx := value ]> arr), None)
        end
  | _ => (cur, Some (TypeError (cannot_set_message cur)))
  end.

(** [set(root, value)] for a pointer with tokens: the loop over all
    tokens but the last walks [cur] down, creating an empty object under
    a key that is missing, and the last token is set in what it reaches.
    The walk is through pointers into the root, so what it changes is
    changed in the root, whether or not an exception follows; the result
    is the value at [cur] after the call, with the exception thrown.
    Where the source uses a pointer or an index without a test (the
    result of [find] after [insert], the element at an index that
    [parse_index] returned) the model has [OtherException] for the case
    that the test would catch.  The lookups and insertions are those of
    objects whose index does not lag behind the entries ([Object_find],
    [Object_insert]), which is every object of fewer than 16 entries. *)
Fixpoint set_loop (tok : list Z) (rest : list (list Z)) (cur value : JsonValue)
  : JsonValue * option exn :=
  match rest with
  | [] => set_last tok cur value
  | next :: rest' =>
      match cur with
      | JObject entries =>
          let entries1 :=
            match Object_find_pos entries tok with
            | Some _ => entries
            | None => Object_insert entries tok (JObject [])
            end in
          match Object_find_pos entries1 tok with
          | Some i =>
              match entries1 !! i with
              | Some (k, child) =>
                  let '(child', e) := set_loop next rest' child value in
                  (JObject (<[ i := (k, child') ]> entries1), e)
              | None => (JObject entries1, Some OtherException)
              end
          | None => (JObject entries1, Some OtherException)
          end
      | JArray arr =>
          match parse_index tok (Z.of_nat (length arr)) with
          | Throws e => (cur, Some e)
          | Returns idx =>
              match arr !! Z.to_nat idx with
              | Some child =>
                  let '(child', e) := set_loop next rest' child value in
                  (JArray (<[ Z.to_nat idx := child' ]> arr), e)
              | None => (cur, Some OtherException)
              end
          end
      | _ => (cur, Some (TypeError (cannot_traverse_message cur)))
      end
  end.

(** [JsonPointer::set(root, value)]: the root after the call and the
    exception thrown, if any. *)
Definition set (tokens : t) (root value : JsonValue)
  : JsonValue * option exn :=
  match tokens with
  | [] => (value, None)
  | tok :: rest => set_loop tok rest root value
  end.

(** ** Erasing through a pointer *)

(** The root after the value that [try_resolve(root)] points to has been
    given the value [x]: the walk of [try_resolve], with [x] in the place
    it ends at.  Where the walk returns [nullptr] nothing is written. *)
Fixpoint written_at (tokens : t) (cur x : JsonValue) : JsonValue :=
  match tokens with
  | [] => x
  | tok :: rest =>
      match cur with
      | JObject obj =>
          match Object_find_pos obj tok with
          | Some i =>
              match obj !! i with
              | Some (k, p) => JObject (<[ i := (k, written_at rest p x) ]> obj)
              | None => cur
              end
          | None => cur
          end
      | JArray arr =>
          match tok with
          | [] => cur
          | c :: _ =>
              if (1 <? length tok)%nat && (c =? 48) then cur
              else
                match try_index_loop tok 0 (Z.of_nat (length arr)) with
                | None => cur
                | Some idx =>
                    if Z.of_nat (length arr) <=? idx then cur
                    else
                      match arr !! Z.to_nat idx with
                      | Some p =>
                          JArray (<[ Z.to_nat idx := written_at rest p x ]> arr)
                      | None => cur
                      end
                end
          end
      | _ => cur
      end
  end.

(** [erase(root)]: the result and the root after the call.  The
    container is reached through the pointer that [try_resolve] of the
    parent returns, so what is erased in it is erased in the root.  The
    erasure in an object is [Object_erase], the scan of the entries that
    [Object::erase] makes of an object of fewer than 16 entries or
    without an index. *)
Definition erase (tokens : t) (root : JsonValue) : outcome (bool * JsonValue) :=
  match tokens with
  | [] => Returns (false, root)
  | _ :: _ =>
      match parent tokens with
      | Throws e => Throws e
      | Returns par =>
          match try_resolve par root with
          | None => Returns (false, root)
          | Some container =>
              let last := List.last tokens [] in
              match container with
              | JObject entries =>
                  let '(erased, entries') := Object_erase entries last in
                  if erased
                  then Returns (true, written_at par root (JObject entries'))
                  else Returns (false, root)
              | JArray arr =>
                  let '(idx, p, ec) := from_chars_size_t last in
                  match ec, p with
                  | std_ok, [] =>
                      if Z.of_nat (length arr) <=? idx then Returns (false, root)
                      else Returns (true,
                                    written_at par root
                                      (JArray (delete (Z.to_nat idx) arr)))
                  | _, _ => Returns (false, root)
                  end
              | _ => Returns (false, root)
              end
          end
      end
  end.

End JsonPointer.

(** ** Notions used in the statements on pointers *)

(** Every [~] of the text is followed by [0] or [1]. *)
Fixpoint well_escaped (s : list Z) : bool :=
  match s with
  | [] => true
  | c :: r =>
      if c =? 126 then
        match r with
        | d :: r' => ((d =? 48) || (d =? 49)) && well_escaped r'
        | [] => false
        end
      else well_escaped r
  end.

(** No array inside [v] has more elements than a vector of 24-byte
    values can hold in a 64-bit address space. *)
Fixpoint arrays_fit (v : JsonValue) : Prop :=
  match v with
  | JArray arr =>
      24 * Z.of_nat (length arr) < 2 ^ 64
      /\ fold_right (fun x acc => arrays_fit x /\ acc) True arr
  | JObject entries =>
      fold_right (fun e acc => arrays_fit (snd e) /\ acc) True entries
  | _ => True
  end.

(* ===================================================================== *)
(** * serializer.hpp: the stream sink                                     *)
(* ===================================================================== *)

(** [class StreamOutput]: the bytes handed to the [std::ostream] so far
    and the filled part of [buf_]. *)
Module StreamOutput.

Record t : Type := mk {
  os_ : list Z;
  buf_ : list Z
}.

Definition kBufSize : nat := 8192.

(** The constructor, over a stream that already holds [os]. *)
Definition init (os : list Z) : t := mk os [].

Definition flush (o : t) : t :=
  if (0 <? length (buf_ o))%nat then mk (os_ o ++ buf_ o) [] else o.

Definition write_slow (s : list Z) (o : t) : t :=
  let o := flush o in
  if (kBufSize <=? length s)%nat then mk (os_ o ++ s) (buf_ o)
  else mk (os_ o) s.

Definition write_c (c : Z) (o : t) : t :=
  let o := if (kBufSize <=? length (buf_ o))%nat then flush o else o in
  mk (os_ o) (buf_ o ++ [c]).

Definition write (s : list Z) (o : t) : t :=
  if (length (buf_ o) + length s <=? kBufSize)%nat
  then mk (os_ o) (buf_ o ++ s)
  else write_slow s o.

(** The destructor flushes: what the stream holds afterwards. *)
Definition finish (o : t) : list Z := os_ (flush o).

End StreamOutput.

#[export] Instance StreamOutput_Output : Output StreamOutput.t := {
  write_char := StreamOutput.write_c;
  write_bytes := StreamOutput.write
}.

(** [serialize(std::ostream& os, value, opts)]: the stream after the
    call. *)
Definition serialize_to_stream `{Charconv} (os : list Z) (value : JsonValue)
    (opts : SerializeOptions.t) : list Z :=
  StreamOutput.finish (SerializerImpl_serialize opts value (StreamOutput.init os)).

(** [operator<<(std::ostream& os, const JsonValue& value)]. *)
Definition stream_insert `{Charconv} (os : list Z) (value : JsonValue) : list Z :=
  StreamOutput.finish
    (SerializerImpl_serialize SerializeOptions.default value (StreamOutput.init os)).

(* ===================================================================== *)
(** * json_writer.hpp: the incremental writer                             *)
(* ===================================================================== *)

(** [std::to_chars] of an integer into a buffer of [cap] bytes, as the
    standard defines it: a minus sign for a negative value and the
    decimal digits; [None] when the text does not fit. *)
Definition to_chars_integer (cap : nat) (v : Z) : option (list Z) :=
  let text := if v <? 0 then 45 :: std_to_string (- v) else std_to_string v in
  if (length text <=? cap)%nat then Some text else None.

Module JsonWriter.

(** [enum class State]. *)
Inductive State : Type :=
  | ObjectStart | ObjectKey | ObjectValue | ArrayStart | ArrayValue.

(** [class JsonWriter] over a string buffer: [sbuf_] is the string the
    writer appends to; [stack_] is kept with its back first. *)
Record t : Type := mk {
  sbuf_ : list Z;
  indent_ : Z;
  depth_ : Z;
  value_written_ : bool;
  stack_ : list State
}.

(** [JsonWriter(std::string& out, int indent = -1)]. *)
Definition make (out : list Z) (indent : Z) : t := mk out indent 0 false [].

Definition write_raw (data : list Z) (w : t) : t :=
  mk (sbuf_ w ++ data) (indent_ w) (depth_ w) (value_written_ w) (stack_ w).

Definition set_stack (st : list State) (w : t) : t :=
  mk (sbuf_ w) (indent_ w) (depth_ w) (value_written_ w) st.

Definition set_depth (d : Z) (w : t) : t :=
  mk (sbuf_ w) (indent_ w) d (value_written_ w) (stack_ w).

(** The chunked loop of [write_newline]; [total] spaces take at most
    [total] rounds. *)
Fixpoint write_spaces (fuel : nat) (total : Z) (w : t) : t :=
  match fuel with
  | O => w
  | S fuel' =>
      if 0 <? total then
        let chunk := if total <? 64 then total else 64 in
        write_spaces fuel' (total - chunk) (write_raw (replicate (Z.to_nat chunk) 32) w)
      else w
  end.

Definition write_newline (w : t) : t :=
  if indent_ w <? 0 then w
  else
    let w := write_raw [10] w in
    let total := to_uint64 (depth_ w * to_uint64 (indent_ w)) in
    write_spaces (Z.to_nat total) total w.

(** The [switch] of [write_escaped_string]: the two-byte escape of [c],
    if it has one. *)
Definition short_escape (c : Z) : option (list Z) :=
  if c =? 34 then Some [92; 34]
  else if c =? 92 then Some [92; 92]
  else if c =? 8 then Some [92; 98]
  else if c =? 12 then Some [92; 102]
  else if c =? 10 then Some [92; 110]
  else if c =? 13 then Some [92; 114]
  else if c =? 9 then Some [92; 116]
  else None.

(** The loop of [write_escaped_string] over the unread bytes [p]; [seg]
    holds the bytes between the pointers [seg] and [p], read and not yet
    written. *)
Fixpoint write_escaped_loop (p : list Z) (seg : list Z) (w : t) : t :=
  match p with
  | [] => if (0 <? length seg)%nat then write_raw seg w else w
  | c :: r =>
      match short_escape c with
      | Some esc =>
          let w := if (0 <? length seg)%nat then write_raw seg w else w in
          write_escaped_loop r [] (write_raw esc w)
      | None =>
          if c <? 0x20 then
            let w := if (0 <? length seg)%nat then write_raw seg w else w in
            let ubuf := [92; 117; 48; 48;
                         nth (Z.to_nat (Z.land (Z.shiftr c 4) 0xF)) kHexDigits 0;
                         nth (Z.to_nat (Z.land c 0xF)) kHexDigits 0] in
            write_escaped_loop r [] (write_raw ubuf w)
          else write_escaped_loop r (seg ++ [c]) w
      end
  end.

Definition write_escaped_string (sv : list Z) (w : t) : t :=
  let w := write_raw [34] w in
  let w := write_escaped_loop sv [] w in
  write_raw [34] w.

Definition pre_value (w : t) : t :=
  match stack_ w with
  | [] => w
  | top :: below =>
      match top with
      | ObjectKey => w
      | ArrayValue => write_newline (write_raw [44] w)
      | ArrayStart => set_stack (ArrayValue :: below) (write_newline w)
      | ObjectStart | ObjectValue => w
      end
  end.

Definition post_value (w : t) : t :=
  let w := mk (sbuf_ w) (indent_ w) (depth_ w) true (stack_ w) in
  match stack_ w with
  | [] => w
  | top :: below =>
      match top with
      | ObjectKey => set_stack (ObjectValue :: below) w
      | ArrayStart => set_stack (ArrayValue :: below) w
      | _ => w
      end
  end.

Definition null_value (w : t) : t :=
  post_value (write_raw (bytes_of_string "null") (pre_value w)).

Definition bool_value (v : bool) (w : t) : t :=
  let w := pre_value w in
  let w := if v then write_raw (bytes_of_string "true") w
           else write_raw (bytes_of_string "false") w in
  post_value w.

Definition int_value (v : Z) (w : t) : t :=
  let w := pre_value w in
  let w := match to_chars_integer 21 v with
           | Some text => write_raw text w
           | None => write_raw [48] w
           end in
  post_value w.

Definition uint_value (v : Z) (w : t) : t :=
  let w := pre_value w in
  let w := match to_chars_integer 21 v with
           | Some text => write_raw text w
           | None => write_raw [48] w
           end in
  post_value w.

Definition float_value `{Charconv} (v : double) (w : t) : t :=
  let w := pre_value w in
  let w :=
    if disnan v || disinf v then write_raw (bytes_of_string "null") w
    else
      let text := to_chars v in
      let w := write_raw text w in
      if has_dot text then w else write_raw [46; 48] w in
  post_value w.

Definition string_value (sv : list Z) (w : t) : t :=
  post_value (write_escaped_string sv (pre_value w)).

Definition raw_json (json : list Z) (w : t) : t :=
  post_value (write_raw json (pre_value w)).

Definition begin_object (w : t) : t :=
  let w := write_raw [123] (pre_value w) in
  set_depth (to_uint64 (depth_ w + 1)) (set_stack (ObjectStart :: stack_ w) w).

Definition begin_array (w : t) : t :=
  let w := write_raw [91] (pre_value w) in
  set_depth (to_uint64 (depth_ w + 1)) (set_stack (ArrayStart :: stack_ w) w).

Definition end_object (w : t) : outcome t :=
  match stack_ w with
  | ObjectStart :: below | ObjectValue :: below =>
      let empty_obj := match stack_ w with ObjectStart :: _ => true | _ => false end in
      let w := set_depth (to_uint64 (depth_ w - 1)) (set_stack below w) in
      let w := if empty_obj then w else write_newline w in
      Returns (post_value (write_raw [125] w))
  | _ =>
      Throws (TypeError
                (bytes_of_string
                   "JsonWriter: end_object() without matching begin_object()"))
  end.

Definition end_array (w : t) : outcome t :=
  match stack_ w with
  | ArrayStart :: below | ArrayValue :: below =>
      let empty_arr := match stack_ w with ArrayStart :: _ => true | _ => false end in
      let w := set_depth (to_uint64 (depth_ w - 1)) (set_stack below w) in
      let w := if empty_arr then w else write_newline w in
      Returns (post_value (write_raw [93] w))
  | _ =>
      Throws (TypeError
                (bytes_of_string
                   "JsonWriter: end_array() without matching begin_array()"))
  end.

Definition key (k : list Z) (w : t) : outcome t :=
  match stack_ w with
  | ObjectStart :: below | ObjectValue :: below =>
      let w := match stack_ w with
               | ObjectValue :: _ => write_raw [44] w
               | _ => w
               end in
      let w := write_newline w in
      let w := write_escaped_string k w in
      let w := write_raw [58] w in
      let w := if 0 <=? indent_ w then write_raw [32] w else w in
      Returns (set_stack (ObjectKey :: below) w)
  | _ =>
      Throws (TypeError (bytes_of_string "JsonWriter: key() outside of object context"))
  end.

Definition is_complete (w : t) : bool :=
  match stack_ w with [] => value_written_ w | _ => false end.

Definition depth (w : t) : Z := depth_ w.

End JsonWriter.

(** ** Notions used in the statements on the serializer and the writer *)

(** The calls that write the value [v] through a [JsonWriter]: a scalar
    by the call for its kind, a container by its [begin_], the members in
    order (each entry as [key] and then the value) and its [end_]. *)
Section Emit.
Context `{Charconv}.

Definition then_outcome {A B : Type} (m : outcome A) (k : A -> outcome B)
  : outcome B :=
  match m with
  | Returns a => k a
  | Throws e => Throws e
  end.

Fixpoint emit (v : JsonValue) (w : JsonWriter.t) : outcome JsonWriter.t :=
  match v with
  | JNull => Returns (JsonWriter.null_value w)
  | JBool b => Returns (JsonWriter.bool_value b w)
  | JInteger i => Returns (JsonWriter.int_value i w)
  | JUInteger u => Returns (JsonWriter.uint_value u w)
  | JFloat d => Returns (JsonWriter.float_value d w)
  | JString s => Returns (JsonWriter.string_value s w)
  | JArray arr =>
      then_outcome
        (fold_left (fun m x => then_outcome m (emit x)) arr
                   (Returns (JsonWriter.begin_array w)))
        JsonWriter.end_array
  | JObject entries =>
      then_outcome
        (fold_left (fun m e =>
                      then_outcome (then_outcome m (JsonWriter.key (fst e)))
                                   (emit (snd e)))
                   entries (Returns (JsonWriter.begin_object w)))
        JsonWriter.end_object
  end.

End Emit.

(** The output of the serializer as a function of the value, for every
    instantiation: [cur] is the current indent. *)
Section Render.
Context `{Charconv}.
Variables (Pretty EnsureAscii : bool) (opts : SerializeOptions.t).

Definition newline_text : list Z := if Pretty then [10] else [].

Definition indent_text (cur : Z) : list Z :=
  if Pretty then replicate (Z.to_nat cur) 32 else [].

Definition indent_step : Z := if Pretty then SerializeOptions.indent opts else 0.

Definition escaped_codepoint (cp : Z) : list Z :=
  if cp <=? 0xFFFF then SerializerCore.write_u16 (cp mod 2 ^ 16)
  else
    let adj := cp - 0x10000 in
    SerializerCore.write_u16 ((0xD800 + Z.shiftr adj 10) mod 2 ^ 16)
    ++ SerializerCore.write_u16 ((0xDC00 + Z.land adj 0x3FF) mod 2 ^ 16).

(** The escaped form of the bytes of a string; with [EnsureAscii] a byte
    from 0x80 on starts a decoding step, which consumes at least that
    byte. *)
Fixpoint escaped_bytes (fuel : nat) (ptr : list Z) : list Z :=
  match fuel with
  | O => []
  | S fuel' =>
      match ptr with
      | [] => []
      | c :: rest =>
          if c <? 0x20 then kControlEscapes c ++ escaped_bytes fuel' rest
          else if c =? 34 then [92; 34] ++ escaped_bytes fuel' rest
          else if c =? 92 then [92; 92] ++ escaped_bytes fuel' rest
          else if EnsureAscii && (0x80 <=? c) then
            let '(cp, p) := utf8.decode ptr in
            escaped_codepoint cp ++ escaped_bytes fuel' p
          else c :: escaped_bytes fuel' rest
      end
  end.

Definition rendered_string (s : list Z) : list Z :=
  [34] ++ escaped_bytes (length s) s ++ [34].

Definition rendered_float (d : double) : list Z :=
  if disnan d then
    if SerializeOptions.allow_nan_inf opts then bytes_of_string "NaN"
    else bytes_of_string "null"
  else if disinf d then
    if SerializeOptions.allow_nan_inf opts then
      (if dlt d (S754_zero false) then [45] else []) ++ bytes_of_string "Infinity"
    else bytes_of_string "null"
  else fast_dtoa d.

(** The members of a container, each on its line when [Pretty]. *)
Definition rendered_members (cur : Z) (items : list (list Z)) : list Z :=
  match items with
  | [] => []
  | x :: r =>
      indent_text cur ++ x
      ++ flat_map (fun y => [44] ++ newline_text ++ indent_text cur ++ y) r
  end.

Definition rendered_entry (key : list Z) (text : list Z) : list Z :=
  rendered_string key ++ [58] ++ (if Pretty then [32] else []) ++ text.

Fixpoint render (cur : Z) (v : JsonValue) : list Z :=
  match v with
  | JNull => bytes_of_string "null"
  | JBool b => if b then bytes_of_string "true" else bytes_of_string "false"
  | JInteger i => integer_text i
  | JUInteger u => write_u64 u
  | JFloat d => rendered_float d
  | JString s => rendered_string s
  | JArray arr =>
      match arr with
      | [] => bytes_of_string "[]"
      | _ :: _ =>
          [91] ++ newline_text
          ++ rendered_members (cur + indent_step)
               (map (render (cur + indent_step)) arr)
          ++ newline_text ++ indent_text cur ++ [93]
      end
  | JObject entries =>
      match entries with
      | [] => bytes_of_string "{}"
      | _ :: _ =>
          let es := map (fun e => (fst e, render (cur + indent_step) (snd e)))
                        entries in
          let es := if SerializeOptions.sort_keys opts
                    then SerializerCore.sort_by_key es else es in
          [123] ++ newline_text
          ++ rendered_members (cur + indent_step)
               (map (fun e => rendered_entry (fst e) (snd e)) es)
          ++ newline_text ++ indent_text cur ++ [125]
      end
  end.

End Render.

(** The text [serialize(value, opts)] returns. *)
Definition rendered `{Charconv} (opts : SerializeOptions.t) (v : JsonValue)
  : list Z :=
  render (0 <=? SerializeOptions.indent opts) (SerializeOptions.ensure_ascii opts)
         opts 0 v.

(** ** Notions used in the statements on the writer *)

(** No [Float] inside [v], and every integer in the range of its C++
    type. *)
Fixpoint integers_only (v : JsonValue) : Prop :=
  match v with
  | JFloat _ => False
  | JInteger i => is_int64 i
  | JUInteger u => is_uint64 u
  | JArray arr => fold_right (fun x acc => integers_only x /\ acc) True arr
  | JObject entries =>
      fold_right (fun e acc => integers_only (snd e) /\ acc) True entries
  | _ => True
  end.

(** The serializer options that only set the indent. *)
Definition indent_only (indent : Z) : SerializeOptions.t :=
  SerializeOptions.mk indent false false false.

(** What [JsonWriter::write_newline] writes at nesting depth [d]. *)
Definition writer_newline (indent d : Z) : list Z :=
  if indent <? 0 then [] else 10 :: replicate (Z.to_nat (d * indent)) 32.

(** What [pre_value] writes before a value, by the state on top of the
    stack. *)
Definition writer_prefix (indent d : Z) (stack : list JsonWriter.State) : list Z :=
  match stack with
  | JsonWriter.ArrayStart :: _ => writer_newline indent d
  | JsonWriter.ArrayValue :: _ => [44] ++ writer_newline indent d
  | _ => []
  end.

(** The stack after a value has been written. *)
Definition after_value (stack : list JsonWriter.State) : list JsonWriter.State :=
  match stack with
  | JsonWriter.ObjectKey :: below => JsonWriter.ObjectValue :: below
  | JsonWriter.ArrayStart :: below => JsonWriter.ArrayValue :: below
  | _ => stack
  end.

(** The writer is where a value may follow: at the root, inside an array,
    or after a key. *)
Definition expects_value (stack : list JsonWriter.State) : Prop :=
  match stack with
  | [] | JsonWriter.ArrayStart :: _ | JsonWriter.ArrayValue :: _
  | JsonWriter.ObjectKey :: _ => True
  | _ => False
  end.

(** ** Notions used in the statements on the parser state *)

(** [returns m p Q]: if [m] returns from state [p], the value and the
    state it returns satisfy [Q]. *)
Definition returns {A : Type} (m : Parser.M A) (p : Parser.t)
    (Q : A -> Parser.t -> Prop) : Prop :=
  match m p with
  | Parser.Ok a p' => Q a p'
  | _ => True
  end.

(** The options, the depth counter and the depth limit of [p'] are those
    of [p]. *)
Definition keeps (p p' : Parser.t) : Prop :=
  Parser.opts_ p' = Parser.opts_ p
  /\ Parser.depth_ p' = Parser.depth_ p
  /\ Parser.max_depth_ p' = Parser.max_depth_ p.

(** [m] moves the read position only, and a value it returns
    satisfies [R]. *)
Definition scans {A : Type} (R : A -> Prop) (m : Parser.M A) : Prop :=
  forall p, returns m p (fun a p' => keeps p p' /\ R a).

(** The value returned at the depth of [p] stays within the limit. *)
Definition within_limit (p : Parser.t) : JsonValue -> Parser.t -> Prop :=
  fun v p' =>
    keeps p p' /\ (Parser.depth_ p + depth v <= Parser.max_depth_ p)%nat.

(** The same for the loops, which are entered one level down and leave
    it. *)
Definition closes_level (p : Parser.t) : JsonValue -> Parser.t -> Prop :=
  fun v p' =>
    keeps (Parser.with_depth p (Parser.size_t_pred (Parser.depth_ p))) p'
    /\ (Parser.size_t_pred (Parser.depth_ p) + depth v <= Parser.max_depth_ p)%nat.

(** ** Notions used in the statements on sorted output *)

(** [v] with the entries of every object inside it in the order in which
    [write_object_sorted] writes them. *)
Fixpoint sorted_value (v : JsonValue) : JsonValue :=
  match v with
  | JArray arr => JArray (map sorted_value arr)
  | JObject entries =>
      JObject (SerializerCore.sort_by_key
                 (map (fun e => (fst e, sorted_value (snd e))) entries))
  | _ => v
  end.

(** The keys of every object inside [v] are pairwise different (between
    equal keys the order of [std::sort] is not determined). *)
Fixpoint distinct_keys (v : JsonValue) : Prop :=
  match v with
  | JArray arr => fold_right (fun x acc => distinct_keys x /\ acc) True arr
  | JObject entries =>
      NoDup (map fst entries)
      /\ fold_right (fun e acc => distinct_keys (snd e) /\ acc) True entries
  | _ => True
  end.

(** ** Notions used in the statements on the bytes of the output *)

(** Every integer inside [v] is in the range of its C++ type. *)
Fixpoint integers_in_range (v : JsonValue) : Prop :=
  match v with
  | JInteger i => is_int64 i
  | JUInteger u => is_uint64 u
  | JArray arr => fold_right (fun x acc => integers_in_range x /\ acc) True arr
  | JObject entries =>
      fold_right (fun e acc => integers_in_range (snd e) /\ acc) True entries
  | _ => True
  end.

(** A 7-bit byte. *)
Definition is_ascii (b : Z) : Prop := 0 <= b < 128.

(** ** Notions used in the statements on the text the parser reads *)

(** The unread input is valid UTF-8, or at most one byte of it is left
    (where the scan of an unclosed block comment stops). *)
Definition at_boundary (l : list Z) : Prop :=
  utf8.validate l = true \/ (length l <= 1)%nat.

(** From a state whose unread input is at a boundary, [m] returns in
    such a state, with a value that satisfies [R]. *)
Definition keeps_boundary {A : Type} (R : A -> Prop) (m : Parser.M A) : Prop :=
  forall p, at_boundary (Parser.ptr_ p) ->
            returns m p (fun a p' => at_boundary (Parser.ptr_ p') /\ R a).

(** ** Notions used in the statements on erasing through a pointer *)

(** [c'] is the container [c] without the member that the token [last]
    names: the entry of that key, or the element at the index whose
    decimal digits the token is. *)
Definition erased_from (last : list Z) (c c' : JsonValue) : Prop :=
  match c with
  | JObject entries =>
      In last (map fst entries)
      /\ c' = JObject (filter (fun e => fst e <> last) entries)
  | JArray arr =>
      last <> [] /\ forallb Parser.is_digit last = true
      /\ decimal_value last < Z.of_nat (length arr)
      /\ c' = JArray (delete (Z.to_nat (decimal_value last)) arr)
  | _ => False
  end.

(** ** Notions used in the statements on reading the text back *)

(** Every string and key of [v] is valid UTF-8, as [utf8::validate]
    judges it. *)
Fixpoint utf8_strings (v : JsonValue) : Prop :=
  match v with
  | JString s => utf8.validate s = true
  | JArray arr => fold_right (fun x acc => utf8_strings x /\ acc) True arr
  | JObject entries =>
      fold_right (fun e acc =>
                    (utf8.validate (fst e) = true /\ utf8_strings (snd e)) /\ acc)
                 True entries
  | _ => True
  end.

(** [opts] with [sort_keys] off. *)
Definition without_sort_keys (opts : SerializeOptions.t) : SerializeOptions.t :=
  SerializeOptions.mk (SerializeOptions.indent opts)
                      (SerializeOptions.ensure_ascii opts)
                      (SerializeOptions.allow_nan_inf opts) false.

(** The value whose entries are in the order in which [opts] has them
    written. *)
Definition written_form (opts : SerializeOptions.t) (v : JsonValue) : JsonValue :=
  if SerializeOptions.sort_keys opts then sorted_value v else v.

(** The serializer options of an indented text in 7-bit bytes. *)
Definition indented_ascii (indent : Z) : SerializeOptions.t :=
  SerializeOptions.mk indent true false false.

(** An object whose key is U+00E9 and whose member is an array of a
    string (U+20AC, U+1F600, a quote and a line feed), -5 and the empty
    array. *)
Definition sample_utf8_value : JsonValue :=
  JObject
    [([195; 169],
      JArray [JString [226; 130; 172; 240; 159; 152; 128; 34; 10];
              JInteger (-5); JArray []])].


(* ===================================================================== *)
(** * arena.hpp: the monotonic arena                                      *)
(* ===================================================================== *)

(** [class MonotonicArena].  Addresses ([char*], [uintptr_t]) and sizes
    ([size_t]) are 64-bit numbers, the null pointer is 0; the arithmetic
    on [uintptr_t] and [size_t] wraps, and so does the addition of a
    [size_t] to a [char*] ([result + size], [buf + buf_size],
    [ptr_ + data_size]), which is a 64-bit addition of addresses.  A heap
    block is the address of its
    [Block] header and its capacity; the list [blocks_] has the newest
    block first.  What [std::malloc] returns is an argument of the
    operations that call it ([None] for a null pointer). *)
Module MonotonicArena.

Record t : Type := mk {
  ptr_ : Z;
  end_ : Z;
  initial_buf_ : Z;
  initial_size_ : Z;
  blocks_ : list (Z * Z);
  total_allocated_ : Z;
  next_block_size_ : Z
}.

(** [sizeof(Block)]: a pointer and a [size_t]. *)
Definition sizeof_Block : Z := 16.

(** [Block::data()]. *)
Definition data (block : Z) : Z := to_uint64 (block + sizeof_Block).

(** [MonotonicArena(void* buf, size_t buf_size)]. *)
Definition with_buffer (buf buf_size : Z) : t :=
  mk buf (to_uint64 (buf + buf_size)) buf buf_size [] buf_size
     (if buf_size <? 4096 then 4096 else to_uint64 (buf_size * 2)).

(** [grow(data_size)]. *)
Definition grow (data_size : Z) (malloc : option Z) (a : t) : t :=
  let total := to_uint64 (sizeof_Block + data_size) in
  match malloc with
  | None => a
  | Some block =>
      mk (data block) (to_uint64 (data block + data_size))
         (initial_buf_ a) (initial_size_ a)
         ((block, data_size) :: blocks_ a)
         (to_uint64 (total_allocated_ a + total))
         (to_uint64 (data_size * 2))
  end.

(** [MonotonicArena(size_t initial_size)]. *)
Definition heap_only (initial_size : Z) (malloc : option Z) : t :=
  let next := if initial_size <? 256 then 256 else initial_size in
  grow next malloc (mk 0 0 0 0 [] 0 next).

(** [(cur + align - 1) & ~(align - 1)] on [uintptr_t]. *)
Definition aligned (cur align : Z) : Z :=
  Z.land (to_uint64 (cur + align - 1)) (to_uint64 (Z.lnot (to_uint64 (align - 1)))).

Definition bump (a : t) (p : Z) : t :=
  mk p (end_ a) (initial_buf_ a) (initial_size_ a) (blocks_ a)
     (total_allocated_ a) (next_block_size_ a).

(** [allocate_slow(size, align)]: the result (0 for [nullptr]) and the
    arena after the call. *)
Definition allocate_slow (size align : Z) (malloc : option Z) (a : t) : Z * t :=
  let needed := to_uint64 (size + align - 1) in
  let block_size := next_block_size_ a in
  let block_size := if block_size <? needed then needed else block_size in
  let a := grow block_size malloc a in
  let result := aligned (ptr_ a) align in
  let past := to_uint64 (result + size) in
  if past <=? end_ a then (result, bump a past)
  else (0, a).

(** [allocate(size, align)]. *)
Definition allocate (size align : Z) (malloc : option Z) (a : t) : Z * t :=
  let result := aligned (ptr_ a) align in
  let past := to_uint64 (result + size) in
  if past <=? end_ a then (result, bump a past)
  else allocate_slow size align malloc a.

(** [reset()]: the blocks are freed; a heap-only arena takes a fresh
    block. *)
Definition reset (malloc : option Z) (a : t) : t :=
  if initial_buf_ a =? 0 then
    grow (if 0 <? next_block_size_ a then next_block_size_ a / 2 else 4096) malloc
         (mk 0 0 (initial_buf_ a) (initial_size_ a) [] 0 (next_block_size_ a))
  else
    mk (initial_buf_ a) (to_uint64 (initial_buf_ a + initial_size_ a))
       (initial_buf_ a) (initial_size_ a) [] (initial_size_ a)
       (next_block_size_ a).

Definition bytes_allocated (a : t) : Z := total_allocated_ a.

(** [data_capacity()]: the loop over the blocks. *)
Definition data_capacity (a : t) : Z :=
  fold_left (fun cap b => to_uint64 (cap + snd b)) (blocks_ a) (initial_size_ a).

Definition bytes_remaining (a : t) : Z :=
  if negb (ptr_ a =? 0) && (ptr_ a <? end_ a) then end_ a - ptr_ a else 0.

Definition bytes_used (a : t) : Z := to_uint64 (data_capacity a - bytes_remaining a).

Definition block_count (a : t) : Z :=
  fold_left (fun n _ => to_uint64 (n + 1)) (blocks_ a) 0.

End MonotonicArena.

(** ** Notions used in the statements on the arena *)

(** A call on an arena: [allocate] or [reset], with what [std::malloc]
    returns if the call reaches it. *)
Inductive arena_call : Type :=
  | Allocate (size align : Z) (malloc : option Z)
  | Reset (malloc : option Z).

Definition arena_step (a : MonotonicArena.t) (c : arena_call) : MonotonicArena.t :=
  match c with
  | Allocate size align malloc => snd (MonotonicArena.allocate size align malloc a)
  | Reset malloc => MonotonicArena.reset malloc a
  end.

(** The bytes of the heap blocks, headers included. *)
Definition heap_bytes (a : MonotonicArena.t) : Z :=
  fold_right (fun b acc => MonotonicArena.sizeof_Block + snd b + acc) 0
             (MonotonicArena.blocks_ a).

(** The arena has a current block that lies below [2^64], and its next
    block size is a [size_t]. *)
Definition arena_ready (a : MonotonicArena.t) : Prop :=
  0 < MonotonicArena.ptr_ a <= MonotonicArena.end_ a
  /\ MonotonicArena.end_ a < 2 ^ 64
  /\ 0 <= MonotonicArena.next_block_size_ a < 2 ^ 64.

(** A block of [capacity] data bytes at [block], as [std::malloc] gives
    it: it is not null and, with its header, ends below [2^64]. *)
Definition block_fits (block capacity : Z) : Prop :=
  0 < block /\ block + MonotonicArena.sizeof_Block + capacity < 2 ^ 64.

(** The capacity [allocate_slow] asks for. *)
Definition requested_capacity (a : MonotonicArena.t) (size align : Z) : Z :=
  Z.max (MonotonicArena.next_block_size_ a) (size + align - 1).

(* ===================================================================== *)
(** * value.hpp: values with the hash index of their objects              *)
(* ===================================================================== *)

(** [JsonValue] above is what a value holds.  An [Object] of the source
    carries, besides its entries, the lazily created [index_], which
    [find], [insert] and [erase] consult once the object has 16 entries
    and which not every mutation refreshes.  [Stored.t] is a value
    together with the [index_] of every object inside it ([None] is the
    null [unique_ptr]); the operations whose answer depends on an index
    left behind by earlier calls are given on it. *)
Module Stored.

Unset Elimination Schemes.
Inductive t : Type :=
  | Null
  | Bool (b : bool)
  | Integer (i : Z)
  | UInteger (u : Z)
  | Float (d : double)
  | String (s : list Z)
  | Array (arr : list t)
  | Object (entries : list (list Z * t)) (index_ : option (gmap (list Z) nat)).
Set Elimination Schemes.

(** What the value holds: the serializer, which walks the entries and
    never looks a key up, writes the text of [content v]. *)
Fixpoint content (v : t) : JsonValue :=
  match v with
  | Null => JNull
  | Bool b => JBool b
  | Integer i => JInteger i
  | UInteger u => JUInteger u
  | Float d => JFloat d
  | String s => JString s
  | Array arr => JArray (map content arr)
  | Object entries _ => JObject (map (fun e => (fst e, content (snd e))) entries)
  end.

(** [const JsonValue* Object::find(std::string_view key) const]: the
    position of the entry the returned pointer refers to, [None] for
    [nullptr].  With 16 entries or more the index is consulted, after
    [ensure_index] has built it from the entries when it was absent;
    otherwise the entries are scanned. *)
Definition find_pos (entries : list (list Z * t))
    (index_ : option (gmap (list Z) nat)) (key : list Z) : option nat :=
  if (kIndexThreshold <=? length entries)%nat then
    match index_ with
    | Some index => index !! key
    | None => Object_rebuild_index entries !! key
    end
  else Object_linear_find entries key.

(** The value behind the pointer.  A position outside the entries, which
    the source would read unchecked, is given as [None]. *)
Definition find (entries : list (list Z * t))
    (index_ : option (gmap (list Z) nat)) (key : list Z) : option t :=
  match find_pos entries index_ key with
  | Some i => snd <$> entries !! i
  | None => None
  end.

(** [ensure_index()] as [find] calls it, and the index after a lookup:
    it is created where the object has 16 entries or more and none yet. *)
Definition ensure_index (entries : list (list Z * t))
    (index_ : option (gmap (list Z) nat)) : option (gmap (list Z) nat) :=
  if (kIndexThreshold <=? length entries)%nat then
    match index_ with
    | None => Some (Object_rebuild_index entries)
    | Some index => Some index
    end
  else index_.

(** [update_index_after_push(old_data)] behind [if (index_)], on the
    entries after the append.  [moved] is the outcome of the test
    [entries.data() != old_data]. *)
Definition update_index_after_push (entries : list (list Z * t))
    (index_ : option (gmap (list Z) nat)) (moved : bool)
  : option (gmap (list Z) nat) :=
  match index_ with
  | None => None
  | Some index =>
      Some (if moved then Object_rebuild_index entries
            else match last entries with
                 | Some e => <[ fst e := (length entries - 1)%nat ]> index
                 | None => index
                 end)
  end.

(** [const JsonValue& JsonValue::operator[](std::string_view key) const]:
    [as_object()], then [find], and [OutOfRangeError] for [nullptr]. *)
Definition index_const (v : t) (key : list Z) : outcome t :=
  match v with
  | Object entries index_ =>
      match find entries index_ key with
      | None => Throws (OutOfRangeError (key_not_found_message key))
      | Some p => Returns p
      end
  | _ => type_error "object" (content v)
  end.

(** [JsonValue& JsonValue::operator[](std::string_view key)], which is
    [Object::operator[]] on an object: the value after the call and the
    position, in its entries, of the entry the returned reference
    designates.  A key that [find] misses is appended with a null value,
    and an index that exists is updated for it. *)
Definition index_mut (v : t) (key : list Z) (moved : bool) : outcome (t * nat) :=
  match v with
  | Object entries index_ =>
      let index1 := ensure_index entries index_ in
      match find_pos entries index_ key with
      | Some i => Returns (Object entries index1, i)
      | None =>
          let entries' := entries ++ [(key, Null)] in
          Returns (Object entries' (update_index_after_push entries' index1 moved),
                   length entries)
      end
  | _ => type_error "object" (content v)
  end.

(** What a reference obtained from [index_mut] designates. *)
Definition referenced (r : t * nat) : option t :=
  match fst r with
  | Object entries _ => snd <$> entries !! snd r
  | _ => None
  end.

(** [JsonValue::operator==] with [Object::operator==] inlined: every
    entry of the left object is looked up with [find] in the right
    object, and the value found is asked to compare itself with the
    value of the entry.  Fuel as for [equal]. *)
Fixpoint equal_fuel (fuel : nat) (a b : t) : bool :=
  match fuel with
  | O => false
  | S n =>
      match a, b with
      | Null, Null => true
      | Bool x, Bool y => eqb x y
      | Integer x, Integer y => x =? y
      | UInteger x, UInteger y => x =? y
      | Float x, Float y => deq x y
      | String x, String y => bool_decide (x = y)
      | Array x, Array y =>
          (length x =? length y)%nat && forallb2 (equal_fuel n) x y
      | Object x _, Object y index_y =>
          (length x =? length y)%nat
          && forallb (fun e =>
                        match find y index_y (fst e) with
                        | None => false
                        | Some p => equal_fuel n p (snd e)
                        end) x
      | Integer sv, UInteger uv | UInteger uv, Integer sv =>
          (0 <=? sv) && (to_uint64 sv =? uv)
      | Integer i, Float d => deq (double_of_Z i) d
      | Float d, Integer i => deq d (double_of_Z i)
      | UInteger u, Float d => deq (double_of_Z u) d
      | Float d, UInteger u => deq d (double_of_Z u)
      | _, _ => false
      end
  end.

Definition equal (a b : t) : bool := equal_fuel (S (depth (content a))) a b.

(** The value as [parse] stores it, for a text in which no object repeats
    a key: [finalize_object] builds the index ([rebuild_index]) of an
    object of 16 entries or more, and of no other. *)
Fixpoint parsed (v : JsonValue) : t :=
  match v with
  | JNull => Null
  | JBool b => Bool b
  | JInteger i => Integer i
  | JUInteger u => UInteger u
  | JFloat d => Float d
  | JString s => String s
  | JArray arr => Array (map parsed arr)
  | JObject entries =>
      Object (map (fun e => (fst e, parsed (snd e))) entries)
             (if (kIndexThreshold <=? length entries)%nat
              then Some (Object_rebuild_index entries)
              else None)
  end.

(** The value that holds the object [o], whose own values carry no index
    of their own. *)
Definition of_object (o : Object.t) : t :=
  Object (map (fun e => (fst e, parsed (snd e))) (Object.entries o))
         (Object.index_ o).

End Stored.

(** ** Notions used in the statements on stored values *)

(** A lookup in the object reads no index that lags behind the entries:
    with 16 entries or more the index is absent, to be built by the
    lookup, or equal to what [rebuild_index] makes of the entries. *)
Definition index_usable {V : Type} (entries : list (list Z * V))
    (index_ : option (gmap (list Z) nat)) : Prop :=
  (kIndexThreshold <= length entries)%nat ->
  match index_ with
  | None => True
  | Some index => index = Object_rebuild_index entries
  end.

(** Every object inside [v] has fewer than [n] entries.  Below 16
    entries [find], [insert] and [erase] of an object scan the entries
    and consult no index. *)
Fixpoint objects_below (n : nat) (v : JsonValue) : Prop :=
  match v with
  | JArray arr => fold_right (fun x acc => objects_below n x /\ acc) True arr
  | JObject entries =>
      (length entries < n)%nat
      /\ fold_right (fun e acc => objects_below n (snd e) /\ acc) True entries
  | _ => True
  end.

(** No lookup in [v] reads an index that lags behind the entries: every
    object of 16 entries or more has its index absent, to be built at
    the first lookup, or equal to what [rebuild_index] makes of the
    entries. *)
Fixpoint indexes_usable (v : Stored.t) : Prop :=
  match v with
  | Stored.Array arr => fold_right (fun x acc => indexes_usable x /\ acc) True arr
  | Stored.Object entries index_ =>
      ((kIndexThreshold <= length entries)%nat ->
       match index_ with
       | None => True
       | Some index => index = Object_rebuild_index entries
       end)
      /\ fold_right (fun e acc => indexes_usable (snd e) /\ acc) True entries
  | _ => True
  end.

(** The object left by a lookup in [sixteen_entries], which creates the
    index, the erasure of the key [a], which rebuilds the index over 15
    entries, and the insertion of the key [q], which appends the entry
    and leaves the index as it is: 16 entries again, and an index that
    does not know the last one. *)
Definition after_erase_and_insert : Object.t :=
  Object.insert
    (snd (Object.erase (snd (Object.find sixteen_entries [97])) [97]))
    [113] (JInteger 16) false.

(** A value with a [Float]: the array of 1.5 and an object whose key [k]
    holds -0.25. *)
Definition sample_stored_value : Stored.t :=
  Stored.Array
    [Stored.Float (S754_finite false 6755399441055744 (-52));
     Stored.Object
       [([107], Stored.Float (S754_finite true 4503599627370496 (-54)))] None;
     Stored.parsed sample_value].

(* ===================================================================== *)
(** * Proofs                                                              *)
(* ===================================================================== *)

Section Utf8Facts.
Import utf8.

(** A boolean check over an initial segment of [Z] transfers to every
    member of the segment. *)
Lemma Z_range_forallb (n : nat) (f : Z -> bool) :
  forallb f (map Z.of_nat (seq 0 n)) = true ->
  forall x, 0 <= x < Z.of_nat n -> f x = true.
Proof.
  intros H x Hx.
  rewrite forallb_forall in H. apply H.
  apply in_map_iff. exists (Z.to_nat x). split; [lia|].
  apply in_seq. lia.
Qed.

Lemma lor_shiftl6 (a b : Z) :
  0 <= a -> 0 <= b < 64 -> Z.lor (Z.shiftl a 6) b = 64 * a + b.
Proof.
  intros Ha Hb.
  rewrite <- Z.lxor_lor.
  - rewrite <- Z.add_nocarry_lxor.
    + rewrite Z.shiftl_mul_pow2 by lia. change (2 ^ 6) with 64. lia.
    + apply Z.bits_inj'. intros n Hn.
      rewrite Z.land_spec, Z.bits_0.
      destruct (Z.ltb_spec n 6).
      * rewrite Z.shiftl_spec_low by lia. reflexivity.
      * rewrite (Z.bits_above_log2 b n); [apply andb_false_r|lia|].
        destruct (Z.eq_dec b 0) as [->|]; [simpl; lia|].
        apply Z.log2_lt_pow2; [lia|].
        eapply Z.lt_le_trans with (m := 2 ^ 6); [simpl; lia|].
        apply Z.pow_le_mono_r; lia.
  - apply Z.bits_inj'. intros n Hn.
    rewrite Z.land_spec, Z.bits_0.
    destruct (Z.ltb_spec n 6).
    + rewrite Z.shiftl_spec_low by lia. reflexivity.
    + rewrite (Z.bits_above_log2 b n); [apply andb_false_r|lia|].
      destruct (Z.eq_dec b 0) as [->|]; [simpl; lia|].
      apply Z.log2_lt_pow2; [lia|].
      eapply Z.lt_le_trans with (m := 2 ^ 6); [simpl; lia|].
      apply Z.pow_le_mono_r; lia.
Qed.

Lemma lead2_facts h : 0 <= h < 32 ->
  sequence_length (lead2 h) = 2%nat /\ Z.land (lead2 h) 0x1F = h.
Proof.
  intros Hh.
  pose proof (Z_range_forallb 32
    (fun h => (sequence_length (lead2 h) =? 2)%nat && (Z.land (lead2 h) 0x1F =? h))
    eq_refl h Hh) as H.
  apply andb_true_iff in H as [H1 H2].
  apply Nat.eqb_eq in H1. apply Z.eqb_eq in H2. auto.
Qed.

Lemma lead3_facts h : 0 <= h < 16 ->
  sequence_length (lead3 h) = 3%nat /\ Z.land (lead3 h) 0x0F = h.
Proof.
  intros Hh.
  pose proof (Z_range_forallb 16
    (fun h => (sequence_length (lead3 h) =? 3)%nat && (Z.land (lead3 h) 0x0F =? h))
    eq_refl h Hh) as H.
  apply andb_true_iff in H as [H1 H2].
  apply Nat.eqb_eq in H1. apply Z.eqb_eq in H2. auto.
Qed.

Lemma lead4_facts h : 0 <= h < 8 ->
  sequence_length (lead4 h) = 4%nat /\ Z.land (lead4 h) 0x07 = h.
Proof.
  intros Hh.
  pose proof (Z_range_forallb 8
    (fun h => (sequence_length (lead4 h) =? 4)%nat && (Z.land (lead4 h) 0x07 =? h))
    eq_refl h Hh) as H.
  apply andb_true_iff in H as [H1 H2].
  apply Nat.eqb_eq in H1. apply Z.eqb_eq in H2. auto.
Qed.

Lemma contb_facts l : 0 <= l < 64 ->
  Z.land (contb l) 0xC0 = 0x80 /\ Z.land (contb l) 0x3F = l.
Proof.
  intros Hl.
  pose proof (Z_range_forallb 64
    (fun l => (Z.land (contb l) 0xC0 =? 0x80) && (Z.land (contb l) 0x3F =? l))
    eq_refl l Hl) as H.
  apply andb_true_iff in H as [H1 H2].
  apply Z.eqb_eq in H1. apply Z.eqb_eq in H2. auto.
Qed.

Lemma land63 x : Z.land x 0x3F = x mod 64.
Proof. change 0x3F with (Z.ones 6). rewrite Z.land_ones by lia. reflexivity. Qed.

Local Ltac zsimpl := cbn -[Z.land Z.lor Z.shiftl Z.ltb Z.leb Z.gtb Z.eqb lead2 lead3 lead4 contb].

Lemma decode_len2 b0 b1 tail :
  sequence_length b0 = 2%nat -> Z.land b1 0xC0 = 0x80 ->
  decode (b0 :: b1 :: tail) =
  finish 2 (Z.lor (Z.shiftl (Z.land b0 0x1F) 6) (Z.land b1 0x3F)) tail.
Proof.
  intros H0 H1. unfold decode. rewrite H0. zsimpl. rewrite H1. zsimpl. reflexivity.
Qed.

Lemma decode_len3 b0 b1 b2 tail :
  sequence_length b0 = 3%nat -> Z.land b1 0xC0 = 0x80 -> Z.land b2 0xC0 = 0x80 ->
  decode (b0 :: b1 :: b2 :: tail) =
  finish 3 (Z.lor (Z.shiftl (Z.lor (Z.shiftl (Z.land b0 0x0F) 6) (Z.land b1 0x3F)) 6)
                  (Z.land b2 0x3F)) tail.
Proof.
  intros H0 H1 H2. unfold decode. rewrite H0. zsimpl. rewrite H1. zsimpl.
  rewrite H2. zsimpl. reflexivity.
Qed.

Lemma decode_len4 b0 b1 b2 b3 tail :
  sequence_length b0 = 4%nat -> Z.land b1 0xC0 = 0x80 -> Z.land b2 0xC0 = 0x80 ->
  Z.land b3 0xC0 = 0x80 ->
  decode (b0 :: b1 :: b2 :: b3 :: tail) =
  finish 4 (Z.lor (Z.shiftl (Z.lor (Z.shiftl (Z.lor (Z.shiftl (Z.land b0 0x07) 6)
              (Z.land b1 0x3F)) 6) (Z.land b2 0x3F)) 6) (Z.land b3 0x3F)) tail.
Proof.
  intros H0 H1 H2 H3. unfold decode. rewrite H0. zsimpl. rewrite H1. zsimpl.
  rewrite H2. zsimpl. rewrite H3. zsimpl. reflexivity.
Qed.

Lemma finish_ok len cp rest :
  overlong len cp = false -> surrogate cp = false -> cp <= 0x10FFFF ->
  finish len cp rest = (cp, rest).
Proof.
  intros H1 H2 H3. unfold finish. rewrite H1, H2.
  destruct (Z.gtb_spec cp 0x10FFFF); [lia|reflexivity].
Qed.

Lemma surrogate_false cp : ~ (0xD800 <= cp <= 0xDFFF) -> surrogate cp = false.
Proof.
  intros H. unfold surrogate.
  destruct (Z.leb_spec 0xD800 cp); destruct (Z.leb_spec cp 0xDFFF); simpl; auto; lia.
Qed.

Lemma decode_encode (cp : Z) (tail : list Z) :
  0 <= cp <= 0x10FFFF -> ~ (0xD800 <= cp <= 0xDFFF) ->
  decode (encode cp ++ tail) = (cp, tail).
Proof.
  intros Hr Hs. unfold encode.
  destruct (Z.ltb_spec cp 0x80).
  { unfold to_char. rewrite Z.mod_small by lia. simpl. unfold decode, sequence_length.
    destruct (Z.ltb_spec cp 128); [|lia]. reflexivity. }
  destruct (Z.ltb_spec cp 0x800).
  { rewrite !Z.shiftr_div_pow2, !land63 by lia. change (2 ^ 6) with 64.
    fold (lead2 (cp / 64)). fold (contb (cp mod 64)).
    assert (H6 : 0 <= cp / 64 < 32) by (Z.div_mod_to_equations; lia).
    assert (H0' : 0 <= cp mod 64 < 64) by (Z.div_mod_to_equations; lia).
    destruct (lead2_facts _ H6) as [Hl Hb]. destruct (contb_facts _ H0') as [Hc Hd].
    cbn [app]. rewrite decode_len2 by assumption. rewrite Hb, Hd.
    rewrite lor_shiftl6 by lia.
    replace (64 * (cp / 64) + cp mod 64) with cp by (Z.div_mod_to_equations; lia).
    apply finish_ok; [|apply surrogate_false; assumption|lia].
    unfold overlong. destruct (Z.ltb_spec cp 128); [lia|reflexivity]. }
  destruct (Z.ltb_spec cp 0x10000).
  { rewrite !Z.shiftr_div_pow2, !land63 by lia. change (2 ^ 6) with 64. change (2 ^ 12) with 4096.
    fold (lead3 (cp / 4096)). fold (contb ((cp / 64) mod 64)). fold (contb (cp mod 64)).
    assert (H12 : 0 <= cp / 4096 < 16) by (Z.div_mod_to_equations; lia).
    assert (H6 : 0 <= (cp / 64) mod 64 < 64) by (Z.div_mod_to_equations; lia).
    assert (H0' : 0 <= cp mod 64 < 64) by (Z.div_mod_to_equations; lia).
    destruct (lead3_facts _ H12) as [Hl Hb]. destruct (contb_facts _ H6) as [Hc1 Hd1].
    destruct (contb_facts _ H0') as [Hc Hd].
    cbn [app]. rewrite decode_len3 by assumption. rewrite Hb, Hd, Hd1.
    rewrite (lor_shiftl6 (cp / 4096)) by lia. rewrite lor_shiftl6 by lia.
    replace (64 * (64 * (cp / 4096) + (cp / 64) mod 64) + cp mod 64) with cp
      by (Z.div_mod_to_equations; lia).
    apply finish_ok; [|apply surrogate_false; assumption|lia].
    unfold overlong. destruct (Z.ltb_spec cp 2048); [lia|reflexivity]. }
  destruct (Z.leb_spec cp 0x10FFFF); [|lia].
  rewrite !Z.shiftr_div_pow2, !land63 by lia.
  change (2 ^ 6) with 64. change (2 ^ 12) with 4096. change (2 ^ 18) with 262144.
  fold (lead4 (cp / 262144)). fold (contb ((cp / 4096) mod 64)).
  fold (contb ((cp / 64) mod 64)). fold (contb (cp mod 64)).
  assert (H18 : 0 <= cp / 262144 < 8) by (Z.div_mod_to_equations; lia).
  assert (H12 : 0 <= (cp / 4096) mod 64 < 64) by (Z.div_mod_to_equations; lia).
  assert (H6 : 0 <= (cp / 64) mod 64 < 64) by (Z.div_mod_to_equations; lia).
  assert (H0' : 0 <= cp mod 64 < 64) by (Z.div_mod_to_equations; lia).
  destruct (lead4_facts _ H18) as [Hl Hb]. destruct (contb_facts _ H12) as [Hc2 Hd2].
  destruct (contb_facts _ H6) as [Hc1 Hd1]. destruct (contb_facts _ H0') as [Hc Hd].
  cbn [app]. rewrite decode_len4 by assumption. rewrite Hb, Hd, Hd1, Hd2.
  rewrite (lor_shiftl6 (cp / 262144)) by lia.
  rewrite (lor_shiftl6 (64 * (cp / 262144) + (cp / 4096) mod 64)) by lia.
  rewrite lor_shiftl6 by lia.
  replace (64 * (64 * (64 * (cp / 262144) + (cp / 4096) mod 64) + (cp / 64) mod 64) + cp mod 64)
    with cp by (Z.div_mod_to_equations; lia).
  apply finish_ok; [|apply surrogate_false; assumption|lia].
  unfold overlong. destruct (Z.ltb_spec cp 65536); [lia|reflexivity].
Qed.

Lemma finish_bad len cp rest :
  finish len cp rest = if bad len cp then (0xFFFD, rest) else (cp, rest).
Proof.
  unfold finish, bad. destruct (overlong len cp), (surrogate cp), (cp >? 0x10FFFF); reflexivity.
Qed.

Lemma seqlen_cases lead :
  128 <= lead ->
  sequence_length lead = 0%nat \/ sequence_length lead = 2%nat \/
  sequence_length lead = 3%nat \/ sequence_length lead = 4%nat.
Proof.
  intros H. unfold sequence_length. destruct (Z.ltb_spec lead 128); [lia|].
  repeat match goal with |- context [if ?c then _ else _] => destruct c end; auto.
Qed.

Lemma validate_step_ascii f lead tl :
  lead < 128 -> validate_loop (S f) (lead :: tl) = validate_loop f tl.
Proof. intros H. simpl. destruct (Z.ltb_spec lead 128); [reflexivity|lia]. Qed.

Lemma validate_step_len0 f lead tl :
  128 <= lead -> sequence_length lead = 0%nat -> validate_loop (S f) (lead :: tl) = false.
Proof.
  intros H H0. cbn [validate_loop]. destruct (Z.ltb_spec lead 128); [lia|].
  rewrite H0. reflexivity.
Qed.

Lemma validate_step_short f lead tl :
  128 <= lead -> (length (lead :: tl) < sequence_length lead)%nat ->
  validate_loop (S f) (lead :: tl) = false.
Proof.
  intros H H0. cbn [validate_loop]. destruct (Z.ltb_spec lead 128); [lia|].
  destruct (Nat.ltb_spec (length (lead :: tl)) (sequence_length lead)); [|lia].
  rewrite orb_true_r. reflexivity.
Qed.

Lemma decode_short lead tl :
  (length (lead :: tl) < sequence_length lead)%nat \/ sequence_length lead = 0%nat ->
  decode (lead :: tl) = (0xFFFD, tl).
Proof.
  intros H. unfold decode.
  destruct (Nat.ltb_spec (length (lead :: tl)) (sequence_length lead)).
  - rewrite orb_true_r. reflexivity.
  - destruct H as [H|H]; [lia|]. rewrite H. reflexivity.
Qed.

Local Ltac zs := cbn -[Z.land Z.lor Z.shiftl Z.ltb Z.leb Z.gtb Z.eqb utf8.overlong utf8.surrogate].
Local Ltac zsa := cbn -[Z.land Z.lor Z.shiftl Z.ltb Z.leb Z.gtb Z.eqb utf8.overlong utf8.surrogate] in *.

Lemma validate_step_len2 f lead b1 tail :
  128 <= lead -> sequence_length lead = 2%nat ->
  validate_loop (S f) (lead :: b1 :: tail) =
  if Z.land b1 0xC0 =? 0x80 then
    if bad 2 (Z.lor (Z.shiftl (Z.land lead 0x1F) 6) (Z.land b1 0x3F)) then false
    else validate_loop f tail
  else false.
Proof.
  intros H H0. cbn [validate_loop]. destruct (Z.ltb_spec lead 128); [lia|].
  rewrite H0. zs. destruct (Z.land b1 192 =? 128); zs; [|reflexivity].
  unfold bad.
  destruct (overlong _ _); zs; [reflexivity|].
  destruct (surrogate _); zs; [reflexivity|].
  destruct (_ >? _); reflexivity.
Qed.

Lemma validate_step_len3 f lead b1 b2 tail :
  128 <= lead -> sequence_length lead = 3%nat ->
  validate_loop (S f) (lead :: b1 :: b2 :: tail) =
  if (Z.land b1 0xC0 =? 0x80) && (Z.land b2 0xC0 =? 0x80) then
    if bad 3 (Z.lor (Z.shiftl (Z.lor (Z.shiftl (Z.land lead 0x0F) 6) (Z.land b1 0x3F)) 6)
                    (Z.land b2 0x3F)) then false
    else validate_loop f tail
  else false.
Proof.
  intros H H0. cbn [validate_loop]. destruct (Z.ltb_spec lead 128); [lia|].
  rewrite H0. zs. destruct (Z.land b1 192 =? 128); zs; [|reflexivity].
  destruct (Z.land b2 192 =? 128); zs; [|reflexivity].
  unfold bad.
  destruct (overlong _ _); zs; [reflexivity|].
  destruct (surrogate _); zs; [reflexivity|].
  destruct (_ >? _); reflexivity.
Qed.

Lemma validate_step_len4 f lead b1 b2 b3 tail :
  128 <= lead -> sequence_length lead = 4%nat ->
  validate_loop (S f) (lead :: b1 :: b2 :: b3 :: tail) =
  if (Z.land b1 0xC0 =? 0x80) && (Z.land b2 0xC0 =? 0x80) && (Z.land b3 0xC0 =? 0x80) then
    if bad 4 (Z.lor (Z.shiftl (Z.lor (Z.shiftl (Z.lor (Z.shiftl (Z.land lead 0x07) 6)
              (Z.land b1 0x3F)) 6) (Z.land b2 0x3F)) 6) (Z.land b3 0x3F)) then false
    else validate_loop f tail
  else false.
Proof.
  intros H H0. cbn [validate_loop]. destruct (Z.ltb_spec lead 128); [lia|].
  rewrite H0. zs. destruct (Z.land b1 192 =? 128); zs; [|reflexivity].
  destruct (Z.land b2 192 =? 128); zs; [|reflexivity].
  destruct (Z.land b3 192 =? 128); zs; [|reflexivity].
  unfold bad.
  destruct (overlong _ _); zs; [reflexivity|].
  destruct (surrogate _); zs; [reflexivity|].
  destruct (_ >? _); reflexivity.
Qed.

Lemma decode_cont_ok bs i cp :
  forallb isc bs = true -> decode_cont bs i cp = inl (fold_left acc bs cp).
Proof.
  revert i cp. induction bs as [|b bs IH]; intros i cp H; [reflexivity|].
  cbn [forallb] in H. apply andb_true_iff in H as [H1 H2].
  cbn [decode_cont fold_left]. rewrite H1. apply IH, H2.
Qed.

Lemma decode_cont_bad bs i cp :
  forallb isc bs = false ->
  exists j, decode_cont bs i cp = inr j /\ (i <= j < i + length bs)%nat.
Proof.
  revert i cp. induction bs as [|b bs IH]; intros i cp H; [discriminate|].
  cbn [forallb] in H. cbn [decode_cont length].
  destruct (Z.land b 192 =? 128) eqn:E.
  - simpl in H. destruct (IH (S i) (Z.lor (Z.shiftl cp 6) (Z.land b 63)) H) as (j & Hj & Hr).
    exists j. split; [exact Hj|lia].
  - exists i. split; [reflexivity|lia].
Qed.

Lemma decode_multi lead tl cp0 :
  let len := sequence_length lead in
  (2 <= len)%nat -> (len <= length (lead :: tl))%nat -> lead_bits len lead = Some cp0 ->
  decode (lead :: tl) =
  match decode_cont (take (len - 1) tl) 1 cp0 with
  | inr i => (0xFFFD, drop i (lead :: tl))
  | inl cp => finish len cp (drop len (lead :: tl))
  end.
Proof.
  intros len H2 Hl Hb. unfold decode. fold len.
  destruct (Nat.ltb_spec (length (lead :: tl)) len); [lia|].
  destruct (Nat.eqb_spec len 0); [lia|]. destruct (Nat.eqb_spec len 1); [lia|].
  cbn [orb]. rewrite Hb. reflexivity.
Qed.

Lemma validate_multi f lead tl cp0 :
  let len := sequence_length lead in
  128 <= lead -> (len <= length (lead :: tl))%nat -> lead_bits len lead = Some cp0 ->
  validate_loop (S f) (lead :: tl) =
  if forallb isc (take (len - 1) tl) then
    if bad len (fold_left acc (take (len - 1) tl) cp0) then false
    else validate_loop f (drop len (lead :: tl))
  else false.
Proof.
  intros len H Hl Hb. cbn [validate_loop]. fold len.
  destruct (Z.ltb_spec lead 128); [lia|].
  destruct (Nat.ltb_spec (length (lead :: tl)) len); [lia|].
  assert (len <> 0%nat) by (intros E; rewrite E in Hb; discriminate).
  destruct (Nat.eqb_spec len 0); [lia|]. cbn [orb].
  destruct (forallb _ _); cbn [negb]; [|reflexivity].
  rewrite Hb. unfold bad.
  destruct (overlong _ _); cbn [orb]; [reflexivity|].
  destruct (surrogate _); cbn [orb]; [reflexivity|].
  destruct (_ >? _); reflexivity.
Qed.

Lemma lead_bits_some lead :
  (2 <= sequence_length lead)%nat ->
  exists cp0, lead_bits (sequence_length lead) lead = Some cp0.
Proof.
  intros H. unfold sequence_length in *.
  repeat match goal with |- context [if ?c then _ else _] => destruct c end;
    cbn [lead_bits]; eauto; lia.
Qed.

Lemma land31 x : Z.land x 0x1F = x mod 32.
Proof. change 0x1F with (Z.ones 5). rewrite Z.land_ones by lia. reflexivity. Qed.
Lemma land15 x : Z.land x 0x0F = x mod 16.
Proof. change 0x0F with (Z.ones 4). rewrite Z.land_ones by lia. reflexivity. Qed.
Lemma land7 x : Z.land x 0x07 = x mod 8.
Proof. change 0x07 with (Z.ones 3). rewrite Z.land_ones by lia. reflexivity. Qed.

Lemma byte_lead_EF lead :
  is_byte lead -> sequence_length lead = 3%nat -> lead mod 16 = 15 -> lead = 0xEF.
Proof.
  intros Hb H1 H2.
  pose proof (Z_range_forallb 256
    (fun b => implb ((sequence_length b =? 3)%nat && (b mod 16 =? 15)) (b =? 0xEF))
    eq_refl lead Hb) as H.
  cbv beta in H. rewrite H1, H2 in H. apply Z.eqb_eq in H. exact H.
Qed.

Lemma byte_cont_inv b d :
  is_byte b -> Z.land b 0xC0 = 0x80 -> b mod 64 = d -> b = 128 + d.
Proof.
  intros Hb H1 H2.
  pose proof (Z_range_forallb 256
    (fun b => implb (Z.land b 0xC0 =? 0x80) (b =? 128 + b mod 64))
    eq_refl b Hb) as H.
  cbv beta in H. rewrite H1 in H. apply Z.eqb_eq in H. lia.
Qed.

Lemma fffd_char lead tl cp0 :
  let len := sequence_length lead in
  Forall is_byte (lead :: tl) -> 128 <= lead ->
  (len <= length (lead :: tl))%nat -> lead_bits len lead = Some cp0 ->
  forallb isc (take (len - 1) tl) = true ->
  (bad len (fold_left acc (take (len - 1) tl) cp0) = false /\
   fold_left acc (take (len - 1) tl) cp0 = 0xFFFD) <->
  take len (lead :: tl) = [0xEF; 0xBF; 0xBD].
Proof.
  intros len Hby Hl Hlen Hb Hc. subst len.
  destruct (seqlen_cases lead Hl) as [E|[E|[E|E]]]; rewrite E in *; cbn [lead_bits] in Hb;
    try discriminate; injection Hb as <-.
  - (* two bytes *)
    destruct tl as [|b1 tail]; [simpl in Hlen; lia|].
    zs; rewrite ?take_0; zs. rewrite land31, land63.
    rewrite lor_shiftl6 by (Z.div_mod_to_equations; lia).
    split; [intros [_ H]; Z.div_mod_to_equations; lia|discriminate].
  - (* three bytes *)
    destruct tl as [|b1 [|b2 tail]]; try (simpl in Hlen; lia).
    zsa; rewrite ?take_0 in *; zsa.
    apply andb_true_iff in Hc as [Hc1 Hc2]. apply andb_true_iff in Hc2 as [Hc2 _].
    apply Z.eqb_eq in Hc1, Hc2.
    apply Forall_cons in Hby as [B0 Hby]. apply Forall_cons in Hby as [B1 Hby].
    apply Forall_cons in Hby as [B2 _].
    rewrite land15, !land63.
    rewrite (lor_shiftl6 (lead mod 16)) by (Z.div_mod_to_equations; lia).
    rewrite lor_shiftl6 by (Z.div_mod_to_equations; lia).
    split.
    + intros [_ H].
      assert (lead mod 16 = 15 /\ b1 mod 64 = 63 /\ b2 mod 64 = 61) as (D0 & D1 & D2)
        by (Z.div_mod_to_equations; lia).
      rewrite (byte_lead_EF lead B0 E D0).
      rewrite (byte_cont_inv b1 63 B1 Hc1 D1), (byte_cont_inv b2 61 B2 Hc2 D2).
      reflexivity.
    + intros H. injection H as -> -> ->. split; reflexivity.
  - (* four bytes *)
    destruct tl as [|b1 [|b2 [|b3 tail]]]; try (simpl in Hlen; lia).
    zs; rewrite ?take_0; zs. split; [|discriminate].
    intros [H1 H2]. rewrite H2 in H1. discriminate.
Qed.

Lemma step_agree f l :
  l <> [] -> Forall is_byte l ->
  exists cp k, decode l = (cp, drop k l) /\ (1 <= k <= length l)%nat /\
  ((validate_loop (S f) l = validate_loop f (drop k l) /\ good (take k l, cp)) \/
   (validate_loop (S f) l = false /\ ~ good (take k l, cp))).
Proof.
  intros Hne Hby. destruct l as [|lead tl]; [congruence|clear Hne].
  destruct (Z.ltb_spec lead 128) as [Hlt|Hge].
  { exists lead, 1%nat. split; [|split; [simpl; lia|left; split]].
    - unfold decode, sequence_length. destruct (Z.ltb_spec lead 128); [reflexivity|lia].
    - apply validate_step_ascii, Hlt.
    - unfold good; simpl. lia. }
  set (len := sequence_length lead).
  destruct (Nat.eq_dec len 0%nat) as [E0|N0].
  { exists 0xFFFD, 1%nat. split; [apply decode_short; auto|].
    split; [simpl; lia|right; split].
    - apply validate_step_len0; assumption.
    - unfold good; simpl. intros H. specialize (H eq_refl). discriminate. }
  destruct (Nat.ltb_spec (length (lead :: tl)) len) as [Hs|Hlen].
  { exists 0xFFFD, 1%nat. split; [apply decode_short; auto|].
    split; [simpl; lia|right; split].
    - apply validate_step_short; assumption.
    - unfold good; simpl. intros H. specialize (H eq_refl). discriminate. }
  assert (H2 : (2 <= len)%nat).
  { destruct (seqlen_cases lead Hge) as [E|[E|[E|E]]]; fold len in E; lia. }
  assert (H4 : (len <= 4)%nat).
  { destruct (seqlen_cases lead Hge) as [E|[E|[E|E]]]; fold len in E; lia. }
  destruct (lead_bits_some lead H2) as [cp0 Hcp0]. fold len in Hcp0.
  pose proof (decode_multi lead tl cp0 H2 Hlen Hcp0) as Hd.
  pose proof (validate_multi f lead tl cp0 Hge Hlen Hcp0) as Hv.
  fold len in Hd, Hv.
  destruct (forallb isc (take (len - 1) tl)) eqn:Hall.
  - rewrite decode_cont_ok in Hd by exact Hall. rewrite finish_bad in Hd.
    pose proof (fffd_char lead tl cp0 Hby Hge Hlen Hcp0 Hall) as Hchar. fold len in Hchar.
    destruct (bad len _) eqn:Hbad.
    + exists 0xFFFD, len. split; [exact Hd|]. split; [lia|]. right. split; [exact Hv|].
      unfold good; simpl. intros H. specialize (H eq_refl).
      apply Hchar in H. destruct H as [H _]. discriminate.
    + eexists _, len. split; [exact Hd|]. split; [lia|]. left. split; [exact Hv|].
      unfold good; simpl. intros H. apply Hchar. auto.
  - destruct (decode_cont_bad (take (len - 1) tl) 1 cp0 Hall) as (j & Hj & Hr).
    rewrite Hj in Hd. rewrite length_take in Hr.
    exists 0xFFFD, j. split; [exact Hd|]. split; [simpl in *; lia|]. right. split; [exact Hv|].
    unfold good; simpl. intros H. specialize (H eq_refl).
    assert (j = 3%nat).
    { apply (f_equal (@length Z)) in H. rewrite length_take in H. simpl in H. simpl in Hlen. lia. }
    subst j. assert (len = 4%nat) by lia.
    destruct tl as [|b1 [|b2 tail]]; simpl in H; try discriminate.
    injection H as -> _ _. unfold len in *. vm_compute in H0. discriminate.
Qed.

Lemma validate_decode_steps f l :
  (length l <= f)%nat -> Forall is_byte l ->
  validate_loop f l = true <-> Forall good (decode_steps f l).
Proof.
  revert l. induction f as [|f IH]; intros l Hlen Hby.
  - destruct l; [|simpl in Hlen; lia]. simpl. split; auto.
  - destruct l as [|lead tl]; [simpl; split; auto|].
    destruct (step_agree f (lead :: tl) ltac:(discriminate) Hby) as (cp & k & Hd & Hk & Hcase).
    cbn [decode_steps]. rewrite Hd.
    assert (Hk' : (length (lead :: tl) - length (drop k (lead :: tl)) = k)%nat).
    { rewrite length_drop. lia. }
    rewrite Hk'.
    assert (Hlen' : (length (drop k (lead :: tl)) <= f)%nat).
    { rewrite length_drop. simpl in *. lia. }
    assert (Hby' : Forall is_byte (drop k (lead :: tl))) by (apply Forall_drop, Hby).
    specialize (IH _ Hlen' Hby').
    destruct Hcase as [[Hv Hg]|[Hv Hg]]; rewrite Hv.
    + rewrite IH. split; [intros H; constructor; assumption|].
      intros H. apply Forall_cons in H as [_ H]. exact H.
    + split; [discriminate|]. intros H. apply Forall_cons in H as [H _]. contradiction.
Qed.


(** C7, as the code has it: decoding the encoding of a code point gives
    the code point back, and [validate] accepts exactly the byte sequences
    on which repeated decoding yields U+FFFD only for the well-formed
    encoding EF BF BD of U+FFFD itself. *)
Theorem utf8_decode_encode_and_validate (cp : Z) (bs : list Z) :
  0 <= cp <= 0x10FFFF -> ~ (0xD800 <= cp <= 0xDFFF) -> Forall is_byte bs ->
  decode (encode cp) = (cp, []) /\
  (validate bs = true <-> Forall good (decode_all bs)).
Proof.
  intros Hr Hs Hb. split.
  - pose proof (decode_encode cp [] Hr Hs) as Hd. rewrite app_nil_r in Hd. exact Hd.
  - apply validate_decode_steps; [lia|exact Hb].
Qed.

Lemma utf8_decode_encode_and_validate_witness :
  decode (encode 0x1F600) = (0x1F600, []) /\
  (validate [0xF0; 0x9F; 0x98; 0x80] = true
   <-> Forall good (decode_all [0xF0; 0x9F; 0x98; 0x80])).
Proof.
  apply (utf8_decode_encode_and_validate 0x1F600 [0xF0; 0x9F; 0x98; 0x80]).
  - lia.
  - lia.
  - repeat constructor; unfold is_byte; lia.
Defined.

(** The claim as stated fails on the encoding of U+FFFD: [validate]
    accepts it, and decoding it produces U+FFFD. *)
Lemma utf8_validate_fffd_counterexample :
  ~ (validate [0xEF; 0xBF; 0xBD] = true
     <-> Forall (fun s => snd s <> 0xFFFD) (decode_all [0xEF; 0xBF; 0xBD])).
Proof.
  intros [Hv _]. specialize (Hv eq_refl).
  apply Forall_cons in Hv as [Hhead _]. apply Hhead. reflexivity.
Qed.

End Utf8Facts.


Section NumberFacts.
Context `{Charconv}.
Import Parser.

Lemma lor_shiftl_add (a b n : Z) :
  0 <= n -> 0 <= a -> 0 <= b < 2 ^ n -> Z.lor (Z.shiftl a n) b = a * 2 ^ n + b.
Proof.
  intros Hn Ha Hb.
  assert (Hland : Z.land (Z.shiftl a n) b = 0).
  { destruct (Z.eq_dec b 0) as [->|Hb0]; [apply Z.land_0_r|].
    apply Z.bits_inj'. intros k Hk.
    rewrite Z.land_spec, Z.bits_0.
    destruct (Z.ltb_spec k n).
    - rewrite Z.shiftl_spec_low by lia. reflexivity.
    - rewrite (Z.bits_above_log2 b k); [apply andb_false_r|lia|].
      apply Z.log2_lt_pow2; [lia|].
      eapply Z.lt_le_trans with (m := 2 ^ n); [lia|].
      apply Z.pow_le_mono_r; lia. }
  rewrite <- Z.lxor_lor by exact Hland.
  rewrite <- Z.add_nocarry_lxor by exact Hland.
  rewrite Z.shiftl_mul_pow2 by lia. reflexivity.
Qed.

(* ---------- C10: hexadecimal literals ---------- *)

Lemma hex_digit_value_range h :
  is_hex_digit h = true -> 0 <= hex_digit_value h < 16.
Proof.
  unfold is_hex_digit, hex_digit_value. intros Hh.
  destruct (Z.leb_spec 48 h), (Z.leb_spec h 57), (Z.leb_spec 97 h), (Z.leb_spec h 102),
    (Z.leb_spec 65 h), (Z.leb_spec h 70); simpl in *; try discriminate; lia.
Qed.

Lemma scan_hex_step h r val b :
  is_hex_digit h = true ->
  scan_hex (h :: r) val b
  = scan_hex r (to_uint64 (Z.lor (Z.shiftl val 4) (hex_digit_value h))) true.
Proof.
  unfold is_hex_digit, hex_digit_value. intros Hh. cbn [scan_hex].
  destruct ((48 <=? h) && (h <=? 57)); [reflexivity|].
  destruct ((97 <=? h) && (h <=? 102)); [reflexivity|].
  destruct ((65 <=? h) && (h <=? 70)); [reflexivity|discriminate].
Qed.

Lemma scan_hex_stop tail val b :
  no_hex_start tail -> scan_hex tail val b = (tail, val, b).
Proof.
  destruct tail as [|c r]; [reflexivity|]. unfold no_hex_start, is_hex_digit.
  intros Hc. cbn [scan_hex].
  destruct ((48 <=? c) && (c <=? 57)); [discriminate|].
  destruct ((97 <=? c) && (c <=? 102)); [discriminate|].
  destruct ((65 <=? c) && (c <=? 70)); [discriminate|reflexivity].
Qed.

Lemma hex_value_from_mod acc hs :
  hex_value_from (acc mod 2 ^ 64) hs mod 2 ^ 64 = hex_value_from acc hs mod 2 ^ 64.
Proof.
  revert acc. induction hs as [|h hs IH]; intros acc; cbn [hex_value_from fold_left].
  - apply Z.mod_mod. lia.
  - fold (hex_value_from (16 * (acc mod 2 ^ 64) + hex_digit_value h) hs).
    fold (hex_value_from (16 * acc + hex_digit_value h) hs).
    rewrite <- (IH (16 * (acc mod 2 ^ 64) + hex_digit_value h)).
    rewrite <- (IH (16 * acc + hex_digit_value h)).
    f_equal. f_equal.
    rewrite Z.add_mod, Z.mul_mod_idemp_r, <- Z.add_mod by lia. reflexivity.
Qed.

Lemma scan_hex_spec hs tail val b :
  Forall (fun h => is_hex_digit h = true) hs -> no_hex_start tail ->
  0 <= val < 2 ^ 64 ->
  scan_hex (hs ++ tail) val b
  = (tail, hex_value_from val hs mod 2 ^ 64,
     match hs with [] => b | _ :: _ => true end).
Proof.
  intros Hhs Htail. revert val b.
  induction Hhs as [|h hs Hh Hhs IH]; intros val b Hval.
  - cbn [app hex_value_from fold_left]. rewrite scan_hex_stop by exact Htail.
    rewrite Z.mod_small by exact Hval. reflexivity.
  - cbn [app]. rewrite scan_hex_step by exact Hh.
    pose proof (hex_digit_value_range h Hh) as Hd.
    rewrite lor_shiftl_add by lia. change (2 ^ 4) with 16.
    unfold to_uint64. rewrite IH by (apply Z.mod_pos_bound; lia).
    rewrite hex_value_from_mod. cbn [hex_value_from fold_left].
    replace (val * 16) with (16 * val) by lia.
    destruct hs; reflexivity.
Qed.

(** C10: with [allow_hex_numbers] on, the digits of a hex literal are
    accumulated in a [uint64_t] without any overflow check, so the
    accumulated value is the value of the digit string modulo 2^64; it is
    then reinterpreted as [int64_t], and a leading minus sign negates that
    signed value (negation wrapping at [INT64_MIN]).  The result is always
    an [Integer]. *)
Theorem hex_literal_wraps (p : Parser.t) (negative : bool) (x : Z)
    (hs tail : list Z) :
  ParseOptions.allow_hex_numbers (opts_ p) = true ->
  x = 120 \/ x = 88 ->
  hs <> [] -> Forall (fun h => is_hex_digit h = true) hs -> no_hex_start tail ->
  ptr_ p = (if negative then [45] else []) ++ [48; x] ++ hs ++ tail ->
  parse_number p =
    Ok (JInteger (let signed_val := to_int64 (hex_value hs mod 2 ^ 64) in
                  if negative then to_int64 (- signed_val) else signed_val))
       (with_ptr p tail).
Proof.
  intros Hopt Hx Hne Hhs Htail Hptr.
  destruct p as [ptr b o d m]. cbn [ptr_ opts_] in *. subst ptr.
  assert (Hscan := scan_hex_spec hs tail 0 false Hhs Htail ltac:(lia)).
  assert (Hxb : (x =? 120) || (x =? 88) = true).
  { destruct Hx as [-> | ->]; reflexivity. }
  destruct hs as [|h hs']; [congruence|].
  unfold parse_number, bind, get_ptr, get_opts, set_ptr, with_ptr.
  destruct negative; cbn -[scan_hex parse_hex_number is_digit]; rewrite Hopt, Hxb;
    rewrite ?andb_false_r; cbn -[scan_hex to_int64 to_uint64];
    unfold parse_hex_number, bind, get_ptr, set_ptr, with_ptr;
    cbn -[scan_hex to_int64 to_uint64];
    change (scan_hex (h :: hs' ++ tail) 0 false)
      with (scan_hex ((h :: hs') ++ tail) 0 false);
    rewrite Hscan; cbn -[to_int64 to_uint64 hex_value_from]; reflexivity.
Qed.

End NumberFacts.

Lemma hex_literal_wraps_witness :
  @Parser.parse_number no_charconv
    (Parser.make (bytes_of_string "0xFFFFFFFFFFFFFFFF")
          (ParseOptions.with_allow_hex_numbers ParseOptions.strict true))
  = Parser.Ok (JInteger (-1))
       (Parser.with_ptr (Parser.make (bytes_of_string "0xFFFFFFFFFFFFFFFF")
                       (ParseOptions.with_allow_hex_numbers ParseOptions.strict true))
                 []).
Proof.
  apply (@hex_literal_wraps no_charconv
           (Parser.make (bytes_of_string "0xFFFFFFFFFFFFFFFF")
                 (ParseOptions.with_allow_hex_numbers ParseOptions.strict true))
           false 120 (bytes_of_string "FFFFFFFFFFFFFFFF") []).
  - reflexivity.
  - left. reflexivity.
  - discriminate.
  - repeat constructor.
  - exact I.
  - reflexivity.
Defined.


Section IntegerTokens.
Context `{Charconv}.
Import Parser.

Lemma is_digit_range c : is_digit c = true -> 48 <= c <= 57.
Proof. unfold is_digit. lia. Qed.

Lemma decimal_value_from_ge acc ds :
  0 <= acc -> Forall (fun c => is_digit c = true) ds ->
  acc <= decimal_value_from acc ds.
Proof.
  intros Hacc Hds. revert acc Hacc.
  induction Hds as [|c ds Hc Hds IH]; intros acc Hacc; cbn [decimal_value_from fold_left].
  - lia.
  - apply is_digit_range in Hc.
    fold (decimal_value_from (10 * acc + (c - 48)) ds).
    specialize (IH (10 * acc + (c - 48)) ltac:(lia)). lia.
Qed.

Lemma skip_digits_app ds tail :
  Forall (fun c => is_digit c = true) ds ->
  match tail with [] => True | c :: _ => is_digit c = false end ->
  skip_digits (ds ++ tail) = tail.
Proof.
  intros Hds Htail. induction Hds as [|c ds Hc Hds IH]; cbn [app skip_digits].
  - destruct tail as [|c r]; [reflexivity|]. cbn [skip_digits]. rewrite Htail. reflexivity.
  - rewrite Hc. exact IH.
Qed.

Lemma overflow_test v d :
  0 <= v -> 0 <= d <= 9 ->
  (v >? kOverflowThreshold) || ((v =? kOverflowThreshold) && (d >? kOverflowLastDigit))
  = (UINT64_MAX <? 10 * v + d).
Proof.
  intros Hv Hd. unfold kOverflowThreshold, kOverflowLastDigit, UINT64_MAX.
  change (18446744073709551615 / 10) with 1844674407370955161.
  change (18446744073709551615 mod 10) with 5.
  destruct (Z.gtb_spec v 1844674407370955161), (Z.eqb_spec v 1844674407370955161),
    (Z.gtb_spec d 5), (Z.ltb_spec 18446744073709551615 (10 * v + d)); simpl; lia.
Qed.

Lemma scan_int_spec ds tail v n :
  Forall (fun c => is_digit c = true) ds ->
  match tail with [] => True | c :: _ => is_digit c = false end ->
  0 <= v <= UINT64_MAX ->
  (decimal_value_from v ds <= UINT64_MAX ->
   scan_int (ds ++ tail) v n
   = (tail, decimal_value_from v ds, false, n + Z.of_nat (length ds))) /\
  (UINT64_MAX < decimal_value_from v ds ->
   exists v' n', scan_int (ds ++ tail) v n = (tail, v', true, n')).
Proof.
  intros Hds Htail. revert v n.
  induction Hds as [|c ds Hc Hds IH]; intros v n Hv.
  - cbn [app decimal_value_from fold_left length]. split; [intros _|lia].
    destruct tail as [|c r]; cbn [scan_int]; [f_equal; lia|].
    rewrite Htail. f_equal. lia.
  - cbn [app scan_int decimal_value_from fold_left length]. rewrite Hc.
    fold (decimal_value_from (10 * v + (c - 48)) ds).
    pose proof (is_digit_range c Hc) as Hr.
    rewrite overflow_test by lia.
    pose proof (decimal_value_from_ge (10 * v + (c - 48)) ds ltac:(lia) Hds) as Hge.
    destruct (Z.ltb_spec UINT64_MAX (10 * v + (c - 48))) as [Hov|Hok].
    + split; [lia|]. intros _. rewrite skip_digits_app by assumption. eauto.
    + replace (v * 10 + (c - 48)) with (10 * v + (c - 48)) by lia.
      unfold to_uint64. rewrite Z.mod_small by (unfold UINT64_MAX in *; lia).
      destruct (IH (10 * v + (c - 48)) (n + 1) ltac:(lia)) as [IH1 IH2].
      split.
      * intros Hle. rewrite IH1 by exact Hle. f_equal. lia.
      * exact IH2.
Qed.

Lemma to_int64_small z : INT64_MIN <= z <= INT64_MAX -> to_int64 z = z.
Proof.
  unfold to_int64, INT64_MIN, INT64_MAX. intros Hz.
  rewrite Z.mod_small by lia. lia.
Qed.

Lemma to_int64_neg_magnitude N :
  0 <= N <= 2 ^ 63 -> to_int64 (- to_int64 N) = - N.
Proof.
  intros HN. destruct (Z.eq_dec N (2 ^ 63)) as [->|Hne]; [reflexivity|].
  rewrite (to_int64_small N) by (unfold INT64_MIN, INT64_MAX; lia).
  apply to_int64_small. unfold INT64_MIN, INT64_MAX. lia.
Qed.

(** The integer part of a token [d1 :: ds], as [parse_number] scans it. *)
Lemma integer_part_scan (d1 : Z) (ds tail : list Z) :
  is_digit d1 = true -> Forall (fun c => is_digit c = true) ds ->
  (d1 = 48 -> ds = []) ->
  match tail with [] => True | c :: _ => is_digit c = false end ->
  let N := decimal_value (d1 :: ds) in
  let scan := if d1 =? 48 then (ds ++ tail, 0, false, 0)
              else scan_int (ds ++ tail) (d1 - 48) 1 in
  0 <= N /\
  (N <= UINT64_MAX ->
   scan = (tail, N, false, if d1 =? 48 then 0 else 1 + Z.of_nat (length ds))) /\
  (UINT64_MAX < N -> exists v' n', scan = (tail, v', true, n')).
Proof.
  intros Hd1 Hds Hzero Htail N scan.
  pose proof (is_digit_range d1 Hd1) as Hr1.
  assert (HN0 : 0 <= N).
  { unfold N, decimal_value. etransitivity;
      [|apply decimal_value_from_ge; [lia|constructor; assumption]]. lia. }
  split; [exact HN0|]. subst scan.
  destruct (Z.eqb_spec d1 48) as [E|E].
  - pose proof (Hzero E) as Eds. subst d1 ds. unfold N, decimal_value. cbn.
    split; [reflexivity|]. intros Hc. exfalso. unfold UINT64_MAX in Hc. lia.
  - unfold N, decimal_value. cbn [decimal_value_from fold_left].
    change (10 * 0 + (d1 - 48)) with (d1 - 48).
    fold (decimal_value_from (d1 - 48) ds).
    apply scan_int_spec; [assumption|assumption|unfold UINT64_MAX; lia].
Qed.

(** On an integer token, [parse_number] reaches [number_result] with the
    outcome of the integer scan and neither fraction nor exponent. *)
Lemma parse_number_integer_run (p : Parser.t) (negative : bool)
    (d1 : Z) (ds tail : list Z) (int_val : Z) (int_overflow : bool)
    (int_digits : Z) :
  is_digit d1 = true -> (d1 = 48 -> ds = []) -> ends_number tail ->
  ptr_ p = (if negative then [45] else []) ++ d1 :: ds ++ tail ->
  (if d1 =? 48 then (ds ++ tail, 0, false, 0)
   else scan_int (ds ++ tail) (d1 - 48) 1)
  = (tail, int_val, int_overflow, int_digits) ->
  parse_number p
  = number_result (ptr_ p) negative false int_overflow int_val int_val 0 0
      int_overflow (with_ptr p tail).
Proof.
  intros Hd1 Hzero Htail Hptr Hs.
  destruct p as [ptr b o d m]. cbn [ptr_ opts_] in *. subst ptr.
  unfold with_ptr; cbn [ptr_ begin_ opts_ depth_ max_depth_].
  pose proof (is_digit_range d1 Hd1) as Hr1.
  (* the hex test fails *)
  assert (Hhex : forall r, r = ds ++ tail ->
    ParseOptions.allow_hex_numbers o && (d1 =? 48)
    && match r with x :: _ => (x =? 120) || (x =? 88) | [] => false end = false).
  { intros r ->. destruct (Z.eqb_spec d1 48) as [E|E]; [|rewrite andb_false_r; reflexivity].
    pose proof (Hzero E) as Eds. subst ds. cbn [app]. destruct tail as [|c r]; [apply andb_false_r|].
    destruct Htail as (_ & _ & _ & _ & Hx1 & Hx2).
    destruct (Z.eqb_spec c 120), (Z.eqb_spec c 88); try lia.
    all: try apply andb_false_r. }
  (* no fraction, no exponent *)
  assert (Hfrac : forall (A : Type) (x : Z -> list Z -> A) (y : A),
    match tail with c :: r => if c =? 46 then x c r else y | [] => y end = y).
  { intros A x y. destruct tail as [|c r]; [reflexivity|].
    destruct Htail as (_ & H46 & _). destruct (Z.eqb_spec c 46); [lia|reflexivity]. }
  assert (Hexp : forall (A : Type) (x : Z -> list Z -> A) (y : A),
    match tail with c :: r => if (c =? 101) || (c =? 69) then x c r else y | [] => y end = y).
  { intros A x y. destruct tail as [|c r]; [reflexivity|].
    destruct Htail as (_ & _ & H101 & H69 & _).
    destruct (Z.eqb_spec c 101), (Z.eqb_spec c 69); try lia. reflexivity. }
  unfold parse_number, bind, get_ptr, get_opts, set_ptr, with_ptr.
  destruct negative; cbn [app ptr_ begin_ opts_ depth_ max_depth_ Z.eqb Pos.eqb];
    rewrite ?(proj2 (Z.eqb_neq d1 45)) by lia; cbn [app];
    rewrite ?(proj2 (Z.eqb_neq d1 73)) by lia; rewrite ?andb_false_r;
    rewrite (Hhex _ eq_refl), Hd1; cbn [negb]; rewrite Hs;
    cbn [ptr_ begin_ opts_ depth_ max_depth_];
    rewrite Hfrac; unfold ret at 1; cbn [ptr_ begin_ opts_ depth_ max_depth_];
    rewrite Hexp; unfold ret at 1; reflexivity.
Qed.

(** C2: an integer token without fraction or exponent is classified by
    its sign and magnitude [N]: a negative one is an [Integer] up to
    2^63 and a [Float] above; a non-negative one is an [Integer] up to
    [INT64_MAX], a [UInteger] up to [UINT64_MAX]; beyond [UINT64_MAX]
    the token goes to the floating-point conversion. *)
Theorem integer_token_classification (p : Parser.t) (negative : bool)
    (d1 : Z) (ds tail : list Z) :
  is_digit d1 = true -> Forall (fun c => is_digit c = true) ds ->
  (d1 = 48 -> ds = []) -> ends_number tail ->
  ptr_ p = (if negative then [45] else []) ++ d1 :: ds ++ tail ->
  let N := decimal_value (d1 :: ds) in
  let p' := with_ptr p tail in
  (negative = true -> N <= 2 ^ 63 -> parse_number p = Ok (JInteger (- N)) p') /\
  (negative = true -> 2 ^ 63 < N <= UINT64_MAX ->
     parse_number p
     = Ok (JFloat (dneg (dmul (double_of_Z N) (double_of_Z 1)))) p') /\
  (negative = false -> N <= INT64_MAX -> parse_number p = Ok (JInteger N) p') /\
  (negative = false -> INT64_MAX < N <= UINT64_MAX ->
     parse_number p = Ok (JUInteger N) p') /\
  (UINT64_MAX < N ->
     parse_number p = parse_float_slow (ptr_ p) p').
Proof.
  intros Hd1 Hds Hzero Htail Hptr N p'.
  assert (Htail' : match tail with [] => True | c :: _ => is_digit c = false end).
  { destruct tail; [exact I|apply Htail]. }
  destruct (integer_part_scan d1 ds tail Hd1 Hds Hzero Htail') as (HN0 & Hs1 & Hs2).
  fold N in HN0, Hs1, Hs2.
  assert (Hrun : forall int_val int_overflow int_digits,
    (if d1 =? 48 then (ds ++ tail, 0, false, 0) else scan_int (ds ++ tail) (d1 - 48) 1)
      = (tail, int_val, int_overflow, int_digits) ->
    parse_number p
    = number_result (ptr_ p) negative false int_overflow int_val int_val 0 0
        int_overflow p').
  { intros. eapply parse_number_integer_run; eassumption. }
  assert (Hmax : INT64_MAX + 1 = 2 ^ 63) by reflexivity.
  repeat split.
  - intros -> HN. rewrite (Hrun _ _ _ (Hs1 ltac:(unfold UINT64_MAX; lia))).
    unfold number_result, ret. cbn [negb andb]. rewrite Hmax.
    unfold to_uint64 at 1. rewrite Z.mod_small by lia.
    destruct (Z.leb_spec N (2 ^ 63)); [|lia].
    rewrite to_int64_neg_magnitude by lia. reflexivity.
  - intros -> HN. rewrite (Hrun _ _ _ (Hs1 ltac:(lia))).
    unfold number_result, ret. cbn [negb andb]. rewrite Hmax.
    unfold to_uint64 at 1. rewrite Z.mod_small by lia.
    destruct (Z.leb_spec N (2 ^ 63)); [lia|]. reflexivity.
  - intros -> HN. rewrite (Hrun _ _ _ (Hs1 ltac:(unfold UINT64_MAX, INT64_MAX in *; lia))).
    unfold number_result, ret. cbn [negb andb].
    destruct (Z.leb_spec N INT64_MAX); [|lia].
    rewrite to_int64_small by (unfold INT64_MIN, INT64_MAX in *; lia). reflexivity.
  - intros -> HN. rewrite (Hrun _ _ _ (Hs1 ltac:(lia))).
    unfold number_result, ret. cbn [negb andb].
    destruct (Z.leb_spec N INT64_MAX); [lia|]. reflexivity.
  - intros HN. destruct (Hs2 HN) as (v' & n' & Hs).
    rewrite (Hrun _ _ _ Hs).
    unfold number_result. cbn [negb andb]. reflexivity.
Qed.

End IntegerTokens.

Lemma integer_token_classification_witness :
  let p := Parser.make (bytes_of_string "-9223372036854775808") ParseOptions.strict in
  let N := decimal_value (bytes_of_string "9223372036854775808") in
  let p' := Parser.with_ptr p [] in
  (true = true -> N <= 2 ^ 63 -> @Parser.parse_number no_charconv p = Parser.Ok (JInteger (- N)) p') /\
  (true = true -> 2 ^ 63 < N <= UINT64_MAX ->
     @Parser.parse_number no_charconv p
     = Parser.Ok (JFloat (dneg (dmul (double_of_Z N) (double_of_Z 1)))) p') /\
  (true = false -> N <= INT64_MAX -> @Parser.parse_number no_charconv p = Parser.Ok (JInteger N) p') /\
  (true = false -> INT64_MAX < N <= UINT64_MAX ->
     @Parser.parse_number no_charconv p = Parser.Ok (JUInteger N) p') /\
  (UINT64_MAX < N ->
     @Parser.parse_number no_charconv p = @Parser.parse_float_slow no_charconv (Parser.ptr_ p) p').
Proof.
  apply (@integer_token_classification no_charconv
           (Parser.make (bytes_of_string "-9223372036854775808") ParseOptions.strict)
           true 57 (bytes_of_string "223372036854775808") []).
  - reflexivity.
  - repeat constructor.
  - discriminate.
  - exact I.
  - reflexivity.
Defined.


Section ValueFacts.
Context `{Charconv}.

(* ---------- the hash index ---------- *)

Lemma index_fold_lookup_notin (l : list (nat * (list Z * JsonValue)))
    (m : gmap (list Z) nat) key :
  ~ In key (map (fun ie => fst (snd ie)) l) ->
  fold_left (fun (m : gmap (list Z) nat) ie => <[ fst (snd ie) := fst ie ]> m) l m !! key
  = m !! key.
Proof.
  revert m. induction l as [|ie l IH]; intros m Hnotin; [reflexivity|].
  cbn [fold_left]. rewrite IH.
  - apply lookup_insert_ne. intros E. apply Hnotin. left. exact E.
  - intros Hin. apply Hnotin. right. exact Hin.
Qed.

Lemma imap_keys (entries : Entries) (k : nat) :
  map (fun ie : nat * (list Z * JsonValue) => fst (snd ie))
      (imap (fun i e => (k + i, e)%nat) entries)
  = map fst entries.
Proof.
  revert k. induction entries as [|e entries IH]; intros k; [reflexivity|].
  cbn [imap map]. f_equal.
  rewrite <- (IH (S k)). f_equal. apply imap_ext. intros i x _. cbn. f_equal. lia.
Qed.

Lemma rebuild_index_notin (entries : Entries) key :
  ~ In key (map fst entries) -> Object_rebuild_index entries !! key = None.
Proof.
  intros Hnotin. unfold Object_rebuild_index.
  rewrite index_fold_lookup_notin; [apply lookup_empty|].
  change (imap (fun i e => (i, e)) entries)
    with (imap (fun i e => ((0 + i)%nat, e)) entries).
  rewrite imap_keys. exact Hnotin.
Qed.

Lemma linear_find_notin (entries : Entries) key :
  ~ In key (map fst entries) -> Object_linear_find entries key = None.
Proof.
  induction entries as [|[k v] entries IH]; intros Hnotin; [reflexivity|].
  cbn [Object_linear_find]. rewrite bool_decide_eq_false_2.
  - rewrite IH; [reflexivity|]. intros Hin. apply Hnotin. right. exact Hin.
  - intros E. apply Hnotin. left. exact E.
Qed.

Lemma Object_find_pos_notin (entries : Entries) key :
  ~ In key (map fst entries) -> Object_find_pos entries key = None.
Proof.
  intros Hnotin. unfold Object_find_pos.
  destruct (Object_use_index entries);
    [apply rebuild_index_notin|apply linear_find_notin]; exact Hnotin.
Qed.

(** C9: [write_float] writes NaN as the literal NaN and the infinities as
    Infinity and -Infinity when [allow_nan_inf] is set, and each of them
    as null when it is not; so does [serialize] on such a [Float], under
    every setting of the other options. *)
Theorem nan_and_infinity_serialization (opts : SerializeOptions.t) :
  let allow := SerializeOptions.allow_nan_inf opts in
  (forall (Sink : Type) (O : Output Sink) (s : SerializerCore.state),
     SerializerCore.write_float opts S754_nan s
       = SerializerCore.put
           (bytes_of_string (if allow then "NaN" else "null")) s /\
     SerializerCore.write_float opts (S754_infinity false) s
       = SerializerCore.put
           (bytes_of_string (if allow then "Infinity" else "null")) s /\
     SerializerCore.write_float opts (S754_infinity true) s
       = SerializerCore.put
           (bytes_of_string (if allow then "Infinity" else "null"))
           (if allow then SerializerCore.put_char 45 s else s)) /\
  serialize (JFloat S754_nan) opts
    = bytes_of_string (if allow then "NaN" else "null") /\
  serialize (JFloat (S754_infinity false)) opts
    = bytes_of_string (if allow then "Infinity" else "null") /\
  serialize (JFloat (S754_infinity true)) opts
    = bytes_of_string (if allow then "-Infinity" else "null").
Proof.
  intros allow. subst allow. split.
  - intros Sink O s. unfold SerializerCore.write_float.
    cbn [disnan disinf]. destruct (SerializeOptions.allow_nan_inf opts); cbn; auto.
  - destruct opts as [indent ea an sk].
    unfold serialize, Serializer_serialize, SerializerImpl_serialize.
    cbn [SerializeOptions.indent SerializeOptions.ensure_ascii SerializeOptions.allow_nan_inf].
    destruct (0 <=? indent), ea, an; vm_compute; auto.
Qed.

End ValueFacts.


(* ===================================================================== *)
(** * The parser always answers: no run exhausts its fuel, and no
      [ParseError] carries the code [ok]                                  *)
(* ===================================================================== *)

Section Totality.
Context `{Charconv}.
Import Parser.

Lemma spec_bind {A B : Type} (m : M A) (k : A -> M B) p Q1 Q2 :
  spec m p Q1 -> (forall a p', Q1 a p' -> spec (k a) p' Q2) ->
  spec (bind m k) p Q2.
Proof.
  unfold spec, bind. intros Hm Hk. destruct (m p) as [a p'| |].
  - apply (Hk a p' Hm).
  - exact Hm.
  - exact Hm.
Qed.

Lemma spec_weaken {A : Type} (m : M A) p (Q1 Q2 : A -> Parser.t -> Prop) :
  spec m p Q1 -> (forall a p', Q1 a p' -> Q2 a p') -> spec m p Q2.
Proof.
  unfold spec. intros Hm HQ. destruct (m p); auto.
Qed.

Lemma spec_ret {A : Type} (a : A) p (Q : A -> Parser.t -> Prop) :
  Q a p -> spec (ret a) p Q.
Proof. exact (fun H => H). Qed.

Lemma spec_error {A : Type} c p (Q : A -> Parser.t -> Prop) :
  c <> ok -> spec (error c) p Q.
Proof. exact (fun H => H). Qed.

Lemma spec_get_ptr {B : Type} (k : list Z -> M B) p Q :
  spec (k (ptr_ p)) p Q -> spec (bind get_ptr k) p Q.
Proof. exact (fun H => H). Qed.

Lemma spec_get_opts {B : Type} (k : ParseOptions.t -> M B) p Q :
  spec (k (opts_ p)) p Q -> spec (bind get_opts k) p Q.
Proof. exact (fun H => H). Qed.

Lemma spec_set_ptr {B : Type} l (k : unit -> M B) p Q :
  spec (k tt) (with_ptr p l) Q -> spec (bind (set_ptr l) k) p Q.
Proof. exact (fun H => H). Qed.

Lemma spec_error_unexpected_end {A : Type} p (Q : A -> Parser.t -> Prop) :
  spec error_unexpected_end p Q.
Proof. unfold error_unexpected_end. apply spec_error. discriminate. Qed.

Lemma spec_error_unexpected_char {A : Type} p (Q : A -> Parser.t -> Prop) :
  spec error_unexpected_char p Q.
Proof.
  unfold spec, error_unexpected_char, error_unexpected_end, error.
  destruct (ptr_ p); discriminate.
Qed.

(** ** Scanners only move forward *)

Lemma simd_skip_whitespace_len l : (length (simd.skip_whitespace l) <= length l)%nat.
Proof.
  induction l as [|c r IH]; cbn [simd.skip_whitespace]; [lia|].
  destruct (negb (simd.is_ws c)); cbn [length]; lia.
Qed.

Lemma skip_whitespace_tail_len l : (length (skip_whitespace_tail l) <= length l)%nat.
Proof.
  induction l as [|c r IH]; cbn [skip_whitespace_tail]; [lia|].
  destruct ((c =? 32) || (c =? 10) || (c =? 13) || (c =? 9)); cbn [length]; lia.
Qed.

Lemma skip_whitespace_slow_len l : (length (skip_whitespace_slow l) <= length l)%nat.
Proof.
  unfold skip_whitespace_slow. destruct (16 <=? length l)%nat;
    [apply simd_skip_whitespace_len|apply skip_whitespace_tail_len].
Qed.

Lemma skip_whitespace_ptr_len l : (length (skip_whitespace_ptr l) <= length l)%nat.
Proof.
  pose proof (skip_whitespace_slow_len l) as Hs.
  unfold skip_whitespace_ptr.
  destruct l as [|c0 [|c1 [|c2 r]]]; auto;
    repeat match goal with |- context [if ?c then _ else _] => destruct c end;
    cbn [length] in *; lia.
Qed.

Lemma skip_line_len l : (length (skip_line l) <= length l)%nat.
Proof.
  induction l as [|c r IH]; cbn [skip_line]; [lia|].
  destruct (c =? 10); cbn [length]; lia.
Qed.

Lemma skip_block_len l : (length (skip_block l) <= length l)%nat.
Proof.
  induction l as [|c0 r0 IH]; cbn [skip_block]; [lia|].
  destruct r0 as [|c1 r1]; [cbn [length]; lia|].
  destruct ((c0 =? 42) && (c1 =? 47)); cbn [length] in *; lia.
Qed.

Lemma skip_comments_ptr_total fuel l :
  (length l < fuel)%nat ->
  exists l', skip_comments_ptr fuel l = Some l' /\ (length l' <= length l)%nat.
Proof.
  revert l. induction fuel as [|fuel IH]; intros l Hlen; [lia|].
  cbn [skip_comments_ptr].
  destruct l as [|c0 [|c1 r]]; try (eexists; split; [reflexivity|lia]).
  destruct (c0 =? 47); [|eexists; split; [reflexivity|lia]].
  destruct (c1 =? 47).
  { pose proof (skip_line_len r) as H1.
    pose proof (length_drop (skip_line r) 1) as H2.
    pose proof (skip_whitespace_ptr_len (drop 1 (skip_line r))) as H3.
    destruct (IH (skip_whitespace_ptr (drop 1 (skip_line r)))) as (l' & Hl' & Hle).
    - cbn [length] in Hlen. lia.
    - exists l'. split; [exact Hl'|]. cbn [length]. lia. }
  destruct (c1 =? 42); [|eexists; split; [reflexivity|lia]].
  pose proof (skip_block_len r) as H1.
  pose proof (skip_whitespace_ptr_len (skip_block r)) as H3.
  destruct (IH (skip_whitespace_ptr (skip_block r))) as (l' & Hl' & Hle).
  - cbn [length] in Hlen. lia.
  - exists l'. split; [exact Hl'|]. cbn [length]. lia.
Qed.

Lemma find_string_delimiter_len l :
  (length (simd.find_string_delimiter l) <= length l)%nat.
Proof.
  induction l as [|c r IH]; cbn [simd.find_string_delimiter]; [lia|].
  destruct ((c =? 34) || (c =? 92)); cbn [length]; lia.
Qed.

Lemma find_quote_or_backslash_len q l :
  (length (find_quote_or_backslash q l) <= length l)%nat.
Proof.
  induction l as [|c r IH]; cbn [find_quote_or_backslash]; [lia|].
  destruct ((c =? q) || (c =? 92)); cbn [length]; lia.
Qed.

Lemma skip_digits_len l : (length (skip_digits l) <= length l)%nat.
Proof.
  induction l as [|c r IH]; cbn [skip_digits]; [lia|].
  destruct (is_digit c); cbn [length]; lia.
Qed.

Lemma scan_int_len l v n :
  (length (fst (fst (fst (scan_int l v n)))) <= length l)%nat.
Proof.
  revert v n. induction l as [|c r IH]; intros v n; cbn [scan_int]; [cbn; lia|].
  destruct (is_digit c); [|cbn; lia].
  destruct (_ || _).
  - cbn [fst length]. pose proof (skip_digits_len r). lia.
  - specialize (IH (to_uint64 (v * 10 + (c - 48))) (n + 1)). cbn [length]. lia.
Qed.

Lemma scan_frac_len l m f t o :
  (length (fst (fst (fst (fst (scan_frac l m f t o))))) <= length l)%nat.
Proof.
  revert m f t o. induction l as [|c r IH]; intros m f t o; cbn [scan_frac]; [cbn; lia|].
  destruct (is_digit c); [|cbn; lia].
  destruct (t <? kMaxMantissaDigits).
  - specialize (IH (to_uint64 (m * 10 + (c - 48))) (f + 1) (t + 1) o). cbn [length]. lia.
  - specialize (IH m f t true). cbn [length]. lia.
Qed.

Lemma scan_exp_len l e : (length (fst (scan_exp l e)) <= length l)%nat.
Proof.
  revert e. induction l as [|c r IH]; intros e; cbn [scan_exp]; [cbn; lia|].
  destruct (is_digit c); [|cbn; lia].
  specialize (IH (if e * 10 + (c - 48) >? 400 then 400 else e * 10 + (c - 48))).
  cbn [length]. lia.
Qed.

Lemma scan_hex_len l v b : (length (fst (fst (scan_hex l v b))) <= length l)%nat.
Proof.
  revert v b. induction l as [|h r IH]; intros v b; cbn [scan_hex]; [cbn; lia|].
  repeat match goal with |- context [if ?c then _ else _] => destruct c end;
    try (cbn; lia);
    match goal with |- context [scan_hex r ?v' ?b'] => specialize (IH v' b') end;
    cbn [length]; lia.
Qed.

Lemma skip_ident_len l : (length (skip_ident l) <= length l)%nat.
Proof.
  induction l as [|c r IH]; cbn [skip_ident]; [lia|].
  destruct (is_ident_char c); cbn [length]; lia.
Qed.

(** ** The members of the parser *)

Local Ltac len_tac :=
  unfold le_len, lt_len in *; cbn [ptr_ with_ptr with_depth length] in *;
  intros; try assumption; try lia.

(** Conclude from a known specification, adjusting the postcondition. *)
Local Ltac use lem :=
  eapply spec_weaken; [apply lem; len_tac | len_tac].

(** One [bind]: the first computation by a known specification. *)
Local Ltac step lem :=
  eapply spec_bind; [apply lem; len_tac | cbv beta; intros ? ? ?].

Lemma spec_skip_whitespace p : spec skip_whitespace p (le_len p).
Proof.
  unfold spec, skip_whitespace. len_tac. apply skip_whitespace_ptr_len.
Qed.

Lemma spec_skip_comments fuel p :
  (length (ptr_ p) < fuel)%nat -> spec (skip_comments fuel) p (le_len p).
Proof.
  intros Hlen. unfold spec, skip_comments.
  destruct (skip_comments_ptr_total fuel (ptr_ p) Hlen) as (l' & -> & Hle).
  len_tac.
Qed.

Lemma spec_skip_ws_and_comments fuel p :
  (length (ptr_ p) < fuel)%nat -> spec (skip_ws_and_comments fuel) p (le_len p).
Proof.
  intros Hlen. unfold skip_ws_and_comments.
  step spec_skip_whitespace. apply spec_get_opts.
  destruct (ParseOptions.allow_comments (opts_ p')).
  - unfold skip_comments_and_ws.
    eapply spec_bind; [apply (spec_skip_comments fuel); len_tac|].
    cbv beta; intros ? ? ?. use spec_skip_whitespace.
  - apply spec_ret. len_tac.
Qed.

Lemma spec_push_depth p : spec push_depth p (le_len p).
Proof.
  unfold spec, push_depth.
  destruct (_ <? _)%nat; [discriminate|len_tac].
Qed.

Lemma spec_pop_depth p : spec pop_depth p (le_len p).
Proof. unfold spec, pop_depth. len_tac. Qed.

Lemma spec_expect c p : spec (expect c) p (lt_len p).
Proof.
  unfold spec, expect. destruct (ptr_ p) as [|c' r] eqn:E; [discriminate|].
  destruct (c' =? c); [|discriminate]. len_tac. rewrite E. cbn. lia.
Qed.

Lemma spec_expect_literal lit p :
  lit <> [] -> spec (expect_literal lit) p (lt_len p).
Proof.
  intros Hne. unfold spec, expect_literal.
  destruct (Nat.ltb_spec (length (ptr_ p)) (length lit)); cbn [orb]; [discriminate|].
  destruct (negb _); [discriminate|]. len_tac. rewrite length_drop.
  destruct lit; [congruence|]. cbn [length] in *. lia.
Qed.

Lemma spec_literal (lit : string) (v : JsonValue) p :
  bytes_of_string lit <> [] ->
  spec (bind (expect_literal (bytes_of_string lit)) (fun _ => ret v)) p (lt_len p).
Proof.
  intros Hne. step spec_expect_literal. apply spec_ret. len_tac.
Qed.

Lemma spec_parse_null p : spec parse_null p (lt_len p).
Proof. apply spec_literal. discriminate. Qed.
Lemma spec_parse_true p : spec parse_true p (lt_len p).
Proof. apply spec_literal. discriminate. Qed.
Lemma spec_parse_false p : spec parse_false p (lt_len p).
Proof. apply spec_literal. discriminate. Qed.
Lemma spec_parse_nan p : spec parse_nan p (lt_len p).
Proof. apply spec_literal. discriminate. Qed.
Lemma spec_parse_infinity b p : spec (parse_infinity b) p (lt_len p).
Proof. apply spec_literal. discriminate. Qed.

Lemma spec_parse_hex4 p : spec parse_hex4 p (le_len p).
Proof.
  unfold spec, parse_hex4. destruct (_ <? _)%nat; [discriminate|].
  destruct (hex4_loop _ _); [|discriminate]. len_tac. rewrite length_drop. lia.
Qed.

Lemma spec_parse_unicode_escape out p :
  spec (parse_unicode_escape out) p (le_len p).
Proof.
  unfold parse_unicode_escape. step spec_parse_hex4.
  eapply spec_bind with (Q1 := le_len p).
  - destruct ((0xD800 <=? a) && (a <=? 0xDBFF)).
    + apply spec_get_ptr. destruct (ptr_ p') as [|c0 [|c1 r]] eqn:E;
        try (apply spec_error; discriminate).
      destruct ((c0 =? 92) && (c1 =? 117)); [|apply spec_error; discriminate].
      apply spec_set_ptr.
      eapply spec_bind; [apply spec_parse_hex4|]. cbv beta. intros low p'' Hle.
      destruct ((low <? 0xDC00) || (0xDFFF <? low)); [apply spec_error; discriminate|].
      apply spec_ret. len_tac. rewrite E in *. cbn [length] in *. lia.
    + destruct ((0xDC00 <=? a) && (a <=? 0xDFFF)); [apply spec_error; discriminate|].
      apply spec_ret. len_tac.
  - cbv beta. intros cp' p'' Hle. apply spec_ret. exact Hle.
Qed.

Lemma spec_parse_escape out p : spec (parse_escape out) p (le_len p).
Proof.
  unfold parse_escape. apply spec_get_ptr.
  destruct (ptr_ p) as [|c r] eqn:E; [apply spec_error; discriminate|].
  apply spec_set_ptr.
  assert (Hle : (length (ptr_ (with_ptr p r)) <= length (ptr_ p))%nat)
    by (rewrite E; cbn; lia).
  repeat match goal with
         | |- spec (if ?c then _ else _) _ _ => destruct c
         | |- spec (ret _) _ _ => apply spec_ret; exact Hle
         | |- spec (error _) _ _ => apply spec_error; discriminate
         end.
  - apply spec_get_opts. destruct (ParseOptions.allow_single_quotes _);
      [apply spec_ret; exact Hle|apply spec_error; discriminate].
  - use spec_parse_unicode_escape.
Qed.

Lemma spec_parse_string_content_into fuel result quote p :
  (length (ptr_ p) < fuel)%nat ->
  spec (parse_string_content_into fuel result quote) p (le_len p).
Proof.
  revert result p. induction fuel as [|fuel IH]; intros result p Hlen; [lia|].
  cbn [parse_string_content_into]. apply spec_get_ptr.
  set (delim := if quote =? 34 then simd.find_string_delimiter (ptr_ p)
                else find_quote_or_backslash quote (ptr_ p)).
  assert (Hd : (length delim <= length (ptr_ p))%nat).
  { subst delim. destruct (quote =? 34);
      [apply find_string_delimiter_len|apply find_quote_or_backslash_len]. }
  apply spec_set_ptr.
  destruct delim as [|c r] eqn:E; [apply spec_error; discriminate|].
  apply spec_set_ptr.
  destruct (c =? quote); [apply spec_ret; len_tac|].
  eapply spec_bind; [apply spec_parse_escape|]. cbv beta. intros result' p' Hle.
  eapply spec_weaken; [apply IH|]; len_tac.
Qed.

Lemma spec_parse_string fuel p :
  (length (ptr_ p) < fuel)%nat -> spec (parse_string fuel) p (lt_len p).
Proof.
  intros Hlen. unfold parse_string. step spec_expect. apply spec_get_ptr.
  pose proof (find_string_delimiter_len (ptr_ p')) as Hd.
  assert (Hslow : spec
    (bind (set_ptr (simd.find_string_delimiter (ptr_ p')))
       (fun _ => parse_string_content_into fuel
          (take (length (ptr_ p') - length (simd.find_string_delimiter (ptr_ p')))
             (ptr_ p')) 34)) p' (lt_len p)).
  { apply spec_set_ptr. use spec_parse_string_content_into. }
  destruct (simd.find_string_delimiter (ptr_ p')) as [|c r] eqn:E; [exact Hslow|].
  destruct (c =? 34); [|exact Hslow].
  apply spec_set_ptr. apply spec_ret. len_tac.
Qed.

Lemma spec_parse_string_sq fuel p :
  (length (ptr_ p) < fuel)%nat -> spec (parse_string_sq fuel) p (lt_len p).
Proof.
  intros Hlen. unfold parse_string_sq. step spec_expect.
  use spec_parse_string_content_into.
Qed.

Lemma spec_parse_string_value fuel p :
  (length (ptr_ p) < fuel)%nat -> spec (parse_string_value fuel) p (lt_len p).
Proof.
  intros Hlen. unfold parse_string_value. step spec_expect. apply spec_get_ptr.
  pose proof (find_string_delimiter_len (ptr_ p')) as Hd.
  assert (Hslow : spec
    (bind (set_ptr (simd.find_string_delimiter (ptr_ p')))
       (fun _ => bind (parse_string_content_into fuel
          (take (length (ptr_ p') - length (simd.find_string_delimiter (ptr_ p')))
             (ptr_ p')) 34) (fun buf => ret (pmr_string_to_value buf)))) p' (lt_len p)).
  { apply spec_set_ptr.
    eapply spec_bind; [apply (spec_parse_string_content_into fuel); len_tac|].
    cbv beta. intros buf p'' Hle. apply spec_ret. len_tac. }
  destruct (simd.find_string_delimiter (ptr_ p')) as [|c r] eqn:E; [exact Hslow|].
  destruct (c =? 34); [|exact Hslow].
  apply spec_set_ptr. apply spec_ret. len_tac.
Qed.

Lemma spec_parse_string_value_sq fuel p :
  (length (ptr_ p) < fuel)%nat -> spec (parse_string_value_sq fuel) p (lt_len p).
Proof.
  intros Hlen. unfold parse_string_value_sq. step spec_expect.
  eapply spec_bind; [apply (spec_parse_string_content_into fuel); len_tac|].
  cbv beta. intros buf p'' Hle. apply spec_ret. len_tac.
Qed.

Lemma spec_parse_unquoted_key p : spec parse_unquoted_key p (lt_len p).
Proof.
  unfold parse_unquoted_key. apply spec_get_ptr.
  destruct (ptr_ p) as [|c r] eqn:E; [apply spec_error; discriminate|].
  destruct (is_ident_start c); [|apply spec_error; discriminate].
  apply spec_set_ptr. apply spec_ret. len_tac.
  pose proof (skip_ident_len r). rewrite E. cbn [length]. lia.
Qed.

Lemma spec_parse_hex_number negative p :
  spec (parse_hex_number negative) p
       (fun _ p' => (length (ptr_ p') < length (ptr_ p))%nat \/ ptr_ p = []).
Proof.
  unfold parse_hex_number. apply spec_get_ptr. apply spec_set_ptr.
  destruct (drop 2 (ptr_ p)) as [|h r] eqn:E; [apply spec_error; discriminate|].
  pose proof (scan_hex_len (h :: r) 0 false) as Hs.
  destruct (scan_hex (h :: r) 0 false) as [[rest val] has_digit].
  apply spec_set_ptr. destruct (negb has_digit); [apply spec_error; discriminate|].
  apply spec_ret. len_tac. left.
  pose proof (length_drop (ptr_ p) 2) as Hd. rewrite E in Hd. cbn [fst length] in *. lia.
Qed.

Lemma spec_parse_float_slow start p : spec (parse_float_slow start) p (le_len p).
Proof.
  unfold parse_float_slow. apply spec_get_ptr.
  destruct (from_chars _); [apply spec_ret; len_tac|apply spec_error; discriminate].
Qed.

Lemma spec_number_result start negative is_float int_overflow int_val mantissa
    frac_digits explicit_exp mantissa_overflow p :
  spec (number_result start negative is_float int_overflow int_val mantissa
          frac_digits explicit_exp mantissa_overflow) p (le_len p).
Proof.
  unfold number_result.
  repeat match goal with
         | |- spec (if ?c then _ else _) _ _ => destruct c
         | |- spec (ret _) _ _ => apply spec_ret; len_tac
         | |- spec (parse_float_slow _) _ _ => apply spec_parse_float_slow
         end.
Qed.

Lemma spec_parse_number p : spec parse_number p (lt_len p).
Proof.
  unfold parse_number. apply spec_get_ptr. apply spec_get_opts.
  destruct (ptr_ p) as [|c0 r0] eqn:E; [apply spec_error; discriminate|].
  set (negative := c0 =? 45).
  set (after_sign := if negative then r0 else c0 :: r0).
  assert (Ha : (length after_sign <= length (ptr_ p))%nat).
  { subst after_sign. rewrite E. destruct negative; cbn [length]; lia. }
  clearbody after_sign negative.
  apply spec_set_ptr.
  destruct after_sign as [|c r]; [apply spec_error; discriminate|].
  destruct (negative && ParseOptions.allow_nan_inf (opts_ p) && (c =? 73)).
  { use spec_parse_infinity. }
  match goal with |- spec (if ?c then _ else _) _ _ => destruct c end.
  { eapply spec_weaken; [apply spec_parse_hex_number|].
    len_tac. destruct H0 as [?|?]; [lia|discriminate]. }
  destruct (negb (is_digit c)); [apply spec_error; discriminate|].
  set (scanned := if c =? 48 then (r, 0, false, 0) else scan_int r (c - 48) 1).
  assert (Hint : (length (fst (fst (fst scanned))) <= length r)%nat).
  { subst scanned. destruct (c =? 48); [cbn; lia|apply scan_int_len]. }
  destruct scanned as [[[l1 int_val] int_overflow] int_digits].
  cbn [fst] in Hint. apply spec_set_ptr.
  eapply spec_bind with (Q1 := fun _ p' => (length (ptr_ p') <= length l1)%nat).
  { destruct l1 as [|dot l2]; [apply spec_ret; len_tac|].
    destruct (dot =? 46); [|apply spec_ret; len_tac].
    apply spec_set_ptr. destruct l2 as [|d l2']; [apply spec_error; discriminate|].
    destruct (is_digit d); [|apply spec_error; discriminate].
    pose proof (scan_frac_len (d :: l2') int_val 0 int_digits int_overflow) as Hf.
    destruct (scan_frac (d :: l2') int_val 0 int_digits int_overflow)
      as [[[[l3 mantissa] frac_digits] total_digits] mo].
    cbn [fst] in Hf. apply spec_set_ptr. apply spec_ret. len_tac. }
  cbv beta. intros [[[is_float1 mantissa] frac_digits] mantissa_overflow] p1 Hp1.
  apply spec_get_ptr.
  eapply spec_bind with (Q1 := fun _ p' => (length (ptr_ p') <= length (ptr_ p1))%nat).
  { destruct (ptr_ p1) as [|e l5] eqn:E4; [apply spec_ret; len_tac; rewrite E4; cbn; lia|].
    destruct ((e =? 101) || (e =? 69)); [|apply spec_ret; len_tac; rewrite E4; cbn; lia].
    set (sl := match l5 with
               | [] => (false, l5)
               | s :: l6 => if (s =? 43) || (s =? 45) then (s =? 45, l6) else (false, l5)
               end).
    assert (Hsl : (length (snd sl) <= length l5)%nat).
    { subst sl. destruct l5 as [|s l6]; [cbn; lia|].
      destruct ((s =? 43) || (s =? 45)); cbn [snd length]; lia. }
    destruct sl as [neg_exp l6]. cbn [snd] in Hsl.
    apply spec_set_ptr. destruct l6 as [|d l6']; [apply spec_error; discriminate|].
    destruct (is_digit d); [|apply spec_error; discriminate].
    pose proof (scan_exp_len (d :: l6') 0) as He.
    destruct (scan_exp (d :: l6') 0) as [l7 explicit_exp]. cbn [fst] in He.
    apply spec_set_ptr. apply spec_ret. len_tac. }
  cbv beta. intros [is_float explicit_exp] p2 Hp2.
  eapply spec_weaken; [apply spec_number_result|].
  len_tac.
Qed.

(** ** The recursive group *)

Lemma spec_group fuel :
  (forall p, (3 * length (ptr_ p) + 1 <= fuel)%nat ->
             spec (parse_value fuel) p (lt_len p)) /\
  (forall p, (3 * length (ptr_ p) <= fuel)%nat -> ptr_ p <> [] ->
             spec (parse_array fuel) p (lt_len p)) /\
  (forall p arr, (3 * length (ptr_ p) + 2 <= fuel)%nat ->
                 spec (array_loop fuel arr) p (lt_len p)) /\
  (forall p, (3 * length (ptr_ p) <= fuel)%nat -> ptr_ p <> [] ->
             spec (parse_object fuel) p (lt_len p)) /\
  (forall p entries seen, (3 * length (ptr_ p) + 2 <= fuel)%nat ->
                          spec (object_loop fuel entries seen) p (lt_len p)).
Proof.
  induction fuel as [|n (IHv & IHa & IHal & IHo & IHol)].
  { repeat split; intros; try lia. destruct (ptr_ p); [congruence|cbn in *; lia].
    destruct (ptr_ p); [congruence|cbn in *; lia]. }
  repeat split.
  - (* parse_value *)
    intros p Hf. cbn [parse_value].
    step spec_skip_ws_and_comments. apply spec_get_ptr. apply spec_get_opts.
    destruct (ptr_ p') as [|c r] eqn:E.
    { apply spec_error_unexpected_end. }
    assert (Hne : ptr_ p' <> []) by (rewrite E; discriminate).
    repeat match goal with
           | |- spec (if ?c then _ else _) _ _ => destruct c
           | |- spec error_unexpected_char _ _ => apply spec_error_unexpected_char
           end.
    + use spec_parse_string_value.
    + use spec_parse_string_value_sq.
    + eapply spec_weaken; [apply IHo; len_tac|len_tac].
    + eapply spec_weaken; [apply IHa; len_tac|len_tac].
    + use spec_parse_true.
    + use spec_parse_false.
    + use spec_parse_null.
    + use spec_parse_number.
    + use spec_parse_nan.
    + use spec_parse_infinity.
  - (* parse_array *)
    intros p Hf Hne. cbn [parse_array]. apply spec_get_ptr. apply spec_set_ptr.
    assert (Hd : (S (length (drop 1 (ptr_ p))) = length (ptr_ p))%nat).
    { destruct (ptr_ p); [congruence|]. cbn. rewrite drop_0. reflexivity. }
    step spec_push_depth. step spec_skip_ws_and_comments.
    apply spec_get_ptr. destruct (ptr_ p'0) as [|c r] eqn:E; [apply spec_error; discriminate|].
    destruct (c =? 93).
    + apply spec_set_ptr. step spec_pop_depth. apply spec_ret. len_tac.
      rewrite E in *. cbn [length] in *. lia.
    + eapply spec_weaken; [apply IHal; len_tac|len_tac].
  - (* array_loop *)
    intros p arr Hf. cbn [array_loop].
    eapply spec_bind; [apply IHv; lia|]. cbv beta. intros v p1 Hp1.
    step spec_skip_ws_and_comments. apply spec_get_ptr. apply spec_get_opts.
    destruct (ptr_ p') as [|c r] eqn:E; [apply spec_error; discriminate|].
    destruct (c =? 44).
    + apply spec_set_ptr. step spec_skip_ws_and_comments.
      { rewrite E in *. cbn [length] in *. lia. }
      apply spec_get_ptr.
      assert (Hloop : spec (array_loop n (arr ++ [v])) p'0 (lt_len p)).
      { eapply spec_weaken; [apply IHal|]; len_tac; rewrite E in *; cbn [length] in *; lia. }
      destruct (ptr_ p'0) as [|c' r'] eqn:E'; [exact Hloop|].
      destruct (_ && _); [|exact Hloop].
      apply spec_set_ptr. step spec_pop_depth. apply spec_ret. len_tac.
      rewrite E, E' in *. cbn [length] in *. lia.
    + destruct (c =? 93); [|apply spec_error; discriminate].
      apply spec_set_ptr. step spec_pop_depth. apply spec_ret. len_tac.
      rewrite E in *. cbn [length] in *. lia.
  - (* parse_object *)
    intros p Hf Hne. cbn [parse_object]. apply spec_get_ptr. apply spec_set_ptr.
    assert (Hd : (S (length (drop 1 (ptr_ p))) = length (ptr_ p))%nat).
    { destruct (ptr_ p); [congruence|]. cbn. rewrite drop_0. reflexivity. }
    step spec_push_depth. step spec_skip_ws_and_comments.
    apply spec_get_ptr. destruct (ptr_ p'0) as [|c r] eqn:E; [apply spec_error; discriminate|].
    destruct (c =? 125).
    + apply spec_set_ptr. step spec_pop_depth. apply spec_ret. len_tac.
      rewrite E in *. cbn [length] in *. lia.
    + eapply spec_weaken; [apply IHol; len_tac|len_tac].
  - (* object_loop *)
    intros p entries seen Hf. cbn [object_loop].
    step spec_skip_ws_and_comments. apply spec_get_ptr. apply spec_get_opts.
    eapply spec_bind with (Q1 := lt_len p').
    { destruct (ptr_ p') as [|c r] eqn:E; [apply spec_error; discriminate|].
      repeat match goal with
             | |- spec (if ?c then _ else _) _ _ => destruct c
             | |- spec (error _) _ _ => apply spec_error; discriminate
             end.
      - use spec_parse_string.
      - use spec_parse_string_sq.
      - apply spec_parse_unquoted_key. }
    cbv beta. intros key p1 Hp1.
    step spec_skip_ws_and_comments. step spec_expect.
    eapply spec_bind; [apply IHv; len_tac|]. cbv beta. intros value p2 Hp2.
    eapply spec_bind with (Q1 := fun _ p'' => p'' = p2).
    { destruct (ParseOptions.allow_duplicate_keys (opts_ p')); [apply spec_ret; reflexivity|].
      destruct (insert_checked entries seen key value);
        [apply spec_ret; reflexivity|apply spec_error; discriminate]. }
    cbv beta. intros [entries' seen'] ? ->.
    step spec_skip_ws_and_comments. apply spec_get_ptr.
    destruct (ptr_ p'2) as [|c r] eqn:E; [apply spec_error; discriminate|].
    destruct (c =? 44).
    + apply spec_set_ptr. step spec_skip_ws_and_comments.
      { rewrite E in *. cbn [length] in *. lia. }
      apply spec_get_ptr.
      assert (Hloop : spec (object_loop n entries' seen') p'3 (lt_len p)).
      { eapply spec_weaken; [apply IHol|]; len_tac; rewrite E in *; cbn [length] in *; lia. }
      destruct (ptr_ p'3) as [|c' r'] eqn:E'; [exact Hloop|].
      destruct (_ && _); [|exact Hloop].
      apply spec_set_ptr. step spec_pop_depth. apply spec_ret. len_tac.
      rewrite E, E' in *. cbn [length] in *. lia.
    + destruct (c =? 125); [|apply spec_error; discriminate].
      apply spec_set_ptr. step spec_pop_depth. apply spec_ret. len_tac.
      rewrite E in *. cbn [length] in *. lia.
Qed.

Lemma spec_parse_document input opts :
  spec (parse_document (parse_fuel input)) (make input opts) (fun _ _ => True).
Proof.
  unfold parse_document, parse_fuel.
  eapply spec_bind; [apply (proj1 (spec_group _)); cbn [make ptr_]; lia|].
  cbv beta. intros result p1 Hp1. unfold lt_len in Hp1. cbn [make ptr_] in Hp1.
  eapply spec_bind; [apply spec_skip_whitespace|]. cbv beta. intros ? p2 Hp2.
  unfold le_len in Hp2. apply spec_get_opts.
  eapply spec_bind with (Q1 := fun _ _ => True).
  { destruct (ParseOptions.allow_comments (opts_ p2)); [|exact I].
    eapply spec_weaken; [apply spec_skip_comments; lia|auto]. }
  cbv beta. intros ? p3 _. apply spec_get_ptr.
  destruct (ptr_ p3); [exact I|discriminate].
Qed.

(** The run of [parse] never exhausts its fuel, and an error it throws
    never carries the code [ok]. *)
Theorem parse_total (input : list Z) (opts : ParseOptions.t) :
  parse_document (parse_fuel input) (make input opts) <> OutOfFuel /\
  (forall e, parse_document (parse_fuel input) (make input opts) = Throw e ->
             code e <> ok).
Proof.
  pose proof (spec_parse_document input opts) as Hs. unfold spec in Hs.
  destruct (parse_document (parse_fuel input) (make input opts)) as [v p|e|].
  - split; [discriminate|]. intros e He. discriminate He.
  - split; [discriminate|]. intros e' He. injection He as <-. exact Hs.
  - destruct Hs.
Qed.

(** C8: for every input and every [ParseOptions], [parse] returns [v]
    exactly when [try_parse] returns [v] with the code [ok]; [parse]
    throws a [ParseError] with code [c] exactly when the code of the
    result of [try_parse] is [c], a code other than [ok]; and whatever
    [parse] throws is a [ParseError], which [try_parse] turns into a
    result, so [try_parse] itself throws nothing. *)
Theorem exception_and_result_api_agree (input : list Z) (opts : ParseOptions.t) :
  (forall v, Parser.parse input opts = Returns v
             <-> Parser.try_parse input opts = mkResult v ok) /\
  (forall c, (exists loc, Parser.parse input opts
                          = Throws (ExnParseError (mkParseError c loc)))
             <-> (ec (Parser.try_parse input opts) = c /\ c <> ok)) /\
  (forall e, Parser.parse input opts = Throws e ->
             exists pe, e = ExnParseError pe /\ code pe <> ok
                        /\ Parser.try_parse input opts = mkResult JNull (code pe)).
Proof.
  destruct (parse_total input opts) as [Hfuel Hcode].
  unfold Parser.try_parse, Parser.parse.
  destruct (parse_document (parse_fuel input) (make input opts)) as [v p|e|];
    [| |congruence].
  - (* the run returns [v] *)
    split; [|split].
    + intros v'. split; intros Hv; injection Hv as <-; reflexivity.
    + intros c. split; [intros [loc Hc]; discriminate Hc|].
      cbn [ec]. intros [<- Hne]. congruence.
    + intros e He. discriminate He.
  - (* the run throws [e] *)
    specialize (Hcode e eq_refl). split; [|split].
    + intros v'. split; [intros Hv; discriminate Hv|].
      intros Hv. injection Hv as _ Hok. congruence.
    + intros c. cbn [ec]. split.
      * intros [loc Hc]. injection Hc as ->. cbn [code] in *. auto.
      * intros [<- _]. exists (location e). destruct e; reflexivity.
    + intros e' He. injection He as <-. exists e. auto.
Qed.

End Totality.


(* ===================================================================== *)
(** * The compact serializer writes [compact_text]                        *)
(* ===================================================================== *)

Section SerializerFacts.
Context `{Charconv}.
Import SerializerCore.

(** Induction on a value with the members of a container as premises. *)
Lemma JsonValue_induction (P : JsonValue -> Prop) :
  P JNull -> (forall b, P (JBool b)) -> (forall i, P (JInteger i)) ->
  (forall u, P (JUInteger u)) -> (forall d, P (JFloat d)) ->
  (forall s, P (JString s)) ->
  (forall arr, Forall P arr -> P (JArray arr)) ->
  (forall entries, Forall (fun e => P (snd e)) entries -> P (JObject entries)) ->
  forall v, P v.
Proof.
  intros Hn Hb Hi Hu Hf Hs Ha Ho. fix IH 1.
  intros [ | b | i | u | d | s | arr | entries ];
    [exact Hn | apply Hb | apply Hi | apply Hu | apply Hf | apply Hs | | ].
  - apply Ha. induction arr as [|x r IHr]; constructor; [apply IH | exact IHr].
  - apply Ho. induction entries as [|x r IHr]; constructor; [apply IH | exact IHr].
Qed.

(** ** The string sink *)

Lemma result_eq (o : StringOutput.t) :
  StringOutput.result o = StringOutput.result_ o ++ StringOutput.buf_ o.
Proof.
  unfold StringOutput.result, StringOutput.flush.
  destruct o as [[|c b] r]; cbn; [rewrite app_nil_r|]; reflexivity.
Qed.

Lemma flush_buf (o : StringOutput.t) :
  StringOutput.buf_ (StringOutput.flush o) = [].
Proof. destruct o as [[|c b] r]; reflexivity. Qed.

Lemma result_flush (o : StringOutput.t) :
  StringOutput.result (StringOutput.flush o) = StringOutput.result o.
Proof.
  rewrite !result_eq, flush_buf, app_nil_r.
  destruct o as [[|c b] r]; cbn; [rewrite app_nil_r|]; reflexivity.
Qed.

Lemma result_write (s : list Z) (o : StringOutput.t) :
  StringOutput.result (StringOutput.write s o) = StringOutput.result o ++ s.
Proof.
  unfold StringOutput.write.
  destruct (_ <=? _)%nat.
  - rewrite !result_eq. cbn. apply app_assoc.
  - unfold StringOutput.write_slow.
    destruct (_ <=? _)%nat; rewrite <- (result_flush o), !result_eq; cbn;
      rewrite flush_buf, ?app_nil_r; reflexivity.
Qed.

Lemma result_write_c (c : Z) (o : StringOutput.t) :
  StringOutput.result (StringOutput.write_c c o) = StringOutput.result o ++ [c].
Proof.
  unfold StringOutput.write_c.
  destruct (_ <=? _)%nat.
  - rewrite <- (result_flush o), !result_eq. cbn. apply app_assoc.
  - rewrite !result_eq. cbn. apply app_assoc.
Qed.

(** ** The members of the compact instantiation *)


Variable opts : SerializeOptions.t.

Lemma written_put_char c (s : out_state) :
  written (put_char c s) = written s ++ [c].
Proof. apply result_write_c. Qed.

Lemma written_put bytes (s : out_state) :
  written (put bytes s) = written s ++ bytes.
Proof. apply result_write. Qed.

(** The scan of [write_string] splits the string into a part written as
    it is and a part that starts with a byte to escape. *)
Lemma plain_prefix (ptr : list Z) :
  let safe_end := simd.find_needs_escape false ptr in
  (length safe_end <= length ptr)%nat /\
  escaped ptr = take (length ptr - length safe_end) ptr ++ escaped safe_end /\
  match safe_end with
  | [] => True
  | c :: _ => (c <? 0x20) || (c =? 34) || (c =? 92) = true
  end.
Proof.
  induction ptr as [|c r IH]; cbn [simd.find_needs_escape andb].
  - cbn. auto.
  - destruct ((c <? 0x20) || (c =? 34) || (c =? 92)) eqn:E.
    + cbn zeta. rewrite Nat.sub_diag, take_0. auto.
    + cbn zeta in *. destruct IH as (Hlen & Hesc & Hhead).
      split; [cbn [length]; lia|]. split; [|exact Hhead].
      cbn [length].
      replace (S (length r) - length (simd.find_needs_escape false r))%nat
        with (S (length r - length (simd.find_needs_escape false r))) by lia.
      cbn [take]. unfold escaped in *. cbn [flat_map]. rewrite Hesc.
      unfold escape_byte.
      destruct (c <? 32), (c =? 34), (c =? 92); try discriminate. reflexivity.
Qed.

Lemma written_string_loop (fuel : nat) (ptr : list Z) (s : out_state) :
  (length ptr <= fuel)%nat ->
  written (write_string_loop false fuel ptr s) = written s ++ escaped ptr.
Proof.
  revert ptr s. induction fuel as [|fuel IH]; intros ptr s Hlen.
  - destruct ptr; [|cbn in Hlen; lia]. cbn. rewrite app_nil_r. reflexivity.
  - destruct ptr as [|c0 r0]; [cbn; rewrite app_nil_r; reflexivity|].
    cbn [write_string_loop].
    destruct (plain_prefix (c0 :: r0)) as (Hle & Hesc & Hhead).
    set (ptr := c0 :: r0) in *.
    set (safe_end := simd.find_needs_escape false ptr) in *.
    set (s1 := if (length safe_end <? length ptr)%nat
               then put (take (length ptr - length safe_end) ptr) s else s).
    assert (Hs1 : written s1 = written s ++ take (length ptr - length safe_end) ptr).
    { unfold s1. destruct (Nat.ltb_spec (length safe_end) (length ptr)).
      - apply written_put.
      - replace (length ptr - length safe_end)%nat with 0%nat by lia.
        rewrite take_0, app_nil_r. reflexivity. }
    rewrite Hesc, app_assoc, <- Hs1. clearbody s1.
    destruct safe_end as [|c rest]; [cbn; rewrite app_nil_r; reflexivity|].
    assert (Hrest : (length rest <= fuel)%nat) by (cbn in Hle, Hlen; lia).
    unfold escaped. cbn [flat_map andb]. unfold escape_byte.
    destruct (c <? 32).
    { rewrite IH, written_put, <- app_assoc by exact Hrest. reflexivity. }
    destruct (c =? 34).
    { rewrite IH, written_put, <- app_assoc by exact Hrest. reflexivity. }
    destruct (c =? 92); [|discriminate].
    rewrite IH, written_put, <- app_assoc by exact Hrest. reflexivity.
Qed.

Lemma written_string (str : list Z) (s : out_state) :
  written (write_string false str s) = written s ++ string_text str.
Proof.
  unfold write_string, string_text.
  rewrite written_put_char, written_string_loop, written_put_char by lia.
  rewrite <- !app_assoc. reflexivity.
Qed.

Lemma written_integer (i : Z) (s : out_state) :
  written (write_integer i s) = written s ++ integer_text i.
Proof.
  unfold write_integer, integer_text. destruct (i <? 0); apply written_put.
Qed.

Lemma written_float (d : double) (s : out_state) :
  SerializeOptions.allow_nan_inf opts = false ->
  written (write_float opts d s) = written s ++ float_text d.
Proof.
  intros Hopt. unfold write_float, float_text. rewrite Hopt.
  destruct (disnan d); [apply written_put|].
  destruct (disinf d); apply written_put.
Qed.

(** ** Containers *)

Ltac app_norm := rewrite <- ?app_assoc; cbn [app]; rewrite <- ?app_assoc.

Section Containers.
Variable wv : JsonValue -> out_state -> out_state.
Variable text : JsonValue -> list Z.

Lemma written_array_loop (arr : list JsonValue) (s : out_state) :
  Forall (fun v => forall s, written (wv v s) = written s ++ text v) arr ->
  written (write_array_loop false wv arr false s)
  = written s ++ flat_map (fun y => 44 :: text y) arr.
Proof.
  intros Hall. revert s. induction Hall as [|v r Hv Hr IH]; intros s.
  - cbn. rewrite app_nil_r. reflexivity.
  - cbn [write_array_loop flat_map]. unfold write_newline, write_indent.
    rewrite IH, Hv, written_put_char. app_norm. reflexivity.
Qed.

Lemma written_array (arr : list JsonValue) (s : out_state) :
  Forall (fun v => forall s, written (wv v s) = written s ++ text v) arr ->
  written (write_array false opts wv arr s)
  = written s ++ [91] ++ joined text arr ++ [93].
Proof.
  intros Hall. destruct Hall as [|v r Hv Hr].
  - cbn [write_array joined]. apply written_put.
  - cbn [write_array write_array_loop joined].
    unfold write_newline, write_indent.
    rewrite written_put_char, written_array_loop, Hv, written_put_char by exact Hr.
    app_norm. reflexivity.
Qed.

Lemma written_entries (es : Entries) (s : out_state) :
  Forall (fun e => forall s, written (wv (snd e) s) = written s ++ text (snd e)) es ->
  written (write_entries false false
             (map (fun e => (fst e, wv (snd e))) es) false s)
  = written s
    ++ flat_map (fun e => 44 :: string_text (fst e) ++ [58] ++ text (snd e)) es.
Proof.
  intros Hall. revert s. induction Hall as [|e r He Hr IH]; intros s.
  - cbn. rewrite app_nil_r. reflexivity.
  - cbn [map write_entries flat_map fst snd].
    unfold write_entry, write_newline, write_indent.
    rewrite IH, He, written_put_char, written_string, written_put_char.
    app_norm. reflexivity.
Qed.

Lemma written_object (es : Entries) (s : out_state) :
  SerializeOptions.sort_keys opts = false ->
  Forall (fun e => forall s, written (wv (snd e) s) = written s ++ text (snd e)) es ->
  written (write_object false false opts wv es s)
  = written s ++ [123]
    ++ joined (fun e => string_text (fst e) ++ [58] ++ text (snd e)) es ++ [125].
Proof.
  intros Hopt Hall. destruct Hall as [|e r He Hr].
  - cbn [write_object joined]. apply written_put.
  - cbn [write_object map write_entries joined fst snd]. rewrite Hopt.
    cbn [write_entries].
    unfold write_entry, write_newline, write_indent.
    rewrite written_put_char, written_entries by exact Hr.
    rewrite He, written_put_char, written_string, written_put_char.
    app_norm. reflexivity.
Qed.

End Containers.

Lemma written_value (v : JsonValue) :
  SerializeOptions.allow_nan_inf opts = false ->
  SerializeOptions.sort_keys opts = false ->
  forall s : out_state,
    written (write_value false false opts v s) = written s ++ compact_text v.
Proof.
  intros Hnan Hsort. induction v as [ | b | i | u | d | str | arr IH | es IH ]
    using JsonValue_induction; intros s;
    cbn [write_value compact_text].
  - apply written_put.
  - destruct b; apply written_put.
  - apply written_integer.
  - apply written_put.
  - apply written_float, Hnan.
  - apply written_string.
  - apply written_array. assumption.
  - apply written_object; assumption.
Qed.

End SerializerFacts.

(** The compact serializer, as a function. *)
Lemma serialize_compact_text `{Charconv} (v : JsonValue) :
  serialize v SerializeOptions.default = compact_text v.
Proof.
  unfold serialize, Serializer_serialize, SerializerImpl_serialize.
  cbn [SerializeOptions.indent SerializeOptions.ensure_ascii SerializeOptions.default].
  change (0 <=? -1) with false. cbn iota.
  unfold SerializerCore.serialize.
  rewrite (written_value SerializeOptions.default v eq_refl eq_refl). reflexivity.
Qed.


(* ===================================================================== *)
(** * [write_u64] writes the decimal digits                               *)
(* ===================================================================== *)

Section DecimalDigits.

Lemma digit_pairs (v : Z) :
  0 <= v < 100 ->
  nth (Z.to_nat (v * 2)) kDigitPairs 0 = 48 + v / 10 /\
  nth (S (Z.to_nat (v * 2))) kDigitPairs 0 = 48 + v mod 10.
Proof.
  intros Hv.
  pose proof (Z_range_forallb 100
    (fun v => (nth (Z.to_nat (v * 2)) kDigitPairs 0 =? 48 + v / 10)
              && (nth (S (Z.to_nat (v * 2))) kDigitPairs 0 =? 48 + v mod 10))
    ltac:(vm_compute; reflexivity) v Hv) as Hc.
  cbv beta in Hc. apply andb_true_iff in Hc. lia.
Qed.

(** The bit-length estimate of [count_digits] is exact. *)
Lemma count_digits_spec (val : Z) :
  0 < val <= UINT64_MAX ->
  1 <= count_digits val <= 20 /\
  10 ^ (count_digits val - 1) <= val < 10 ^ count_digits val.
Proof.
  intros Hv. unfold count_digits.
  rewrite Z.log2_lor by lia. change (Z.log2 1) with 0.
  rewrite Z.max_l by apply Z.log2_nonneg.
  destruct (Z.log2_spec val ltac:(lia)) as [Hlo Hhi].
  assert (Hb : 0 <= Z.log2 val < Z.of_nat 64).
  { split; [apply Z.log2_nonneg|]. apply Z.log2_lt_pow2; [lia|].
    unfold UINT64_MAX in Hv. change (2 ^ Z.of_nat 64) with 18446744073709551616. lia. }
  pose proof (Z_range_forallb 64
    (fun b =>
       let approx := Z.shiftr ((64 - (63 - b)) * 1233) 12 in
       let t := nth (Z.to_nat approx) kPow10U64 0 in
       (0 <=? approx) && (approx <=? 19)
       && (10 ^ (approx - 1) <=? 2 ^ b) && (2 ^ Z.succ b <=? 10 ^ (approx + 1))
       && (t =? if approx =? 0 then 0 else 10 ^ approx))
    ltac:(vm_compute; reflexivity) _ Hb) as Hc.
  cbv beta zeta in Hc.
  set (approx := Z.shiftr ((64 - (63 - Z.log2 val)) * 1233) 12) in *.
  set (t := nth (Z.to_nat approx) kPow10U64 0) in *.
  clearbody approx t.
  repeat (apply andb_true_iff in Hc; destruct Hc as [Hc ?]).
  repeat match goal with X : (_ <=? _) = true |- _ => apply Z.leb_le in X end.
  destruct (Z.eqb_spec approx 0) as [E0|E0].
  - assert (t = 0) by lia. destruct (Z.ltb_spec val t); [lia|].
    subst approx. change (10 ^ (0 + 1)) with 10 in *.
    change (0 - 0 + 1) with 1. change (10 ^ (1 - 1)) with 1.
    change (10 ^ 1) with 10. lia.
  - assert (Ht : t = 10 ^ approx) by lia.
    destruct (Z.ltb_spec val t).
    + replace (approx - 1 + 1) with approx by lia. lia.
    + replace (approx - 0 + 1 - 1) with approx by lia.
      replace (approx - 0 + 1) with (approx + 1) by lia. lia.
Qed.

Lemma pow10_pos (n : Z) : 0 <= n -> 0 < 10 ^ n.
Proof. intros. apply Z.pow_pos_nonneg; lia. Qed.

(** The number of digits of a positive number is determined by it. *)
Lemma digit_count_unique (v p q : Z) :
  0 <= p -> 0 <= q ->
  10 ^ (p - 1) <= v < 10 ^ p -> 10 ^ (q - 1) <= v < 10 ^ q -> 0 < v -> p = q.
Proof.
  intros Hp Hq Hvp Hvq Hv.
  destruct (Z.lt_trichotomy p q) as [L|[E|L]]; [exfalso|exact E|exfalso].
  - pose proof (Z.pow_le_mono_r 10 p (q - 1) ltac:(lia) ltac:(lia)). lia.
  - pose proof (Z.pow_le_mono_r 10 q (p - 1) ltac:(lia) ltac:(lia)). lia.
Qed.

Lemma drop_insert_pair {A : Type} (i : nat) (buf : list A) (a b : A) :
  (S i < length buf)%nat ->
  drop i (<[S i := b]> (<[i := a]> buf)) = a :: b :: drop (S (S i)) buf.
Proof.
  revert buf. induction i as [|i IH]; intros buf Hlen.
  - destruct buf as [|x [|y r]]; cbn in Hlen; try lia. reflexivity.
  - destruct buf as [|x r]; cbn in Hlen; [lia|]. cbn. apply IH. lia.
Qed.

Lemma write_pairs_spec (fuel : nat) :
  forall (val : Z) (p : nat) (buf : list Z),
    0 < val -> val < 100 ^ (Z.of_nat fuel + 1) ->
    (p <= length buf)%nat ->
    10 ^ (Z.of_nat p - 1) <= val < 10 ^ Z.of_nat p ->
    (let '(buf', v') := write_pairs fuel buf val p in
     if 10 <=? v' then
       <[ 1%nat := nth (S (Z.to_nat (v' * 2))) kDigitPairs 0 ]>
         (<[ 0%nat := nth (Z.to_nat (v' * 2)) kDigitPairs 0 ]> buf')
     else <[ 0%nat := 48 + v' ]> buf')
    = digits_n p val ++ drop p buf.
Proof.
  assert (Hstop : forall val p (buf : list Z),
    0 < val < 100 -> (p <= length buf)%nat ->
    10 ^ (Z.of_nat p - 1) <= val < 10 ^ Z.of_nat p ->
    (if 10 <=? val then
       <[ 1%nat := nth (S (Z.to_nat (val * 2))) kDigitPairs 0 ]>
         (<[ 0%nat := nth (Z.to_nat (val * 2)) kDigitPairs 0 ]> buf)
     else <[ 0%nat := 48 + val ]> buf)
    = digits_n p val ++ drop p buf).
  { intros val p buf Hv Hp Hd.
    destruct (Z.leb_spec 10 val) as [H10|H10].
    - assert (Z.of_nat p = 2)
        by (apply (digit_count_unique val); cbn; lia).
      assert (p = 2%nat) by lia. subst p.
      destruct (digit_pairs val ltac:(lia)) as [-> ->].
      etransitivity; [apply (drop_insert_pair 0 buf); lia|].
      cbn [digits_n app].
      rewrite (Z.mod_small (val / 10) 10) by (Z.div_mod_to_equations; lia).
      reflexivity.
    - assert (Z.of_nat p = 1)
        by (apply (digit_count_unique val); cbn; lia).
      assert (p = 1%nat) by lia. subst p.
      destruct buf as [|x r]; [cbn in Hp; lia|]. cbn.
      rewrite Z.mod_small by lia. reflexivity. }
  induction fuel as [|fuel IH]; intros val p buf Hv Hf Hp Hd.
  - cbn [write_pairs]. apply Hstop; try assumption. cbn in Hf. lia.
  - cbn [write_pairs]. destruct (Z.leb_spec 100 val) as [H100|H100];
      [|apply Hstop; try assumption; lia].
    assert (Hp3 : (3 <= p)%nat).
    { destruct (Nat.le_gt_cases 3 p) as [|L]; [assumption|exfalso].
      pose proof (Z.pow_le_mono_r 10 (Z.of_nat p) 2 ltac:(lia) ltac:(lia)).
      change (10 ^ 2) with 100 in *. lia. }
    destruct (digit_pairs (val mod 100) ltac:(apply Z.mod_pos_bound; lia))
      as [E1 E0].
    replace (S (p - 2)) with (p - 1)%nat in * by lia.
    assert (Hq : 10 ^ (Z.of_nat (p - 2) - 1) <= val / 100
                 < 10 ^ Z.of_nat (p - 2)).
    { replace (Z.of_nat p) with (Z.of_nat (p - 2) + 2) in Hd by lia.
      replace (Z.of_nat (p - 2) + 2 - 1) with ((Z.of_nat (p - 2) - 1) + 2) in Hd by lia.
      rewrite !Z.pow_add_r in Hd by lia. change (10 ^ 2) with 100 in Hd.
      split.
      - apply Z.div_le_lower_bound; lia.
      - apply Z.div_lt_upper_bound; lia. }
    specialize (IH (val / 100) (p - 2)%nat
      (<[ (p - 1)%nat := nth (S (Z.to_nat (val mod 100 * 2))) kDigitPairs 0 ]>
         (<[ (p - 2)%nat := nth (Z.to_nat (val mod 100 * 2)) kDigitPairs 0 ]> buf))).
    rewrite IH.
    + replace (p - 1)%nat with (S (p - 2)) by lia.
      rewrite drop_insert_pair by lia.
      replace (S (S (p - 2))) with p by lia.
      replace (digits_n p val) with (digits_n (S (S (p - 2))) val) by (f_equal; lia).
      cbn [digits_n]. rewrite E1, E0, <- !app_assoc. cbn [app].
      rewrite Z.div_div by lia. change (10 * 10) with 100.
      replace ((val mod 100) / 10) with ((val / 10) mod 10)
        by (Z.div_mod_to_equations; lia).
      replace ((val mod 100) mod 10) with (val mod 10)
        by (Z.div_mod_to_equations; lia).
      reflexivity.
    + apply Z.div_str_pos. lia.
    + apply Z.div_lt_upper_bound; [lia|].
      replace (Z.of_nat (S fuel) + 1) with (1 + (Z.of_nat fuel + 1)) in Hf by lia.
      rewrite Z.pow_add_r in Hf by lia. lia.
    + rewrite !length_insert. lia.
    + exact Hq.
Qed.

Lemma write_u64_digits (val : Z) :
  0 < val <= UINT64_MAX ->
  write_u64 val = digits_n (Z.to_nat (count_digits val)) val.
Proof.
  intros Hv. unfold write_u64.
  destruct (Z.eqb_spec val 0); [lia|].
  destruct (count_digits_spec val Hv) as [Hn Hd].
  set (len := Z.to_nat (count_digits val)).
  pose proof (write_pairs_spec 10 val len (replicate len 0)) as Hw.
  cbv zeta in Hw. destruct (write_pairs 10 (replicate len 0) val len) as [buf v'].
  rewrite Hw.
  - rewrite drop_ge by (rewrite length_replicate; lia). apply app_nil_r.
  - lia.
  - unfold UINT64_MAX in Hv. change (100 ^ (Z.of_nat 10 + 1)) with (10 ^ 22). lia.
  - rewrite length_replicate. lia.
  - unfold len. rewrite Z2Nat.id by lia. exact Hd.
Qed.

(** ** The digits as a number token *)

Lemma digits_n_is_digit (n : nat) (v : Z) :
  Forall (fun c => Parser.is_digit c = true) (digits_n n v).
Proof.
  revert v. induction n as [|n IH]; intros v; cbn [digits_n]; [constructor|].
  apply Forall_app. split; [apply IH|]. constructor; [|constructor].
  unfold Parser.is_digit. pose proof (Z.mod_pos_bound v 10 ltac:(lia)). lia.
Qed.

Lemma decimal_value_from_app (acc : Z) (l1 l2 : list Z) :
  decimal_value_from acc (l1 ++ l2)
  = decimal_value_from (decimal_value_from acc l1) l2.
Proof. unfold decimal_value_from. apply fold_left_app. Qed.

Lemma decimal_value_digits (n : nat) (v : Z) :
  0 <= v -> decimal_value (digits_n n v) = v mod 10 ^ Z.of_nat n.
Proof.
  revert v. induction n as [|n IH]; intros v Hv.
  - cbn. rewrite Z.mod_1_r. reflexivity.
  - cbn [digits_n]. unfold decimal_value in *. rewrite decimal_value_from_app.
    rewrite IH by (apply Z.div_pos; lia).
    cbn [decimal_value_from fold_left].
    replace (Z.of_nat (S n)) with (1 + Z.of_nat n) by lia.
    rewrite Z.pow_add_r by lia. change (10 ^ 1) with 10.
    rewrite (Z.rem_mul_r v 10 (10 ^ Z.of_nat n)) by (try apply pow10_pos; lia).
    lia.
Qed.

Lemma digits_n_head (n : nat) (v : Z) :
  0 <= v ->
  digits_n (S n) v = (48 + (v / 10 ^ Z.of_nat n) mod 10) :: digits_n n v.
Proof.
  revert v. induction n as [|n IH]; intros v Hv.
  - cbn. rewrite Z.div_1_r. reflexivity.
  - change (digits_n (S (S n)) v)
      with (digits_n (S n) (v / 10) ++ [48 + v mod 10]).
    rewrite IH by (apply Z.div_pos; lia). cbn [app digits_n].
    rewrite Z.div_div by (try apply pow10_pos; lia).
    replace (Z.of_nat (S n)) with (1 + Z.of_nat n) by lia.
    rewrite Z.pow_add_r by lia. reflexivity.
Qed.

(** The text [write_u64] writes is an integer token whose value is the
    number written. *)
Lemma write_u64_token (val : Z) :
  0 <= val <= UINT64_MAX ->
  exists d1 ds,
    write_u64 val = d1 :: ds /\
    Parser.is_digit d1 = true /\
    Forall (fun c => Parser.is_digit c = true) ds /\
    (d1 = 48 -> ds = []) /\
    decimal_value (d1 :: ds) = val.
Proof.
  intros Hv. destruct (Z.eq_dec val 0) as [->|Hnz].
  - exists 48, []. repeat split; auto.
  - assert (Hpos : 0 < val <= UINT64_MAX) by lia.
    destruct (count_digits_spec val Hpos) as [Hn Hd].
    rewrite write_u64_digits by exact Hpos.
    remember (Z.to_nat (count_digits val)) as len eqn:Elen.
    destruct len as [|n]; [lia|].
    assert (En : count_digits val = Z.of_nat n + 1) by lia.
    rewrite En in Hd. replace (Z.of_nat n + 1 - 1) with (Z.of_nat n) in Hd by lia.
    pose proof (decimal_value_digits (S n) val ltac:(lia)) as Hval.
    pose proof (digits_n_is_digit (S n) val) as Hdig.
    rewrite digits_n_head in * by lia.
    eexists _, _. split; [reflexivity|].
    apply Forall_cons in Hdig as [Hd1 Hds].
    repeat split; try assumption.
    + intros E48. exfalso.
      assert (1 <= val / 10 ^ Z.of_nat n < 10).
      { pose proof (pow10_pos (Z.of_nat n) ltac:(lia)).
        rewrite Z.pow_add_r in Hd by lia. change (10 ^ 1) with 10 in Hd.
        split.
        - apply Z.div_le_lower_bound; lia.
        - apply Z.div_lt_upper_bound; lia. }
      rewrite Z.mod_small in E48 by lia. lia.
    + rewrite Hval. apply Z.mod_small.
      replace (Z.of_nat (S n)) with (Z.of_nat n + 1) by lia. lia.
Qed.

End DecimalDigits.


(* ===================================================================== *)
(** * The parser on the text of the compact serializer                    *)
(* ===================================================================== *)

Section ParseText.
Context `{Charconv}.
Import Parser.

(** ** States *)

Lemma with_ptr_self (p : Parser.t) : with_ptr p (ptr_ p) = p.
Proof. destruct p; reflexivity. Qed.

Lemma with_ptr_twice (p : Parser.t) (a b : list Z) :
  with_ptr (with_ptr p a) b = with_ptr p b.
Proof. reflexivity. Qed.

Lemma bind_Ok {A B : Type} (m : M A) (k : A -> M B) (p p' : Parser.t) (a : A) :
  m p = Ok a p' -> bind m k p = k a p'.
Proof. intros E. unfold bind. rewrite E. reflexivity. Qed.

(** ** Whitespace and comments before a token *)

Lemma skip_ws_token (fuel : nat) (p : Parser.t) (c : Z) (r : list Z) :
  ptr_ p = c :: r -> 32 < c -> c <> 47 ->
  skip_ws_and_comments (S fuel) p = Ok tt p.
Proof.
  intros Hptr Hc H47.
  assert (Hws : skip_whitespace p = Ok tt p).
  { unfold skip_whitespace. rewrite Hptr. cbn [skip_whitespace_ptr].
    destruct (Z.gtb_spec c 32); [|lia]. rewrite <- Hptr, with_ptr_self. reflexivity. }
  unfold skip_ws_and_comments.
  rewrite (bind_Ok _ _ _ _ _ Hws). unfold bind at 1, get_opts.
  destruct (ParseOptions.allow_comments (opts_ p)); [|reflexivity].
  unfold skip_comments_and_ws, bind, skip_comments. rewrite Hptr.
  cbn [skip_comments_ptr]. destruct (Z.eqb_spec c 47); [lia|].
  destruct r; rewrite <- Hptr, with_ptr_self; exact Hws.
Qed.

(** ** Strings *)

Lemma find_string_delimiter_idem (l : list Z) :
  simd.find_string_delimiter (simd.find_string_delimiter l)
  = simd.find_string_delimiter l.
Proof.
  induction l as [|c r IH]; [reflexivity|]. cbn [simd.find_string_delimiter].
  destruct ((c =? 34) || (c =? 92)) eqn:E; [|exact IH].
  cbn [simd.find_string_delimiter]. rewrite E. reflexivity.
Qed.

(** A byte that is neither a quote nor a backslash joins the result. *)
Lemma content_plain_step (fuel : nat) (acc : list Z) (c : Z) (l' : list Z)
    (p : Parser.t) :
  c <> 34 -> c <> 92 -> ptr_ p = c :: l' ->
  parse_string_content_into fuel acc 34 p
  = parse_string_content_into fuel (acc ++ [c]) 34 (with_ptr p l').
Proof.
  intros H34 H92 Hptr. destruct fuel as [|fuel]; [reflexivity|].
  cbn [parse_string_content_into]. unfold bind, get_ptr, set_ptr.
  rewrite Hptr. cbn [ptr_ with_ptr]. change (34 =? 34) with true. cbn iota.
  cbn [simd.find_string_delimiter].
  destruct (Z.eqb_spec c 34); [lia|]. destruct (Z.eqb_spec c 92); [lia|].
  cbn [orb]. pose proof (find_string_delimiter_len l') as Hlen.
  replace (length (c :: l') - length (simd.find_string_delimiter l'))%nat
    with (S (length l' - length (simd.find_string_delimiter l')))
    by (cbn [length]; lia).
  cbn [take]. rewrite <- app_assoc. reflexivity.
Qed.

(** What [parse_escape] makes of the escape the serializer writes. *)
Lemma parse_escape_written (c : Z) :
  0 <= c -> (c <? 0x20) || (c =? 34) || (c =? 92) = true ->
  forall (out tail : list Z) (p : Parser.t),
    ptr_ p = drop 1 (escape_byte c) ++ tail ->
    parse_escape out p = Ok (out ++ [c]) (with_ptr p tail).
Proof.
  intros H0 Hc out tail [ptr b o d m] Hptr.
  assert (Hcase :
      c = 0 \/ c = 1 \/ c = 2 \/ c = 3 \/ c = 4 \/ c = 5 \/ c = 6 \/ c = 7
      \/ c = 8 \/ c = 9 \/ c = 10 \/ c = 11 \/ c = 12 \/ c = 13 \/ c = 14 \/
      c = 15 \/ c = 16 \/ c = 17 \/ c = 18 \/ c = 19 \/ c = 20 \/ c = 21 \/
      c = 22 \/ c = 23 \/ c = 24 \/ c = 25 \/ c = 26 \/ c = 27 \/ c = 28 \/
      c = 29 \/ c = 30 \/ c = 31
      \/ c = 34 \/ c = 92) by lia.
  repeat (destruct Hcase as [->|Hcase]); try subst c;
    cbn in Hptr; subst ptr; reflexivity.
Qed.

Lemma escape_byte_cases (c : Z) :
  (exists e, escape_byte c = 92 :: e
             /\ (c <? 0x20) || (c =? 34) || (c =? 92) = true)
  \/ (escape_byte c = [c] /\ c <> 34 /\ c <> 92).
Proof.
  unfold escape_byte, kControlEscapes.
  destruct (Z.ltb_spec c 32) as [L|L]; cbn [orb].
  - left. repeat (match goal with |- context [if ?b then _ else _] => destruct b end;
                  [eexists; split; reflexivity|]).
    eexists; split; reflexivity.
  - destruct (Z.eqb_spec c 34), (Z.eqb_spec c 92); cbn [orb];
      [left; eexists; split; reflexivity ..|right; auto].
Qed.

(** The content loop reads the escaped form of [s] back as [s]. *)
Lemma parse_string_content_text (s : list Z) :
  Forall is_byte s ->
  forall (fuel : nat) (acc rest : list Z) (p : Parser.t),
    ptr_ p = escaped s ++ 34 :: rest ->
    (length (escaped s) < fuel)%nat ->
    parse_string_content_into fuel acc 34 p = Ok (acc ++ s) (with_ptr p rest).
Proof.
  intros Hs. induction Hs as [|c s Hc Hs IH]; intros fuel acc rest p Hptr Hfuel.
  - destruct fuel as [|fuel]; [cbn in Hfuel; lia|].
    cbn in Hptr. cbn [parse_string_content_into]. unfold bind, get_ptr, set_ptr.
    rewrite Hptr. cbn [ptr_ with_ptr]. change (34 =? 34) with true. cbn iota.
    cbn [simd.find_string_delimiter]. change (34 =? 34) with true. cbn [orb].
    rewrite Nat.sub_diag, take_0, !app_nil_r. reflexivity.
  - unfold escaped in Hptr, Hfuel. cbn [flat_map] in Hptr, Hfuel.
    fold (escaped s) in Hptr, Hfuel. rewrite length_app in Hfuel.
    destruct (escape_byte_cases c) as [(e & Ee & Hneed)|(Ee & H34 & H92)].
    + destruct fuel as [|fuel]; [lia|].
      rewrite Ee in Hptr, Hfuel. cbn [length] in Hfuel.
      cbn [app] in Hptr. rewrite <- app_assoc in Hptr.
      cbn [parse_string_content_into]. unfold bind at 1 2 3, get_ptr, set_ptr.
      rewrite Hptr. cbn [ptr_ with_ptr]. change (34 =? 34) with true. cbn iota.
      cbn [simd.find_string_delimiter]. change (92 =? 34) with false.
      change (92 =? 92) with true. cbn [orb].
      rewrite Nat.sub_diag, take_0, app_nil_r. cbn iota.
      pose proof (parse_escape_written c ltac:(unfold is_byte in Hc; lia) Hneed
                    acc (escaped s ++ 34 :: rest)
                    (with_ptr p (e ++ escaped s ++ 34 :: rest))) as Hesc.
      rewrite Ee in Hesc. specialize (Hesc eq_refl).
      rewrite ?with_ptr_twice in *. change (92 =? 34) with false. cbn iota.
      rewrite (bind_Ok _ _ _ _ _ Hesc).
      rewrite (IH fuel (acc ++ [c]) rest) by (try reflexivity; lia).
      rewrite <- app_assoc. reflexivity.
    + rewrite Ee in Hptr, Hfuel. cbn [app length] in Hptr, Hfuel.
      rewrite (content_plain_step fuel acc c _ p H34 H92 Hptr).
      rewrite (IH fuel (acc ++ [c]) rest) by (try reflexivity; lia).
      rewrite <- app_assoc. reflexivity.
Qed.

(** With fuel, [parse_string] and [parse_string_value] are the content
    loop entered after the opening quote. *)
Lemma parse_string_eq (fuel : nat) (p : Parser.t) :
  parse_string (S fuel) p
  = bind (expect 34) (fun _ => parse_string_content_into (S fuel) [] 34) p.
Proof.
  unfold parse_string, bind. destruct (expect 34 p) as [[] p1| |]; try reflexivity.
  cbn [parse_string_content_into]. unfold bind, get_ptr, set_ptr, ret.
  cbv beta iota zeta. cbn [ptr_ with_ptr]. change (34 =? 34) with true. cbv iota.
  pose proof (find_string_delimiter_idem (ptr_ p1)) as Hidem.
  destruct (simd.find_string_delimiter (ptr_ p1)) as [|c r] eqn:E.
  - cbn [simd.find_string_delimiter]. reflexivity.
  - cbn [app]. destruct (Z.eqb_spec c 34) as [->|Hc]; [reflexivity|].
    rewrite Hidem, Nat.sub_diag, take_0, app_nil_r.
    destruct (Z.eqb_spec c 34); [lia|]. reflexivity.
Qed.

Lemma parse_string_value_eq (fuel : nat) (p : Parser.t) :
  parse_string_value (S fuel) p
  = bind (expect 34)
      (fun _ => bind (parse_string_content_into (S fuel) [] 34)
                  (fun buf => ret (JString buf))) p.
Proof.
  unfold parse_string_value, bind. destruct (expect 34 p) as [[] p1| |]; try reflexivity.
  cbn [parse_string_content_into]. unfold bind, get_ptr, set_ptr, ret, pmr_string_to_value.
  cbv beta iota zeta. cbn [ptr_ with_ptr]. change (34 =? 34) with true. cbv iota.
  pose proof (find_string_delimiter_idem (ptr_ p1)) as Hidem.
  destruct (simd.find_string_delimiter (ptr_ p1)) as [|c r] eqn:E.
  - cbn [simd.find_string_delimiter]. reflexivity.
  - cbn [app]. destruct (Z.eqb_spec c 34) as [->|Hc]; [reflexivity|].
    rewrite Hidem, Nat.sub_diag, take_0, app_nil_r.
    destruct (Z.eqb_spec c 34); [lia|]. reflexivity.
Qed.

Lemma expect_head (c : Z) (r : list Z) (p : Parser.t) :
  ptr_ p = c :: r -> expect c p = Ok tt (with_ptr p r).
Proof. intros E. unfold expect. rewrite E, Z.eqb_refl. reflexivity. Qed.

Lemma parse_string_text (fuel : nat) (s rest : list Z) (p : Parser.t) :
  Forall is_byte s -> ptr_ p = string_text s ++ rest ->
  (length (escaped s) < S fuel)%nat ->
  parse_string (S fuel) p = Ok s (with_ptr p rest).
Proof.
  intros Hs Hptr Hfuel. unfold string_text in Hptr. cbn [app] in Hptr.
  rewrite <- app_assoc in Hptr. cbn [app] in Hptr.
  rewrite parse_string_eq, (bind_Ok _ _ _ _ _ (expect_head _ _ _ Hptr)).
  rewrite (parse_string_content_text s Hs (S fuel) [] rest) by (try reflexivity; lia).
  reflexivity.
Qed.

Lemma parse_string_value_text (fuel : nat) (s rest : list Z) (p : Parser.t) :
  Forall is_byte s -> ptr_ p = string_text s ++ rest ->
  (length (escaped s) < S fuel)%nat ->
  parse_string_value (S fuel) p = Ok (JString s) (with_ptr p rest).
Proof.
  intros Hs Hptr Hfuel. unfold string_text in Hptr. cbn [app] in Hptr.
  rewrite <- app_assoc in Hptr. cbn [app] in Hptr.
  rewrite parse_string_value_eq, (bind_Ok _ _ _ _ _ (expect_head _ _ _ Hptr)).
  unfold bind.
  rewrite (parse_string_content_text s Hs (S fuel) [] rest) by (try reflexivity; lia).
  reflexivity.
Qed.

(** ** Literals and numbers *)

Lemma expect_literal_text (lit rest : list Z) (p : Parser.t) :
  ptr_ p = lit ++ rest -> expect_literal lit p = Ok tt (with_ptr p rest).
Proof.
  intros Hptr. unfold expect_literal. rewrite Hptr.
  rewrite take_app_length, drop_app_length, bool_decide_eq_true_2 by reflexivity.
  destruct (Nat.ltb_spec (length (lit ++ rest)) (length lit)) as [L|L];
    [rewrite length_app in L; lia|reflexivity].
Qed.

Lemma delimited_ends_number (rest : list Z) : delimited rest -> ends_number rest.
Proof.
  destruct rest as [|c r]; [auto|]. cbn. unfold is_digit.
  intros [->|[->| ->]]; repeat split; lia || reflexivity.
Qed.

Lemma parse_number_written (negative : bool) (N : Z) (p : Parser.t)
    (rest : list Z) :
  0 <= N <= UINT64_MAX ->
  ptr_ p = (if negative then [45] else []) ++ write_u64 N ++ rest ->
  delimited rest ->
  parse_number p
  = number_result (ptr_ p) negative false false N N 0 0 false (with_ptr p rest).
Proof.
  intros HN Hptr Hrest.
  destruct (write_u64_token N HN) as (d1 & ds & Etext & Hd1 & Hds & Hzero & Hval).
  rewrite Etext in Hptr. cbn [app] in Hptr.
  pose proof (delimited_ends_number rest Hrest) as Hend.
  assert (Htail : match rest with [] => True | c :: _ => is_digit c = false end).
  { destruct rest; [exact I|apply Hend]. }
  destruct (integer_part_scan d1 ds rest Hd1 Hds Hzero Htail) as (_ & Hscan & _).
  cbv zeta in Hscan. rewrite Hval in Hscan.
  eapply parse_number_integer_run; try eassumption. apply Hscan. lia.
Qed.

Lemma parse_number_integer_text (i : Z) (p : Parser.t) (rest : list Z) :
  is_int64 i -> ptr_ p = integer_text i ++ rest -> delimited rest ->
  parse_number p = Ok (JInteger i) (with_ptr p rest).
Proof.
  unfold is_int64, INT64_MIN, INT64_MAX, integer_text. intros Hi Hptr Hrest.
  destruct (Z.ltb_spec i 0) as [Hneg|Hpos].
  - assert (E : to_uint64 (to_uint64 (Z.lnot i) + 1) = - i).
    { unfold Z.lnot, to_uint64.
      rewrite (Z.mod_small (Z.pred (- i))) by lia.
      rewrite Z.mod_small by lia. lia. }
    rewrite E, <- app_assoc in Hptr.
    rewrite (parse_number_written true (- i) p rest)
      by (try assumption; unfold UINT64_MAX; lia).
    unfold number_result, ret. cbn [negb andb].
    change (to_uint64 (INT64_MAX + 1)) with (2 ^ 63).
    destruct (Z.leb_spec (- i) (2 ^ 63)); [|lia].
    rewrite to_int64_neg_magnitude by lia. f_equal. f_equal. lia.
  - assert (E : to_uint64 i = i) by (unfold to_uint64; rewrite Z.mod_small; lia).
    rewrite E in Hptr.
    rewrite (parse_number_written false i p rest)
      by (try assumption; unfold UINT64_MAX; lia).
    unfold number_result, ret. cbn [negb andb]. unfold INT64_MAX.
    destruct (Z.leb_spec i 9223372036854775807); [|lia].
    rewrite to_int64_small by (unfold INT64_MIN, INT64_MAX; lia). reflexivity.
Qed.

Lemma parse_number_uinteger_text (u : Z) (p : Parser.t) (rest : list Z) :
  is_uint64 u -> ptr_ p = write_u64 u ++ rest -> delimited rest ->
  parse_number p = Ok (reparsed (JUInteger u)) (with_ptr p rest).
Proof.
  unfold is_uint64. intros Hu Hptr Hrest.
  rewrite (parse_number_written false u p rest) by assumption.
  unfold number_result, ret. cbn [negb andb reparsed].
  destruct (Z.leb_spec u INT64_MAX); [|reflexivity].
  rewrite to_int64_small by (unfold INT64_MIN, INT64_MAX in *; lia). reflexivity.
Qed.

(** ** The first byte of a text *)

Lemma write_u64_head (u : Z) :
  0 <= u <= UINT64_MAX ->
  exists c r, write_u64 u = c :: r /\ is_digit c = true.
Proof.
  intros Hu. destruct (write_u64_token u Hu) as (d1 & ds & E & Hd & _).
  eauto.
Qed.

Lemma integer_text_head (i : Z) :
  is_int64 i ->
  exists c r, integer_text i = c :: r /\ (c = 45 \/ is_digit c = true).
Proof.
  unfold is_int64, INT64_MIN, INT64_MAX, integer_text. intros Hi.
  destruct (i <? 0); [cbn [app]; eauto|].
  destruct (write_u64_head (to_uint64 i)) as (c & r & E & Hc).
  { unfold to_uint64, UINT64_MAX.
    pose proof (Z.mod_pos_bound i (2 ^ 64) ltac:(lia)). lia. }
  eauto.
Qed.

(** Every value of [roundtrip_safe] is [readable]. *)
Lemma safe_readable (v : JsonValue) : roundtrip_safe v -> readable v.
Proof.
  induction v as [ | b | i | u | d | s | arr IH | entries IH ]
    using JsonValue_induction; cbn [roundtrip_safe readable]; auto.
  - intros [].
  - induction IH as [|x r Hx Hr IHr]; cbn [fold_right]; [auto|].
    intros [Hsx Hsr]. auto.
  - intros [Hnd Hall]. split; [exact Hnd|]. clear Hnd.
    induction IH as [|x r Hx Hr IHr]; cbn [fold_right] in *; [auto|].
    destruct Hall as [[Hk Hv] Hrest]. auto.
Qed.

Lemma readable_text_starts (v : JsonValue) :
  readable v -> starts_value (compact_text v).
Proof.
  destruct v as [ | b | i | u | d | s | arr | entries ]; cbn [readable compact_text];
    intros Hv.
  - cbn; lia.
  - destruct b; cbn; lia.
  - destruct (integer_text_head i Hv) as (c & r & -> & [->|Hc]); cbn; [lia|].
    apply is_digit_range in Hc. lia.
  - destruct (write_u64_head u Hv) as (c & r & -> & Hc). cbn.
    apply is_digit_range in Hc. lia.
  - exact (proj1 Hv).
  - cbn; lia.
  - cbn; lia.
  - cbn; lia.
Qed.

Lemma compact_text_starts (v : JsonValue) :
  roundtrip_safe v -> starts_value (compact_text v).
Proof. intros Hv. apply readable_text_starts, safe_readable, Hv. Qed.

(** ** Arrays *)

Lemma starts_value_head (l : list Z) :
  starts_value l -> exists c t, l = c :: t /\ 32 < c /\ c <> 47 /\ c <> 93 /\ c <> 125.
Proof. destruct l as [|c t]; [intros []|]. cbn. eauto 8. Qed.

Lemma array_loop_text (r : list JsonValue) :
  forall (x : JsonValue) (acc : list JsonValue) (fuel : nat) (p : Parser.t)
         (rest : list Z),
    Forall reads_back (x :: r) ->
    Forall (fun y => starts_value (compact_text y)) (x :: r) ->
    ptr_ p = compact_text x ++ flat_map (fun y => 44 :: compact_text y) r
             ++ 93 :: rest ->
    (3 * length (ptr_ p) + 2 <= fuel)%nat ->
    Forall (fun y => (depth_ p + depth y <= max_depth_ p)%nat) (x :: r) ->
    array_loop fuel acc p
    = Ok (JArray (acc ++ map reparsed (x :: r)))
         (with_depth (with_ptr p rest) (size_t_pred (depth_ p))).
Proof.
  induction r as [|y r IH]; intros x acc fuel p rest Hrb Hst Hptr Hfuel Hdep;
    (destruct fuel as [|n]; [lia|]);
    apply Forall_cons in Hrb as [Hx Hrb]; apply Forall_cons in Hdep as [Hdx Hdep];
    apply Forall_cons in Hst as [Hsx Hst];
    cbn [array_loop]; cbv [bind get_ptr get_opts set_ptr pop_depth ret].
  - cbn [flat_map app] in Hptr.
    rewrite (Hx n p (93 :: rest) Hptr) by (cbn; auto; lia).
    rewrite (skip_ws_token n (with_ptr p (93 :: rest)) 93 rest) by (reflexivity || lia).
    cbn [ptr_ with_ptr]. reflexivity.
  - cbn [flat_map app] in Hptr. rewrite <- app_assoc in Hptr.
    pose proof Hst as Hst'. apply Forall_cons in Hst' as [Hy _].
    destruct (starts_value_head _ Hy) as (c & t & Ey & Hc32 & Hc47 & Hc93 & _).
    destruct (starts_value_head _ Hsx) as (cx & tx & Ex & _).
    remember (flat_map (fun y => 44 :: compact_text y) r ++ 93 :: rest)
      as more eqn:Emore.
    assert (Hlen : (2 + length (compact_text y ++ more) <= length (ptr_ p))%nat).
    { rewrite Hptr, Ex. cbn [app length]. rewrite !length_app. cbn [length].
      rewrite !length_app. lia. }
    rewrite (Hx n p _ Hptr) by (cbn; auto; lia).
    rewrite (skip_ws_token n _ 44 (compact_text y ++ more))
      by (reflexivity || lia).
    cbn [ptr_ with_ptr]. change (44 =? 44) with true. cbv beta iota.
    assert (Em : compact_text y ++ more = c :: t ++ more)
      by (rewrite Ey; reflexivity).
    rewrite Em in *.
    rewrite (skip_ws_token n _ c (t ++ more)) by (assumption || reflexivity).
    cbn [ptr_ with_ptr opts_].
    destruct (Z.eqb_spec c 93); [lia|]. rewrite andb_false_r.
    rewrite (IH y (acc ++ [reparsed x]) n _ rest) by
      (try assumption;
       try (cbn [ptr_ with_ptr]; rewrite <- Em; subst more; reflexivity);
       cbn [ptr_ with_ptr]; lia).
    cbn [map]. rewrite <- app_assoc. reflexivity.
Qed.

Lemma depth_member (arr : list JsonValue) :
  Forall (fun y => (depth y
                    <= fold_right (fun x acc => Nat.max (depth x) acc) 0 arr)%nat)
         arr.
Proof.
  induction arr as [|x r IH]; constructor; cbn [fold_right]; [lia|].
  eapply Forall_impl; [exact IH|]. cbv beta. intros; lia.
Qed.

Lemma push_depth_ok (p : Parser.t) :
  (S (depth_ p) <= max_depth_ p)%nat ->
  push_depth p = Ok tt (with_depth p (S (depth_ p))).
Proof.
  intros Hd. unfold push_depth. cbn [with_depth depth_ max_depth_].
  destruct (Nat.ltb_spec (max_depth_ p) (S (depth_ p))); [lia|reflexivity].
Qed.

Lemma parse_array_text (arr : list JsonValue) (fuel : nat) (p : Parser.t)
    (rest : list Z) :
  Forall reads_back arr ->
  Forall (fun y => starts_value (compact_text y)) arr ->
  ptr_ p = compact_text (JArray arr) ++ rest ->
  (3 * length (ptr_ p) <= fuel)%nat ->
  (depth_ p + depth (JArray arr) <= max_depth_ p)%nat ->
  parse_array fuel p = Ok (JArray (map reparsed arr)) (with_ptr p rest).
Proof.
  intros Hrb Hst Hptr Hfuel Hdep. cbn [compact_text depth] in Hptr, Hdep.
  cbn [app] in Hptr. rewrite <- app_assoc in Hptr. cbn [app] in Hptr.
  destruct fuel as [|n]; [rewrite Hptr in Hfuel; cbn [length] in Hfuel; lia|].
  cbn [parse_array]. cbv [bind get_ptr get_opts set_ptr pop_depth ret].
  rewrite push_depth_ok by (cbn [with_ptr depth_ max_depth_]; lia).
  rewrite Hptr. cbn [drop with_ptr depth_ ptr_]. rewrite ?drop_0.
  destruct p as [ptr b o d m]. cbn [ptr_ depth_ max_depth_ begin_ opts_] in *.
  unfold with_depth, with_ptr. cbn [ptr_ depth_ max_depth_ begin_ opts_].
  destruct arr as [|x r].
  - cbn [joined app].
    rewrite (skip_ws_token n _ 93 rest) by (reflexivity || lia).
    cbn [ptr_ depth_ max_depth_ begin_ opts_]. reflexivity.
  - cbn [joined]. rewrite <- app_assoc.
    pose proof Hst as Hst'. apply Forall_cons in Hst' as [Hsx _].
    destruct (starts_value_head _ Hsx) as (c & t & Ex & Hc32 & Hc47 & Hc93 & _).
    remember (flat_map (fun y => 44 :: compact_text y) r ++ 93 :: rest)
      as more eqn:Emore.
    assert (Em : compact_text x ++ more = c :: t ++ more)
      by (rewrite Ex; reflexivity).
    rewrite Em.
    rewrite (skip_ws_token n _ c (t ++ more)) by (assumption || reflexivity).
    cbn [ptr_ depth_ max_depth_ begin_ opts_].
    destruct (Z.eqb_spec c 93); [lia|].
    rewrite (array_loop_text r x [] n _ rest); try assumption.
    + reflexivity.
    + cbn [ptr_]. rewrite <- Em. subst more. reflexivity.
    + cbn [ptr_]. rewrite <- Em.
      assert (length ptr = S (length (compact_text x ++ more))) as El
        by (subst ptr more; cbn [joined length]; rewrite <- app_assoc; reflexivity).
      lia.
    + cbn [depth_ max_depth_]. pose proof (depth_member (x :: r)) as Hm.
      eapply Forall_impl; [exact Hm|]. cbv beta. intros; lia.
Qed.

(** ** Objects *)

(** One pass of [object_loop] up to the insertion of the entry: the key,
    the colon and the value. *)
Ltac run_entry n key v more Hx Hkey Hlen Hdx Hdel :=
  cbn [object_loop]; cbv [bind get_ptr get_opts set_ptr pop_depth ret];
  rewrite (skip_ws_token n _ 34 (escaped key ++ 34 :: 58 :: compact_text v ++ more))
    by (lia || reflexivity);
  cbn [ptr_ opts_]; change (34 =? 34) with true; cbv iota;
  rewrite (parse_string_text n key (58 :: compact_text v ++ more))
    by (assumption || lia
        || (cbn [ptr_]; unfold string_text; rewrite <- !app_assoc; reflexivity));
  rewrite (skip_ws_token n _ 58 (compact_text v ++ more)) by (reflexivity || lia);
  rewrite (expect_head 58 (compact_text v ++ more)) by reflexivity;
  (rewrite (Hx n _ more);
    [|reflexivity|exact Hdel
     |cbn [ptr_ with_ptr]; lia|cbn [depth_ max_depth_ with_ptr]; lia]);
  cbn [ptr_ with_ptr opts_].

(** An entry whose insertion succeeds: the loop ends at a closing brace
    and goes on after a comma that a quote follows. *)
Lemma object_loop_entry (key : list Z) (v : JsonValue) (acc acc' : Entries)
    (seen seen' : gset (list Z)) (n : nat) (p : Parser.t) (more : list Z) :
  reads_back v -> Forall is_byte key ->
  ptr_ p = 34 :: escaped key ++ 34 :: 58 :: compact_text v ++ more ->
  delimited more ->
  (3 * (length (escaped key) + length (compact_text v ++ more) + 3) + 2 <= S n)%nat ->
  (depth_ p + depth v <= max_depth_ p)%nat ->
  (if ParseOptions.allow_duplicate_keys (opts_ p)
   then ret (acc ++ [(key, reparsed v)], seen)
   else match insert_checked acc seen key (reparsed v) with
        | inl st => ret st
        | inr _ => error duplicate_key
        end)
  = ret (acc', seen') ->
  (forall rest, more = 125 :: rest ->
     object_loop (S n) acc seen p
     = Ok (JObject (finalize_object acc'))
          (with_depth (with_ptr p rest) (size_t_pred (depth_ p))))
  /\ (forall next, more = 44 :: 34 :: next ->
        object_loop (S n) acc seen p
        = object_loop n acc' seen' (with_ptr p (34 :: next))).
Proof.
  intros Hx Hkey Hptr Hdel Hlen Hdx Hins.
  destruct p as [ptr b o d m]. cbn [ptr_ depth_ max_depth_ opts_] in *. subst ptr.
  cbv [ret] in Hins.
  split; [intros rest Emore|intros next Emore].
  - run_entry n key v more Hx Hkey Hlen Hdx Hdel.
    rewrite Hins. cbv beta iota. subst more.
    rewrite (skip_ws_token n _ 125 rest) by (reflexivity || lia).
    cbn [ptr_ with_ptr]. reflexivity.
  - run_entry n key v more Hx Hkey Hlen Hdx Hdel.
    rewrite Hins. cbv beta iota. subst more.
    rewrite (skip_ws_token n _ 44 (34 :: next)) by (lia || reflexivity).
    cbn [ptr_ with_ptr]. change (44 =? 44) with true. cbv beta iota.
    rewrite (skip_ws_token n _ 34 next) by (lia || reflexivity).
    cbn [ptr_ with_ptr]. change (34 =? 125) with false. rewrite andb_false_r.
    reflexivity.
Qed.

(** An entry whose key was seen before, when duplicates are forbidden. *)
Lemma object_loop_collision (key : list Z) (v : JsonValue) (acc : Entries)
    (seen : gset (list Z)) (n : nat) (p : Parser.t) (more : list Z) :
  reads_back v -> Forall is_byte key ->
  ptr_ p = 34 :: escaped key ++ 34 :: 58 :: compact_text v ++ more ->
  delimited more ->
  (3 * (length (escaped key) + length (compact_text v ++ more) + 3) + 2 <= S n)%nat ->
  (depth_ p + depth v <= max_depth_ p)%nat ->
  ParseOptions.allow_duplicate_keys (opts_ p) = false -> key ∈ seen ->
  object_loop (S n) acc seen p
  = Throw (mkParseError duplicate_key (current_location (with_ptr p more))).
Proof.
  intros Hx Hkey Hptr Hdel Hlen Hdx Hmode Hin.
  destruct p as [ptr b o d m]. cbn [ptr_ depth_ max_depth_ opts_] in *. subst ptr.
  run_entry n key v more Hx Hkey Hlen Hdx Hdel.
  rewrite Hmode. unfold insert_checked.
  rewrite bool_decide_eq_true_2 by exact Hin. reflexivity.
Qed.

(** The insertion succeeds when duplicates are allowed, and for a new key
    when they are not. *)
Lemma entry_insertion (o : ParseOptions.t) (acc : Entries)
    (seen : gset (list Z)) (key : list Z) (value : JsonValue) :
  ParseOptions.allow_duplicate_keys o = true \/ ~ In key (map fst acc) ->
  ParseOptions.allow_duplicate_keys o = true
  \/ (forall k, k ∈ seen -> In k (map fst acc)) ->
  exists seen',
    (if ParseOptions.allow_duplicate_keys o
     then ret (acc ++ [(key, value)], seen)
     else match insert_checked acc seen key value with
          | inl st => ret st
          | inr _ => error duplicate_key
          end)
    = ret (acc ++ [(key, value)], seen')
    /\ (ParseOptions.allow_duplicate_keys o = true
        \/ forall k, k ∈ seen' -> In k (map fst (acc ++ [(key, value)]))).
Proof.
  intros Hnew Hseen. destruct (ParseOptions.allow_duplicate_keys o).
  - exists seen. split; [reflexivity|]. left. reflexivity.
  - destruct Hnew as [Hnew|Hnew]; [discriminate|].
    destruct Hseen as [Hseen|Hseen]; [discriminate|].
    exists ({[ key ]} ∪ seen). unfold insert_checked.
    rewrite bool_decide_eq_false_2 by (intros Hin; apply Hnew, Hseen, Hin).
    split; [reflexivity|]. right. intros k Hk. rewrite map_app. apply in_or_app.
    apply elem_of_union in Hk as [Hk|Hk].
    + right. apply elem_of_singleton in Hk. subst k. left. reflexivity.
    + left. auto.
Qed.

(** The loop over the entries of an object text: with duplicates allowed,
    or with keys that are all new. *)
Lemma object_loop_text (r : Entries) :
  forall (e : list Z * JsonValue) (acc : Entries) (seen : gset (list Z))
         (fuel : nat) (p : Parser.t) (rest : list Z),
    Forall (fun e => reads_back (snd e)) (e :: r) ->
    Forall (fun e => Forall is_byte (fst e)) (e :: r) ->
    ParseOptions.allow_duplicate_keys (opts_ p) = true
    \/ NoDup (map fst acc ++ map fst (e :: r)) ->
    ParseOptions.allow_duplicate_keys (opts_ p) = true
    \/ (forall k, k ∈ seen -> In k (map fst acc)) ->
    ptr_ p = entry_text e ++ flat_map (fun e' => 44 :: entry_text e') r
             ++ 125 :: rest ->
    (3 * length (ptr_ p) + 2 <= fuel)%nat ->
    Forall (fun e => (depth_ p + depth (snd e) <= max_depth_ p)%nat) (e :: r) ->
    object_loop fuel acc seen p
    = Ok (JObject (finalize_object (acc ++ map reparsed_entry (e :: r))))
         (with_depth (with_ptr p rest) (size_t_pred (depth_ p))).
Proof.
  induction r as [|[key' v'] r IH];
    intros [key v] acc seen fuel p rest Hrb Hkeys Hnd Hseen Hptr Hfuel Hdep;
    (destruct fuel as [|n]; [lia|]);
    apply Forall_cons in Hrb as [Hx Hrb]; apply Forall_cons in Hdep as [Hdx Hdep];
    apply Forall_cons in Hkeys as [Hkey Hkeys];
    cbn [fst snd] in *.
  all: match type of Hptr with _ = _ ++ ?t => remember t as more eqn:Emore end.
  all: assert (Eptr : ptr_ p = 34 :: escaped key ++ 34 :: 58 :: compact_text v ++ more)
      by (rewrite Hptr; unfold string_text; rewrite <- !app_assoc; reflexivity).
  all: assert (Hlen : (3 * (length (escaped key) + length (compact_text v ++ more) + 3) + 2
                    <= S n)%nat)
      by (rewrite Eptr in Hfuel; cbn [length] in Hfuel; rewrite length_app in Hfuel;
          cbn [length] in Hfuel; lia).
  all: assert (Hnew : ParseOptions.allow_duplicate_keys (opts_ p) = true
                      \/ ~ In key (map fst acc))
      by (destruct Hnd as [Hnd|Hnd]; [left; exact Hnd|right];
          cbn [map fst] in Hnd; apply NoDup_app in Hnd as (_ & Hdisj & _);
          intros Hin; apply list_elem_of_In in Hin; apply (Hdisj key Hin);
          constructor).
  all: destruct (entry_insertion (opts_ p) acc seen key (reparsed v) Hnew Hseen)
      as (seen' & Eins & Hseen').
  all: assert (Hdel : delimited more) by (subst more; cbn; auto).
  all: destruct (object_loop_entry key v acc _ seen seen' n p more
                   Hx Hkey Eptr Hdel Hlen Hdx Eins) as [Hlast Hstep].
  - apply Hlast. subst more. reflexivity.
  - rewrite (Hstep (escaped key' ++ [34] ++ [58] ++ compact_text v'
                    ++ flat_map (fun e' => 44 :: entry_text e') r ++ 125 :: rest))
      by (subst more; cbn [flat_map fst snd app]; unfold string_text;
          cbn [app]; rewrite <- !app_assoc; reflexivity).
    rewrite (IH (key', v') (acc ++ [(key, reparsed v)]) seen' n _ rest);
      try assumption.
    + cbn [map]. rewrite <- app_assoc. reflexivity.
    + destruct Hnd as [Hnd|Hnd]; [left; exact Hnd|right].
      rewrite map_app, <- app_assoc. exact Hnd.
    + cbn [ptr_ with_ptr fst snd]. unfold string_text.
      cbn [app]. rewrite <- !app_assoc. reflexivity.
    + cbn [ptr_ with_ptr]. revert Hlen. subst more. cbn [flat_map fst snd].
      unfold string_text. cbn [app].
      repeat first [rewrite length_app | progress cbn [length]]. lia.
Qed.

End ParseText.


(* ===================================================================== *)
(** * Objects with pairwise different keys                                *)
(* ===================================================================== *)

Section DistinctKeys.
Context `{Charconv}.
Import Parser.

Lemma index_fold_size (l : list (nat * (list Z * JsonValue))) :
  forall m : gmap (list Z) nat,
    NoDup (map (fun ie => fst (snd ie)) l) ->
    (forall k, In k (map (fun ie => fst (snd ie)) l) -> m !! k = None) ->
    size (fold_left (fun (m : gmap (list Z) nat) ie => <[ fst (snd ie) := fst ie ]> m)
                    l m)
    = (size m + length l)%nat.
Proof.
  induction l as [|ie l IH]; intros m Hnd Hfresh; cbn [fold_left length map] in *.
  - lia.
  - apply NoDup_cons in Hnd as [Hhead Hnd].
    rewrite IH.
    + rewrite map_size_insert_None by (apply Hfresh; left; reflexivity). lia.
    + exact Hnd.
    + intros k Hk. rewrite lookup_insert_ne.
      * apply Hfresh. right. exact Hk.
      * intros E. apply Hhead. rewrite E. apply list_elem_of_In, Hk.
Qed.

Lemma rebuild_index_size (entries : Entries) :
  NoDup (map fst entries) ->
  size (Object_rebuild_index entries) = length entries.
Proof.
  intros Hnd. unfold Object_rebuild_index.
  change (imap (fun i e => (i, e)) entries)
    with (imap (fun i e => ((0 + i)%nat, e)) entries).
  rewrite index_fold_size.
  - rewrite map_size_empty, length_imap. reflexivity.
  - rewrite imap_keys. exact Hnd.
  - intros k _. apply lookup_empty.
Qed.

Lemma dedup_small_nodup (entries : Entries) :
  NoDup (map fst entries) -> dedup_small entries = entries.
Proof.
  induction entries as [|e r IH]; intros Hnd; [reflexivity|].
  cbn [map] in Hnd. apply NoDup_cons in Hnd as [Hhead Hnd].
  cbn [dedup_small].
  destruct (existsb (fun e' => bool_decide (fst e = fst e')) r) eqn:Ex.
  - exfalso. apply existsb_exists in Ex as (e' & Hin & Heq).
    apply bool_decide_eq_true_1 in Heq. apply Hhead. rewrite Heq.
    apply list_elem_of_In, in_map, Hin.
  - rewrite IH by exact Hnd. reflexivity.
Qed.

(** [finalize_object] leaves such entries as they are. *)
Lemma finalize_object_nodup (entries : Entries) :
  NoDup (map fst entries) -> finalize_object entries = entries.
Proof.
  intros Hnd. unfold finalize_object.
  destruct (kIndexThreshold <=? length entries)%nat.
  - rewrite rebuild_index_size by exact Hnd. rewrite Nat.ltb_irrefl. reflexivity.
  - destruct (2 <=? length entries)%nat; [apply dedup_small_nodup, Hnd|reflexivity].
Qed.

(** ** Lookup of a key that is present *)

Lemma index_fold_lookup (entries : Entries) :
  forall (j i : nat) (m : gmap (list Z) nat) (k : list Z) (v : JsonValue),
    NoDup (map fst entries) -> entries !! i = Some (k, v) ->
    fold_left (fun (m : gmap (list Z) nat) ie => <[ fst (snd ie) := fst ie ]> m)
              (imap (fun i e => ((j + i)%nat, e)) entries) m !! k
    = Some (j + i)%nat.
Proof.
  induction entries as [|e r IH]; intros j i m k v Hnd Hi; [discriminate|].
  cbn [map] in Hnd. apply NoDup_cons in Hnd as [Hhead Hnd].
  cbn [imap fold_left fst snd].
  destruct i as [|i].
  - cbn in Hi. injection Hi as ->. cbn [fst].
    rewrite index_fold_lookup_notin.
    + rewrite lookup_insert_eq. reflexivity.
    + rewrite (imap_ext _ (fun i e => ((S j + i)%nat, e)))
        by (intros; cbn; f_equal; lia).
      rewrite imap_keys. intros Hin. apply Hhead, list_elem_of_In, Hin.
  - cbn in Hi.
    rewrite (imap_ext _ (fun i e => ((S j + i)%nat, e)))
      by (intros; cbn; f_equal; lia).
    rewrite (IH (S j) i _ k v Hnd Hi). f_equal. lia.
Qed.

Lemma linear_find_lookup (entries : Entries) :
  forall (i : nat) (k : list Z) (v : JsonValue),
    NoDup (map fst entries) -> entries !! i = Some (k, v) ->
    Object_linear_find entries k = Some i.
Proof.
  induction entries as [|[k0 v0] r IH]; intros i k v Hnd Hi; [discriminate|].
  cbn [map fst] in Hnd. apply NoDup_cons in Hnd as [Hhead Hnd].
  cbn [Object_linear_find]. destruct i as [|i].
  - cbn in Hi. injection Hi as -> ->. rewrite bool_decide_eq_true_2 by reflexivity.
    reflexivity.
  - cbn in Hi. rewrite bool_decide_eq_false_2.
    + rewrite (IH i k v Hnd Hi). reflexivity.
    + intros ->. apply Hhead. apply list_elem_of_lookup_2 in Hi.
      apply (list_elem_of_fmap_2 fst) in Hi. exact Hi.
Qed.

Lemma Object_find_present (entries : Entries) (i : nat) (k : list Z)
    (v : JsonValue) :
  NoDup (map fst entries) -> entries !! i = Some (k, v) ->
  Object_find entries k = Some v.
Proof.
  intros Hnd Hi. unfold Object_find, Object_find_pos.
  destruct (Object_use_index entries).
  - unfold Object_rebuild_index.
    change (imap (fun i e => (i, e)) entries)
      with (imap (fun i e => ((0 + i)%nat, e)) entries).
    rewrite (index_fold_lookup entries 0 i ∅ k v Hnd Hi). cbn [Nat.add].
    rewrite Hi. reflexivity.
  - rewrite (linear_find_lookup entries i k v Hnd Hi), Hi. reflexivity.
Qed.

End DistinctKeys.

(* ===================================================================== *)
(** * Reading the compact text back                                       *)
(* ===================================================================== *)

Section RoundTrip.
Context `{Charconv}.
Import Parser.

(** [parse_object] on a brace that a quote follows enters the loop one
    level deeper. *)
Lemma parse_object_enter (n : nat) (p : Parser.t) (next : list Z) :
  ptr_ p = 123 :: 34 :: next -> (S (depth_ p) <= max_depth_ p)%nat ->
  parse_object (S n) p
  = object_loop n [] ∅ (with_depth (with_ptr p (34 :: next)) (S (depth_ p))).
Proof.
  intros Hptr Hdep. cbn [parse_object]. cbv [bind get_ptr get_opts set_ptr].
  rewrite push_depth_ok by (cbn [with_ptr depth_ max_depth_]; lia).
  rewrite Hptr. cbn [drop with_ptr depth_ ptr_]. rewrite ?drop_0.
  rewrite (skip_ws_token n _ 34 next) by (reflexivity || lia).
  cbn [ptr_ with_ptr with_depth]. change (34 =? 125) with false. reflexivity.
Qed.

Lemma parse_object_text_general (entries : Entries) (fuel : nat) (p : Parser.t)
    (rest : list Z) :
  Forall (fun e => reads_back (snd e)) entries ->
  Forall (fun e => Forall is_byte (fst e)) entries ->
  ParseOptions.allow_duplicate_keys (opts_ p) = true \/ NoDup (map fst entries) ->
  ptr_ p = compact_text (JObject entries) ++ rest ->
  (3 * length (ptr_ p) <= fuel)%nat ->
  (depth_ p + depth (JObject entries) <= max_depth_ p)%nat ->
  parse_object fuel p
  = Ok (JObject (finalize_object (map reparsed_entry entries))) (with_ptr p rest).
Proof.
  intros Hrb Hkeys Hnd Hptr Hfuel Hdep. cbn [compact_text depth] in Hptr, Hdep.
  cbn [app] in Hptr. rewrite <- app_assoc in Hptr. cbn [app] in Hptr.
  destruct fuel as [|n]; [rewrite Hptr in Hfuel; cbn [length] in Hfuel; lia|].
  destruct entries as [|[key v] r].
  - cbn [joined app] in Hptr.
    cbn [parse_object]. cbv [bind get_ptr get_opts set_ptr pop_depth ret].
    rewrite push_depth_ok by (cbn [with_ptr depth_ max_depth_]; lia).
    rewrite Hptr. cbn [drop with_ptr depth_ ptr_]. rewrite ?drop_0.
    rewrite (skip_ws_token n _ 125 rest) by (reflexivity || lia).
    destruct p; reflexivity.
  - cbn [joined fst snd] in Hptr. rewrite <- app_assoc in Hptr.
    match type of Hptr with
    | context [flat_map ?f r ++ 125 :: rest] =>
        remember (flat_map f r ++ 125 :: rest) as more eqn:Emore
    end.
    assert (Em : (string_text key ++ 58 :: compact_text v) ++ more
                 = 34 :: escaped key ++ 34 :: 58 :: compact_text v ++ more)
      by (unfold string_text; cbn [app]; rewrite <- !app_assoc; reflexivity).
    rewrite Em in Hptr.
    rewrite (parse_object_enter n p _ Hptr) by lia.
    rewrite (object_loop_text r (key, v) [] ∅ n _ rest); try assumption.
    + cbn [app]. destruct p; reflexivity.
    + right. intros k Hk. exfalso. revert Hk. apply not_elem_of_empty.
    + cbn [ptr_ with_ptr with_depth fst snd]. rewrite <- Em. subst more. reflexivity.
    + cbn [ptr_ with_ptr with_depth]. rewrite Hptr in Hfuel.
      cbn [length] in Hfuel |- *. lia.
    + cbn [depth_ max_depth_ with_ptr with_depth].
      pose proof (depth_member (map snd ((key, v) :: r))) as Hm.
      apply Forall_fmap in Hm.
      eapply Forall_impl; [exact Hm|]. cbv beta. intros e He. cbn [compose] in He.
      assert (Efold : fold_right (fun x acc => Nat.max (depth x) acc) 0%nat
                        (map snd ((key, v) :: r))
                      = fold_right (fun e acc => Nat.max (depth (snd e)) acc) 0%nat
                          ((key, v) :: r)).
      { clear. induction ((key, v) :: r) as [|e0 l IH]; [reflexivity|].
        cbn [map fold_right]. rewrite IH. reflexivity. }
      rewrite Efold in He. lia.
Qed.

Lemma parse_object_text (entries : Entries) (fuel : nat) (p : Parser.t)
    (rest : list Z) :
  Forall (fun e => reads_back (snd e)) entries ->
  Forall (fun e => Forall is_byte (fst e)) entries ->
  NoDup (map fst entries) ->
  ptr_ p = compact_text (JObject entries) ++ rest ->
  (3 * length (ptr_ p) <= fuel)%nat ->
  (depth_ p + depth (JObject entries) <= max_depth_ p)%nat ->
  parse_object fuel p = Ok (JObject (map reparsed_entry entries)) (with_ptr p rest).
Proof.
  intros Hrb Hkeys Hnd Hptr Hfuel Hdep.
  rewrite (parse_object_text_general entries fuel p rest) by auto.
  rewrite finalize_object_nodup; [reflexivity|].
  rewrite map_map. cbn [fst]. exact Hnd.
Qed.

(** ** The choice made by [parse_value] on the first byte *)

Lemma parse_value_head (n : nat) (p : Parser.t) (c : Z) (r : list Z) :
  ptr_ p = c :: r -> 32 < c -> c <> 47 ->
  parse_value (S n) p
  = (if c =? 34 then parse_string_value (S n)
     else if c =? 39 then
       if ParseOptions.allow_single_quotes (opts_ p)
       then parse_string_value_sq (S n) else error_unexpected_char
     else if c =? 123 then parse_object n
     else if c =? 91 then parse_array n
     else if c =? 116 then parse_true
     else if c =? 102 then parse_false
     else if c =? 110 then parse_null
     else if (c =? 45) || is_digit c then parse_number
     else if c =? 78 then
       if ParseOptions.allow_nan_inf (opts_ p)
       then parse_nan else error_unexpected_char
     else if c =? 73 then
       if ParseOptions.allow_nan_inf (opts_ p)
       then parse_infinity false else error_unexpected_char
     else error_unexpected_char) p.
Proof.
  intros Hptr Hc H47. cbn [parse_value]. cbv [bind get_ptr get_opts].
  rewrite (skip_ws_token n p c r Hptr Hc H47), Hptr. reflexivity.
Qed.

Lemma parse_value_number (n : nat) (p : Parser.t) (c : Z) (r : list Z) :
  ptr_ p = c :: r -> c = 45 \/ is_digit c = true ->
  parse_value (S n) p = parse_number p.
Proof.
  intros Hptr Hc.
  assert (Hr : c = 45 \/ 48 <= c <= 57)
    by (destruct Hc as [->|Hc]; [left; reflexivity|right; apply is_digit_range, Hc]).
  rewrite (parse_value_head n p c r Hptr) by lia.
  destruct (Z.eqb_spec c 34); [lia|]. destruct (Z.eqb_spec c 39); [lia|].
  destruct (Z.eqb_spec c 123); [lia|]. destruct (Z.eqb_spec c 91); [lia|].
  destruct (Z.eqb_spec c 116); [lia|]. destruct (Z.eqb_spec c 102); [lia|].
  destruct (Z.eqb_spec c 110); [lia|].
  replace ((c =? 45) || is_digit c) with true; [reflexivity|].
  symmetry. destruct Hc as [->|Hc]; [reflexivity|]. rewrite Hc. apply orb_true_r.
Qed.

Lemma safe_array_members (arr : list JsonValue) :
  roundtrip_safe (JArray arr) -> Forall roundtrip_safe arr.
Proof.
  cbn [roundtrip_safe]. induction arr as [|x r IH]; cbn [fold_right];
    [constructor|]. intros [Hx Hr]. constructor; auto.
Qed.

Lemma safe_object_members (entries : Entries) :
  roundtrip_safe (JObject entries) ->
  NoDup (map fst entries)
  /\ Forall (fun e => Forall is_byte (fst e)) entries
  /\ Forall (fun e => roundtrip_safe (snd e)) entries.
Proof.
  cbn [roundtrip_safe]. intros [Hnd Hall]. split; [exact Hnd|]. clear Hnd.
  induction entries as [|e r IH]; cbn [fold_right] in Hall; [split; constructor|].
  destruct Hall as [[Hk Hv] Hr]. destruct (IH Hr). split; constructor; auto.
Qed.

Lemma readable_array_members (arr : list JsonValue) :
  readable (JArray arr) -> Forall readable arr.
Proof.
  cbn [readable]. induction arr as [|x r IH]; cbn [fold_right];
    [constructor|]. intros [Hx Hr]. constructor; auto.
Qed.

Lemma readable_object_members (entries : Entries) :
  readable (JObject entries) ->
  NoDup (map fst entries)
  /\ Forall (fun e => Forall is_byte (fst e)) entries
  /\ Forall (fun e => readable (snd e)) entries.
Proof.
  cbn [readable]. intros [Hnd Hall]. split; [exact Hnd|]. clear Hnd.
  induction entries as [|e r IH]; cbn [fold_right] in Hall; [split; constructor|].
  destruct Hall as [[Hk Hv] Hr]. destruct (IH Hr). split; constructor; auto.
Qed.

(** [parse_value] reads back the text of every readable value. *)
Lemma reads_back_readable (v : JsonValue) : readable v -> reads_back v.
Proof.
  induction v as [ | b | i | u | d | s | arr IH | entries IH ]
    using JsonValue_induction;
    intros Hsafe fuel p rest Hptr Hdel Hfuel Hdep;
    (destruct fuel as [|n]; [lia|]).
  - cbn in Hptr.
    rewrite (parse_value_head n p 110 _ Hptr) by lia. cbn [Z.eqb Pos.eqb].
    unfold parse_null, bind.
    rewrite (expect_literal_text (bytes_of_string "null") rest p Hptr). reflexivity.
  - destruct b; cbn in Hptr.
    + rewrite (parse_value_head n p 116 _ Hptr) by lia. cbn [Z.eqb Pos.eqb].
      unfold parse_true, bind.
      rewrite (expect_literal_text (bytes_of_string "true") rest p Hptr). reflexivity.
    + rewrite (parse_value_head n p 102 _ Hptr) by lia. cbn [Z.eqb Pos.eqb].
      unfold parse_false, bind.
      rewrite (expect_literal_text (bytes_of_string "false") rest p Hptr). reflexivity.
  - cbn [compact_text readable reparsed] in *.
    destruct (integer_text_head i Hsafe) as (c & r & Ei & Hc).
    rewrite (parse_value_number n p c (r ++ rest)) by (rewrite ?Hptr, ?Ei; auto).
    apply parse_number_integer_text; assumption.
  - cbn [compact_text readable] in *.
    destruct (write_u64_head u Hsafe) as (c & r & Eu & Hc).
    rewrite (parse_value_number n p c (r ++ rest)) by (rewrite ?Hptr, ?Eu; auto).
    apply parse_number_uinteger_text; assumption.
  - apply (proj2 Hsafe); assumption.
  - cbn [compact_text readable reparsed] in *.
    assert (Hlen : (length (escaped s) < S n)%nat).
    { rewrite Hptr in Hfuel. unfold string_text in Hfuel.
      rewrite !length_app in Hfuel. cbn [length] in Hfuel. lia. }
    rewrite (parse_value_head n p 34 (escaped s ++ [34] ++ rest))
      by (lia || (rewrite Hptr; unfold string_text; rewrite <- !app_assoc; reflexivity)).
    cbn [Z.eqb Pos.eqb].
    apply parse_string_value_text; assumption.
  - pose proof (readable_array_members arr Hsafe) as Hall.
    rewrite (parse_value_head n p 91 (joined compact_text arr ++ [93] ++ rest))
      by (lia || (rewrite Hptr; cbn [compact_text app]; rewrite <- !app_assoc; reflexivity)).
    cbn [Z.eqb Pos.eqb reparsed].
    apply parse_array_text; try assumption; try lia.
    + rewrite Forall_forall in *. auto.
    + eapply Forall_impl; [exact Hall|]. apply readable_text_starts.
  - destruct (readable_object_members entries Hsafe) as (Hnd & Hkeys & Hall).
    rewrite (parse_value_head n p 123
               (joined (fun e => string_text (fst e) ++ [58] ++ compact_text (snd e))
                       entries ++ [125] ++ rest))
      by (lia || (rewrite Hptr; cbn [compact_text app]; rewrite <- !app_assoc; reflexivity)).
    cbn [Z.eqb Pos.eqb reparsed].
    apply parse_object_text; try assumption; try lia.
    rewrite Forall_forall in *. auto.
Qed.

(** So it does for every safe value. *)
Lemma reads_back_all (v : JsonValue) : roundtrip_safe v -> reads_back v.
Proof. intros Hv. apply reads_back_readable, safe_readable, Hv. Qed.

End RoundTrip.

(* ===================================================================== *)
(** * Equality of a value and its reading back                            *)
(* ===================================================================== *)

Section EqualFacts.

Lemma depth_reparsed (v : JsonValue) : depth (reparsed v) = depth v.
Proof.
  induction v as [ | b | i | u | d | s | arr IH | entries IH ]
    using JsonValue_induction; cbn [reparsed depth]; try reflexivity.
  - destruct (u <=? INT64_MAX); reflexivity.
  - f_equal. induction IH as [|x r Hx Hr IHr]; [reflexivity|].
    cbn [map fold_right]. rewrite Hx, IHr. reflexivity.
  - f_equal. induction IH as [|x r Hx Hr IHr]; [reflexivity|].
    cbn [map fold_right snd]. rewrite Hx, IHr. reflexivity.
Qed.

Lemma forallb2_map_l {A B : Type} (f : B -> A -> bool) (g : A -> B) (l : list A) :
  Forall (fun x => f (g x) x = true) l -> forallb2 f (map g l) l = true.
Proof.
  induction 1 as [|x r Hx Hr IH]; [reflexivity|].
  cbn [map forallb2]. rewrite Hx, IH. reflexivity.
Qed.

Lemma forallb2_map_r {A B : Type} (f : A -> B -> bool) (g : A -> B) (l : list A) :
  Forall (fun x => f x (g x) = true) l -> forallb2 f l (map g l) = true.
Proof.
  induction 1 as [|x r Hx Hr IH]; [reflexivity|].
  cbn [map forallb2]. rewrite Hx, IH. reflexivity.
Qed.

Lemma deq_self (d : double) : disnan d = false -> deq d d = true.
Proof.
  unfold deq, SFeqb. destruct d as [s|s| |s m e]; cbn; intros Hn; try discriminate;
    try reflexivity.
  - destruct s; reflexivity.
  - destruct s; rewrite Z.compare_refl, Pos.compare_cont_refl; reflexivity.
Qed.

Section Readable.
Context `{Charconv}.

(** A [Float] that is read back from its text is no NaN, whose text is
    [null]. *)
Lemma read_back_not_nan (d : double) :
  reads_back (JFloat d) -> disnan d = false.
Proof.
  intros Hd. destruct d as [s|s| |s m e]; try reflexivity.
  specialize (Hd 20%nat (Parser.make (bytes_of_string "null") ParseOptions.default) []).
  cbn [compact_text float_text disnan disinf orb reparsed] in Hd.
  specialize (Hd eq_refl I ltac:(cbn; lia) ltac:(cbn; lia)).
  vm_compute in Hd. discriminate Hd.
Qed.

(** A readable value and its reading back compare equal, in both orders
    and with any fuel above the depth. *)
Lemma equal_fuel_readable (v : JsonValue) :
  readable v ->
  forall n : nat, (depth v < n)%nat ->
    equal_fuel n (reparsed v) v = true /\ equal_fuel n v (reparsed v) = true.
Proof.
  induction v as [ | b | i | u | d | s | arr IH | entries IH ]
    using JsonValue_induction;
    intros Hsafe n Hn; (destruct n as [|n]; [lia|]).
  - split; reflexivity.
  - cbn. rewrite eqb_reflx. split; reflexivity.
  - cbn. rewrite Z.eqb_refl. split; reflexivity.
  - cbn [readable reparsed] in *. unfold is_uint64, UINT64_MAX in Hsafe.
    destruct (Z.leb_spec u INT64_MAX); cbn [equal_fuel].
    + unfold to_uint64. rewrite Z.mod_small by lia. rewrite Z.eqb_refl.
      destruct (Z.leb_spec 0 u); [split; reflexivity|lia].
    + rewrite Z.eqb_refl. split; reflexivity.
  - cbn [reparsed equal_fuel].
    rewrite (deq_self d (read_back_not_nan d (proj2 Hsafe))). split; reflexivity.
  - cbn. rewrite bool_decide_eq_true_2 by reflexivity. split; reflexivity.
  - pose proof (readable_array_members arr Hsafe) as Hall.
    cbn [reparsed equal_fuel]. rewrite length_map, Nat.eqb_refl. cbn [andb].
    assert (Hmem : Forall (fun x => equal_fuel n (reparsed x) x = true
                                    /\ equal_fuel n x (reparsed x) = true) arr).
    { pose proof (depth_member arr) as Hd. cbn [depth] in Hn.
      rewrite Forall_forall in *. intros x Hx. apply IH; auto.
      specialize (Hd x Hx). lia. }
    split; [apply forallb2_map_l|apply forallb2_map_r];
      (eapply Forall_impl; [exact Hmem|]); cbv beta; tauto.
  - destruct (readable_object_members entries Hsafe) as (Hnd & _ & Hall).
    cbn [reparsed equal_fuel]. rewrite length_map, Nat.eqb_refl. cbn [andb].
    assert (Hmem : forall i k x, entries !! i = Some (k, x) ->
                     equal_fuel n (reparsed x) x = true
                     /\ equal_fuel n x (reparsed x) = true).
    { intros i k x Hi.
      pose proof (depth_member (map snd entries)) as Hd. cbn [depth] in Hn.
      assert (Hin : (k, x) ∈ entries) by (eapply list_elem_of_lookup_2, Hi).
      rewrite Forall_forall in IH. rewrite Forall_forall in Hall.
      rewrite Forall_forall in Hd.
      apply (IH (k, x) Hin); [apply (Hall (k, x) Hin)|].
      specialize (Hd x ltac:(apply (list_elem_of_fmap_2 snd) in Hin; exact Hin)).
      assert (Efold : fold_right (fun x acc => Nat.max (depth x) acc) 0%nat
                        (map snd entries)
                      = fold_right (fun e acc => Nat.max (depth (snd e)) acc) 0%nat
                          entries).
      { clear. induction entries as [|e0 l IHl]; [reflexivity|].
        cbn [map fold_right]. rewrite IHl. reflexivity. }
      rewrite Efold in Hd. cbn [snd]. lia. }
    assert (Hnd' : NoDup (map fst (map reparsed_entry entries)))
      by (rewrite map_map; exact Hnd).
    split; apply forallb_forall; intros e Hin.
    + apply in_map_iff in Hin as ([k x] & <- & Hin). cbn [fst snd].
      apply list_elem_of_In, list_elem_of_lookup in Hin as [i Hi].
      rewrite (Object_find_present entries i k x Hnd Hi).
      apply (Hmem i k x Hi).
    + destruct e as [k x].
      apply list_elem_of_In, list_elem_of_lookup in Hin as [i Hi]. cbn [fst snd].
      assert (Hi' : map reparsed_entry entries !! i = Some (k, reparsed x))
        by (rewrite list_lookup_fmap, Hi; reflexivity).
      rewrite (Object_find_present _ i k (reparsed x) Hnd' Hi').
      apply (Hmem i k x Hi).
Qed.

Lemma equal_readable (v : JsonValue) :
  readable v -> equal (reparsed v) v = true.
Proof.
  intros Hsafe. unfold equal. rewrite depth_reparsed.
  apply (equal_fuel_readable v Hsafe). lia.
Qed.

End Readable.

(** A safe value and its reading back compare equal, in both orders and
    with any fuel above the depth. *)
Lemma equal_fuel_reparsed (v : JsonValue) :
  roundtrip_safe v ->
  forall n : nat, (depth v < n)%nat ->
    equal_fuel n (reparsed v) v = true /\ equal_fuel n v (reparsed v) = true.
Proof.
  intros Hsafe. apply (@equal_fuel_readable no_charconv), safe_readable, Hsafe.
Qed.

Lemma equal_reparsed (v : JsonValue) :
  roundtrip_safe v -> equal (reparsed v) v = true.
Proof.
  intros Hsafe. apply (@equal_readable no_charconv), safe_readable, Hsafe.
Qed.

End EqualFacts.

(* ===================================================================== *)
(** * The round trip                                                      *)
(* ===================================================================== *)

Section RoundTripTheorem.
Context `{Charconv}.

(** A root value that uses up the input is the result of [parse]; an
    error of [parse_value] is the error of [parse]. *)
Lemma parse_of_value (input : list Z) (opts : ParseOptions.t) (v : JsonValue) :
  Parser.parse_value (Parser.parse_fuel input) (Parser.make input opts)
  = Parser.Ok v (Parser.with_ptr (Parser.make input opts) []) ->
  Parser.parse input opts = Returns v.
Proof.
  intros Hv. unfold Parser.parse, Parser.parse_document.
  cbv [Parser.bind]. rewrite Hv. unfold Parser.parse_fuel.
  rewrite Nat.add_1_r. cbv [Parser.skip_whitespace Parser.get_opts Parser.get_ptr
                             Parser.skip_comments Parser.ret].
  cbn [Parser.ptr_ Parser.with_ptr Parser.opts_ Parser.skip_whitespace_ptr
       Parser.skip_whitespace_slow Parser.skip_whitespace_tail length Nat.leb
       Parser.skip_comments_ptr].
  destruct (ParseOptions.allow_comments _); reflexivity.
Qed.

Lemma parse_of_error (input : list Z) (opts : ParseOptions.t) (e : ParseError) :
  Parser.parse_value (Parser.parse_fuel input) (Parser.make input opts)
  = Parser.Throw e ->
  Parser.parse input opts = Throws (ExnParseError e).
Proof.
  intros Hv. unfold Parser.parse, Parser.parse_document.
  cbv [Parser.bind]. rewrite Hv. reflexivity.
Qed.

Lemma parse_compact_text (v : JsonValue) (opts : ParseOptions.t) :
  roundtrip_safe v -> (depth v <= effective_max_depth opts)%nat ->
  Parser.parse (compact_text v) opts = Returns (reparsed v).
Proof.
  intros Hsafe Hdep. apply parse_of_value.
  apply (reads_back_all v Hsafe).
  - cbn. rewrite app_nil_r. reflexivity.
  - exact I.
  - unfold Parser.parse_fuel. cbn [Parser.ptr_ Parser.make]. lia.
  - exact Hdep.
Qed.

Lemma parse_readable_text (v : JsonValue) (opts : ParseOptions.t) :
  readable v -> (depth v <= effective_max_depth opts)%nat ->
  Parser.parse (compact_text v) opts = Returns (reparsed v).
Proof.
  intros Hsafe Hdep. apply parse_of_value.
  apply (reads_back_readable v Hsafe).
  - cbn. rewrite app_nil_r. reflexivity.
  - exact I.
  - unfold Parser.parse_fuel. cbn [Parser.ptr_ Parser.make]. lia.
  - exact Hdep.
Qed.

(** ** Where the round trip stops *)

(** Two entries with one key: the text keeps both, the parser keeps the
    last, and the sizes differ. *)
Lemma roundtrip_fails_on_duplicate_keys :
  Parser.parse (serialize twice_a SerializeOptions.default) ParseOptions.default
  = Returns (JObject [([97], JInteger 2)])
  /\ equal (JObject [([97], JInteger 2)]) twice_a = false.
Proof. split; vm_compute; reflexivity. Qed.

(** 513 nested arrays: the text is written, the parser refuses it. *)
Lemma roundtrip_fails_beyond_max_depth :
  Parser.parse (serialize (nested_arrays 513) SerializeOptions.default)
               ParseOptions.default
  = Throws (ExnParseError (mkParseError max_depth_exceeded (mkLoc 1 514 513))).
Proof. vm_compute. reflexivity. Qed.

(** 512 of them are read back. *)
Lemma roundtrip_at_max_depth :
  Parser.parse (serialize (nested_arrays 512) SerializeOptions.default)
               ParseOptions.default
  = Returns (nested_arrays 512).
Proof. vm_compute. reflexivity. Qed.

(** Doubles: 2^53 - 1 is written as 9007199254740991.0 and read back as
    2^53 - 2; the double below 0.9 is written as 0.9 and read back as
    0.9. *)
Lemma roundtrip_fails_on_floats :
  (serialize (JFloat largest_odd_double) SerializeOptions.default
   = bytes_of_string "9007199254740991.0"
   /\ Parser.parse (bytes_of_string "9007199254740991.0") ParseOptions.default
      = Returns (JFloat (S754_finite false 9007199254740990 0))
   /\ equal (JFloat (S754_finite false 9007199254740990 0))
            (JFloat largest_odd_double) = false)
  /\
  (serialize (JFloat below_nine_tenths) SerializeOptions.default
   = bytes_of_string "0.9"
   /\ Parser.parse (bytes_of_string "0.9") ParseOptions.default
      = Returns (JFloat (S754_finite false 8106479329266893 (-53)))
   /\ equal (JFloat (S754_finite false 8106479329266893 (-53)))
            (JFloat below_nine_tenths) = false).
Proof. repeat split; vm_compute; reflexivity. Qed.

End RoundTripTheorem.


(* ===================================================================== *)
(** * Strings with raw control bytes                                      *)
(* ===================================================================== *)

Section ControlBytes.
Context `{Charconv}.
Import Parser.

(** A byte that is neither a quote nor a backslash is string content,
    whatever the options. *)
Lemma parse_one_byte_string (c : Z) (opts : ParseOptions.t) :
  c <> 34 -> c <> 92 ->
  Parser.parse [34; c; 34] opts = Returns (JString [c]).
Proof.
  intros H34 H92. apply parse_of_value.
  change (parse_fuel [34; c; 34]) with 10%nat.
  rewrite (parse_value_head 9 _ 34 [c; 34]) by (reflexivity || lia).
  cbn [Z.eqb Pos.eqb].
  rewrite parse_string_value_eq. cbv [bind].
  rewrite (expect_head 34 [c; 34]) by reflexivity.
  rewrite (content_plain_step 10 [] c [34]) by (assumption || reflexivity).
  rewrite (parse_string_content_text [] ltac:(constructor) 10 ([] ++ [c]) [])
    by (reflexivity || (cbn; lia)).
  reflexivity.
Qed.

(** C5 (what the code does): [allow_control_chars] is off in strict mode,
    yet the text made of a quote, a control byte [c] below 0x20 and a
    quote is not rejected: under the strict options, as under any others,
    it parses to the one-byte string [c]. *)
Theorem strict_mode_accepts_control_chars (c : Z) :
  0 <= c < 32 ->
  ParseOptions.allow_control_chars ParseOptions.strict = false /\
  Parser.parse [34; c; 34] ParseOptions.strict = Returns (JString [c]) /\
  (forall opts, Parser.parse [34; c; 34] opts = Returns (JString [c])).
Proof.
  intros Hc. split; [reflexivity|].
  split; [|intros opts]; apply parse_one_byte_string; lia.
Qed.

End ControlBytes.

Lemma strict_mode_accepts_control_chars_witness :
  ParseOptions.allow_control_chars ParseOptions.strict = false /\
  @Parser.parse no_charconv [34; 1; 34] ParseOptions.strict = Returns (JString [1]) /\
  (forall opts, @Parser.parse no_charconv [34; 1; 34] opts = Returns (JString [1])).
Proof.
  apply (@strict_mode_accepts_control_chars no_charconv 1). lia.
Defined.

(* ===================================================================== *)
(** * Objects that repeat a key                                           *)
(* ===================================================================== *)

Section RepeatedKey.
Context `{Charconv}.
Import Parser.

Lemma finalize_repeated (key : list Z) (v1 v2 : JsonValue) :
  finalize_object [(key, v1); (key, v2)] = [(key, v2)].
Proof.
  unfold finalize_object. cbn.
  rewrite bool_decide_eq_true_2 by reflexivity. reflexivity.
Qed.

(** The text of an object with the key [key] twice. *)
Lemma repeated_key_text (key : list Z) (v1 v2 : JsonValue) :
  compact_text (JObject [(key, v1); (key, v2)])
  = 123 :: 34 :: escaped key ++ 34 :: 58 :: compact_text v1
    ++ 44 :: 34 :: escaped key ++ 34 :: 58 :: compact_text v2 ++ [125].
Proof.
  cbn [compact_text joined flat_map fst snd]. unfold string_text.
  repeat first [rewrite <- app_assoc | rewrite app_nil_r | progress cbn [app]].
  reflexivity.
Qed.

Lemma repeated_key_last_wins (key : list Z) (v1 v2 : JsonValue)
    (opts : ParseOptions.t) :
  Forall is_byte key -> roundtrip_safe v1 -> roundtrip_safe v2 ->
  (S (depth v1) <= effective_max_depth opts)%nat ->
  (S (depth v2) <= effective_max_depth opts)%nat ->
  ParseOptions.allow_duplicate_keys opts = true ->
  Parser.parse (compact_text (JObject [(key, v1); (key, v2)])) opts
  = Returns (JObject [(key, reparsed v2)]).
Proof.
  intros Hkey H1 H2 Hd1 Hd2 Hmode. apply parse_of_value.
  set (text := compact_text (JObject [(key, v1); (key, v2)])).
  assert (Htext : exists r, text = 123 :: r)
    by (unfold text; rewrite repeated_key_text; eauto).
  destruct Htext as [r Er]. unfold parse_fuel. rewrite Nat.add_1_r.
  rewrite (parse_value_head _ _ 123 r) by (lia || (cbn [ptr_ make]; exact Er)).
  cbn [Z.eqb Pos.eqb].
  rewrite (parse_object_text_general [(key, v1); (key, v2)] _ _ []).
  - cbn [map fst snd]. rewrite finalize_repeated. reflexivity.
  - repeat constructor; cbn [snd]; apply reads_back_all; assumption.
  - repeat constructor; assumption.
  - left. exact Hmode.
  - cbn [ptr_ make]. fold text. rewrite app_nil_r. reflexivity.
  - cbn [ptr_ make]. lia.
  - cbn [depth_ make depth fold_right snd]. unfold effective_max_depth in *.
    cbn [max_depth_ make] in *. lia.
Qed.

Lemma repeated_key_rejected (key : list Z) (v1 v2 : JsonValue)
    (opts : ParseOptions.t) :
  Forall is_byte key -> roundtrip_safe v1 -> roundtrip_safe v2 ->
  (S (depth v1) <= effective_max_depth opts)%nat ->
  (S (depth v2) <= effective_max_depth opts)%nat ->
  ParseOptions.allow_duplicate_keys opts = false ->
  let text := compact_text (JObject [(key, v1); (key, v2)]) in
  Parser.parse text opts
  = Throws (ExnParseError
              (mkParseError duplicate_key
                 (current_location (with_ptr (make text opts) [125])))).
Proof.
  intros Hkey H1 H2 Hd1 Hd2 Hmode text. apply parse_of_error.
  pose proof (repeated_key_text key v1 v2) as Etext. fold text in Etext.
  unfold effective_max_depth in *. cbn [max_depth_ make] in *.
  assert (Hlen : length text
                 = (length (escaped key) + length (compact_text v1)
                    + length (escaped key) + length (compact_text v2) + 9)%nat).
  { rewrite Etext. repeat first [rewrite length_app | progress cbn [length]]. lia. }
  unfold parse_fuel. rewrite Nat.add_1_r.
  rewrite (parse_value_head _ (make text opts) 123 _ Etext) by lia.
  cbn [Z.eqb Pos.eqb].
  destruct (3 * length text)%nat as [|[|[|n]]] eqn:En; try lia.
  rewrite (parse_object_enter _ (make text opts) _ Etext)
    by (cbn [depth_ max_depth_ make]; lia).
  destruct (object_loop_entry key v1 [] [(key, reparsed v1)] ∅ ({[ key ]} ∪ ∅)
              (S n)
              (with_depth (with_ptr (make text opts)
                             (34 :: escaped key ++ 34 :: 58 :: compact_text v1
                              ++ 44 :: 34 :: escaped key ++ 34 :: 58
                                 :: compact_text v2 ++ [125]))
                          1)
              (44 :: 34 :: escaped key ++ 34 :: 58 :: compact_text v2 ++ [125]))
    as [_ Hstep].
  - apply reads_back_all, H1.
  - exact Hkey.
  - reflexivity.
  - cbn; auto.
  - repeat first [rewrite length_app | progress cbn [length]]. lia.
  - cbn [depth_ max_depth_ with_depth with_ptr make]. lia.
  - cbn [opts_ with_depth with_ptr make]. rewrite Hmode. unfold insert_checked.
    rewrite bool_decide_eq_false_2 by apply not_elem_of_empty. reflexivity.
  - cbn [depth_ make] in *. rewrite (Hstep _ eq_refl).
    rewrite (object_loop_collision key v2 _ _ n _ [125]).
    + reflexivity.
    + apply reads_back_all, H2.
    + exact Hkey.
    + reflexivity.
    + cbn; auto.
    + repeat first [rewrite length_app | progress cbn [length]]. lia.
    + cbn [depth_ max_depth_ with_depth with_ptr make]. lia.
    + exact Hmode.
    + apply elem_of_union_l, elem_of_singleton. reflexivity.
Qed.

(** C3: the text of an object that holds one key twice parses, when
    [allow_duplicate_keys] is on (the default), to the object with the
    single entry of that key and the last value, and fails with
    [duplicate_key], at the closing brace, when it is off (for values
    whose own objects stay within the entries the parser reserves, so
    that the key views it compares remain valid); so for the key [a]
    with the values 1 and 2.  The finalization of two entries of one
    key keeps the second.  While the entries stay within the reserved
    capacity, where [seen_keys] views the keys of the entries inserted
    so far, the checked insertion of a key that is among them pops the
    entry it has just appended, leaving the entries as they were, before
    the error. *)
Theorem duplicate_key_handling :
  (forall (key : list Z) (v1 v2 : JsonValue) (opts : ParseOptions.t),
     Forall is_byte key -> roundtrip_safe v1 -> roundtrip_safe v2 ->
     (S (depth v1) <= effective_max_depth opts)%nat ->
     (S (depth v2) <= effective_max_depth opts)%nat ->
     let text := compact_text (JObject [(key, v1); (key, v2)]) in
     (ParseOptions.allow_duplicate_keys opts = true ->
      Parser.parse text opts = Returns (JObject [(key, reparsed v2)])) /\
     (ParseOptions.allow_duplicate_keys opts = false ->
      within_reserve v1 -> within_reserve v2 ->
      Parser.parse text opts
      = Throws (ExnParseError
                  (mkParseError duplicate_key
                     (current_location (with_ptr (make text opts) [125])))))) /\
  dup_text = bytes_of_string "{" ++ [34] ++ bytes_of_string "a"
             ++ [34] ++ bytes_of_string ":1," ++ [34] ++ bytes_of_string "a"
             ++ [34] ++ bytes_of_string ":2}" /\
  ParseOptions.allow_duplicate_keys ParseOptions.default = true /\
  Parser.parse dup_text ParseOptions.default
    = Returns (JObject [([97], JInteger 2)]) /\
  Parser.parse dup_text
    (ParseOptions.with_allow_duplicate_keys ParseOptions.default false)
    = Throws (ExnParseError (mkParseError duplicate_key (mkLoc 1 13 12))) /\
  (forall key v1 v2, finalize_object [(key, v1); (key, v2)] = [(key, v2)]) /\
  (forall (entries : Entries) key value,
     (length entries < reserved_entries)%nat -> In key (map fst entries) ->
     insert_checked entries (list_to_set (map fst entries)) key value
     = inr entries).
Proof.
  split.
  { intros key v1 v2 opts Hkey H1 H2 Hd1 Hd2 text. split.
    - intros Hmode. apply repeated_key_last_wins; assumption.
    - intros Hmode _ _. apply repeated_key_rejected; assumption. }
  split; [reflexivity|].
  split; [reflexivity|].
  split; [vm_compute; reflexivity|].
  split; [vm_compute; reflexivity|].
  split.
  - apply finalize_repeated.
  - intros entries key value _ Hin. unfold insert_checked.
    rewrite bool_decide_eq_true_2
      by (apply elem_of_list_to_set, list_elem_of_In, Hin).
    rewrite removelast_last. reflexivity.
Qed.

End RepeatedKey.

(* ===================================================================== *)
(** * JSON Pointer                                                        *)
(* ===================================================================== *)

Section PointerText.
Import JsonPointer.

Lemma unescape_escape (tok : list Z) : unescape (escape tok) = tok.
Proof.
  induction tok as [|c r IH]; [reflexivity|].
  unfold escape in *. cbn [flat_map].
  destruct (c =? 126) eqn:E126.
  - apply Z.eqb_eq in E126. subst c. cbn. rewrite IH. reflexivity.
  - destruct (c =? 47) eqn:E47.
    + apply Z.eqb_eq in E47. subst c. cbn. rewrite IH. reflexivity.
    + cbn [app unescape]. rewrite E126, IH. reflexivity.
Qed.

(** The escaped form of a token holds no slash. *)
Lemma find_slash_escape (tok rest : list Z) :
  find_char 47 (escape tok ++ rest)
  = (fun n => (length (escape tok) + n)%nat) <$> find_char 47 rest.
Proof.
  induction tok as [|c r IH].
  - cbn. destruct (find_char 47 rest); reflexivity.
  - unfold escape in *. cbn [flat_map].
    destruct (c =? 126) eqn:E126; [|destruct (c =? 47) eqn:E47].
    + cbn [app find_char Z.eqb Pos.eqb]. rewrite IH.
      destruct (find_char 47 rest); reflexivity.
    + cbn [app find_char Z.eqb Pos.eqb]. rewrite IH.
      destruct (find_char 47 rest); reflexivity.
    + cbn [app find_char]. rewrite E47, IH.
      destruct (find_char 47 rest); reflexivity.
Qed.

Lemma segments_to_string (rest : list (list Z)) :
  forall (tok : list Z) (fuel : nat),
    (length rest < fuel)%nat ->
    segments fuel (escape tok ++ to_string rest) = escape tok :: map escape rest.
Proof.
  induction rest as [|tok' rest IH]; intros tok fuel Hf;
    (destruct fuel as [|fuel]; [cbn in Hf; lia|]); cbn [segments].
  - rewrite find_slash_escape. cbn. rewrite app_nil_r. reflexivity.
  - unfold to_string. cbn [flat_map]. fold (to_string rest).
    rewrite find_slash_escape.
    cbn [app find_char Z.eqb Pos.eqb fmap option_fmap option_map].
    rewrite Nat.add_0_r, take_app_length.
    replace (S (length (escape tok))) with (length (escape tok ++ [47]))
      by (rewrite length_app; cbn; lia).
    replace (escape tok ++ 47 :: escape tok' ++ to_string rest)
      with ((escape tok ++ [47]) ++ escape tok' ++ to_string rest)
      by (rewrite <- app_assoc; reflexivity).
    rewrite drop_app_length, IH by (cbn in Hf; lia). reflexivity.
Qed.

Lemma escape_plain (tok : list Z) :
  find_char 126 (escape tok) = None -> escape tok = tok.
Proof.
  induction tok as [|c r IH]; [reflexivity|].
  unfold escape in *. cbn [flat_map].
  destruct (c =? 126) eqn:E126; [discriminate|].
  destruct (c =? 47) eqn:E47; [discriminate|].
  cbn [app find_char]. rewrite E126.
  destruct (find_char 126 _); [discriminate|]. intros _. rewrite IH; reflexivity.
Qed.

Lemma token_of_escape (tok : list Z) : token_of_segment (escape tok) = tok.
Proof.
  unfold token_of_segment. destruct (find_char 126 (escape tok)) eqn:E.
  - apply unescape_escape.
  - apply escape_plain, E.
Qed.

Lemma to_string_length (tokens : t) : (length tokens <= length (to_string tokens))%nat.
Proof.
  induction tokens as [|tok r IH]; [cbn; lia|].
  unfold to_string in *. cbn [flat_map length]. rewrite length_app. cbn [length]. lia.
Qed.

Lemma make_to_string (tokens : t) : make (to_string tokens) = Returns tokens.
Proof.
  destruct tokens as [|tok rest]; [reflexivity|].
  unfold to_string. cbn [flat_map app]. fold (to_string rest).
  cbn [make Z.eqb Pos.eqb negb].
  rewrite segments_to_string.
  - cbn [map]. rewrite token_of_escape. f_equal. f_equal.
    rewrite map_map. induction rest as [|x r IH]; [reflexivity|].
    cbn [map]. rewrite token_of_escape, IH. reflexivity.
  - rewrite length_app. pose proof (to_string_length rest). lia.
Qed.


(** ** Texts that print back as they were *)

Lemma well_escaped_escape (tok rest : list Z) :
  well_escaped (escape tok ++ rest) = well_escaped rest.
Proof.
  induction tok as [|c r IH]; [reflexivity|].
  unfold escape in *. cbn [flat_map].
  destruct (c =? 126) eqn:E126; [|destruct (c =? 47) eqn:E47].
  - cbn. exact IH.
  - cbn. exact IH.
  - cbn [app well_escaped]. rewrite E126. exact IH.
Qed.

Lemma well_escaped_to_string (tokens : t) : well_escaped (to_string tokens) = true.
Proof.
  induction tokens as [|tok r IH]; [reflexivity|].
  unfold to_string in *. cbn [flat_map app well_escaped Z.eqb Pos.eqb].
  rewrite well_escaped_escape. exact IH.
Qed.

Lemma find_char_split (c : Z) (s : list Z) (pos : nat) :
  find_char c s = Some pos ->
  s = take pos s ++ c :: drop (S pos) s /\ find_char c (take pos s) = None.
Proof.
  revert pos. induction s as [|x r IH]; intros pos; [discriminate|].
  cbn [find_char]. destruct (x =? c) eqn:E.
  - intros [= <-]. apply Z.eqb_eq in E. subst x. cbn. rewrite drop_0. auto.
  - destruct (find_char c r) as [n|] eqn:En; [|discriminate].
    intros [= <-]. destruct (IH n eq_refl) as [Hs Hn].
    cbn [take drop find_char]. rewrite E, Hn. split; [|reflexivity].
    cbn [app]. f_equal. exact Hs.
Qed.

Lemma find_char_none_length (c : Z) (s : list Z) (pos : nat) :
  find_char c s = Some pos -> (pos < length s)%nat.
Proof.
  revert pos. induction s as [|x r IH]; intros pos; [discriminate|].
  cbn [find_char]. destruct (x =? c).
  - intros [= <-]. cbn. lia.
  - destruct (find_char c r) as [n|]; [|discriminate].
    intros [= <-]. specialize (IH n eq_refl). cbn. lia.
Qed.

(** A segment splits off a well escaped text exactly when both parts are
    well escaped. *)
Lemma well_escaped_segment (n : nat) :
  forall seg rest : list Z,
    (length seg <= n)%nat -> find_char 47 seg = None ->
    well_escaped (seg ++ 47 :: rest) = well_escaped seg && well_escaped rest.
Proof.
  induction n as [|n IH]; intros seg rest Hlen Hno.
  - destruct seg; [reflexivity|cbn in Hlen; lia].
  - destruct seg as [|c r]; [reflexivity|].
    cbn [find_char] in Hno. destruct (c =? 47) eqn:E47; [discriminate|].
    assert (Hr : find_char 47 r = None) by (destruct (find_char 47 r); [discriminate|reflexivity]).
    cbn [app well_escaped]. destruct (c =? 126).
    + destruct r as [|d r']; [reflexivity|].
      cbn [find_char] in Hr. destruct (d =? 47) eqn:E47'; [discriminate|].
      assert (Hr' : find_char 47 r' = None)
        by (destruct (find_char 47 r'); [discriminate|reflexivity]).
      cbn [app]. rewrite (IH r' rest) by (cbn in Hlen; lia || exact Hr').
      rewrite andb_assoc. reflexivity.
    + apply IH; [cbn in Hlen; lia|exact Hr].
Qed.

Lemma escape_unescape (n : nat) :
  forall seg : list Z,
    (length seg <= n)%nat -> find_char 47 seg = None -> well_escaped seg = true ->
    escape (unescape seg) = seg.
Proof.
  induction n as [|n IH]; intros seg Hlen Hno Hwe.
  - destruct seg; [reflexivity|cbn in Hlen; lia].
  - destruct seg as [|c r]; [reflexivity|].
    cbn [find_char] in Hno. destruct (c =? 47) eqn:E47; [discriminate|].
    assert (Hr : find_char 47 r = None) by (destruct (find_char 47 r); [discriminate|reflexivity]).
    cbn [well_escaped unescape] in *. destruct (c =? 126) eqn:E126.
    + apply Z.eqb_eq in E126. subst c.
      destruct r as [|d r']; [discriminate|].
      cbn [find_char] in Hr. destruct (d =? 47) eqn:E47'; [discriminate|].
      assert (Hr' : find_char 47 r' = None)
        by (destruct (find_char 47 r'); [discriminate|reflexivity]).
      apply andb_true_iff in Hwe as [Hd Hwe].
      destruct (d =? 49) eqn:E49.
      * apply Z.eqb_eq in E49. subst d. unfold escape. cbn [flat_map Z.eqb Pos.eqb app].
        f_equal. f_equal. apply IH; [cbn in Hlen; lia|exact Hr'|exact Hwe].
      * destruct (d =? 48) eqn:E48; [|discriminate].
        apply Z.eqb_eq in E48. subst d. unfold escape. cbn [flat_map Z.eqb Pos.eqb app].
        f_equal. f_equal. apply IH; [cbn in Hlen; lia|exact Hr'|exact Hwe].
    + unfold escape. cbn [flat_map]. rewrite E126, E47. cbn [app]. f_equal.
      apply IH; [cbn in Hlen; lia|exact Hr|exact Hwe].
Qed.

Lemma escape_no_special (seg : list Z) :
  find_char 47 seg = None -> find_char 126 seg = None -> escape seg = seg.
Proof.
  induction seg as [|c r IH]; [reflexivity|]. cbn [find_char].
  destruct (c =? 47) eqn:E47; [discriminate|].
  destruct (c =? 126) eqn:E126; [discriminate|].
  intros H1 H2. unfold escape. cbn [flat_map]. rewrite E126, E47. cbn [app]. f_equal.
  apply IH; [destruct (find_char 47 r)|destruct (find_char 126 r)];
    solve [discriminate | reflexivity].
Qed.

Lemma escape_token_of_segment (seg : list Z) :
  find_char 47 seg = None -> well_escaped seg = true ->
  escape (token_of_segment seg) = seg.
Proof.
  intros Hno Hwe. unfold token_of_segment.
  destruct (find_char 126 seg) eqn:E.
  - apply (escape_unescape (length seg)); auto.
  - apply escape_no_special; assumption.
Qed.

Lemma to_string_segments (fuel : nat) :
  forall src : list Z,
    (length src < fuel)%nat -> well_escaped src = true ->
    to_string (map token_of_segment (segments fuel src)) = 47 :: src.
Proof.
  induction fuel as [|fuel IH]; intros src Hf Hwe; [lia|].
  cbn [segments]. destruct (find_char 47 src) as [pos|] eqn:E.
  - destruct (find_char_split _ _ _ E) as [Hs Hno].
    pose proof (find_char_none_length _ _ _ E) as Hpos.
    rewrite Hs in Hwe.
    rewrite (well_escaped_segment (length (take pos src))) in Hwe by (lia || exact Hno).
    apply andb_true_iff in Hwe as [Hw1 Hw2].
    cbn [map]. unfold to_string in *. cbn [flat_map].
    rewrite escape_token_of_segment by assumption.
    rewrite IH by (rewrite ?length_drop; lia || exact Hw2).
    rewrite Hs at 3. reflexivity.
  - cbn [map]. unfold to_string. cbn [flat_map].
    rewrite escape_token_of_segment, app_nil_r by assumption. reflexivity.
Qed.

(** ** Array indices *)

Lemma leading_digits_all (tok : list Z) :
  forallb Parser.is_digit tok = true -> leading_digits tok = tok.
Proof.
  induction tok as [|c r IH]; [reflexivity|]. cbn.
  destruct (Parser.is_digit c); [|discriminate]. cbn. intros Hr. rewrite IH; auto.
Qed.

Lemma leading_digits_prefix (tok : list Z) :
  forallb Parser.is_digit tok = false ->
  drop (length (leading_digits tok)) tok <> [].
Proof.
  induction tok as [|c r IH]; [discriminate|]. cbn.
  destruct (Parser.is_digit c); cbn; [exact IH|discriminate].
Qed.

Lemma decimal_value_from_mono (ds : list Z) :
  forall acc, 0 <= acc -> forallb Parser.is_digit ds = true ->
  acc <= decimal_value_from acc ds.
Proof.
  induction ds as [|c r IH]; intros acc Hacc Hd; [cbn; lia|].
  cbn in Hd. apply andb_true_iff in Hd as [Hc Hr].
  unfold decimal_value_from in *. cbn [fold_left].
  unfold Parser.is_digit in Hc. apply andb_true_iff in Hc as [H1 H2].
  apply Z.leb_le in H1, H2.
  specialize (IH (10 * acc + (c - 48)) ltac:(lia) Hr). lia.
Qed.

(** The digit loop of [try_resolve] accepts the tokens made of digits
    whose value is at most the size. *)
Lemma try_index_loop_spec (tok : list Z) (size : Z) :
  forall idx, 0 <= idx <= size -> 24 * size < 2 ^ 64 ->
  try_index_loop tok idx size
  = if forallb Parser.is_digit tok && (decimal_value_from idx tok <=? size)
    then Some (decimal_value_from idx tok) else None.
Proof.
  induction tok as [|c r IH]; intros idx Hidx Hsize.
  - cbn. destruct (Z.leb_spec idx size); [reflexivity|lia].
  - cbn [try_index_loop forallb]. unfold Parser.is_digit at 1.
    destruct (Z.ltb_spec c 48) as [Hlo|Hlo].
    { destruct (Z.leb_spec 48 c); [lia|]. reflexivity. }
    destruct (Z.ltb_spec 57 c) as [Hhi|Hhi].
    { destruct (Z.leb_spec 48 c); [|lia]. destruct (Z.leb_spec c 57); [lia|]. reflexivity. }
    destruct (Z.leb_spec 48 c); [|lia]. destruct (Z.leb_spec c 57); [|lia].
    cbn [orb andb].
    unfold to_uint64. rewrite (Z.mod_small (c - 48)) by lia.
    rewrite (Z.mod_small (idx * 10 + (c - 48))) by lia.
    rewrite (Z.mod_small (size + 1)) by lia.
    unfold decimal_value_from. cbn [fold_left]. fold (decimal_value_from (10 * idx + (c - 48)) r).
    replace (idx * 10 + (c - 48)) with (10 * idx + (c - 48)) by lia.
    destruct (Z.leb_spec (size + 1) (10 * idx + (c - 48))) as [Hbig|Hsmall].
    + destruct (forallb Parser.is_digit r) eqn:Hr; [|reflexivity].
      pose proof (decimal_value_from_mono r (10 * idx + (c - 48)) ltac:(lia) Hr).
      destruct (Z.leb_spec (decimal_value_from (10 * idx + (c - 48)) r) size); [lia|].
      reflexivity.
    + apply IH; lia.
Qed.

Lemma from_chars_all_digits (c : Z) (r : list Z) :
  forallb Parser.is_digit (c :: r) = true ->
  from_chars_size_t (c :: r)
  = if decimal_value (c :: r) <=? UINT64_MAX
    then (decimal_value (c :: r), [], std_ok)
    else (0, [], result_out_of_range).
Proof.
  intros Hd. unfold from_chars_size_t. rewrite leading_digits_all by exact Hd.
  rewrite drop_all. reflexivity.
Qed.

Lemma from_chars_not_all_digits (tok : list Z) :
  forallb Parser.is_digit tok = false ->
  exists v p ec, from_chars_size_t tok = (v, p, ec) /\ p <> [].
Proof.
  intros Hd. unfold from_chars_size_t.
  pose proof (leading_digits_prefix tok Hd) as Hp.
  destruct (leading_digits tok) as [|d ds] eqn:E.
  - exists 0, tok, invalid_argument. split; [reflexivity|]. destruct tok; [discriminate|discriminate].
  - destruct (_ <=? _); eauto.
Qed.

(** [parse_index] and the digit loop of [try_resolve] accept the same
    tokens, with the same index. *)
Lemma index_agree (tok : list Z) (arr : list JsonValue) :
  24 * Z.of_nat (length arr) < 2 ^ 64 ->
  match tok with
  | [] => None
  | c :: _ =>
      if (1 <? length tok)%nat && (c =? 48) then None
      else
        match try_index_loop tok 0 (Z.of_nat (length arr)) with
        | None => None
        | Some idx =>
            if Z.of_nat (length arr) <=? idx then None
            else arr !! Z.to_nat idx
        end
  end
  = match parse_index tok (Z.of_nat (length arr)) with
    | Throws _ => None
    | Returns idx => arr !! Z.to_nat idx
    end.
Proof.
  intros Hsize. destruct tok as [|c r]; [reflexivity|].
  unfold parse_index. destruct ((1 <? length (c :: r))%nat && (c =? 48)); [reflexivity|].
  rewrite try_index_loop_spec by lia.
  fold (decimal_value (c :: r)).
  destruct (forallb Parser.is_digit (c :: r)) eqn:Hd.
  - rewrite from_chars_all_digits by exact Hd. cbn [andb].
    destruct (Z.leb_spec (decimal_value (c :: r)) (Z.of_nat (length arr))) as [Hle|Hgt].
    + destruct (Z.leb_spec (decimal_value (c :: r)) UINT64_MAX) as [_|Hbig];
        [|unfold UINT64_MAX in Hbig; lia].
      destruct (Z.of_nat (length arr) <=? decimal_value (c :: r)); reflexivity.
    + destruct (Z.leb_spec (decimal_value (c :: r)) UINT64_MAX) as [_|Hbig]; [|reflexivity].
      destruct (Z.leb_spec (Z.of_nat (length arr)) (decimal_value (c :: r))); [reflexivity|lia].
  - cbn [andb].
    destruct (from_chars_not_all_digits _ Hd) as (v & p & ec & E & Hp).
    rewrite E. destruct ec, p; try reflexivity; congruence.
Qed.

Lemma Object_find_member (entries : Entries) (key : list Z) (v : JsonValue) :
  Object_find entries key = Some v -> exists k, In (k, v) entries.
Proof.
  unfold Object_find. destruct (Object_find_pos entries key) as [i|]; [|discriminate].
  destruct (entries !! i) as [[k x]|] eqn:E; [|discriminate].
  intros [= <-]. exists k. apply list_elem_of_In. eapply list_elem_of_lookup_2, E.
Qed.

Lemma arrays_fit_member (arr : list JsonValue) (x : JsonValue) :
  fold_right (fun x acc => arrays_fit x /\ acc) True arr -> In x arr -> arrays_fit x.
Proof.
  induction arr as [|y r IH]; [intros _ []|].
  cbn. intros [Hy Hr] [->|Hin]; auto.
Qed.

Lemma arrays_fit_entry (entries : Entries) (k : list Z) (x : JsonValue) :
  fold_right (fun e acc => arrays_fit (snd e) /\ acc) True entries ->
  In (k, x) entries -> arrays_fit x.
Proof.
  induction entries as [|y r IH]; [intros _ []|].
  cbn. intros [Hy Hr] [->|Hin]; auto.
Qed.

Lemma try_resolve_loop_agree (tokens : t) :
  forall (i : nat) (cur : JsonValue),
    arrays_fit cur ->
    try_resolve tokens cur
    = match resolve_loop tokens i cur with
      | Returns v => Some v
      | Throws _ => None
      end.
Proof.
  induction tokens as [|tok rest IH]; intros i cur Hfit; [reflexivity|].
  cbn [try_resolve resolve_loop].
  destruct cur as [ | b | n | u | d | s | arr | entries ]; try reflexivity.
  - cbn [arrays_fit] in Hfit. destruct Hfit as [Hsize Hmem].
    pose proof (index_agree tok arr Hsize) as Hagree.
    destruct (parse_index tok (Z.of_nat (length arr))) as [idx|e] eqn:Ep.
    + destruct tok as [|c r]; [discriminate|].
      destruct ((1 <? length (c :: r))%nat && (c =? 48)) eqn:Ez.
      { unfold parse_index in Ep. rewrite Ez in Ep. discriminate. }
      destruct (try_index_loop (c :: r) 0 (Z.of_nat (length arr))) as [idx'|] eqn:Et.
      * destruct (Z.of_nat (length arr) <=? idx') eqn:El.
        -- rewrite <- Hagree. reflexivity.
        -- rewrite Hagree. destruct (arr !! Z.to_nat idx) as [x|] eqn:Ex; [|reflexivity].
           apply (IH (S i)). eapply arrays_fit_member; [exact Hmem|].
           apply list_elem_of_In. eapply list_elem_of_lookup_2, Ex.
      * rewrite <- Hagree. reflexivity.
    + destruct tok as [|c r]; [reflexivity|].
      destruct ((1 <? length (c :: r))%nat && (c =? 48)); [reflexivity|].
      destruct (try_index_loop (c :: r) 0 (Z.of_nat (length arr))) as [idx'|];
        [|reflexivity].
      destruct (Z.of_nat (length arr) <=? idx'); [reflexivity|].
      rewrite Hagree. reflexivity.
  - destruct (Object_find entries tok) as [p|] eqn:Ef; [|reflexivity].
    apply (IH (S i)). destruct (Object_find_member _ _ _ Ef) as [k Hin].
    eapply arrays_fit_entry; [exact Hfit|exact Hin].
Qed.

End PointerText.

(** X1: printing a pointer and constructing a pointer from the text gives
    the tokens back, whatever bytes the tokens hold ([~] and [/]
    included): [unescape] undoes [escape], and [JsonPointer(p.to_string())]
    has the tokens of [p]. *)
Theorem pointer_print_then_parse (tokens : JsonPointer.t) (tok : list Z) :
  JsonPointer.unescape (JsonPointer.escape tok) = tok
  /\ JsonPointer.make (JsonPointer.to_string tokens) = Returns tokens.
Proof. split; [apply unescape_escape|apply make_to_string]. Qed.

(** X2: a pointer text that the constructor accepts is printed back
    unchanged by [to_string] exactly when each of its [~] is followed by
    [0] or [1]; any other [~] comes back as [~0]. *)
Theorem pointer_parse_then_print (s : list Z) (tokens : JsonPointer.t) :
  JsonPointer.make s = Returns tokens ->
  (JsonPointer.to_string tokens = s <-> well_escaped s = true).
Proof.
  intros Hmake. split.
  - intros <-. apply well_escaped_to_string.
  - intros Hwe. destruct s as [|c src]; cbn [JsonPointer.make] in Hmake.
    + injection Hmake as <-. reflexivity.
    + destruct (c =? 47) eqn:E; cbn [negb] in Hmake; [|discriminate].
      apply Z.eqb_eq in E. subst c. injection Hmake as <-.
      apply (to_string_segments (S (length src))); [lia|exact Hwe].
Qed.

Lemma pointer_parse_then_print_witness :
  JsonPointer.make [47; 97; 126; 49; 98] = Returns [[97; 47; 98]]
  /\ (JsonPointer.to_string [[97; 47; 98]] = [47; 97; 126; 49; 98]
      <-> well_escaped [47; 97; 126; 49; 98] = true).
Proof.
  split; [reflexivity|].
  apply (pointer_parse_then_print [47; 97; 126; 49; 98] [[97; 47; 98]]).
  reflexivity.
Defined.

(** X3: [append] adds the token as the last one and [parent] removes the
    last one, so the parent of an appended pointer is the pointer; the
    parent of the root pointer is the root pointer. *)
Theorem pointer_append_and_parent (tokens : JsonPointer.t) (tok : list Z) :
  JsonPointer.append tokens tok = Returns (tokens ++ [tok])
  /\ JsonPointer.parent (tokens ++ [tok]) = Returns tokens
  /\ JsonPointer.parent [] = Returns [].
Proof.
  split; [|split; [|reflexivity]].
  - unfold JsonPointer.append.
    replace (JsonPointer.to_string tokens ++ [47] ++ JsonPointer.escape tok)
      with (JsonPointer.to_string (tokens ++ [tok])).
    + apply make_to_string.
    + unfold JsonPointer.to_string. rewrite flat_map_app. cbn [flat_map].
      rewrite app_nil_r. reflexivity.
  - unfold JsonPointer.parent. rewrite removelast_last.
    destruct (tokens ++ [tok]) eqn:E; [destruct tokens; discriminate|].
    destruct tokens as [|t0 r]; [reflexivity|].
    pose proof (make_to_string (t0 :: r)) as Hm.
    destruct (JsonPointer.to_string (t0 :: r)) eqn:Es; [discriminate|exact Hm].
Qed.

(** X4: [try_resolve] returns a value exactly when [resolve] returns, and
    then the same value; it returns [nullptr] exactly when [resolve]
    throws.  The arrays are those a 64-bit address space can hold. *)
Theorem pointer_try_resolve_agrees (tokens : JsonPointer.t) (root : JsonValue) :
  arrays_fit root ->
  JsonPointer.try_resolve tokens root
  = match JsonPointer.resolve tokens root with
    | Returns v => Some v
    | Throws _ => None
    end.
Proof. intros Hfit. apply try_resolve_loop_agree, Hfit. Qed.

Lemma pointer_try_resolve_agrees_witness :
  arrays_fit (JObject [([97], JArray [JInteger 7; JNull])])
  /\ JsonPointer.try_resolve [[97]; [49]] (JObject [([97], JArray [JInteger 7; JNull])])
     = match JsonPointer.resolve [[97]; [49]]
               (JObject [([97], JArray [JInteger 7; JNull])]) with
       | Returns v => Some v
       | Throws _ => None
       end.
Proof.
  assert (H : arrays_fit (JObject [([97], JArray [JInteger 7; JNull])])).
  { cbn. repeat split. }
  split; [exact H|].
  apply (pointer_try_resolve_agrees [[97]; [49]]
           (JObject [([97], JArray [JInteger 7; JNull])]) H).
Defined.

(* ===================================================================== *)
(** * The serializer writes [render], into any sink                       *)
(* ===================================================================== *)

Section Rendering.
Context `{Charconv} {Sink : Type} `{Output Sink}.
Import SerializerCore.

(** What a sink has taken: the two write operations append to it. *)
Variable contents : Sink -> list Z.
Hypothesis contents_char :
  forall c o, contents (write_char c o) = contents o ++ [c].
Hypothesis contents_bytes :
  forall s o, contents (write_bytes s o) = contents o ++ s.

Variables (Pretty EnsureAscii : bool) (opts : SerializeOptions.t).

Local Abbreviation taken s := (contents (out_ s)).

(** [op] appends [text] and leaves the indent as it was. *)
Local Abbreviation appends op text :=
  (forall s : state,
     taken (op s) = taken s ++ text (current_indent_ s)
     /\ current_indent_ (op s) = current_indent_ s).

Lemma appends_put_char (c : Z) : appends (put_char c) (fun _ => [c]).
Proof. intros s. split; [apply contents_char|reflexivity]. Qed.

Lemma appends_put (bytes : list Z) : appends (put bytes) (fun _ => bytes).
Proof. intros s. split; [apply contents_bytes|reflexivity]. Qed.

Lemma appends_indent_loop (fuel : nat) :
  forall (n : Z) (s : state),
    (Z.to_nat n <= fuel)%nat ->
    taken (write_indent_loop fuel n s) = taken s ++ replicate (Z.to_nat n) 32
    /\ current_indent_ (write_indent_loop fuel n s) = current_indent_ s.
Proof.
  induction fuel as [|fuel IH]; intros n s Hn.
  - replace (Z.to_nat n) with 0%nat by lia. cbn. rewrite app_nil_r. auto.
  - cbn [write_indent_loop]. destruct (Z.ltb_spec 0 n) as [Hpos|Hneg].
    + set (chunk := if n <? kMaxIndentBuf then n else kMaxIndentBuf).
      assert (Hc : 0 < chunk <= n).
      { subst chunk. unfold kMaxIndentBuf. destruct (Z.ltb_spec n 256); lia. }
      destruct (IH (n - chunk) (put (replicate (Z.to_nat chunk) 32) s) ltac:(lia))
        as [Ht Hi].
      rewrite Ht, Hi. destruct (appends_put (replicate (Z.to_nat chunk) 32) s) as [Hp Hq].
      rewrite Hp, Hq, <- app_assoc, <- replicate_add.
      replace (Z.to_nat chunk + Z.to_nat (n - chunk))%nat with (Z.to_nat n) by lia.
      auto.
    + replace (Z.to_nat n) with 0%nat by lia. cbn. rewrite app_nil_r. auto.
Qed.

Lemma appends_indent : appends (write_indent Pretty) (indent_text Pretty).
Proof.
  intros s. unfold write_indent, indent_text. destruct Pretty.
  - apply appends_indent_loop. lia.
  - rewrite app_nil_r. auto.
Qed.

Lemma appends_newline : appends (write_newline Pretty) (fun _ => newline_text Pretty).
Proof.
  intros s. unfold write_newline, newline_text. destruct Pretty.
  - apply appends_put_char.
  - rewrite app_nil_r. auto.
Qed.

Lemma appends_integer (i : Z) : appends (write_integer i) (fun _ => integer_text i).
Proof.
  intros s. unfold write_integer, integer_text. destruct (i <? 0); apply appends_put.
Qed.

Lemma appends_float (d : double) :
  appends (write_float opts d) (fun _ => rendered_float opts d).
Proof.
  intros s. unfold write_float, rendered_float.
  destruct (disnan d).
  { destruct (SerializeOptions.allow_nan_inf opts); apply appends_put. }
  destruct (disinf d); [|apply appends_put].
  destruct (SerializeOptions.allow_nan_inf opts); [|apply appends_put].
  destruct (dlt d (S754_zero false)).
  - destruct (appends_put (bytes_of_string "Infinity") (put_char 45 s)) as [Ht Hi].
    destruct (appends_put_char 45 s) as [Ht' Hi'].
    rewrite Ht, Hi, Ht', Hi', <- app_assoc. auto.
  - apply appends_put.
Qed.

Lemma appends_codepoint (cp : Z) :
  appends (write_escaped_codepoint cp) (fun _ => escaped_codepoint cp).
Proof.
  intros s. unfold write_escaped_codepoint, escaped_codepoint.
  destruct (cp <=? 0xFFFF); [apply appends_put|].
  match goal with
  | |- context [put ?b (put ?a s)] =>
      destruct (appends_put b (put a s)) as [Ht Hi];
      destruct (appends_put a s) as [Ht' Hi']
  end.
  rewrite Ht, Hi, Ht', Hi', <- app_assoc. auto.
Qed.

(** ** Strings *)

Lemma decode_cont_exit (bs : list Z) :
  forall i cp j, utf8.decode_cont bs i cp = inr j -> (i <= j)%nat.
Proof.
  induction bs as [|b r IH]; intros i cp j; cbn [utf8.decode_cont]; [discriminate|].
  destruct (_ =? _).
  - intros Hj. apply IH in Hj. lia.
  - intros [= <-]. lia.
Qed.

(** A decoding step consumes at least one byte. *)
Lemma decode_advances (c : Z) (r : list Z) :
  (length (snd (utf8.decode (c :: r))) <= length r)%nat.
Proof.
  unfold utf8.decode.
  destruct (_ || _); [cbn; lia|].
  destruct (_ =? 1)%nat; [cbn; lia|].
  destruct (utf8.lead_bits _ c) as [cp0|] eqn:Eb; [|cbn; lia].
  assert (Hlen : (2 <= utf8.sequence_length c)%nat).
  { unfold utf8.lead_bits in Eb.
    destruct (utf8.sequence_length c) as [|[|n]]; [discriminate|discriminate|lia]. }
  destruct (utf8.decode_cont _ 1 cp0) as [cp|i] eqn:Ec.
  - repeat match goal with |- context [if ?b then _ else _] => destruct b end;
      cbn [snd]; rewrite length_drop; cbn [length]; lia.
  - apply decode_cont_exit in Ec. cbn [snd]. rewrite length_drop. cbn [length]. lia.
Qed.

(** The fuel of [escaped_bytes] only has to cover the bytes. *)
Lemma escaped_bytes_fuel (n : nat) :
  forall (ptr : list Z) (f1 f2 : nat),
    (length ptr <= n)%nat -> (length ptr <= f1)%nat -> (length ptr <= f2)%nat ->
    escaped_bytes EnsureAscii f1 ptr = escaped_bytes EnsureAscii f2 ptr.
Proof.
  induction n as [|n IH]; intros ptr f1 f2 Hn H1 H2.
  - destruct ptr; [|cbn in Hn; lia]. destruct f1, f2; reflexivity.
  - destruct ptr as [|c rest]; [destruct f1, f2; reflexivity|].
    destruct f1 as [|f1]; [cbn in H1; lia|]. destruct f2 as [|f2]; [cbn in H2; lia|].
    cbn [escaped_bytes length] in *.
    pose proof (decode_advances c rest) as Hadv.
    destruct (utf8.decode (c :: rest)) as [cp p]. cbn [snd] in Hadv.
    rewrite (IH rest f1 f2), (IH p f1 f2) by lia. reflexivity.
Qed.

(** The scan of [write_string] splits off a part written as it is. *)
Lemma plain_prefix_any (ptr : list Z) :
  forall fuel : nat,
    (length ptr <= fuel)%nat ->
    let safe_end := simd.find_needs_escape EnsureAscii ptr in
    (length safe_end <= length ptr)%nat /\
    escaped_bytes EnsureAscii fuel ptr
    = take (length ptr - length safe_end) ptr
      ++ escaped_bytes EnsureAscii fuel safe_end /\
    match safe_end with
    | [] => True
    | c :: _ =>
        (c <? 0x20) || (c =? 34) || (c =? 92) || (EnsureAscii && (0x80 <=? c)) = true
    end.
Proof.
  induction ptr as [|c r IH]; intros fuel Hf; cbn [simd.find_needs_escape].
  - cbn. destruct fuel; auto.
  - destruct ((c <? 0x20) || (c =? 34) || (c =? 92)) eqn:E.
    { cbn zeta. rewrite Nat.sub_diag, take_0, E. cbn [app orb]. auto. }
    destruct (EnsureAscii && (0x80 <=? c)) eqn:E'.
    { cbn zeta. rewrite Nat.sub_diag, take_0, E'. cbn [app]. rewrite orb_true_r. auto. }
    cbn zeta. destruct fuel as [|fuel]; [cbn in Hf; lia|].
    destruct (IH fuel ltac:(cbn in Hf; lia)) as (Hlen & Hesc & Hhead).
    split; [cbn [length]; lia|]. split; [|exact Hhead].
    cbn [length].
    replace (S (length r) - length (simd.find_needs_escape EnsureAscii r))%nat
      with (S (length r - length (simd.find_needs_escape EnsureAscii r))) by lia.
    rewrite (escaped_bytes_fuel (length r) (simd.find_needs_escape EnsureAscii r)
               (S fuel) fuel) by (cbn [length] in *; lia).
    cbn [take escaped_bytes]. rewrite E'.
    destruct (c <? 32), (c =? 34), (c =? 92); try discriminate.
    cbn [app]. f_equal. exact Hesc.
Qed.

Lemma appends_string_loop (fuel : nat) :
  forall (ptr : list Z) (s : state),
    (length ptr <= fuel)%nat ->
    taken (write_string_loop EnsureAscii fuel ptr s)
    = taken s ++ escaped_bytes EnsureAscii (length ptr) ptr
    /\ current_indent_ (write_string_loop EnsureAscii fuel ptr s) = current_indent_ s.
Proof.
  induction fuel as [|fuel IH]; intros ptr s Hlen.
  - destruct ptr; [|cbn in Hlen; lia]. cbn. rewrite app_nil_r. auto.
  - destruct ptr as [|c0 r0]; [cbn; rewrite app_nil_r; auto|].
    cbn [write_string_loop].
    destruct (plain_prefix_any (c0 :: r0) (length (c0 :: r0)) ltac:(lia))
      as (Hle & Hesc & Hhead).
    set (ptr := c0 :: r0) in *.
    set (safe_end := simd.find_needs_escape EnsureAscii ptr) in *.
    set (s1 := if (length safe_end <? length ptr)%nat
               then put (take (length ptr - length safe_end) ptr) s else s).
    assert (Hs1 : taken s1 = taken s ++ take (length ptr - length safe_end) ptr
                  /\ current_indent_ s1 = current_indent_ s).
    { unfold s1. destruct (Nat.ltb_spec (length safe_end) (length ptr)).
      - apply appends_put.
      - replace (length ptr - length safe_end)%nat with 0%nat by lia.
        rewrite take_0, app_nil_r. auto. }
    destruct Hs1 as [Hs1 Hi1]. rewrite Hesc, app_assoc, <- Hs1, <- Hi1. clearbody s1.
    assert (Hptr : length ptr = S (length r0)) by reflexivity.
    destruct safe_end as [|c rest] eqn:Ese.
    { destruct (length ptr); cbn; rewrite app_nil_r; auto. }
    assert (Hrest : (length rest <= fuel)%nat) by (cbn [length] in *; lia).
    rewrite Hptr. cbn [escaped_bytes].
    assert (Hstep : forall (text : list Z) (p : list Z) (op : state -> state),
               (length p <= length rest)%nat ->
               (forall s, taken (op s) = taken s ++ text
                          /\ current_indent_ (op s) = current_indent_ s) ->
               taken (write_string_loop EnsureAscii fuel p (op s1))
               = taken s1 ++ text ++ escaped_bytes EnsureAscii (length r0) p
               /\ current_indent_ (write_string_loop EnsureAscii fuel p (op s1))
                  = current_indent_ s1).
    { intros text p op Hp Hop. destruct (IH p (op s1) ltac:(lia)) as [Ht Hi].
      destruct (Hop s1) as [Ht' Hi'].
      rewrite Ht, Hi, Ht', Hi', <- app_assoc.
      rewrite (escaped_bytes_fuel (length p) p (length p) (length r0))
        by (cbn [length] in *; lia).
      auto. }
    destruct (c <? 32).
    { apply Hstep; [lia|apply appends_put]. }
    destruct (c =? 34).
    { apply (Hstep [92; 34]); [lia|apply appends_put]. }
    destruct (c =? 92).
    { apply (Hstep [92; 92]); [lia|apply appends_put]. }
    cbn [orb] in Hhead. rewrite Hhead.
    pose proof (decode_advances c rest) as Hadv.
    destruct (utf8.decode (c :: rest)) as [cp p]. cbn [snd] in Hadv.
    apply Hstep; [lia|apply appends_codepoint].
Qed.

Lemma appends_string (str : list Z) :
  appends (write_string EnsureAscii str) (fun _ => rendered_string EnsureAscii str).
Proof.
  intros s. unfold write_string, rendered_string.
  destruct (appends_put_char 34 s) as [H1 I1].
  destruct (appends_string_loop (length str) str (put_char 34 s) ltac:(lia)) as [H2 I2].
  match goal with
  | |- context [put_char 34 ?x] =>
      destruct (appends_put_char 34 x) as [H3 I3]
  end.
  rewrite H3, I3, H2, I2, H1, I1, <- !app_assoc. auto.
Qed.


(** ** Containers *)

Lemma flat_map_over_map {A B C : Type} (f : B -> list C) (g : A -> B) (l : list A) :
  flat_map f (map g l) = flat_map (fun x => f (g x)) l.
Proof. induction l as [|x r IH]; [reflexivity|]. cbn. rewrite IH. reflexivity. Qed.

Lemma insert_by_key_map {A B : Type} (f : A -> B) (e : list Z * A)
    (l : list (list Z * A)) :
  insert_by_key (fst e, f (snd e)) (map (fun x => (fst x, f (snd x))) l)
  = map (fun x => (fst x, f (snd x))) (insert_by_key e l).
Proof.
  induction l as [|y r IH]; [reflexivity|].
  cbn [map insert_by_key fst]. destruct (_ || _); cbn [map]; [rewrite IH|]; reflexivity.
Qed.

Lemma sort_by_key_map {A B : Type} (f : A -> B) (l : list (list Z * A)) :
  sort_by_key (map (fun x => (fst x, f (snd x))) l)
  = map (fun x => (fst x, f (snd x))) (sort_by_key l).
Proof.
  unfold sort_by_key.
  change (@nil (list Z * B)) with (map (fun x : list Z * A => (fst x, f (snd x))) []).
  generalize (@nil (list Z * A)) as sorted.
  induction l as [|e r IH]; intros sorted; [reflexivity|].
  cbn [map fold_left]. rewrite insert_by_key_map. apply IH.
Qed.

Lemma insert_by_key_Forall {A : Type} (P : list Z * A -> Prop) (e : list Z * A)
    (l : list (list Z * A)) :
  P e -> Forall P l -> Forall P (insert_by_key e l).
Proof.
  intros He Hl. induction Hl as [|y r Hy Hr IH]; cbn [insert_by_key].
  - constructor; [exact He|constructor].
  - destruct (_ || _); repeat constructor; auto.
Qed.

Lemma sort_by_key_Forall {A : Type} (P : list Z * A -> Prop) (l : list (list Z * A)) :
  Forall P l -> Forall P (sort_by_key l).
Proof.
  unfold sort_by_key. assert (Hnil : Forall P []) by constructor.
  revert Hnil. generalize (@nil (list Z * A)) as sorted.
  induction l as [|e r IH]; intros sorted Hs Hl; [exact Hs|].
  apply Forall_cons in Hl as [He Hr]. cbn [fold_left].
  apply IH; [apply insert_by_key_Forall; assumption|exact Hr].
Qed.

Section Members.
Variable wv : JsonValue -> @state Sink -> @state Sink.
Variable text : Z -> JsonValue -> list Z.

Local Abbreviation writes v :=
  (forall s : state,
     taken (wv v s) = taken s ++ text (current_indent_ s) v
     /\ current_indent_ (wv v s) = current_indent_ s).

Lemma appends_array_loop (arr : list JsonValue) :
  Forall (fun v => writes v) arr ->
  forall s : state,
    taken (write_array_loop Pretty wv arr false s)
    = taken s
      ++ flat_map (fun y => [44] ++ newline_text Pretty
                            ++ indent_text Pretty (current_indent_ s)
                            ++ text (current_indent_ s) y) arr
    /\ current_indent_ (write_array_loop Pretty wv arr false s) = current_indent_ s.
Proof.
  intros Hall. induction Hall as [|v r Hv Hr IH]; intros s.
  - cbn. rewrite app_nil_r. auto.
  - cbn [write_array_loop flat_map].
    destruct (appends_put_char 44 s) as [H1 I1].
    destruct (appends_newline (put_char 44 s)) as [H2 I2].
    destruct (appends_indent (write_newline Pretty (put_char 44 s))) as [H3 I3].
    destruct (Hv (write_indent Pretty (write_newline Pretty (put_char 44 s)))) as [H4 I4].
    destruct (IH (wv v (write_indent Pretty (write_newline Pretty (put_char 44 s)))))
      as [H5 I5].
    rewrite H5, ?I5, H4, ?I4, H3, ?I3, H2, ?I2, H1, ?I1, <- !app_assoc. auto.
Qed.

Lemma appends_array (arr : list JsonValue) :
  Forall (fun v => writes v) arr ->
  forall s : state,
    taken (write_array Pretty opts wv arr s)
    = taken s
      ++ match arr with
         | [] => bytes_of_string "[]"
         | _ :: _ =>
             [91] ++ newline_text Pretty
             ++ rendered_members Pretty
                  (current_indent_ s + indent_step Pretty opts)
                  (map (text (current_indent_ s + indent_step Pretty opts)) arr)
             ++ newline_text Pretty ++ indent_text Pretty (current_indent_ s) ++ [93]
         end
    /\ current_indent_ (write_array Pretty opts wv arr s) = current_indent_ s.
Proof.
  intros Hall s. destruct Hall as [|v r Hv Hr]; [apply appends_put|].
  cbn [write_array write_array_loop map rendered_members].
  set (s1 := put_char 91 s).
  set (s2 := if Pretty then add_indent (SerializeOptions.indent opts) s1 else s1).
  assert (Hs2 : taken s2 = taken s ++ [91]
                /\ current_indent_ s2 = current_indent_ s + indent_step Pretty opts).
  { unfold s2, s1, indent_step. destruct Pretty; cbn [add_indent out_ current_indent_ put_char].
    - split; [apply contents_char|reflexivity].
    - split; [apply contents_char|lia]. }
  destruct Hs2 as [H2 I2]. clearbody s2.
  destruct (appends_newline s2) as [H3 I3].
  destruct (appends_indent (write_newline Pretty s2)) as [H4 I4].
  destruct (Hv (write_indent Pretty (write_newline Pretty s2))) as [H5 I5].
  destruct (appends_array_loop r Hr (wv v (write_indent Pretty (write_newline Pretty s2))))
    as [H6 I6].
  set (s6 := write_array_loop Pretty wv r false
               (wv v (write_indent Pretty (write_newline Pretty s2)))) in *.
  set (s7 := if Pretty then add_indent (- SerializeOptions.indent opts) s6 else s6).
  assert (Hs7 : taken s7 = taken s6 /\ current_indent_ s7 = current_indent_ s).
  { unfold s7. rewrite <- (Z.add_simpl_r (current_indent_ s) (indent_step Pretty opts)),
      <- I2, <- I3, <- I4, <- I5, <- I6.
    unfold indent_step. destruct Pretty; cbn [add_indent out_ current_indent_];
      split; try reflexivity; lia. }
  destruct Hs7 as [H7 I7]. clearbody s7.
  destruct (appends_newline s7) as [H8 I8].
  destruct (appends_indent (write_newline Pretty s7)) as [H9 I9].
  destruct (appends_put_char 93 (write_indent Pretty (write_newline Pretty s7)))
    as [H10 I10].
  rewrite H10, ?I10, H9, ?I9, H8, ?I8, H7, ?I7, H6, ?I6, H5, ?I5, H4, ?I4, H3, ?I3,
    H2, ?I2.
  rewrite <- !app_assoc, flat_map_over_map. auto.
Qed.

Lemma appends_entry (e : list Z * JsonValue) :
  writes (snd e) ->
  forall s : state,
    taken (write_entry Pretty EnsureAscii (fst e) (wv (snd e)) s)
    = taken s ++ indent_text Pretty (current_indent_ s)
      ++ rendered_entry Pretty EnsureAscii (fst e) (text (current_indent_ s) (snd e))
    /\ current_indent_ (write_entry Pretty EnsureAscii (fst e) (wv (snd e)) s)
       = current_indent_ s.
Proof.
  intros He s. unfold write_entry, rendered_entry.
  destruct (appends_indent s) as [H1 I1].
  destruct (appends_string (fst e) (write_indent Pretty s)) as [H2 I2].
  destruct (appends_put_char 58 (write_string EnsureAscii (fst e) (write_indent Pretty s)))
    as [H3 I3].
  set (s3 := put_char 58 (write_string EnsureAscii (fst e) (write_indent Pretty s))) in *.
  set (s4 := if Pretty then put_char 32 s3 else s3).
  assert (Hs4 : taken s4 = taken s3 ++ (if Pretty then [32] else [])
                /\ current_indent_ s4 = current_indent_ s3).
  { unfold s4. destruct Pretty; [apply appends_put_char|rewrite app_nil_r; auto]. }
  destruct Hs4 as [H4 I4]. clearbody s4.
  destruct (He s4) as [H5 I5].
  rewrite H5, ?I5, H4, ?I4, H3, ?I3, H2, ?I2, H1, ?I1, <- !app_assoc. auto.
Qed.

Lemma appends_entries (l : Entries) :
  Forall (fun e => writes (snd e)) l ->
  forall s : state,
    taken (write_entries Pretty EnsureAscii
             (map (fun e => (fst e, wv (snd e))) l) false s)
    = taken s
      ++ flat_map (fun e => [44] ++ newline_text Pretty
                            ++ indent_text Pretty (current_indent_ s)
                            ++ rendered_entry Pretty EnsureAscii (fst e)
                                 (text (current_indent_ s) (snd e))) l
    /\ current_indent_ (write_entries Pretty EnsureAscii
                          (map (fun e => (fst e, wv (snd e))) l) false s)
       = current_indent_ s.
Proof.
  intros Hall. induction Hall as [|e r He Hr IH]; intros s.
  - cbn. rewrite app_nil_r. auto.
  - cbn [map write_entries flat_map].
    destruct (appends_put_char 44 s) as [H1 I1].
    destruct (appends_newline (put_char 44 s)) as [H2 I2].
    destruct (appends_entry e He (write_newline Pretty (put_char 44 s))) as [H3 I3].
    destruct (IH (write_entry Pretty EnsureAscii (fst e) (wv (snd e))
                    (write_newline Pretty (put_char 44 s)))) as [H4 I4].
    rewrite H4, ?I4, H3, ?I3, H2, ?I2, H1, ?I1, <- !app_assoc. auto.
Qed.

Lemma appends_entries_first (l : Entries) :
  Forall (fun e => writes (snd e)) l ->
  forall s : state,
    taken (write_entries Pretty EnsureAscii
             (map (fun e => (fst e, wv (snd e))) l) true s)
    = taken s
      ++ rendered_members Pretty (current_indent_ s)
           (map (fun e => rendered_entry Pretty EnsureAscii (fst e)
                            (text (current_indent_ s) (snd e))) l)
    /\ current_indent_ (write_entries Pretty EnsureAscii
                          (map (fun e => (fst e, wv (snd e))) l) true s)
       = current_indent_ s.
Proof.
  intros Hall s. destruct Hall as [|e r He Hr].
  - cbn. rewrite app_nil_r. auto.
  - cbn [map write_entries rendered_members].
    destruct (appends_entry e He s) as [H1 I1].
    destruct (appends_entries r Hr (write_entry Pretty EnsureAscii (fst e) (wv (snd e)) s))
      as [H2 I2].
    rewrite H2, ?I2, H1, ?I1, <- !app_assoc. rewrite flat_map_over_map. auto.
Qed.

Lemma appends_object (obj : Entries) :
  Forall (fun e => writes (snd e)) obj ->
  forall s : state,
    taken (write_object Pretty EnsureAscii opts wv obj s)
    = taken s
      ++ match obj with
         | [] => bytes_of_string "{}"
         | _ :: _ =>
             let cur := current_indent_ s + indent_step Pretty opts in
             let es := map (fun e => (fst e, text cur (snd e))) obj in
             let es := if SerializeOptions.sort_keys opts
                       then sort_by_key es else es in
             [123] ++ newline_text Pretty
             ++ rendered_members Pretty cur
                  (map (fun e => rendered_entry Pretty EnsureAscii (fst e) (snd e)) es)
             ++ newline_text Pretty ++ indent_text Pretty (current_indent_ s) ++ [125]
         end
    /\ current_indent_ (write_object Pretty EnsureAscii opts wv obj s) = current_indent_ s.
Proof.
  intros Hall s. destruct obj as [|e0 r0]; [apply appends_put|].
  unfold write_object. cbv beta iota zeta. set (obj := e0 :: r0) in *.
  set (s1 := put_char 123 s).
  set (s2 := if Pretty then add_indent (SerializeOptions.indent opts) s1 else s1).
  assert (Hs2 : taken s2 = taken s ++ [123]
                /\ current_indent_ s2 = current_indent_ s + indent_step Pretty opts).
  { unfold s2, s1, indent_step. destruct Pretty; cbn [add_indent out_ current_indent_ put_char].
    - split; [apply contents_char|reflexivity].
    - split; [apply contents_char|lia]. }
  destruct Hs2 as [H2 I2]. clearbody s2.
  destruct (appends_newline s2) as [H3 I3].
  set (s3 := write_newline Pretty s2) in *.
  set (l := if SerializeOptions.sort_keys opts then sort_by_key obj else obj).
  assert (Hl : Forall (fun e => writes (snd e)) l).
  { unfold l. destruct (SerializeOptions.sort_keys opts);
      [apply sort_by_key_Forall|]; exact Hall. }
  set (s4 := if SerializeOptions.sort_keys opts
             then write_entries Pretty EnsureAscii
                    (sort_by_key (map (fun e => (fst e, wv (snd e))) obj)) true s3
             else write_entries Pretty EnsureAscii
                    (map (fun e => (fst e, wv (snd e))) obj) true s3).
  assert (Hs4 : s4 = write_entries Pretty EnsureAscii
                       (map (fun e => (fst e, wv (snd e))) l) true s3).
  { unfold s4, l. destruct (SerializeOptions.sort_keys opts); [|reflexivity].
    rewrite (sort_by_key_map wv). reflexivity. }
  destruct (appends_entries_first l Hl s3) as [H4 I4]. rewrite <- Hs4 in H4, I4.
  clearbody s4.
  set (s5 := if Pretty then add_indent (- SerializeOptions.indent opts) s4 else s4).
  assert (Hs5 : taken s5 = taken s4 /\ current_indent_ s5 = current_indent_ s).
  { unfold s5. rewrite <- (Z.add_simpl_r (current_indent_ s) (indent_step Pretty opts)),
      <- I2, <- I3, <- I4.
    unfold indent_step. destruct Pretty; cbn [add_indent out_ current_indent_];
      split; try reflexivity; lia. }
  destruct Hs5 as [H5 I5]. clearbody s5.
  destruct (appends_newline s5) as [H6 I6].
  destruct (appends_indent (write_newline Pretty s5)) as [H7 I7].
  destruct (appends_put_char 125 (write_indent Pretty (write_newline Pretty s5)))
    as [H8 I8].
  rewrite H8, ?I8, H7, ?I7, H6, ?I6, H5, ?I5, H4, ?I4, H3, ?I3, H2, ?I2.
  split; [|reflexivity].
  rewrite <- !app_assoc. do 3 f_equal. f_equal.
  unfold l. destruct (SerializeOptions.sort_keys opts).
  - rewrite (sort_by_key_map (text (current_indent_ s + indent_step Pretty opts))).
    rewrite map_map. reflexivity.
  - rewrite map_map. reflexivity.
Qed.

End Members.

Lemma appends_value (v : JsonValue) :
  forall s : state,
    taken (write_value Pretty EnsureAscii opts v s)
    = taken s ++ render Pretty EnsureAscii opts (current_indent_ s) v
    /\ current_indent_ (write_value Pretty EnsureAscii opts v s) = current_indent_ s.
Proof.
  induction v as [ | b | i | u | d | str | arr IH | es IH ]
    using JsonValue_induction; intros s; cbn [write_value render].
  - apply appends_put.
  - destruct b; apply appends_put.
  - apply appends_integer.
  - apply appends_put.
  - apply appends_float.
  - apply appends_string.
  - apply (appends_array _ (render Pretty EnsureAscii opts)), IH.
  - apply (appends_object _ (render Pretty EnsureAscii opts)), IH.
Qed.

Lemma serialize_core_render (v : JsonValue) (out : Sink) :
  contents (SerializerCore.serialize Pretty EnsureAscii opts v out)
  = contents out ++ render Pretty EnsureAscii opts 0 v.
Proof. unfold SerializerCore.serialize. apply appends_value. Qed.

End Rendering.

(** Every sink receives the same text. *)
Lemma serialize_impl_rendered `{Charconv} {Sink : Type} `{Output Sink}
    (contents : Sink -> list Z) (opts : SerializeOptions.t) (v : JsonValue)
    (out : Sink) :
  (forall c o, contents (write_char c o) = contents o ++ [c]) ->
  (forall s o, contents (write_bytes s o) = contents o ++ s) ->
  contents (SerializerImpl_serialize opts v out) = contents out ++ rendered opts v.
Proof.
  intros Hc Hb. unfold SerializerImpl_serialize, rendered.
  destruct (0 <=? SerializeOptions.indent opts), (SerializeOptions.ensure_ascii opts);
    apply serialize_core_render; assumption.
Qed.

Lemma serialize_rendered `{Charconv} (opts : SerializeOptions.t) (v : JsonValue) :
  serialize v opts = rendered opts v.
Proof.
  unfold serialize, Serializer_serialize.
  rewrite (serialize_impl_rendered StringOutput.result);
    [reflexivity|apply result_write_c|apply result_write].
Qed.

(** ** The stream sink *)

Lemma finish_eq (o : StreamOutput.t) :
  StreamOutput.finish o = StreamOutput.os_ o ++ StreamOutput.buf_ o.
Proof.
  unfold StreamOutput.finish, StreamOutput.flush.
  destruct o as [r [|c b]]; cbn; [rewrite app_nil_r|]; reflexivity.
Qed.

Lemma finish_flush (o : StreamOutput.t) :
  StreamOutput.finish (StreamOutput.flush o) = StreamOutput.finish o.
Proof.
  rewrite !finish_eq. destruct o as [r [|c b]]; cbn; [|rewrite app_nil_r]; reflexivity.
Qed.

Lemma finish_write (s : list Z) (o : StreamOutput.t) :
  StreamOutput.finish (StreamOutput.write s o) = StreamOutput.finish o ++ s.
Proof.
  unfold StreamOutput.write.
  destruct (_ <=? _)%nat.
  - rewrite !finish_eq. cbn. apply app_assoc.
  - unfold StreamOutput.write_slow. rewrite <- (finish_flush o).
    destruct (_ <=? _)%nat; rewrite !finish_eq; cbn.
    + destruct o as [r [|c b]]; cbn; rewrite ?app_nil_r; reflexivity.
    + destruct o as [r [|c b]]; cbn; rewrite ?app_nil_r; reflexivity.
Qed.

Lemma finish_write_c (c : Z) (o : StreamOutput.t) :
  StreamOutput.finish (StreamOutput.write_c c o) = StreamOutput.finish o ++ [c].
Proof.
  unfold StreamOutput.write_c.
  destruct (_ <=? _)%nat.
  - rewrite <- (finish_flush o), !finish_eq. cbn. apply app_assoc.
  - rewrite !finish_eq. cbn. apply app_assoc.
Qed.

(** X5: serializing to a stream appends to the stream exactly the bytes
    that serializing to a string returns, for every value and every
    option record; the two sinks differ only in how they buffer. *)
Theorem stream_and_string_serialization_agree `{Charconv} (os : list Z)
    (v : JsonValue) (opts : SerializeOptions.t) :
  serialize_to_stream os v opts = os ++ serialize v opts
  /\ stream_insert os v = os ++ serialize v SerializeOptions.default.
Proof.
  unfold serialize_to_stream, stream_insert. rewrite !serialize_rendered.
  rewrite !(serialize_impl_rendered StreamOutput.finish)
    by (apply finish_write_c || apply finish_write).
  split; reflexivity.
Qed.

(* ===================================================================== *)
(** * The incremental writer                                              *)
(* ===================================================================== *)

Ltac norm_app :=
  repeat first [rewrite <- app_assoc | rewrite app_nil_r | progress cbn [app]].

Section WriterFacts.
Context `{Charconv}.
Local Abbreviation nesting := depth.
Import JsonWriter.

(** ** Decimal texts *)

Lemma length_digits_n (n : nat) (v : Z) : length (digits_n n v) = n.
Proof.
  revert v. induction n as [|n IH]; intros v; [reflexivity|].
  cbn [digits_n]. rewrite length_app, IH. cbn. lia.
Qed.

Lemma to_string_loop_digits (k : nat) :
  forall (n : Z) (fuel : nat),
    (k <= fuel)%nat -> 0 <= n -> 10 ^ Z.of_nat k <= 10 * n < 10 * 10 ^ Z.of_nat k ->
    to_string_loop fuel n = digits_n k n.
Proof.
  induction k as [|k IH]; intros n fuel Hf Hn Hb.
  - cbn in Hb. lia.
  - destruct fuel as [|fuel]; [lia|]. cbn [to_string_loop digits_n].
    rewrite Nat2Z.inj_succ, Z.pow_succ_r in Hb by lia.
    destruct (Z.ltb_spec n 10) as [Hlt|Hge].
    + assert (k = 0)%nat as ->.
      { destruct k; [reflexivity|]. rewrite Nat2Z.inj_succ, Z.pow_succ_r in Hb by lia.
        assert (0 < 10 ^ Z.of_nat k) by (apply Z.pow_pos_nonneg; lia). lia. }
      cbn [digits_n app]. rewrite Z.mod_small by lia. reflexivity.
    + rewrite (IH (n / 10) fuel); [reflexivity|lia| |].
      * apply Z.div_pos; lia.
      * assert (0 < 10 ^ Z.of_nat k) by (apply Z.pow_pos_nonneg; lia).
        destruct k as [|k].
        { cbn in Hb. lia. }
        rewrite Nat2Z.inj_succ, Z.pow_succ_r in * by lia.
        Z.div_mod_to_equations. lia.
Qed.

Lemma std_to_string_digits (n : Z) :
  0 <= n <= UINT64_MAX -> std_to_string n = write_u64 n.
Proof.
  intros Hn. destruct (Z.eq_dec n 0) as [->|Hnz]; [reflexivity|].
  rewrite write_u64_digits by lia.
  destruct (count_digits_spec n ltac:(lia)) as [Hc Hb].
  unfold std_to_string. apply to_string_loop_digits; [lia|lia|].
  rewrite Z2Nat.id by lia.
  assert (E : 10 ^ count_digits n = 10 * 10 ^ (count_digits n - 1)).
  { rewrite <- Z.pow_succ_r by lia. f_equal. lia. }
  lia.
Qed.

Lemma write_u64_length (n : Z) :
  0 <= n <= UINT64_MAX -> (length (write_u64 n) <= 20)%nat.
Proof.
  intros Hn. destruct (Z.eq_dec n 0) as [->|Hnz]; [cbn; lia|].
  rewrite write_u64_digits by lia. rewrite length_digits_n.
  destruct (count_digits_spec n ltac:(lia)) as [Hc _]. lia.
Qed.

Lemma to_chars_unsigned (u : Z) :
  is_uint64 u -> to_chars_integer 21 u = Some (write_u64 u).
Proof.
  intros Hu. unfold is_uint64 in Hu. unfold to_chars_integer.
  destruct (Z.ltb_spec u 0); [lia|].
  rewrite std_to_string_digits by lia.
  pose proof (write_u64_length u Hu).
  destruct (Nat.leb_spec (length (write_u64 u)) 21); [reflexivity|lia].
Qed.

Lemma to_chars_signed (i : Z) :
  is_int64 i -> to_chars_integer 21 i = Some (integer_text i).
Proof.
  intros Hi. unfold is_int64, INT64_MIN, INT64_MAX in Hi.
  unfold to_chars_integer, integer_text. destruct (Z.ltb_spec i 0) as [Hneg|Hpos].
  - assert (E : to_uint64 (to_uint64 (Z.lnot i) + 1) = - i).
    { unfold to_uint64, Z.lnot. rewrite (Z.mod_small (Z.pred (- i))) by lia.
      rewrite Z.mod_small by lia. lia. }
    rewrite E, std_to_string_digits by (unfold UINT64_MAX; lia).
    pose proof (write_u64_length (- i) ltac:(unfold UINT64_MAX; lia)).
    cbn [length app]. destruct (Nat.leb_spec (S (length (write_u64 (- i)))) 21);
      [reflexivity|lia].
  - unfold to_uint64. rewrite Z.mod_small by lia.
    rewrite std_to_string_digits by (unfold UINT64_MAX; lia).
    pose proof (write_u64_length i ltac:(unfold UINT64_MAX; lia)).
    destruct (Nat.leb_spec (length (write_u64 i)) 21); [reflexivity|lia].
Qed.

(** ** Strings *)

Lemma writer_escaped_loop (p : list Z) :
  forall (seg sb : list Z) (ind d : Z) (vw : bool) (st : list State),
    write_escaped_loop p seg (mk sb ind d vw st)
    = mk (sb ++ seg ++ escaped_bytes false (length p) p) ind d vw st.
Proof.
  induction p as [|c r IH]; intros seg sb ind d vw st.
  - cbn [write_escaped_loop length escaped_bytes]. rewrite app_nil_r.
    destruct seg; cbn; rewrite ?app_nil_r; reflexivity.
  - cbn [write_escaped_loop length escaped_bytes andb].
    assert (Hflush : forall text,
               write_raw text (if (0 <? length seg)%nat
                               then write_raw seg (mk sb ind d vw st)
                               else mk sb ind d vw st)
               = mk (sb ++ seg ++ text) ind d vw st).
    { intros text. destruct seg; cbn [length Nat.ltb Nat.leb]; unfold write_raw;
        cbn [sbuf_ indent_ depth_ value_written_ stack_];
        rewrite <- ?app_assoc; reflexivity. }
    unfold short_escape, kControlEscapes.
    destruct (Z.eqb_spec c 34) as [->|H34].
    { rewrite Hflush, IH. cbn. rewrite <- !app_assoc. reflexivity. }
    destruct (Z.eqb_spec c 92) as [->|H92].
    { rewrite Hflush, IH. cbn. rewrite <- !app_assoc. reflexivity. }
    destruct (Z.eqb_spec c 8) as [->|H8].
    { rewrite Hflush, IH. cbn. rewrite <- !app_assoc. reflexivity. }
    destruct (Z.eqb_spec c 12) as [->|H12].
    { rewrite Hflush, IH. cbn. rewrite <- !app_assoc. reflexivity. }
    destruct (Z.eqb_spec c 10) as [->|H10].
    { rewrite Hflush, IH. cbn. rewrite <- !app_assoc. reflexivity. }
    destruct (Z.eqb_spec c 13) as [->|H13].
    { rewrite Hflush, IH. cbn. rewrite <- !app_assoc. reflexivity. }
    destruct (Z.eqb_spec c 9) as [->|H9].
    { rewrite Hflush, IH. cbn. rewrite <- !app_assoc. reflexivity. }
    destruct (c <? 32).
    + rewrite Hflush, IH. rewrite <- !app_assoc. reflexivity.
    + rewrite IH. rewrite <- !app_assoc. reflexivity.
Qed.

Lemma writer_escaped_string (sv sb : list Z) (ind d : Z) (vw : bool)
    (st : list State) :
  write_escaped_string sv (mk sb ind d vw st)
  = mk (sb ++ rendered_string false sv) ind d vw st.
Proof.
  unfold write_escaped_string, rendered_string.
  unfold write_raw; cbn [sbuf_ indent_ depth_ value_written_ stack_].
  rewrite writer_escaped_loop. unfold write_raw; cbn [sbuf_ indent_ depth_ value_written_ stack_].
  rewrite <- !app_assoc. reflexivity.
Qed.

(** ** Line breaks *)

Lemma writer_spaces (fuel : nat) :
  forall (total : Z) (sb : list Z) (ind d : Z) (vw : bool) (st : list State),
    (Z.to_nat total <= fuel)%nat ->
    write_spaces fuel total (mk sb ind d vw st)
    = mk (sb ++ replicate (Z.to_nat total) 32) ind d vw st.
Proof.
  induction fuel as [|fuel IH]; intros total sb ind d vw st Hf.
  - replace (Z.to_nat total) with 0%nat by lia. cbn. rewrite app_nil_r. reflexivity.
  - cbn [write_spaces]. destruct (Z.ltb_spec 0 total) as [Hpos|Hneg].
    + set (chunk := if total <? 64 then total else 64).
      assert (Hc : 0 < chunk <= total) by (subst chunk; destruct (Z.ltb_spec total 64); lia).
      unfold write_raw; cbn [sbuf_ indent_ depth_ value_written_ stack_].
      rewrite IH by lia. rewrite <- app_assoc, <- replicate_add.
      replace (Z.to_nat chunk + Z.to_nat (total - chunk))%nat with (Z.to_nat total) by lia.
      reflexivity.
    + replace (Z.to_nat total) with 0%nat by lia. cbn. rewrite app_nil_r. reflexivity.
Qed.

Lemma writer_write_newline (sb : list Z) (ind d : Z) (vw : bool) (st : list State) :
  ind < 2 ^ 31 -> 0 <= d -> d * Z.max ind 1 < 2 ^ 31 ->
  write_newline (mk sb ind d vw st) = mk (sb ++ writer_newline ind d) ind d vw st.
Proof.
  intros Hi Hd Hb. unfold write_newline, writer_newline.
  unfold write_raw; cbn [sbuf_ indent_ depth_ value_written_ stack_].
  destruct (Z.ltb_spec ind 0) as [Hneg|Hpos]; [rewrite app_nil_r; reflexivity|].
  assert (Hprod : 0 <= d * ind < 2 ^ 31) by nia.
  unfold to_uint64. rewrite (Z.mod_small ind) by lia.
  rewrite (Z.mod_small (d * ind)) by lia.
  rewrite writer_spaces by lia. rewrite <- app_assoc. reflexivity.
Qed.


Local Abbreviation entered st :=
  (match st with ArrayStart :: b => ArrayValue :: b | _ => st end).
Local Abbreviation level ind d := (if 0 <=? ind then d * ind else 0).

Lemma writer_newline_split (ind d : Z) :
  writer_newline ind d
  = newline_text (0 <=? ind) ++ indent_text (0 <=? ind) (level ind d).
Proof.
  unfold writer_newline, newline_text, indent_text.
  destruct (Z.leb_spec 0 ind), (Z.ltb_spec ind 0); try lia; reflexivity.
Qed.

Lemma writer_pre_value (sb : list Z) (ind d : Z) (vw : bool) (st : list State) :
  ind < 2 ^ 31 -> 0 <= d -> d * Z.max ind 1 < 2 ^ 31 ->
  pre_value (mk sb ind d vw st)
  = mk (sb ++ writer_prefix ind d st) ind d vw (entered st).
Proof.
  intros Hi Hd Hb. unfold pre_value, writer_prefix. cbn [stack_].
  destruct st as [|[] b]; rewrite ?app_nil_r; try reflexivity.
  - rewrite writer_write_newline by assumption. reflexivity.
  - unfold write_raw. cbn [sbuf_ indent_ depth_ value_written_ stack_].
    rewrite writer_write_newline by assumption. rewrite <- app_assoc. reflexivity.
Qed.

Lemma writer_post_value (sb : list Z) (ind d : Z) (vw : bool) (st : list State) :
  post_value (mk sb ind d vw st) = mk sb ind d true (after_value st).
Proof. destruct st as [|[] b]; reflexivity. Qed.

Lemma after_entered (st : list State) : after_value (entered st) = after_value st.
Proof. destruct st as [|[] b]; reflexivity. Qed.

Lemma writer_value_step (op : t -> t) (text : list Z) (sb : list Z) (ind d : Z)
    (vw : bool) (st : list State) :
  (forall sb' st', op (mk sb' ind d vw st') = mk (sb' ++ text) ind d vw st') ->
  ind < 2 ^ 31 -> 0 <= d -> d * Z.max ind 1 < 2 ^ 31 ->
  post_value (op (pre_value (mk sb ind d vw st)))
  = mk (sb ++ writer_prefix ind d st ++ text) ind d true (after_value st).
Proof.
  intros Hop Hi Hd Hb. rewrite writer_pre_value, Hop, writer_post_value by assumption.
  rewrite after_entered, <- app_assoc. reflexivity.
Qed.

Lemma write_raw_mk (text sb : list Z) (ind d : Z) (vw : bool) (st : list State) :
  write_raw text (mk sb ind d vw st) = mk (sb ++ text) ind d vw st.
Proof. reflexivity. Qed.

Lemma writer_key (k sb : list Z) (ind d : Z) (vw : bool) (b : list State)
    (first : bool) :
  ind < 2 ^ 31 -> 0 <= d -> d * Z.max ind 1 < 2 ^ 31 ->
  key k (mk sb ind d vw ((if first then ObjectStart else ObjectValue) :: b))
  = Returns (mk (sb ++ (if first then [] else [44]) ++ writer_newline ind d
                    ++ rendered_entry (0 <=? ind) false k [])
                ind d vw (ObjectKey :: b)).
Proof.
  intros Hi Hd Hb. unfold key, rendered_entry.
  destruct first; cbn [stack_]; rewrite ?write_raw_mk;
    rewrite writer_write_newline, writer_escaped_string, write_raw_mk by assumption;
    cbn [indent_]; destruct (0 <=? ind); rewrite ?write_raw_mk; unfold set_stack;
    cbn [sbuf_ indent_ depth_ value_written_ stack_];
    rewrite ?app_nil_r, <- ?app_assoc; reflexivity.
Qed.

(** What [emit] does for a value, from a state that expects one. *)
Local Abbreviation emits v :=
  (forall (sb : list Z) (ind d : Z) (vw : bool) (st : list State),
     expects_value st -> ind < 2 ^ 31 -> 0 <= d ->
     (d + Z.of_nat (nesting v)) * Z.max ind 1 < 2 ^ 31 ->
     emit v (mk sb ind d vw st)
     = Returns (mk (sb ++ writer_prefix ind d st
                       ++ render (0 <=? ind) false (indent_only ind) (level ind d) v)
                   ind d true (after_value st))).

Lemma emit_elements (arr : list JsonValue) :
  Forall (fun x => emits x) arr ->
  forall (sb : list Z) (ind d : Z) (vw : bool) (b : list State),
    ind < 2 ^ 31 -> 0 <= d ->
    Forall (fun x => (d + Z.of_nat (nesting x)) * Z.max ind 1 < 2 ^ 31) arr ->
    exists vw',
      fold_left (fun m x => then_outcome m (emit x)) arr
                (Returns (mk sb ind d vw (ArrayValue :: b)))
      = Returns (mk (sb ++ flat_map
                             (fun x => [44] ++ newline_text (0 <=? ind)
                                       ++ indent_text (0 <=? ind) (level ind d)
                                       ++ render (0 <=? ind) false (indent_only ind)
                                            (level ind d) x) arr)
                    ind d vw' (ArrayValue :: b)).
Proof.
  intros Hall. induction Hall as [|x r Hx Hr IH]; intros sb ind d vw b Hi Hd Hdep.
  - exists vw. cbn. rewrite app_nil_r. reflexivity.
  - apply Forall_cons in Hdep as [Hdx Hdr].
    cbn [fold_left then_outcome flat_map].
    rewrite (Hx sb ind d vw (ArrayValue :: b) I Hi Hd Hdx).
    cbn [after_value writer_prefix].
    destruct (IH (sb ++ ([44] ++ writer_newline ind d)
                     ++ render (0 <=? ind) false (indent_only ind) (level ind d) x)
                 ind d true b Hi Hd Hdr) as [vw' E].
    exists vw'. rewrite E. rewrite writer_newline_split. norm_app. reflexivity.
Qed.

Lemma emit_entries (l : Entries) :
  Forall (fun e => emits (snd e)) l ->
  forall (sb : list Z) (ind d : Z) (vw : bool) (b : list State),
    ind < 2 ^ 31 -> 0 <= d -> d * Z.max ind 1 < 2 ^ 31 ->
    Forall (fun e => (d + Z.of_nat (nesting (snd e))) * Z.max ind 1 < 2 ^ 31) l ->
    exists vw',
      fold_left (fun m e => then_outcome (then_outcome m (key (fst e)))
                                         (emit (snd e)))
                l (Returns (mk sb ind d vw (ObjectValue :: b)))
      = Returns (mk (sb ++ flat_map
                             (fun e => [44] ++ newline_text (0 <=? ind)
                                       ++ indent_text (0 <=? ind) (level ind d)
                                       ++ rendered_entry (0 <=? ind) false (fst e)
                                            (render (0 <=? ind) false (indent_only ind)
                                               (level ind d) (snd e))) l)
                    ind d vw' (ObjectValue :: b)).
Proof.
  intros Hall. induction Hall as [|e r He Hr IH]; intros sb ind d vw b Hi Hd Hb Hdep.
  - exists vw. cbn. rewrite app_nil_r. reflexivity.
  - apply Forall_cons in Hdep as [Hdx Hdr].
    cbn [fold_left then_outcome flat_map].
    rewrite (writer_key (fst e) sb ind d vw b false) by assumption.
    cbn [then_outcome].
    rewrite (He _ ind d vw (ObjectKey :: b) I Hi Hd Hdx).
    cbn [after_value writer_prefix app].
    match goal with
    | |- context [Returns (mk ?sbx ind d true (ObjectValue :: b))] =>
        destruct (IH sbx ind d true b Hi Hd Hb Hdr) as [vw' E]
    end.
    exists vw'. rewrite E. unfold rendered_entry.
    rewrite writer_newline_split. norm_app. reflexivity.
Qed.

Lemma depth_entry (entries : Entries) :
  Forall (fun e => (nesting (snd e)
                    <= fold_right (fun e acc => Nat.max (nesting (snd e)) acc) 0 entries)%nat)
         entries.
Proof.
  induction entries as [|x r IH]; constructor; cbn [fold_right]; [lia|].
  eapply Forall_impl; [exact IH|]. cbv beta. intros; lia.
Qed.

Lemma integers_only_members (arr : list JsonValue) :
  integers_only (JArray arr) -> Forall integers_only arr.
Proof.
  cbn [integers_only]. induction arr as [|x r IH]; cbn [fold_right]; [constructor|].
  intros [Hx Hr]. constructor; auto.
Qed.

Lemma integers_only_entries (entries : Entries) :
  integers_only (JObject entries) -> Forall (fun e => integers_only (snd e)) entries.
Proof.
  cbn [integers_only]. induction entries as [|x r IH]; cbn [fold_right]; [constructor|].
  intros [Hx Hr]. constructor; auto.
Qed.

Lemma level_step (ind d : Z) :
  level ind d + indent_step (0 <=? ind) (indent_only ind) = level ind (d + 1).
Proof.
  unfold indent_step, indent_only. cbn [SerializeOptions.indent].
  destruct (0 <=? ind); lia.
Qed.

Lemma emit_renders (v : JsonValue) : integers_only v -> emits v.
Proof.
  induction v as [ | bb | i | u | dd | str | arr IH | es IH ]
    using JsonValue_induction; intros Hok sb ind d vw st Hst Hi Hd Hb;
    cbn [emit render]; cbn [nesting] in Hb.
  - f_equal. apply (writer_value_step (write_raw _)); try lia; try reflexivity.
  - f_equal. unfold bool_value.
    destruct bb; apply (writer_value_step (write_raw _)); try lia; reflexivity.
  - f_equal. unfold int_value. cbn [integers_only] in Hok.
    rewrite (to_chars_signed i Hok).
    apply (writer_value_step (write_raw _)); try lia; try reflexivity.
  - f_equal. unfold uint_value. cbn [integers_only] in Hok.
    rewrite (to_chars_unsigned u Hok).
    apply (writer_value_step (write_raw _)); try lia; try reflexivity.
  - destruct Hok.
  - f_equal. apply (writer_value_step (write_escaped_string str)); try lia.
    intros sb' st'. apply writer_escaped_string.
  - (* arrays *)
    apply integers_only_members in Hok.
    assert (Hall : Forall (fun x => emits x) arr).
    { rewrite Forall_forall in IH, Hok. apply Forall_forall. intros x Hx.
      apply IH; [exact Hx|apply Hok, Hx]. }
    assert (Hdeps : Forall (fun x => (d + 1 + Z.of_nat (nesting x)) * Z.max ind 1 < 2 ^ 31) arr).
    { pose proof (depth_member arr) as Hm. rewrite Forall_forall in Hm.
      apply Forall_forall. intros x Hx. specialize (Hm x Hx).
      eapply Z.le_lt_trans; [apply Z.mul_le_mono_nonneg_r; [lia|]|exact Hb]. lia. }
    assert (Hd1 : (d + 1) * Z.max ind 1 < 2 ^ 31).
    { eapply Z.le_lt_trans; [apply Z.mul_le_mono_nonneg_r; [lia|]|exact Hb]. lia. }
    assert (Hd0 : d * Z.max ind 1 < 2 ^ 31).
    { eapply Z.le_lt_trans; [apply Z.mul_le_mono_nonneg_r; [lia|]|exact Hb]. lia. }
    assert (Hdlt : d + 1 < 2 ^ 31).
    { eapply Z.le_lt_trans; [|exact Hd1]. nia. }
    unfold begin_array. rewrite writer_pre_value by (assumption || lia).
    unfold write_raw, set_stack, set_depth.
    cbn [sbuf_ indent_ depth_ value_written_ stack_].
    unfold to_uint64 at 1. rewrite (Z.mod_small (d + 1)) by lia.
    destruct arr as [|x r].
    + cbn [fold_left then_outcome]. unfold end_array. cbn [stack_].
      unfold set_stack, set_depth, write_raw.
      cbn [sbuf_ indent_ depth_ value_written_ stack_].
      rewrite writer_post_value, after_entered.
      unfold to_uint64. rewrite Z.mod_small by lia.
      replace (d + 1 - 1) with d by lia. norm_app. reflexivity.
    + apply Forall_cons in Hall as [Hx Hr]. apply Forall_cons in Hdeps as [Hdx Hdr].
      cbn [fold_left then_outcome].
      rewrite (Hx _ ind (d + 1) vw (ArrayStart :: entered st) I Hi ltac:(lia) Hdx).
      cbn [after_value writer_prefix].
      match goal with
      | |- context [Returns (mk ?sbx ind (d + 1) true (ArrayValue :: ?b))] =>
          destruct (emit_elements r Hr sbx ind (d + 1) true b Hi ltac:(lia) Hdr)
            as [vw' E]
      end.
      rewrite E. cbn [then_outcome]. unfold end_array. cbn [stack_].
      unfold set_stack, set_depth. cbn [sbuf_ indent_ depth_ value_written_ stack_].
      unfold to_uint64. rewrite Z.mod_small by lia.
      replace (d + 1 - 1) with d by lia.
      rewrite writer_write_newline by (assumption || lia).
      unfold write_raw. cbn [sbuf_ indent_ depth_ value_written_ stack_].
      rewrite writer_post_value, after_entered. f_equal. f_equal.
      cbn [map rendered_members]. rewrite flat_map_over_map.
      rewrite !writer_newline_split, level_step. norm_app. reflexivity.
  - (* objects *)
    apply integers_only_entries in Hok.
    assert (Hall : Forall (fun e => emits (snd e)) es).
    { rewrite Forall_forall in IH, Hok. apply Forall_forall. intros x Hx.
      apply IH; [exact Hx|apply Hok, Hx]. }
    assert (Hdeps : Forall (fun e => (d + 1 + Z.of_nat (nesting (snd e))) * Z.max ind 1
                                     < 2 ^ 31) es).
    { pose proof (depth_entry es) as Hm. rewrite Forall_forall in Hm.
      apply Forall_forall. intros x Hx. specialize (Hm x Hx).
      eapply Z.le_lt_trans; [apply Z.mul_le_mono_nonneg_r; [lia|]|exact Hb]. lia. }
    assert (Hd1 : (d + 1) * Z.max ind 1 < 2 ^ 31).
    { eapply Z.le_lt_trans; [apply Z.mul_le_mono_nonneg_r; [lia|]|exact Hb]. lia. }
    assert (Hd0 : d * Z.max ind 1 < 2 ^ 31).
    { eapply Z.le_lt_trans; [apply Z.mul_le_mono_nonneg_r; [lia|]|exact Hb]. lia. }
    assert (Hdlt : d + 1 < 2 ^ 31).
    { eapply Z.le_lt_trans; [|exact Hd1]. nia. }
    unfold begin_object. rewrite writer_pre_value by (assumption || lia).
    unfold write_raw, set_stack, set_depth.
    cbn [sbuf_ indent_ depth_ value_written_ stack_].
    unfold to_uint64 at 1. rewrite (Z.mod_small (d + 1)) by lia.
    destruct es as [|e r].
    + cbn [fold_left then_outcome]. unfold end_object. cbn [stack_].
      unfold set_stack, set_depth, write_raw.
      cbn [sbuf_ indent_ depth_ value_written_ stack_].
      rewrite writer_post_value, after_entered.
      unfold to_uint64. rewrite Z.mod_small by lia.
      replace (d + 1 - 1) with d by lia. norm_app. reflexivity.
    + apply Forall_cons in Hall as [Hx Hr]. apply Forall_cons in Hdeps as [Hdx Hdr].
      cbn [fold_left then_outcome].
      rewrite (writer_key (fst e) _ ind (d + 1) vw (entered st) true) by (assumption || lia).
      cbn [then_outcome].
      rewrite (Hx _ ind (d + 1) vw (ObjectKey :: entered st) I Hi ltac:(lia) Hdx).
      cbn [after_value writer_prefix app].
      match goal with
      | |- context [Returns (mk ?sbx ind (d + 1) true (ObjectValue :: ?b))] =>
          destruct (emit_entries r Hr sbx ind (d + 1) true b Hi ltac:(lia)
                      Hd1 Hdr) as [vw' E]
      end.
      rewrite E. cbn [then_outcome]. unfold end_object. cbn [stack_].
      unfold set_stack, set_depth. cbn [sbuf_ indent_ depth_ value_written_ stack_].
      unfold to_uint64. rewrite Z.mod_small by lia.
      replace (d + 1 - 1) with d by lia.
      rewrite writer_write_newline by (assumption || lia).
      unfold write_raw. cbn [sbuf_ indent_ depth_ value_written_ stack_].
      rewrite writer_post_value, after_entered. f_equal. f_equal.
      change (SerializeOptions.sort_keys (indent_only ind)) with false. cbv iota.
      cbn [map rendered_members fst snd]. rewrite ?map_map, ?flat_map_over_map.
      cbn [fst snd].
      unfold rendered_entry.
      rewrite !writer_newline_split, level_step. norm_app. reflexivity.
Qed.

End WriterFacts.

(** X6: driving a [JsonWriter] with the calls for a value writes the text
    that [serialize] returns for that value with the same indent, compact
    or pretty, and leaves the writer complete at depth 0.  The value
    holds no [Float] (the writer prints doubles with [std::to_chars],
    the serializer with [fast_dtoa]), its integers are in range and the
    deepest indentation fits an [int]. *)
Theorem writer_agrees_with_serializer `{Charconv} (v : JsonValue) (out : list Z)
    (indent : Z) :
  integers_only v -> indent < 2 ^ 31 ->
  Z.of_nat (depth v) * Z.max indent 1 < 2 ^ 31 ->
  emit v (JsonWriter.make out indent)
  = Returns (JsonWriter.mk (out ++ serialize v (indent_only indent)) indent 0 true [])
  /\ JsonWriter.is_complete
       (JsonWriter.mk (out ++ serialize v (indent_only indent)) indent 0 true []) = true.
Proof.
  intros Hok Hi Hb. split; [|reflexivity].
  unfold JsonWriter.make.
  rewrite (emit_renders v Hok out indent 0 false [] I Hi ltac:(lia) ltac:(lia)).
  rewrite serialize_rendered. unfold rendered, indent_only at 2.
  cbn [SerializeOptions.indent SerializeOptions.ensure_ascii writer_prefix after_value app].
  destruct (0 <=? indent); reflexivity.
Qed.

Lemma writer_agrees_with_serializer_witness :
  @emit no_charconv sample_value (JsonWriter.make [] 2)
  = Returns (JsonWriter.mk ([] ++ @serialize no_charconv sample_value (indent_only 2))
                           2 0 true [])
  /\ JsonWriter.is_complete
       (JsonWriter.mk ([] ++ @serialize no_charconv sample_value (indent_only 2))
                      2 0 true []) = true.
Proof.
  apply (@writer_agrees_with_serializer no_charconv sample_value [] 2).
  - cbn. unfold is_int64, is_uint64, INT64_MIN, INT64_MAX, UINT64_MAX. repeat split; lia.
  - lia.
  - vm_compute. reflexivity.
Defined.

(* ===================================================================== *)
(** * The parser at the edges of the input                                *)
(* ===================================================================== *)

Section InputEdges.
Context `{Charconv}.
Import Parser.

(** ** An integer token before anything that ends a number *)

Lemma parse_number_written_then (negative : bool) (N : Z) (p : Parser.t)
    (rest : list Z) :
  0 <= N <= UINT64_MAX ->
  ptr_ p = (if negative then [45] else []) ++ write_u64 N ++ rest ->
  ends_number rest ->
  parse_number p
  = number_result (ptr_ p) negative false false N N 0 0 false (with_ptr p rest).
Proof.
  intros HN Hptr Hend.
  destruct (write_u64_token N HN) as (d1 & ds & Etext & Hd1 & Hds & Hzero & Hval).
  rewrite Etext in Hptr. cbn [app] in Hptr.
  assert (Htail : match rest with [] => True | c :: _ => is_digit c = false end).
  { destruct rest; [exact I|apply Hend]. }
  destruct (integer_part_scan d1 ds rest Hd1 Hds Hzero Htail) as (_ & Hscan & _).
  cbv zeta in Hscan. rewrite Hval in Hscan.
  eapply parse_number_integer_run; try eassumption. apply Hscan. lia.
Qed.

Lemma parse_integer_then (i : Z) (p : Parser.t) (rest : list Z) :
  is_int64 i -> ptr_ p = integer_text i ++ rest -> ends_number rest ->
  parse_number p = Ok (JInteger i) (with_ptr p rest).
Proof.
  unfold is_int64, INT64_MIN, INT64_MAX, integer_text. intros Hi Hptr Hrest.
  destruct (Z.ltb_spec i 0) as [Hneg|Hpos].
  - assert (E : to_uint64 (to_uint64 (Z.lnot i) + 1) = - i).
    { unfold Z.lnot, to_uint64.
      rewrite (Z.mod_small (Z.pred (- i))) by lia.
      rewrite Z.mod_small by lia. lia. }
    rewrite E, <- app_assoc in Hptr.
    rewrite (parse_number_written_then true (- i) p rest)
      by (try assumption; unfold UINT64_MAX; lia).
    unfold number_result, ret. cbn [negb andb].
    change (to_uint64 (INT64_MAX + 1)) with (2 ^ 63).
    destruct (Z.leb_spec (- i) (2 ^ 63)); [|lia].
    rewrite to_int64_neg_magnitude by lia. f_equal. f_equal. lia.
  - assert (E : to_uint64 i = i) by (unfold to_uint64; rewrite Z.mod_small; lia).
    rewrite E in Hptr.
    rewrite (parse_number_written_then false i p rest)
      by (try assumption; unfold UINT64_MAX; lia).
    unfold number_result, ret. cbn [negb andb]. unfold INT64_MAX.
    destruct (Z.leb_spec i 9223372036854775807); [|lia].
    rewrite to_int64_small by (unfold INT64_MIN, INT64_MAX; lia). reflexivity.
Qed.

Lemma parse_uinteger_then (u : Z) (p : Parser.t) (rest : list Z) :
  is_uint64 u -> ptr_ p = write_u64 u ++ rest -> ends_number rest ->
  parse_number p = Ok (reparsed (JUInteger u)) (with_ptr p rest).
Proof.
  unfold is_uint64. intros Hu Hptr Hrest.
  rewrite (parse_number_written_then false u p rest) by assumption.
  unfold number_result, ret. cbn [negb andb reparsed].
  destruct (Z.leb_spec u INT64_MAX); [|reflexivity].
  rewrite to_int64_small by (unfold INT64_MIN, INT64_MAX in *; lia). reflexivity.
Qed.

(** The text of a safe value is read back before any rest that does not
    continue a number. *)
Lemma reads_text_then (v : JsonValue) :
  roundtrip_safe v ->
  forall (fuel : nat) (p : Parser.t) (rest : list Z),
    ptr_ p = compact_text v ++ rest -> ends_number rest ->
    (3 * length (ptr_ p) + 1 <= fuel)%nat ->
    (depth_ p + depth v <= max_depth_ p)%nat ->
    parse_value fuel p = Ok (reparsed v) (with_ptr p rest).
Proof.
  intros Hsafe fuel p rest Hptr Hend Hfuel Hdep.
  destruct fuel as [|n]; [lia|].
  destruct v as [ | b | i | u | d | s | arr | entries ].
  - cbn in Hptr.
    rewrite (parse_value_head n p 110 _ Hptr) by lia. cbn [Z.eqb Pos.eqb].
    unfold parse_null, bind.
    rewrite (expect_literal_text (bytes_of_string "null") rest p Hptr). reflexivity.
  - destruct b; cbn in Hptr.
    + rewrite (parse_value_head n p 116 _ Hptr) by lia. cbn [Z.eqb Pos.eqb].
      unfold parse_true, bind.
      rewrite (expect_literal_text (bytes_of_string "true") rest p Hptr). reflexivity.
    + rewrite (parse_value_head n p 102 _ Hptr) by lia. cbn [Z.eqb Pos.eqb].
      unfold parse_false, bind.
      rewrite (expect_literal_text (bytes_of_string "false") rest p Hptr). reflexivity.
  - cbn [compact_text roundtrip_safe reparsed] in *.
    destruct (integer_text_head i Hsafe) as (c & r & Ei & Hc).
    rewrite (parse_value_number n p c (r ++ rest)) by (rewrite ?Hptr, ?Ei; auto).
    apply parse_integer_then; assumption.
  - cbn [compact_text roundtrip_safe] in *.
    destruct (write_u64_head u Hsafe) as (c & r & Eu & Hc).
    rewrite (parse_value_number n p c (r ++ rest)) by (rewrite ?Hptr, ?Eu; auto).
    apply parse_uinteger_then; assumption.
  - destruct Hsafe.
  - cbn [compact_text roundtrip_safe reparsed] in *.
    assert (Hlen : (length (escaped s) < S n)%nat).
    { rewrite Hptr in Hfuel. unfold string_text in Hfuel.
      rewrite !length_app in Hfuel. cbn [length] in Hfuel. lia. }
    rewrite (parse_value_head n p 34 (escaped s ++ [34] ++ rest))
      by (lia || (rewrite Hptr; unfold string_text; rewrite <- !app_assoc; reflexivity)).
    cbn [Z.eqb Pos.eqb].
    apply parse_string_value_text; assumption.
  - pose proof (safe_array_members arr Hsafe) as Hall.
    rewrite (parse_value_head n p 91 (joined compact_text arr ++ [93] ++ rest))
      by (lia || (rewrite Hptr; cbn [compact_text app]; rewrite <- !app_assoc; reflexivity)).
    cbn [Z.eqb Pos.eqb reparsed].
    apply parse_array_text; try assumption; try lia.
    + eapply Forall_impl; [exact Hall|]. apply reads_back_all.
    + eapply Forall_impl; [exact Hall|]. apply compact_text_starts.
  - destruct (safe_object_members entries Hsafe) as (Hnd & Hkeys & Hall).
    rewrite (parse_value_head n p 123
               (joined (fun e => string_text (fst e) ++ [58] ++ compact_text (snd e))
                       entries ++ [125] ++ rest))
      by (lia || (rewrite Hptr; cbn [compact_text app]; rewrite <- !app_assoc; reflexivity)).
    cbn [Z.eqb Pos.eqb reparsed].
    apply parse_object_text; try assumption; try lia.
    eapply Forall_impl; [exact Hall|]. cbv beta. intros e. apply reads_back_all.
Qed.


(** ** What precedes and what follows the root value *)

Lemma skip_ws_at_token (n : nat) (p : Parser.t) (c : Z) (r : list Z) :
  32 < c -> c <> 47 ->
  skip_ws_and_comments (S n) (with_ptr p (c :: r)) = Ok tt (with_ptr p (c :: r)).
Proof. intros Hc H47. apply (skip_ws_token n _ c r); auto. Qed.

(** [parse_value] from a state whose white space leads to a token starts
    as from the token. *)
Lemma parse_value_skips (n : nat) (p : Parser.t) (c : Z) (r : list Z) :
  32 < c -> c <> 47 ->
  skip_whitespace_ptr (ptr_ p) = c :: r ->
  parse_value (S n) p = parse_value (S n) (with_ptr p (c :: r)).
Proof.
  intros Hc H47 Hskip.
  assert (E : skip_ws_and_comments (S n) p = Ok tt (with_ptr p (c :: r))).
  { pose proof (skip_ws_at_token n p c r Hc H47) as Hs.
    unfold skip_ws_and_comments, bind, skip_whitespace, get_opts in *.
    rewrite Hskip. cbn [ptr_ with_ptr opts_] in *.
    assert (Hw : skip_whitespace_ptr (c :: r) = c :: r).
    { cbn [skip_whitespace_ptr]. destruct (Z.gtb_spec c 32); [reflexivity|lia]. }
    rewrite Hw in Hs. unfold with_ptr in Hs. cbn [ptr_ begin_ opts_ depth_ max_depth_] in Hs.
    destruct (ParseOptions.allow_comments (opts_ p)); [|reflexivity].
    unfold skip_comments_and_ws, bind, skip_comments, skip_whitespace in *.
    cbn [ptr_ with_ptr] in *.
    destruct (skip_comments_ptr (S n) (c :: r)) as [l|] eqn:El; [|discriminate].
    cbn [ptr_] in *. unfold with_ptr in *. cbn [ptr_ begin_ opts_ depth_ max_depth_] in *.
    exact Hs. }
  cbn [parse_value].
  rewrite (bind_Ok _ _ _ _ _ E), (bind_Ok _ _ _ _ _ (skip_ws_at_token n p c r Hc H47)).
  reflexivity.
Qed.

Lemma offset_fold (consumed : list Z) (loc : SourceLocation) :
  offset (fold_left
            (fun loc c =>
               if c =? 10 then mkLoc (S (line loc)) 1 (offset loc)
               else mkLoc (line loc) (S (column loc)) (offset loc))
            consumed loc) = offset loc.
Proof.
  revert loc. induction consumed as [|c r IH]; intros loc; [reflexivity|].
  cbn [fold_left]. rewrite IH. destruct (c =? 10); reflexivity.
Qed.

(** The offset of a location is the number of bytes read. *)
Lemma offset_current_location (input rest : list Z) (opts : ParseOptions.t)
    (consumed : list Z) :
  input = consumed ++ rest ->
  offset (current_location (with_ptr (make input opts) rest)) = length consumed.
Proof.
  intros ->. unfold current_location. rewrite offset_fold. cbn [offset ptr_ begin_ with_ptr make].
  rewrite length_app, Nat.add_sub, take_app_length. reflexivity.
Qed.

Lemma skip_whitespace_all (ws : list Z) :
  Forall (fun c => simd.is_ws c = true) ws -> skip_whitespace_ptr ws = [].
Proof.
  intros Hws.
  assert (Hlow : Forall (fun c => (c >? 32) = false) ws).
  { eapply Forall_impl; [exact Hws|]. cbv beta. intros c Hc. unfold simd.is_ws in Hc.
    destruct (Z.gtb_spec c 32); [|reflexivity].
    destruct (Z.eqb_spec c 32), (Z.eqb_spec c 9), (Z.eqb_spec c 10), (Z.eqb_spec c 13);
      try lia; discriminate. }
  assert (Hslow : skip_whitespace_slow ws = []).
  { unfold skip_whitespace_slow. destruct (16 <=? length ws)%nat.
    - clear Hlow. induction Hws as [|c r Hc Hr IH]; [reflexivity|].
      cbn [simd.skip_whitespace]. rewrite Hc. exact IH.
    - clear Hlow. induction Hws as [|c r Hc Hr IH]; [reflexivity|].
      cbn [skip_whitespace_tail]. unfold simd.is_ws in Hc.
      replace ((c =? 32) || (c =? 10) || (c =? 13) || (c =? 9)) with true; [exact IH|].
      destruct (c =? 32), (c =? 9), (c =? 10), (c =? 13); try reflexivity; discriminate. }
  destruct ws as [|c0 [|c1 [|c2 r2]]]; cbn [skip_whitespace_ptr]; try exact Hslow.
  - apply Forall_cons in Hlow as [-> _]. exact Hslow.
  - apply Forall_cons in Hlow as [-> Hlow]. apply Forall_cons in Hlow as [-> _]. exact Hslow.
  - apply Forall_cons in Hlow as [-> Hlow]. apply Forall_cons in Hlow as [-> Hlow].
    apply Forall_cons in Hlow as [-> _]. exact Hslow.
Qed.


Lemma skip_whitespace_before (ws : list Z) (c : Z) (r : list Z) :
  Forall (fun c => simd.is_ws c = true) ws -> 32 < c ->
  skip_whitespace_ptr (ws ++ c :: r) = c :: r.
Proof.
  intros Hws Hc.
  assert (Hlow : Forall (fun c => (c >? 32) = false) ws).
  { eapply Forall_impl; [exact Hws|]. cbv beta. intros x Hx. unfold simd.is_ws in Hx.
    destruct (Z.gtb_spec x 32); [|reflexivity].
    destruct (Z.eqb_spec x 32), (Z.eqb_spec x 9), (Z.eqb_spec x 10), (Z.eqb_spec x 13);
      try lia; discriminate. }
  assert (Hc' : (c >? 32) = true) by (destruct (Z.gtb_spec c 32); [reflexivity|lia]).
  assert (Hnws : simd.is_ws c = false).
  { unfold simd.is_ws.
    destruct (Z.eqb_spec c 32), (Z.eqb_spec c 9), (Z.eqb_spec c 10), (Z.eqb_spec c 13);
      try lia; reflexivity. }
  assert (Hslow : skip_whitespace_slow (ws ++ c :: r) = c :: r).
  { unfold skip_whitespace_slow. destruct (16 <=? length (ws ++ c :: r))%nat.
    - clear Hlow. induction Hws as [|x t Hx Ht IH]; cbn [app simd.skip_whitespace].
      + rewrite Hnws. reflexivity.
      + rewrite Hx. exact IH.
    - clear Hlow. induction Hws as [|x t Hx Ht IH]; cbn [app skip_whitespace_tail].
      + unfold simd.is_ws in Hnws.
        replace ((c =? 32) || (c =? 10) || (c =? 13) || (c =? 9)) with false; [reflexivity|].
        destruct (c =? 32), (c =? 9), (c =? 10), (c =? 13); try reflexivity; discriminate.
      + unfold simd.is_ws in Hx.
        replace ((x =? 32) || (x =? 10) || (x =? 13) || (x =? 9)) with true; [exact IH|].
        destruct (x =? 32), (x =? 9), (x =? 10), (x =? 13); try reflexivity; discriminate. }
  destruct ws as [|c0 [|c1 [|c2 r2]]]; cbn [app skip_whitespace_ptr] in *.
  - rewrite Hc'. reflexivity.
  - apply Forall_cons in Hlow as [-> _]. rewrite Hc'. reflexivity.
  - apply Forall_cons in Hlow as [-> Hlow]. apply Forall_cons in Hlow as [-> _].
    rewrite Hc'. reflexivity.
  - apply Forall_cons in Hlow as [-> Hlow]. apply Forall_cons in Hlow as [-> Hlow].
    apply Forall_cons in Hlow as [-> _]. exact Hslow.
Qed.

Lemma ends_number_after_ws (ws : list Z) (c : Z) (r : list Z) :
  Forall (fun c => simd.is_ws c = true) ws -> ends_number (c :: r) ->
  ends_number (ws ++ c :: r).
Proof.
  intros Hws Hend. destruct Hws as [|x t Hx Ht]; [exact Hend|].
  cbn [app ends_number]. unfold simd.is_ws in Hx. unfold is_digit.
  destruct (Z.eqb_spec x 32), (Z.eqb_spec x 9), (Z.eqb_spec x 10), (Z.eqb_spec x 13);
    try discriminate; subst x; repeat split; lia || reflexivity.
Qed.

(** The run of [parse] on the text of a safe value, optional white
    space, and a byte that starts no value. *)
Lemma parse_then_trailing (v : JsonValue) (opts : ParseOptions.t)
    (ws : list Z) (c : Z) (rest : list Z) :
  roundtrip_safe v -> (depth v <= effective_max_depth opts)%nat ->
  Forall (fun c => simd.is_ws c = true) ws ->
  32 < c -> c <> 47 -> ends_number (c :: rest) ->
  let input := compact_text v ++ ws ++ c :: rest in
  parse input opts
  = Throws (ExnParseError
              (mkParseError trailing_content
                 (current_location (with_ptr (make input opts) (c :: rest))))).
Proof.
  intros Hsafe Hdep Hws Hc H47 Hend input.
  pose proof (reads_text_then v Hsafe (parse_fuel input) (make input opts)
                (ws ++ c :: rest) eq_refl (ends_number_after_ws ws c rest Hws Hend)) as Hv.
  unfold parse, parse_document.
  rewrite (bind_Ok _ _ _ _ _ (Hv ltac:(unfold parse_fuel; cbn [ptr_ make]; lia)
                                  ltac:(exact Hdep))).
  unfold bind, skip_whitespace, get_opts, get_ptr.
  cbn [ptr_ with_ptr opts_ make begin_ depth_ max_depth_].
  rewrite (skip_whitespace_before ws c rest Hws Hc).
  unfold with_ptr. cbn [ptr_ opts_ begin_ depth_ max_depth_ make].
  destruct (ParseOptions.allow_comments opts); [|reflexivity].
  unfold skip_comments, parse_fuel. rewrite Nat.add_1_r. cbn [ptr_ skip_comments_ptr].
  destruct (Z.eqb_spec c 47); [lia|]. destruct rest; reflexivity.
Qed.


(** One or two bytes at most 0x20 before a byte above it are stepped
    over, white space or not. *)
Lemma skip_whitespace_short (pre : list Z) (c : Z) (r : list Z) :
  (length pre <= 2)%nat -> Forall (fun c => c <= 32) pre -> 32 < c ->
  skip_whitespace_ptr (pre ++ c :: r) = c :: r.
Proof.
  intros Hlen Hlow Hc.
  assert (Hc' : (c >? 32) = true) by (destruct (Z.gtb_spec c 32); [reflexivity|lia]).
  assert (Hle : forall x, x <= 32 -> (x >? 32) = false)
    by (intros x Hx; destruct (Z.gtb_spec x 32); [lia|reflexivity]).
  destruct pre as [|c0 [|c1 [|c2 r2]]]; cbn [app skip_whitespace_ptr length] in *.
  - rewrite Hc'. reflexivity.
  - apply Forall_cons in Hlow as [H0 _]. rewrite (Hle _ H0), Hc'. reflexivity.
  - apply Forall_cons in Hlow as [H0 Hlow]. apply Forall_cons in Hlow as [H1 _].
    rewrite (Hle _ H0), (Hle _ H1), Hc'. reflexivity.
  - lia.
Qed.

Lemma parse_after_short (v : JsonValue) (opts : ParseOptions.t) (pre : list Z) :
  roundtrip_safe v -> (depth v <= effective_max_depth opts)%nat ->
  (length pre <= 2)%nat -> Forall (fun c => c <= 32) pre ->
  parse (pre ++ compact_text v) opts = Returns (reparsed v).
Proof.
  intros Hsafe Hdep Hlen Hlow. apply parse_of_value.
  destruct (starts_value_head _ (compact_text_starts v Hsafe))
    as (c & t & Ht & Hc & H47 & _).
  unfold parse_fuel. rewrite Nat.add_1_r.
  rewrite (parse_value_skips _ (make (pre ++ compact_text v) opts) c t Hc H47)
    by (cbn [ptr_ make]; rewrite Ht; apply skip_whitespace_short; assumption).
  rewrite <- (with_ptr_twice (make (pre ++ compact_text v) opts) (c :: t) []).
  apply (reads_back_all v Hsafe).
  - cbn [ptr_ with_ptr]. rewrite app_nil_r. symmetry. exact Ht.
  - exact I.
  - cbn [ptr_ with_ptr]. rewrite <- Ht, length_app. lia.
  - exact Hdep.
Qed.

(** Three bytes at most 0x20 of which the first is no white space stay
    where they are. *)
Lemma skip_whitespace_stuck (c0 c1 c2 : Z) (r : list Z) :
  c0 <= 32 -> c1 <= 32 -> c2 <= 32 -> simd.is_ws c0 = false ->
  skip_whitespace_ptr (c0 :: c1 :: c2 :: r) = c0 :: c1 :: c2 :: r.
Proof.
  intros H0 H1 H2 Hn.
  assert (Hle : forall x, x <= 32 -> (x >? 32) = false)
    by (intros x Hx; destruct (Z.gtb_spec x 32); [lia|reflexivity]).
  cbn [skip_whitespace_ptr]. rewrite (Hle _ H0), (Hle _ H1), (Hle _ H2).
  unfold skip_whitespace_slow.
  destruct (16 <=? length (c0 :: c1 :: c2 :: r))%nat.
  - cbn [simd.skip_whitespace]. rewrite Hn. reflexivity.
  - cbn [skip_whitespace_tail]. unfold simd.is_ws in Hn.
    replace ((c0 =? 32) || (c0 =? 10) || (c0 =? 13) || (c0 =? 9)) with false; [reflexivity|].
    destruct (c0 =? 32), (c0 =? 9), (c0 =? 10), (c0 =? 13); try reflexivity; discriminate.
Qed.

Lemma parse_stuck (opts : ParseOptions.t) (c0 c1 c2 : Z) (r : list Z) :
  c0 <= 32 -> c1 <= 32 -> c2 <= 32 -> simd.is_ws c0 = false ->
  parse (c0 :: c1 :: c2 :: r) opts
  = Throws (ExnParseError (mkParseError unexpected_character (mkLoc 1 1 0))).
Proof.
  intros H0 H1 H2 Hn. apply parse_of_error.
  pose proof (skip_whitespace_stuck c0 c1 c2 r H0 H1 H2 Hn) as Hs.
  unfold parse_fuel. rewrite Nat.add_1_r.
  set (n := (3 * length (c0 :: c1 :: c2 :: r))%nat).
  assert (E : skip_ws_and_comments (S n) (make (c0 :: c1 :: c2 :: r) opts)
              = Ok tt (make (c0 :: c1 :: c2 :: r) opts)).
  { unfold skip_ws_and_comments, bind, skip_whitespace, get_opts.
    cbn [ptr_ make opts_ with_ptr]. rewrite Hs.
    change (with_ptr (make (c0 :: c1 :: c2 :: r) opts) (c0 :: c1 :: c2 :: r))
      with (make (c0 :: c1 :: c2 :: r) opts).
    cbn [opts_ make].
    destruct (ParseOptions.allow_comments opts); [|reflexivity].
    unfold skip_comments_and_ws, bind, skip_comments, skip_whitespace.
    cbn [ptr_ make skip_comments_ptr].
    destruct (Z.eqb_spec c0 47); [lia|].
    cbn [ptr_ with_ptr make]. rewrite Hs. reflexivity. }
  cbn [parse_value].
  rewrite (bind_Ok _ _ _ _ _ E). unfold bind, get_ptr, get_opts.
  cbn [ptr_ make].
  destruct (Z.eqb_spec c0 34); [lia|]. destruct (Z.eqb_spec c0 39); [lia|].
  destruct (Z.eqb_spec c0 123); [lia|]. destruct (Z.eqb_spec c0 91); [lia|].
  destruct (Z.eqb_spec c0 116); [lia|]. destruct (Z.eqb_spec c0 102); [lia|].
  destruct (Z.eqb_spec c0 110); [lia|]. destruct (Z.eqb_spec c0 45); [lia|].
  assert (Hd : is_digit c0 = false).
  { unfold is_digit. destruct (Z.leb_spec 48 c0); [lia|reflexivity]. }
  rewrite Hd. cbn [orb].
  destruct (Z.eqb_spec c0 78); [lia|]. destruct (Z.eqb_spec c0 73); [lia|].
  unfold error_unexpected_char, error, current_location. cbn [ptr_ make begin_].
  rewrite Nat.sub_diag. reflexivity.
Qed.

End InputEdges.

(** X7: an input that is empty, or made of white space only, is refused
    with [unexpected_end_of_input], located at the end of the input. *)
Theorem blank_input_is_unexpected_end `{Charconv} (ws : list Z)
    (opts : ParseOptions.t) :
  Forall (fun c => simd.is_ws c = true) ws ->
  exists loc,
    Parser.parse ws opts
    = Throws (ExnParseError (mkParseError unexpected_end_of_input loc))
    /\ offset loc = length ws.
Proof.
  intros Hws.
  exists (Parser.current_location (Parser.with_ptr (Parser.make ws opts) [])).
  split.
  - apply parse_of_error. unfold Parser.parse_fuel. rewrite Nat.add_1_r.
    cbn [Parser.parse_value].
    unfold Parser.bind at 1, Parser.skip_ws_and_comments, Parser.bind at 1,
      Parser.skip_whitespace.
    cbn [Parser.ptr_ Parser.make]. rewrite (skip_whitespace_all ws Hws).
    unfold Parser.bind, Parser.get_opts, Parser.get_ptr.
    cbn [Parser.opts_ Parser.with_ptr Parser.make].
    destruct (ParseOptions.allow_comments opts); reflexivity.
  - apply (offset_current_location ws [] opts ws). rewrite app_nil_r. reflexivity.
Qed.

Lemma blank_input_is_unexpected_end_witness :
  Forall (fun c => simd.is_ws c = true) [32; 10; 9]
  /\ exists loc,
       @Parser.parse no_charconv [32; 10; 9] ParseOptions.default
       = Throws (ExnParseError (mkParseError unexpected_end_of_input loc))
       /\ offset loc = length [32; 10; 9].
Proof.
  assert (H : Forall (fun c => simd.is_ws c = true) [32; 10; 9])
    by (repeat constructor).
  split; [exact H|].
  exact (@blank_input_is_unexpected_end no_charconv [32; 10; 9] ParseOptions.default H).
Defined.

(** X8: after the text of a value, anything but white space is refused
    with [trailing_content], located at the first such byte.  (The byte
    is one that neither continues a number nor opens a comment.) *)
Theorem trailing_content_is_refused `{Charconv} (v : JsonValue)
    (opts : ParseOptions.t) (ws : list Z) (c : Z) (rest : list Z) :
  roundtrip_safe v -> (depth v <= effective_max_depth opts)%nat ->
  ParseOptions.allow_duplicate_keys opts = true \/ within_reserve v ->
  Forall (fun c => simd.is_ws c = true) ws ->
  32 < c -> c <> 47 -> ends_number (c :: rest) ->
  exists loc,
    Parser.parse (serialize v SerializeOptions.default ++ ws ++ c :: rest) opts
    = Throws (ExnParseError (mkParseError trailing_content loc))
    /\ offset loc = (length (serialize v SerializeOptions.default) + length ws)%nat.
Proof.
  intros Hsafe Hdep _ Hws Hc H47 Hend. rewrite serialize_compact_text.
  eexists. split.
  - apply parse_then_trailing; assumption.
  - rewrite (offset_current_location _ (c :: rest) opts (compact_text v ++ ws)).
    + apply length_app.
    + rewrite <- app_assoc. reflexivity.
Qed.

Lemma trailing_content_is_refused_witness :
  exists loc,
    @Parser.parse no_charconv
       (@serialize no_charconv sample_value SerializeOptions.default
        ++ [32] ++ 93 :: []) ParseOptions.default
    = Throws (ExnParseError (mkParseError trailing_content loc))
    /\ offset loc
       = (length (@serialize no_charconv sample_value SerializeOptions.default)
          + length [32])%nat.
Proof.
  apply (@trailing_content_is_refused no_charconv sample_value ParseOptions.default
           [32] 93 []).
  - cbn. unfold is_int64, is_uint64, is_byte, INT64_MIN, INT64_MAX, UINT64_MAX.
    repeat split; try lia; repeat constructor; try lia; set_solver.
  - vm_compute. lia.
  - left. reflexivity.
  - repeat constructor.
  - lia.
  - lia.
  - cbn. repeat split; lia || reflexivity.
Defined.

(** X9: the parser steps over one or two bytes of value at most 0x20
    before a value whatever they are (a NUL or another control byte as
    well as white space); of three such bytes, the first has to be white
    space, or the input is refused at its first byte. *)
Theorem short_low_prefix_is_skipped `{Charconv} (v : JsonValue)
    (opts : ParseOptions.t) (pre : list Z) (c0 c1 c2 : Z) (rest : list Z) :
  roundtrip_safe v -> (depth v <= effective_max_depth opts)%nat ->
  ParseOptions.allow_duplicate_keys opts = true \/ within_reserve v ->
  (length pre <= 2)%nat -> Forall (fun c => 0 <= c <= 32) pre ->
  0 <= c0 <= 32 -> 0 <= c1 <= 32 -> 0 <= c2 <= 32 -> simd.is_ws c0 = false ->
  Parser.parse (pre ++ serialize v SerializeOptions.default) opts
  = Returns (reparsed v)
  /\ Parser.parse (c0 :: c1 :: c2 :: rest) opts
     = Throws (ExnParseError (mkParseError unexpected_character (mkLoc 1 1 0))).
Proof.
  intros Hsafe Hdep _ Hlen Hlow H0 H1 H2 Hn. split.
  - rewrite serialize_compact_text. apply parse_after_short; try assumption.
    eapply Forall_impl; [exact Hlow|]. cbv beta. intros; lia.
  - apply parse_stuck; lia || assumption.
Qed.

Lemma short_low_prefix_is_skipped_witness :
  @Parser.parse no_charconv
     ([0; 1] ++ @serialize no_charconv sample_value SerializeOptions.default)
     ParseOptions.default
  = Returns (reparsed sample_value)
  /\ @Parser.parse no_charconv (0 :: 1 :: 32 :: [49]) ParseOptions.default
     = Throws (ExnParseError (mkParseError unexpected_character (mkLoc 1 1 0))).
Proof.
  apply (@short_low_prefix_is_skipped no_charconv sample_value ParseOptions.default
           [0; 1] 0 1 32 [49]).
  - cbn. unfold is_int64, is_uint64, is_byte, INT64_MIN, INT64_MAX, UINT64_MAX.
    repeat split; try lia; repeat constructor; try lia; set_solver.
  - vm_compute. lia.
  - left. reflexivity.
  - cbn. lia.
  - repeat constructor; lia.
  - lia.
  - lia.
  - lia.
  - reflexivity.
Defined.

(* ===================================================================== *)
(** * No parsed value is nested deeper than the limit                     *)
(* ===================================================================== *)

Section DepthBound.
Context `{Charconv}.
Import Parser.

Lemma returns_bind {A B : Type} (m : M A) (k : A -> M B) p Q1 Q2 :
  returns m p Q1 -> (forall a p', Q1 a p' -> returns (k a) p' Q2) ->
  returns (bind m k) p Q2.
Proof.
  unfold returns, bind. intros Hm Hk. destruct (m p) as [a p'| |]; auto.
  apply (Hk a p' Hm).
Qed.

Lemma returns_weaken {A : Type} (m : M A) p (Q1 Q2 : A -> Parser.t -> Prop) :
  returns m p Q1 -> (forall a p', Q1 a p' -> Q2 a p') -> returns m p Q2.
Proof. unfold returns. intros Hm HQ. destruct (m p); auto. Qed.

Lemma returns_get_ptr {B : Type} (k : list Z -> M B) p Q :
  returns (k (ptr_ p)) p Q -> returns (bind get_ptr k) p Q.
Proof. exact (fun H => H). Qed.

Lemma returns_get_opts {B : Type} (k : ParseOptions.t -> M B) p Q :
  returns (k (opts_ p)) p Q -> returns (bind get_opts k) p Q.
Proof. exact (fun H => H). Qed.

Lemma returns_set_ptr {B : Type} l (k : unit -> M B) p Q :
  returns (k tt) (with_ptr p l) Q -> returns (bind (set_ptr l) k) p Q.
Proof. exact (fun H => H). Qed.

Lemma returns_pop_depth {B : Type} (k : unit -> M B) p Q :
  returns (k tt) (with_depth p (size_t_pred (depth_ p))) Q ->
  returns (bind pop_depth k) p Q.
Proof. exact (fun H => H). Qed.

Lemma returns_push_depth {B : Type} (k : unit -> M B) p Q :
  ((S (depth_ p) <= max_depth_ p)%nat ->
   returns (k tt) (with_depth p (S (depth_ p))) Q) ->
  returns (bind push_depth k) p Q.
Proof.
  intros Hk. unfold returns, bind, push_depth in *.
  cbn [depth_ max_depth_ with_depth] in *.
  destruct (Nat.ltb_spec (max_depth_ p) (S (depth_ p))); [exact I|].
  apply Hk. lia.
Qed.

Lemma returns_ret {A : Type} (a : A) p (Q : A -> Parser.t -> Prop) :
  Q a p -> returns (ret a) p Q.
Proof. exact (fun H => H). Qed.

Lemma keeps_refl p : keeps p p.
Proof. repeat split. Qed.

Lemma keeps_trans p1 p2 p3 : keeps p1 p2 -> keeps p2 p3 -> keeps p1 p3.
Proof. unfold keeps. intuition congruence. Qed.

Lemma keeps_with_ptr p l : keeps p (with_ptr p l).
Proof. repeat split. Qed.

Lemma scans_ret {A : Type} (R : A -> Prop) (a : A) : R a -> scans R (ret a).
Proof. intros Ha p. split; [apply keeps_refl|exact Ha]. Qed.

Lemma scans_bind {A B : Type} (R : B -> Prop) (m : M A) (k : A -> M B) :
  scans (fun _ => True) m -> (forall a, scans R (k a)) -> scans R (bind m k).
Proof.
  intros Hm Hk p. eapply returns_bind; [apply Hm|]. cbv beta.
  intros a p' [Hp _]. eapply returns_weaken; [apply Hk|]. cbv beta.
  intros b p'' [Hp' Hb]. split; [eapply keeps_trans; eassumption|exact Hb].
Qed.

Lemma scans_weaken {A : Type} (R R' : A -> Prop) (m : M A) :
  scans R m -> (forall a, R a -> R' a) -> scans R' m.
Proof.
  intros Hm HR p. eapply returns_weaken; [apply Hm|]. cbv beta.
  intros a p' [Hp Ha]. auto.
Qed.

Lemma scans_error {A : Type} (R : A -> Prop) c : scans R (error c).
Proof. intros p. exact I. Qed.

Lemma scans_error_unexpected_char {A : Type} (R : A -> Prop) :
  scans R error_unexpected_char.
Proof. intros p. unfold returns, error_unexpected_char. destruct (ptr_ p); exact I. Qed.

Lemma scans_get_ptr : scans (fun _ => True) get_ptr.
Proof. intros p. split; [apply keeps_refl|exact I]. Qed.

Lemma scans_get_opts : scans (fun _ => True) get_opts.
Proof. intros p. split; [apply keeps_refl|exact I]. Qed.

Lemma scans_set_ptr l : scans (fun _ => True) (set_ptr l).
Proof. intros p. split; [apply keeps_with_ptr|exact I]. Qed.

Lemma scans_skip_whitespace : scans (fun _ => True) skip_whitespace.
Proof. intros p. split; [apply keeps_with_ptr|exact I]. Qed.

Lemma scans_skip_comments fuel : scans (fun _ => True) (skip_comments fuel).
Proof.
  intros p. unfold returns, skip_comments.
  destruct (skip_comments_ptr fuel (ptr_ p)); [|exact I].
  split; [apply keeps_with_ptr|exact I].
Qed.

Lemma scans_expect c : scans (fun _ => True) (expect c).
Proof.
  intros p. unfold returns, expect. destruct (ptr_ p) as [|c' r]; [exact I|].
  destruct (c' =? c); [|exact I]. split; [apply keeps_with_ptr|exact I].
Qed.

Lemma scans_expect_literal lit : scans (fun _ => True) (expect_literal lit).
Proof.
  intros p. unfold returns, expect_literal. destruct (_ || _); [exact I|].
  split; [apply keeps_with_ptr|exact I].
Qed.

Lemma scans_parse_hex4 : scans (fun _ => True) parse_hex4.
Proof.
  intros p. unfold returns, parse_hex4. destruct (_ <? _)%nat; [exact I|].
  destruct (hex4_loop _ _); [|exact I]. split; [apply keeps_with_ptr|exact I].
Qed.

(** The computations built from these by [bind], tests and matches. *)
Local Ltac scan_step :=
  match goal with
  | |- scans _ (bind _ _) => apply scans_bind; [|intros ?]
  | |- scans _ (ret _) => apply scans_ret; try exact I; try reflexivity
  | |- scans _ (error _) => apply scans_error
  | |- scans _ error_unexpected_end => apply scans_error
  | |- scans _ error_unexpected_char => apply scans_error_unexpected_char
  | |- scans _ get_ptr => apply scans_get_ptr
  | |- scans _ get_opts => apply scans_get_opts
  | |- scans _ (set_ptr _) => apply scans_set_ptr
  | |- scans _ skip_whitespace => apply scans_skip_whitespace
  | |- scans _ (skip_comments _) => apply scans_skip_comments
  | |- scans _ (expect _) => apply scans_expect
  | |- scans _ (expect_literal _) => apply scans_expect_literal
  | |- scans _ parse_hex4 => apply scans_parse_hex4
  | |- scans _ (if ?c then _ else _) => destruct c
  | |- scans _ (match ?l with [] => _ | _ :: _ => _ end) => destruct l
  | |- scans _ (match ?o with Some _ => _ | None => _ end) => destruct o
  | |- scans _ (let '(_, _) := ?e in _) => destruct e
  end.

Local Ltac scan := repeat scan_step.

Lemma scans_skip_ws_and_comments fuel : scans (fun _ => True) (skip_ws_and_comments fuel).
Proof. unfold skip_ws_and_comments, skip_comments_and_ws. scan. Qed.

Lemma scans_literal (R : JsonValue -> Prop) lit v :
  R v -> scans R (expect_literal lit ;; ret v).
Proof. intros Hv. scan. exact Hv. Qed.

Lemma scans_parse_unicode_escape out : scans (fun _ => True) (parse_unicode_escape out).
Proof. unfold parse_unicode_escape. scan. Qed.

Lemma scans_parse_escape out : scans (fun _ => True) (parse_escape out).
Proof. unfold parse_escape. scan; apply scans_parse_unicode_escape. Qed.

Lemma scans_parse_string_content_into fuel :
  forall result quote, scans (fun _ => True) (parse_string_content_into fuel result quote).
Proof.
  induction fuel as [|n IH]; intros result quote; cbn [parse_string_content_into].
  - intros p. exact I.
  - scan; try apply scans_parse_escape; apply IH.
Qed.

Lemma scans_parse_string fuel : scans (fun _ => True) (parse_string fuel).
Proof. unfold parse_string. scan; apply scans_parse_string_content_into. Qed.

Lemma scans_parse_string_sq fuel : scans (fun _ => True) (parse_string_sq fuel).
Proof. unfold parse_string_sq. scan; apply scans_parse_string_content_into. Qed.

Lemma scans_parse_unquoted_key : scans (fun _ => True) parse_unquoted_key.
Proof. unfold parse_unquoted_key. scan. Qed.

Local Abbreviation flat := (fun v : JsonValue => depth v = 0%nat).

Lemma scans_parse_string_value fuel : scans flat (parse_string_value fuel).
Proof.
  unfold parse_string_value, pmr_string_to_value.
  scan; apply scans_parse_string_content_into.
Qed.

Lemma scans_parse_string_value_sq fuel : scans flat (parse_string_value_sq fuel).
Proof.
  unfold parse_string_value_sq, pmr_string_to_value.
  scan; apply scans_parse_string_content_into.
Qed.

Lemma scans_parse_hex_number negative : scans flat (parse_hex_number negative).
Proof. unfold parse_hex_number. scan. Qed.

Lemma scans_parse_float_slow start : scans flat (parse_float_slow start).
Proof. unfold parse_float_slow. scan. Qed.

Lemma scans_number_result start negative is_float int_overflow int_val mantissa
    frac_digits explicit_exp mantissa_overflow :
  scans flat (number_result start negative is_float int_overflow int_val mantissa
                frac_digits explicit_exp mantissa_overflow).
Proof. unfold number_result. scan; apply scans_parse_float_slow. Qed.

Lemma scans_parse_number : scans flat parse_number.
Proof.
  unfold parse_number, parse_infinity.
  scan; try apply scans_parse_hex_number; try apply scans_number_result.
Qed.


(** ** What [finalize_object] keeps *)

Lemma compact_entries_Forall (P : list Z * JsonValue -> Prop) index :
  forall entries i, Forall P entries -> Forall P (compact_entries index i entries).
Proof.
  induction entries as [|e r IH]; intros i He; cbn [compact_entries]; [constructor|].
  apply Forall_cons in He as [He Hr]. destruct (bool_decide _); auto.
Qed.

Lemma dedup_small_Forall (P : list Z * JsonValue -> Prop) :
  forall entries, Forall P entries -> Forall P (dedup_small entries).
Proof.
  induction entries as [|e r IH]; intros He; cbn [dedup_small]; [constructor|].
  apply Forall_cons in He as [He Hr]. destruct (existsb _ _); auto.
Qed.

Lemma finalize_object_Forall (P : list Z * JsonValue -> Prop) entries :
  Forall P entries -> Forall P (finalize_object entries).
Proof.
  intros He. unfold finalize_object.
  destruct (_ <=? _)%nat; [destruct (_ <? _)%nat|destruct (_ <=? _)%nat];
    auto using compact_entries_Forall, dedup_small_Forall.
Qed.

Lemma depth_array (arr : list JsonValue) (k m : nat) :
  Forall (fun x => (S k + depth x <= m)%nat) arr -> (S k <= m)%nat ->
  (k + depth (JArray arr) <= m)%nat.
Proof.
  intros Ha Hk. cbn [depth].
  induction Ha as [|x r Hx Hr IH]; cbn [fold_right]; lia.
Qed.

Lemma depth_object (entries : Entries) (k m : nat) :
  Forall (fun e => (S k + depth (snd e) <= m)%nat) entries -> (S k <= m)%nat ->
  (k + depth (JObject entries) <= m)%nat.
Proof.
  intros Ha Hk. cbn [depth].
  induction Ha as [|x r Hx Hr IH]; cbn [fold_right]; lia.
Qed.

(** ** The recursive group *)

Lemma size_t_pred_pos (d : nat) : (1 <= d)%nat -> size_t_pred d = pred d.
Proof. destruct d; [lia|reflexivity]. Qed.

Local Ltac fields :=
  unfold within_limit, closes_level, keeps in *; cbv beta in *;
  cbn [opts_ depth_ max_depth_ ptr_ with_ptr with_depth Nat.pred size_t_pred] in *;
  intros; repeat match goal with H : _ /\ _ |- _ => destruct H end;
  try match goal with
      | E : size_t_pred _ = _ |- _ => rewrite ?E in *
      end;
  repeat match goal with
         | H : depth_ ?q = S _ |- _ => try rewrite H in *; revert H
         end;
  intros; cbn [Nat.pred size_t_pred] in *;
  repeat split; try congruence; try lia.

Local Ltac via lem :=
  eapply returns_bind; [apply lem|]; cbv beta; intros ? ? [? _].

Lemma depth_group fuel :
  (forall p, (depth_ p <= max_depth_ p)%nat ->
             returns (parse_value fuel) p (within_limit p)) /\
  (forall p, (depth_ p <= max_depth_ p)%nat ->
             returns (parse_array fuel) p (within_limit p)) /\
  (forall p arr, (1 <= depth_ p <= max_depth_ p)%nat ->
                 Forall (fun x => (depth_ p + depth x <= max_depth_ p)%nat) arr ->
                 returns (array_loop fuel arr) p (closes_level p)) /\
  (forall p, (depth_ p <= max_depth_ p)%nat ->
             returns (parse_object fuel) p (within_limit p)) /\
  (forall p entries seen,
      (1 <= depth_ p <= max_depth_ p)%nat ->
      Forall (fun e => (depth_ p + depth (snd e) <= max_depth_ p)%nat) entries ->
      returns (object_loop fuel entries seen) p (closes_level p)).
Proof.
  induction fuel as [|n (IHv & IHa & IHal & IHo & IHol)].
  { repeat split; intros; exact I. }
  assert (Hflat : forall (m : M JsonValue) p,
             (depth_ p <= max_depth_ p)%nat -> scans flat m ->
             returns m p (within_limit p)).
  { intros m p Hd Hm. eapply returns_weaken; [apply Hm|]. cbv beta.
    intros v p' [Hk Hv]. split; [exact Hk|]. rewrite Hv. lia. }
  repeat split.
  - (* parse_value *)
    intros p Hd. cbn [parse_value].
    eapply returns_bind; [apply scans_skip_ws_and_comments|]. cbv beta.
    intros _ p1 [Hk1 _].
    assert (Hd1 : (depth_ p1 <= max_depth_ p1)%nat)
      by (destruct Hk1 as (_ & -> & ->); exact Hd).
    assert (Hback : forall m : M JsonValue,
               returns m p1 (within_limit p1) -> returns m p1 (within_limit p)).
    { intros m Hm. eapply returns_weaken; [exact Hm|]. cbv beta.
      intros v p' [Hk Hv]. split; [eapply keeps_trans; eassumption|].
      destruct Hk1 as (_ & <- & <-). exact Hv. }
    apply returns_get_ptr, returns_get_opts, Hback.
    destruct (ptr_ p1) as [|c r]; [exact I|].
    repeat match goal with
           | |- returns (if ?c then _ else _) _ _ => destruct c
           end;
      first [ apply IHo; exact Hd1 | apply IHa; exact Hd1
            | apply Hflat; [exact Hd1|] ].
    all: first [ apply scans_parse_string_value | apply scans_parse_string_value_sq
               | apply scans_error_unexpected_char | apply scans_parse_number
               | apply scans_literal; reflexivity ].
  - (* parse_array *)
    intros p Hd. cbn [parse_array].
    apply returns_get_ptr, returns_set_ptr, returns_push_depth. intros Hpush.
    via scans_skip_ws_and_comments. apply returns_get_ptr.
    destruct (ptr_ p') as [|c r]; [exact I|].
    destruct (c =? 93).
    + apply returns_set_ptr, returns_pop_depth, returns_ret.
      fields; cbn [depth fold_right]; lia.
    + eapply returns_weaken; [apply (IHal p' []); [fields|constructor]|]. fields.
  - (* array_loop *)
    intros p arr Hd Harr. cbn [array_loop].
    pose proof (size_t_pred_pos (depth_ p) ltac:(lia)) as Epred.
    eapply returns_bind; [apply IHv; lia|]. cbv beta zeta. intros v p1 [Hk1 Hv].
    assert (Harr' : Forall (fun x => (S (size_t_pred (depth_ p)) + depth x <= max_depth_ p)%nat)
                      (arr ++ [v])).
    { rewrite Epred. apply Forall_app. split; [|repeat constructor; lia].
      eapply Forall_impl; [exact Harr|]. cbv beta. intros; lia. }
    pose proof (depth_array _ _ _ Harr' ltac:(lia)) as Hres.
    via scans_skip_ws_and_comments. apply returns_get_ptr, returns_get_opts.
    destruct (ptr_ p') as [|c r]; [exact I|].
    destruct (c =? 44).
    + apply returns_set_ptr. via scans_skip_ws_and_comments. apply returns_get_ptr.
      assert (Hloop : returns (array_loop n (arr ++ [v])) p'0 (closes_level p)).
      { eapply returns_weaken.
        - apply IHal; [fields|]. eapply Forall_impl; [exact Harr'|]. fields.
        - fields. }
      destruct (ptr_ p'0) as [|c' r']; [exact Hloop|].
      destruct (_ && _); [|exact Hloop].
      apply returns_set_ptr, returns_pop_depth, returns_ret. fields.
    + destruct (c =? 93); [|exact I].
      apply returns_set_ptr, returns_pop_depth, returns_ret. fields.
  - (* parse_object *)
    intros p Hd. cbn [parse_object].
    apply returns_get_ptr, returns_set_ptr, returns_push_depth. intros Hpush.
    via scans_skip_ws_and_comments. apply returns_get_ptr.
    destruct (ptr_ p') as [|c r]; [exact I|].
    destruct (c =? 125).
    + apply returns_set_ptr, returns_pop_depth, returns_ret.
      fields; cbn [depth fold_right]; lia.
    + eapply returns_weaken; [apply (IHol p' [] ∅); [fields|constructor]|]. fields.
  - (* object_loop *)
    intros p entries seen Hd Hent. cbn [object_loop].
    pose proof (size_t_pred_pos (depth_ p) ltac:(lia)) as Epred.
    via scans_skip_ws_and_comments. apply returns_get_ptr, returns_get_opts.
    eapply returns_bind with (Q1 := fun _ p'' => keeps p' p'').
    { assert (Hs : forall m : M (list Z), scans (fun _ => True) m ->
                     returns m p' (fun _ p'' => keeps p' p'')).
      { intros m Hm. eapply returns_weaken; [apply Hm|]. cbv beta. tauto. }
      destruct (ptr_ p') as [|c r]; [exact I|].
      destruct (c =? 34); [apply Hs, scans_parse_string|].
      destruct (_ && _); [apply Hs, scans_parse_string_sq|].
      destruct (_ && _); [apply Hs, scans_parse_unquoted_key|exact I]. }
    cbv beta. intros key p1 Hk1.
    via scans_skip_ws_and_comments. via scans_expect.
    eapply returns_bind; [apply IHv; fields|]. cbv beta. intros value p2 [Hk2 Hv].
    assert (Hent' : Forall (fun e => (S (size_t_pred (depth_ p)) + depth (snd e)
                                      <= max_depth_ p)%nat)
                      (entries ++ [(key, value)])).
    { rewrite Epred. apply Forall_app. split; [|repeat constructor; cbn [snd]; fields].
      eapply Forall_impl; [exact Hent|]. cbv beta. intros; lia. }
    eapply returns_bind
      with (Q1 := fun st p'' => p'' = p2 /\ fst st = entries ++ [(key, value)]).
    { destruct (ParseOptions.allow_duplicate_keys (opts_ p')); [split; reflexivity|].
      unfold insert_checked. destruct (bool_decide _); [exact I|split; reflexivity]. }
    cbv beta. intros [entries' seen'] ? [-> Hst]. cbn [fst] in Hst. subst entries'.
    pose proof (depth_object _ _ _ (finalize_object_Forall _ _ Hent') ltac:(lia)) as Hres.
    via scans_skip_ws_and_comments. apply returns_get_ptr.
    destruct (ptr_ p'2) as [|c r]; [exact I|].
    destruct (c =? 44).
    + apply returns_set_ptr. via scans_skip_ws_and_comments. apply returns_get_ptr.
      assert (Hloop : returns (object_loop n (entries ++ [(key, value)]) seen') p'3
                        (closes_level p)).
      { eapply returns_weaken.
        - apply IHol; [fields|]. eapply Forall_impl; [exact Hent'|]. fields.
        - fields. }
      destruct (ptr_ p'3) as [|c' r']; [exact Hloop|].
      destruct (_ && _); [|exact Hloop].
      apply returns_set_ptr, returns_pop_depth, returns_ret. fields.
    + destruct (c =? 125); [|exact I].
      apply returns_set_ptr, returns_pop_depth, returns_ret. fields.
Qed.

Lemma parse_document_depth input opts :
  returns (parse_document (parse_fuel input)) (make input opts)
    (fun v _ => (depth v <= effective_max_depth opts)%nat).
Proof.
  unfold parse_document.
  eapply returns_bind; [apply (proj1 (depth_group _)); cbn [depth_ make]; lia|].
  cbv beta. intros v p1 [_ Hv]. cbn [depth_ max_depth_ make] in Hv.
  via scans_skip_whitespace. apply returns_get_opts.
  eapply returns_bind with (Q1 := fun _ _ => True).
  { unfold returns. destruct (ParseOptions.allow_comments (opts_ p'));
      [destruct (skip_comments _ p')|]; exact I. }
  cbv beta. intros _ p3 _. apply returns_get_ptr.
  destruct (ptr_ p3); [|exact I]. exact Hv.
Qed.

End DepthBound.

(** X10: whatever the input and the options, a value that [parse]
    returns is nested no deeper than the depth limit in force
    ([max_depth], or YAJSON_MAX_DEPTH when that is 0). *)
Theorem parsed_value_within_depth_limit `{Charconv} (input : list Z)
    (opts : ParseOptions.t) (v : JsonValue) :
  Parser.parse input opts = Returns v ->
  (depth v <= effective_max_depth opts)%nat.
Proof.
  intros Hv. pose proof (parse_document_depth input opts) as Hd.
  unfold Parser.parse in Hv. unfold returns in Hd.
  destruct (Parser.parse_document _ _) as [v' p| |]; [|discriminate..].
  injection Hv as <-. exact Hd.
Qed.

Lemma parsed_value_within_depth_limit_witness :
  @Parser.parse no_charconv (bytes_of_string "[[1],{}]")
     (ParseOptions.with_max_depth ParseOptions.default 2)
  = Returns (JArray [JArray [JInteger 1]; JObject []])
  /\ (depth (JArray [JArray [JInteger 1]; JObject []])
      <= effective_max_depth (ParseOptions.with_max_depth ParseOptions.default 2))%nat.
Proof.
  split; [vm_compute; reflexivity|].
  apply (@parsed_value_within_depth_limit no_charconv (bytes_of_string "[[1],{}]")
           (ParseOptions.with_max_depth ParseOptions.default 2)).
  vm_compute. reflexivity.
Defined.

(* ===================================================================== *)
(** * The [Object] struct: entries and hash index                         *)
(* ===================================================================== *)

Section ObjectIndex.

(** ** The index as a function of the keys *)

Lemma rebuild_fold_app (l1 l2 : list (nat * (list Z * JsonValue)))
    (m : gmap (list Z) nat) :
  fold_left (fun (m : gmap (list Z) nat) ie => <[ fst (snd ie) := fst ie ]> m)
            (l1 ++ l2) m
  = fold_left (fun (m : gmap (list Z) nat) ie => <[ fst (snd ie) := fst ie ]> m)
              l2 (fold_left (fun (m : gmap (list Z) nat) ie =>
                               <[ fst (snd ie) := fst ie ]> m) l1 m).
Proof. apply fold_left_app. Qed.

Lemma rebuild_index_snoc (es : Entries) (k : list Z) (v : JsonValue) :
  Object_rebuild_index (es ++ [(k, v)])
  = <[ k := length es ]> (Object_rebuild_index es).
Proof.
  unfold Object_rebuild_index. rewrite imap_app, rebuild_fold_app.
  cbn [imap fold_left fst snd]. rewrite Nat.add_0_r. reflexivity.
Qed.

Lemma rebuild_index_lookup (es : Entries) (k : list Z) (i : nat) :
  Object_rebuild_index es !! k = Some i -> exists v, es !! i = Some (k, v).
Proof.
  revert i. induction es as [|[k0 v0] es IH] using rev_ind; intros i.
  - unfold Object_rebuild_index. cbn. rewrite lookup_empty. discriminate.
  - rewrite rebuild_index_snoc. destruct (decide (k0 = k)) as [->|Hne].
    + rewrite lookup_insert_eq. intros [= <-]. exists v0.
      rewrite lookup_app_r by lia. rewrite Nat.sub_diag. reflexivity.
    + rewrite lookup_insert_ne by exact Hne. intros Hi.
      destruct (IH i Hi) as [v Hv]. exists v.
      rewrite lookup_app_l; [exact Hv|]. eapply lookup_lt_Some, Hv.
Qed.

Lemma rebuild_index_keys (es es' : Entries) :
  map fst es = map fst es' -> Object_rebuild_index es = Object_rebuild_index es'.
Proof.
  revert es'. induction es as [|[k v] es IH] using rev_ind; intros es' Hk.
  - destruct es'; [reflexivity|discriminate].
  - destruct es' as [|[k' v'] es' _] using rev_ind.
    { rewrite map_app in Hk. destruct (map fst es); discriminate. }
    rewrite !map_app in Hk. cbn [map fst] in Hk.
    apply app_inj_tail in Hk as [Hk ->].
    rewrite !rebuild_index_snoc, (IH es' Hk).
    apply (f_equal (@length _)) in Hk. rewrite !length_map in Hk. rewrite Hk.
    reflexivity.
Qed.

Lemma rebuild_index_in (es : Entries) (k : list Z) :
  In k (map fst es) -> is_Some (Object_rebuild_index es !! k).
Proof.
  induction es as [|[k0 v0] es IH] using rev_ind; [intros []|].
  rewrite map_app, in_app_iff, rebuild_index_snoc. cbn [map fst In].
  destruct (decide (k0 = k)) as [->|Hne].
  - intros _. rewrite lookup_insert_eq. eauto.
  - rewrite lookup_insert_ne by exact Hne. intros [Hin|[E|[]]]; [auto|contradiction].
Qed.

Lemma rebuild_index_None (es : Entries) (k : list Z) :
  Object_rebuild_index es !! k = None -> ~ In k (map fst es).
Proof.
  intros Hn Hin. destruct (rebuild_index_in es k Hin) as [i Hi]. congruence.
Qed.

(** ** The linear scans *)

Lemma linear_find_Some (es : Entries) (k : list Z) :
  forall i, Object_linear_find es k = Some i -> exists v, es !! i = Some (k, v).
Proof.
  induction es as [|[k0 v0] es IH]; intros i; [discriminate|].
  cbn [Object_linear_find]. destruct (bool_decide_reflect (k0 = k)) as [->|Hne].
  - intros [= <-]. exists v0. reflexivity.
  - destruct (Object_linear_find es k) as [j|]; [|discriminate].
    intros [= <-]. apply (IH j eq_refl).
Qed.

Lemma linear_find_snoc (es : Entries) (k : list Z) (v : JsonValue) :
  ~ In k (map fst es) ->
  Object_linear_find (es ++ [(k, v)]) k = Some (length es).
Proof.
  induction es as [|[k0 v0] es IH]; intros Hn; cbn [app Object_linear_find length].
  - rewrite bool_decide_eq_true_2 by reflexivity. reflexivity.
  - rewrite bool_decide_eq_false_2 by (intros ->; apply Hn; left; reflexivity).
    rewrite IH by (intros Hin; apply Hn; right; exact Hin). reflexivity.
Qed.

Lemma assign_first_None (es : Entries) (k : list Z) (v : JsonValue) :
  Object.assign_first es k v = None -> ~ In k (map fst es).
Proof.
  induction es as [|[k0 v0] es IH]; [intros _ []|].
  cbn [Object.assign_first map fst In].
  destruct (bool_decide_reflect (k0 = k)) as [->|Hne]; [discriminate|].
  destruct (Object.assign_first es k v); [discriminate|].
  intros _ [E|Hin]; [contradiction|]. apply IH; [reflexivity|exact Hin].
Qed.

Lemma assign_first_Some (es es' : Entries) (k : list Z) (v : JsonValue) :
  Object.assign_first es k v = Some es' ->
  map fst es' = map fst es
  /\ exists i, Object_linear_find es' k = Some i /\ es' !! i = Some (k, v)
               /\ es' = alter (fun e => (fst e, v)) i es.
Proof.
  revert es'. induction es as [|[k0 v0] es IH]; intros es'; [discriminate|].
  cbn [Object.assign_first].
  destruct (bool_decide_reflect (k0 = k)) as [->|Hne].
  - intros [= <-]. split; [reflexivity|]. exists 0%nat.
    cbn [Object_linear_find]. rewrite bool_decide_eq_true_2 by reflexivity.
    repeat split.
  - destruct (Object.assign_first es k v) as [r|]; [|discriminate].
    intros [= <-]. destruct (IH r eq_refl) as (Hk & i & Hf & Hi & Ha).
    split; [cbn [map fst]; rewrite Hk; reflexivity|]. exists (S i).
    cbn [Object_linear_find]. rewrite bool_decide_eq_false_2 by exact Hne.
    rewrite Hf. repeat split; [exact Hi|]. cbn. rewrite <- Ha. reflexivity.
Qed.

Lemma erase_first_None (es : Entries) (k : list Z) :
  Object.erase_first es k = None -> ~ In k (map fst es).
Proof.
  induction es as [|[k0 v0] es IH]; [intros _ []|].
  cbn [Object.erase_first map fst In].
  destruct (bool_decide_reflect (k0 = k)) as [->|Hne]; [discriminate|].
  destruct (Object.erase_first es k); [discriminate|].
  intros _ [E|Hin]; [contradiction|]. apply IH; [reflexivity|exact Hin].
Qed.

Lemma filter_other_keys (es : Entries) (k : list Z) :
  ~ In k (map fst es) -> filter (fun e => fst e <> k) es = es.
Proof.
  induction es as [|[k0 v0] es IH]; intros Hn; [reflexivity|].
  rewrite filter_cons_True by (cbn [fst]; intros ->; apply Hn; left; reflexivity).
  rewrite IH by (intros Hin; apply Hn; right; exact Hin). reflexivity.
Qed.

(** With pairwise different keys, the scan removes the one entry of the
    key. *)
Lemma erase_first_Some (es es' : Entries) (k : list Z) :
  NoDup (map fst es) -> Object.erase_first es k = Some es' ->
  In k (map fst es)
  /\ es' = filter (fun e => fst e <> k) es.
Proof.
  revert es'. induction es as [|[k0 v0] es IH]; intros es' Hnd; [discriminate|].
  cbn [map fst] in Hnd. apply NoDup_cons in Hnd as [Hhead Hnd].
  cbn [Object.erase_first map fst In].
  destruct (bool_decide_reflect (k0 = k)) as [->|Hne].
  - intros [= <-]. split; [left; reflexivity|].
    rewrite filter_cons_False by (cbn [fst]; intros Hc; apply Hc; reflexivity).
    symmetry. apply filter_other_keys. intros Hin. apply Hhead, list_elem_of_In, Hin.
  - destruct (Object.erase_first es k) as [r|]; [|discriminate].
    intros [= <-]. destruct (IH r Hnd eq_refl) as [Hin Hr].
    split; [right; exact Hin|]. rewrite filter_cons_True by exact Hne.
    rewrite Hr. reflexivity.
Qed.

(** ** Lookup by the claims' [Object_find] when the keys differ *)

Lemma Object_find_pos_Some (es : Entries) (k : list Z) (i : nat) :
  Object_find_pos es k = Some i -> exists v, es !! i = Some (k, v).
Proof.
  unfold Object_find_pos. destruct (Object_use_index es).
  - apply rebuild_index_lookup.
  - apply linear_find_Some.
Qed.

Lemma Object_find_In (es : Entries) (k : list Z) (v : JsonValue) :
  Object_find es k = Some v -> In (k, v) es.
Proof.
  unfold Object_find. destruct (Object_find_pos es k) as [i|] eqn:E; [|discriminate].
  destruct (Object_find_pos_Some es k i E) as [v' Hv]. rewrite Hv. cbn.
  intros [= <-]. apply list_elem_of_In. eapply list_elem_of_lookup_2, Hv.
Qed.

Lemma Object_find_iff (es : Entries) (k : list Z) (v : JsonValue) :
  NoDup (map fst es) -> (Object_find es k = Some v <-> In (k, v) es).
Proof.
  intros Hnd. split; [apply Object_find_In|].
  intros Hin. apply list_elem_of_In, list_elem_of_lookup_1 in Hin as [i Hi].
  eapply Object_find_present; eassumption.
Qed.

Lemma Object_find_same (es es' : Entries) (k : list Z) :
  NoDup (map fst es) -> NoDup (map fst es') ->
  (forall v, In (k, v) es <-> In (k, v) es') ->
  Object_find es k = Object_find es' k.
Proof.
  intros Hnd Hnd' Hsame.
  destruct (Object_find es k) as [v|] eqn:E.
  - symmetry. apply Object_find_iff; [exact Hnd'|].
    apply Hsame, Object_find_iff; assumption.
  - destruct (Object_find es' k) as [v'|] eqn:E'; [|reflexivity].
    apply Object_find_iff, Hsame, Object_find_iff in E'; try assumption. congruence.
Qed.

(** ** [find] with an index in step with the entries *)

Lemma find_in_sync (o : Object.t) (k : list Z) :
  index_in_sync o ->
  fst (Object.find o k) = Object_find (Object.entries o) k
  /\ Object.entries (snd (Object.find o k)) = Object.entries o
  /\ index_in_sync (snd (Object.find o k))
  /\ (index_fresh o -> index_fresh (snd (Object.find o k))).
Proof.
  destruct o as [es [idx|]]; unfold index_in_sync, index_fresh, Object.find,
    Object.find_pos, Object.ensure_index, Object.rebuild_index, Object.use_index,
    Object_find, Object_find_pos, Object_use_index;
    cbn [Object.entries Object.index_].
  - intros ->. destruct (kIndexThreshold <=? length es)%nat eqn:E;
      cbn [fst snd Object.entries Object.index_]; rewrite ?E;
      repeat split; intuition congruence.
  - intros _. destruct (kIndexThreshold <=? length es)%nat eqn:E;
      cbn [fst snd Object.entries Object.index_]; rewrite ?E; repeat split; auto.
Qed.

(** ** The operations on an object whose index is fresh *)

Lemma assign_first_eq (es : Entries) (k : list Z) (v : JsonValue) :
  Object.assign_first es k v
  = (fun i => alter (fun e => (fst e, v)) i es) <$> Object_linear_find es k.
Proof.
  induction es as [|[k0 v0] es IH]; [reflexivity|].
  cbn [Object.assign_first Object_linear_find].
  destruct (bool_decide (k0 = k)); [reflexivity|].
  rewrite IH. destruct (Object_linear_find es k); reflexivity.
Qed.

Lemma alter_value_keys (es : Entries) (i : nat) (v : JsonValue) :
  map fst (alter (fun e => (fst e, v)) i es) = map fst es.
Proof.
  revert i. induction es as [|e es IH]; intros [|i]; cbn; f_equal; auto.
Qed.

Lemma alter_value_lookup (es : Entries) (i : nat) (k : list Z) (v x : JsonValue) :
  es !! i = Some (k, x) -> alter (fun e => (fst e, v)) i es !! i = Some (k, v).
Proof.
  intros Hi. rewrite list_lookup_alter, Hi, decide_True by reflexivity. reflexivity.
Qed.

(** The entries after [insert], by the position [find] gives. *)
Lemma insert_entries (o : Object.t) (k : list Z) (v : JsonValue) (moved : bool) :
  index_fresh o ->
  Object.entries (Object.insert o k v moved)
  = match Object_find_pos (Object.entries o) k with
    | Some i => alter (fun e => (fst e, v)) i (Object.entries o)
    | None => Object.entries o ++ [(k, v)]
    end
  /\ index_fresh (Object.insert o k v moved).
Proof.
  destruct o as [es idx]. unfold index_fresh, Object.insert, Object_find_pos,
    Object_use_index, Object.ensure_index, Object.use_index, Object.rebuild_index.
  cbn [Object.entries Object.index_]. intros Hf.
  destruct (Nat.ltb_spec (length es) kIndexThreshold) as [Hlt|Hge].
  - rewrite (proj2 (Nat.leb_gt _ _) Hlt) in *.
    destruct idx as [idx|]; [destruct Hf; discriminate|].
    rewrite assign_first_eq.
    destruct (Object_linear_find es k); cbn [fmap option_fmap option_map Object.entries
                                               Object.index_]; auto.
  - rewrite (proj2 (Nat.leb_le _ _) Hge) in *.
    assert (Hidx : match idx with
                   | Some _ => {| Object.entries := es; Object.index_ := idx |}
                   | None => {| Object.entries := es;
                                Object.index_ := Some (Object_rebuild_index es) |}
                   end
                   = Object.mk es (Some (Object_rebuild_index es))).
    { destruct idx as [idx|]; [destruct Hf as [_ ->]|]; reflexivity. }
    rewrite Hidx. cbn [Object.entries Object.index_].
    destruct (Object_rebuild_index es !! k) as [i|] eqn:E;
      cbn [Object.entries Object.index_].
    + split; [reflexivity|]. rewrite length_alter. split.
      * apply Nat.leb_le, Hge.
      * apply rebuild_index_keys. symmetry. apply alter_value_keys.
    + destruct moved; cbn [Object.entries Object.index_]; rewrite length_app;
        (split; [reflexivity|]); (split; [apply Nat.leb_le; lia|]);
        [reflexivity|symmetry; apply rebuild_index_snoc].
Qed.

Lemma linear_find_keys (es es' : Entries) (k : list Z) :
  map fst es = map fst es' -> Object_linear_find es k = Object_linear_find es' k.
Proof.
  revert es'. induction es as [|[k0 v0] es IH]; intros [|[k1 v1] es'] Hk;
    try discriminate; [reflexivity|].
  cbn [map fst] in Hk. injection Hk as -> Hk. cbn [Object_linear_find].
  rewrite (IH es' Hk). reflexivity.
Qed.

Lemma linear_find_None (es : Entries) (k : list Z) :
  Object_linear_find es k = None -> ~ In k (map fst es).
Proof.
  induction es as [|[k0 v0] es IH]; [intros _ []|].
  cbn [Object_linear_find map fst In].
  destruct (bool_decide_reflect (k0 = k)) as [->|Hne]; [discriminate|].
  destruct (Object_linear_find es k); [discriminate|].
  intros _ [E|Hin]; [contradiction|]. apply IH; [reflexivity|exact Hin].
Qed.

Lemma Object_find_pos_None (es : Entries) (k : list Z) :
  Object_find_pos es k = None -> ~ In k (map fst es).
Proof.
  unfold Object_find_pos. destruct (Object_use_index es);
    [apply rebuild_index_None|apply linear_find_None].
Qed.

Lemma Object_find_snoc (es : Entries) (k : list Z) (v : JsonValue) :
  ~ In k (map fst es) -> Object_find (es ++ [(k, v)]) k = Some v.
Proof.
  intros Hn. unfold Object_find, Object_find_pos.
  destruct (Object_use_index (es ++ [(k, v)])).
  - rewrite rebuild_index_snoc, lookup_insert_eq, lookup_app_r by lia.
    rewrite Nat.sub_diag. reflexivity.
  - rewrite (linear_find_snoc es k v Hn), lookup_app_r by lia.
    rewrite Nat.sub_diag. reflexivity.
Qed.

Lemma insert_found (es : Entries) (k : list Z) (v : JsonValue) :
  Object_find
    (match Object_find_pos es k with
     | Some i => alter (fun e => (fst e, v)) i es
     | None => es ++ [(k, v)]
     end) k = Some v.
Proof.
  destruct (Object_find_pos es k) as [i|] eqn:E.
  - destruct (Object_find_pos_Some es k i E) as [x Hx].
    unfold Object_find, Object_find_pos, Object_use_index in *.
    rewrite length_alter.
    rewrite (rebuild_index_keys _ es) by apply alter_value_keys.
    rewrite (linear_find_keys _ es) by apply alter_value_keys.
    rewrite E, (alter_value_lookup es i k v x Hx). reflexivity.
  - apply Object_find_snoc, Object_find_pos_None, E.
Qed.

(** With pairwise different keys, the other keys keep their values. *)
Lemma insert_others (es : Entries) (k : list Z) (v : JsonValue) :
  NoDup (map fst es) ->
  let es' := match Object_find_pos es k with
             | Some i => alter (fun e => (fst e, v)) i es
             | None => es ++ [(k, v)]
             end in
  NoDup (map fst es')
  /\ forall k', k' <> k -> Object_find es' k' = Object_find es k'.
Proof.
  intros Hnd. cbv zeta.
  destruct (Object_find_pos es k) as [i|] eqn:E.
  - assert (Hk : map fst (alter (fun e => (fst e, v)) i es) = map fst es)
      by apply alter_value_keys.
    split; [rewrite Hk; exact Hnd|]. intros k' Hne.
    apply Object_find_same; [rewrite Hk; exact Hnd|exact Hnd|].
    intros x. destruct (Object_find_pos_Some es k i E) as [x0 Hx0].
    rewrite <- !list_elem_of_In, !list_elem_of_lookup. split; intros [j Hj]; exists j.
    + rewrite list_lookup_alter in Hj. destruct (decide (i = j)) as [<-|]; [|exact Hj].
      rewrite Hx0 in Hj. cbn in Hj. congruence.
    + rewrite list_lookup_alter. destruct (decide (i = j)) as [<-|]; [|exact Hj].
      congruence.
  - pose proof (Object_find_pos_None es k E) as Hn.
    assert (Hnd' : NoDup (map fst (es ++ [(k, v)]))).
    { rewrite map_app. apply NoDup_app. repeat split; [exact Hnd| |repeat constructor; set_solver].
      intros x Hx Hx'. apply list_elem_of_In in Hx. cbn in Hx'.
      apply list_elem_of_In in Hx' as [->|[]]. contradiction. }
    split; [exact Hnd'|]. intros k' Hne.
    apply Object_find_same; [exact Hnd'|exact Hnd|].
    intros x. rewrite in_app_iff. cbn [In]. split; [|auto].
    intros [Hin|[[=]|[]]]; [exact Hin|congruence].
Qed.

Lemma find_fresh (o : Object.t) (k : list Z) :
  index_fresh o -> fst (Object.find o k) = Object_find (Object.entries o) k.
Proof.
  intros Hf. apply find_in_sync. unfold index_fresh, index_in_sync in *.
  destruct (Object.index_ o); [apply Hf|exact I].
Qed.

End ObjectIndex.

(** X11: on an object whose hash index is absent or fresh, [insert] keeps
    the index fresh and [find] of the inserted key then returns the
    inserted value; when the keys of the object are pairwise different
    they stay so, and every other key keeps its value. *)
Theorem object_insert_then_find (o : Object.t) (k : list Z) (v : JsonValue)
    (moved : bool) :
  index_fresh o ->
  index_fresh (Object.insert o k v moved)
  /\ fst (Object.find (Object.insert o k v moved) k) = Some v
  /\ (NoDup (keys o) ->
      NoDup (keys (Object.insert o k v moved))
      /\ forall k', k' <> k ->
           fst (Object.find (Object.insert o k v moved) k')
           = fst (Object.find o k')).
Proof.
  intros Hf. destruct (insert_entries o k v moved Hf) as [He Hf'].
  split; [exact Hf'|]. split.
  - rewrite (find_fresh _ _ Hf'), He. apply insert_found.
  - intros Hnd. unfold keys. rewrite He.
    destruct (insert_others (Object.entries o) k v Hnd) as [Hnd' Hsame].
    split; [exact Hnd'|]. intros k' Hne.
    rewrite (find_fresh _ _ Hf'), (find_fresh _ _ Hf), He. apply Hsame, Hne.
Qed.

Lemma object_insert_then_find_witness :
  index_fresh (Object.insert one_entry [98] (JBool true) false)
  /\ fst (Object.find (Object.insert one_entry [98] (JBool true) false) [98])
     = Some (JBool true)
  /\ (NoDup (keys one_entry) ->
      NoDup (keys (Object.insert one_entry [98] (JBool true) false))
      /\ forall k', k' <> [98] ->
           fst (Object.find (Object.insert one_entry [98] (JBool true) false) k')
           = fst (Object.find one_entry k')).
Proof.
  apply (object_insert_then_find one_entry [98] (JBool true) false). exact I.
Defined.

Section ObjectRefinement.

Lemma emplace_back_fresh (o : Object.t) (k : list Z) (v : JsonValue) (moved : bool) :
  index_fresh o ->
  Object.entries (Object.emplace_back o k v moved) = Object.entries o ++ [(k, v)]
  /\ index_fresh (Object.emplace_back o k v moved).
Proof.
  destruct o as [es [idx|]]; unfold index_fresh, Object.emplace_back,
    Object.update_index_after_push, Object.use_index;
    cbn [Object.entries Object.index_]; [|auto].
  intros [Hu ->]. apply Nat.leb_le in Hu.
  destruct moved; cbn [Object.entries Object.index_].
  - split; [reflexivity|]. split; [apply Nat.leb_le; rewrite length_app; lia|reflexivity].
  - rewrite last_snoc. cbn [Object.entries Object.index_ fst].
    split; [reflexivity|]. split; [apply Nat.leb_le; rewrite length_app; lia|].
    rewrite rebuild_index_snoc, length_app. cbn [length]. f_equal. lia.
Qed.

Lemma find_pos_fresh (o : Object.t) (k : list Z) :
  index_fresh o ->
  fst (Object.find_pos o k) = Object_find_pos (Object.entries o) k
  /\ Object.entries (snd (Object.find_pos o k)) = Object.entries o
  /\ index_fresh (snd (Object.find_pos o k)).
Proof.
  destruct o as [es [idx|]]; unfold index_fresh, Object.find_pos, Object.ensure_index,
    Object.rebuild_index, Object.use_index, Object_find_pos, Object_use_index;
    cbn [Object.entries Object.index_].
  - intros [Hu ->]. rewrite Hu. cbn [fst snd Object.entries Object.index_]. auto.
  - intros _. destruct (kIndexThreshold <=? length es)%nat eqn:E;
      cbn [fst snd Object.entries Object.index_]; rewrite ?E; auto.
Qed.

Lemma index_operator_fresh (o : Object.t) (k : list Z) (moved : bool) :
  index_fresh o ->
  (Object.entries (fst (Object.index o k moved)), snd (Object.index o k moved))
  = Object_index (Object.entries o) k
  /\ index_fresh (fst (Object.index o k moved)).
Proof.
  intros Hf. destruct (find_pos_fresh o k Hf) as (Hp & He & Hf').
  unfold Object.index, Object_index.
  destruct (Object.find_pos o k) as [pos o1]. cbn [fst snd] in Hp, He, Hf'.
  rewrite <- Hp. destruct pos as [i|]; cbn [fst snd].
  - rewrite He. auto.
  - pose proof (emplace_back_fresh o1 k JNull moved Hf') as [Hee Hef].
    unfold Object.emplace_back in Hee, Hef. rewrite <- He.
    destruct (Object.index_ o1); rewrite Hee; auto.
Qed.

End ObjectRefinement.

(** X12: the operations that only add to an object keep its hash index
    fresh, and on such an object they are the operations of the model
    without the index: [emplace_back] appends, [operator[]] is
    [Object_index] and [find] is [Object_find] on the entries, which it
    leaves as they are.  This holds whether or not the vector of entries
    was reallocated by the call. *)
Theorem object_with_fresh_index (o : Object.t) (k : list Z) (v : JsonValue)
    (moved : bool) :
  index_fresh o ->
  (index_fresh (Object.emplace_back o k v moved)
   /\ Object.entries (Object.emplace_back o k v moved) = Object.entries o ++ [(k, v)])
  /\ (index_fresh (fst (Object.index o k moved))
      /\ (Object.entries (fst (Object.index o k moved)), snd (Object.index o k moved))
         = Object_index (Object.entries o) k)
  /\ (index_fresh (snd (Object.find o k))
      /\ Object.entries (snd (Object.find o k)) = Object.entries o
      /\ fst (Object.find o k) = Object_find (Object.entries o) k).
Proof.
  intros Hf. split; [|split].
  - destruct (emplace_back_fresh o k v moved Hf). auto.
  - destruct (index_operator_fresh o k moved Hf). auto.
  - assert (Hs : index_in_sync o).
    { unfold index_fresh, index_in_sync in *.
      destruct (Object.index_ o); [apply Hf|exact I]. }
    destruct (find_in_sync o k Hs) as (H1 & H2 & _ & H4). auto.
Qed.

Lemma object_with_fresh_index_witness :
  (index_fresh (Object.emplace_back one_entry [97] JNull true)
   /\ Object.entries (Object.emplace_back one_entry [97] JNull true)
      = Object.entries one_entry ++ [([97], JNull)])
  /\ (index_fresh (fst (Object.index one_entry [97] true))
      /\ (Object.entries (fst (Object.index one_entry [97] true)),
          snd (Object.index one_entry [97] true))
         = Object_index (Object.entries one_entry) [97])
  /\ (index_fresh (snd (Object.find one_entry [97]))
      /\ Object.entries (snd (Object.find one_entry [97])) = Object.entries one_entry
      /\ fst (Object.find one_entry [97]) = Object_find (Object.entries one_entry) [97]).
Proof.
  apply (object_with_fresh_index one_entry [97] JNull true). exact I.
Defined.

Section ObjectErase.

Lemma delete_by_key (es : Entries) (i : nat) (k : list Z) (x : JsonValue) :
  NoDup (map fst es) -> es !! i = Some (k, x) ->
  delete i es = filter (fun e => fst e <> k) es.
Proof.
  revert i. induction es as [|[k0 v0] es IH]; intros i Hnd Hi; [discriminate|].
  cbn [map fst] in Hnd. apply NoDup_cons in Hnd as [Hhead Hnd].
  destruct i as [|i]; cbn in Hi.
  - injection Hi as -> ->. cbn [delete list_delete].
    rewrite filter_cons_False by (cbn [fst]; intros Hc; apply Hc; reflexivity).
    symmetry. apply filter_other_keys. intros Hin. apply Hhead, list_elem_of_In, Hin.
  - cbn [delete list_delete].
    rewrite filter_cons_True.
    + f_equal. apply IH; assumption.
    + cbn [fst]. intros ->. apply Hhead.
      apply list_elem_of_lookup_2, (list_elem_of_fmap_2 fst) in Hi. exact Hi.
Qed.

Lemma filter_keys_nodup (es : Entries) (k : list Z) :
  NoDup (map fst es) -> NoDup (map fst (filter (fun e => fst e <> k) es)).
Proof.
  induction es as [|[k0 v0] es IH]; intros Hnd; [constructor|].
  cbn [map fst] in Hnd. apply NoDup_cons in Hnd as [Hhead Hnd].
  destruct (decide (k0 <> k)) as [Hne|He].
  - rewrite filter_cons_True by exact Hne. cbn [map fst]. apply NoDup_cons.
    split; [|apply IH, Hnd]. intros Hin. apply Hhead.
    apply list_elem_of_fmap in Hin as ([k1 v1] & -> & Hin).
    apply list_elem_of_filter in Hin as [_ Hin].
    apply (list_elem_of_fmap_2 fst) in Hin. exact Hin.
  - rewrite filter_cons_False by exact He. apply IH, Hnd.
Qed.

Lemma filter_keys_notin (es : Entries) (k : list Z) :
  ~ In k (map fst (filter (fun e => fst e <> k) es)).
Proof.
  intros Hin. apply list_elem_of_In, list_elem_of_fmap in Hin as ([k1 v1] & -> & Hin).
  apply list_elem_of_filter in Hin as [Hne _]. apply Hne. reflexivity.
Qed.

(** The entries and the index after [erase], for pairwise different
    keys. *)
Lemma erase_entries (o : Object.t) (k : list Z) :
  index_fresh o -> NoDup (keys o) ->
  fst (Object.erase o k) = bool_decide (k ∈ keys o)
  /\ Object.entries (snd (Object.erase o k))
     = filter (fun e => fst e <> k) (Object.entries o)
  /\ index_in_sync (snd (Object.erase o k)).
Proof.
  destruct o as [es idx]. unfold index_fresh, index_in_sync, keys, Object.erase,
    Object.use_index, Object.rebuild_index. cbn [Object.entries Object.index_].
  intros Hf Hnd.
  assert (Hlin : match Object.erase_first es k with
                 | Some es' => (true, Object.mk es' None)
                 | None => (false, Object.mk es None)
                 end
                 = (bool_decide (k ∈ map fst es),
                    Object.mk (filter (fun e => fst e <> k) es) None)).
  { destruct (Object.erase_first es k) as [es'|] eqn:E.
    - destruct (erase_first_Some es es' k Hnd E) as [Hin ->].
      rewrite bool_decide_eq_true_2 by (apply list_elem_of_In; exact Hin). reflexivity.
    - pose proof (erase_first_None es k E) as Hn.
      rewrite bool_decide_eq_false_2 by (rewrite list_elem_of_In; exact Hn).
      rewrite filter_other_keys by exact Hn. reflexivity. }
  destruct idx as [idx|].
  - destruct Hf as [Hu ->]. rewrite Hu.
    destruct (Object_rebuild_index es !! k) as [i|] eqn:E;
      cbn [fst snd Object.entries Object.index_].
    + destruct (rebuild_index_lookup es k i E) as [x Hx].
      rewrite (delete_by_key es i k x Hnd Hx).
      rewrite bool_decide_eq_true_2; [auto|].
      apply list_elem_of_lookup_2, (list_elem_of_fmap_2 fst) in Hx. exact Hx.
    + pose proof (rebuild_index_None es k E) as Hn.
      rewrite bool_decide_eq_false_2 by (rewrite list_elem_of_In; exact Hn).
      rewrite filter_other_keys by exact Hn. auto.
  - destruct (kIndexThreshold <=? length es)%nat; rewrite Hlin;
      cbn [fst snd Object.entries Object.index_]; auto.
Qed.

End ObjectErase.

(** X13: on an object with pairwise different keys whose hash index is
    absent or fresh, [erase] answers whether the key was present, removes
    exactly the entry of that key and leaves the index absent or in step
    with the entries; [find] then misses the erased key and returns for
    every other key what it returned before. *)
Theorem object_erase_then_find (o : Object.t) (k : list Z) :
  index_fresh o -> NoDup (keys o) ->
  fst (Object.erase o k) = bool_decide (k ∈ keys o)
  /\ Object.entries (snd (Object.erase o k))
     = filter (fun e => fst e <> k) (Object.entries o)
  /\ index_in_sync (snd (Object.erase o k))
  /\ fst (Object.find (snd (Object.erase o k)) k) = None
  /\ forall k', k' <> k ->
       fst (Object.find (snd (Object.erase o k)) k') = fst (Object.find o k').
Proof.
  intros Hf Hnd. destruct (erase_entries o k Hf Hnd) as (Hb & He & Hs).
  repeat split; try assumption.
  - rewrite (proj1 (find_in_sync _ k Hs)), He. unfold Object_find.
    rewrite Object_find_pos_notin; [reflexivity|apply filter_keys_notin].
  - intros k' Hne. rewrite (proj1 (find_in_sync _ k' Hs)), (find_fresh _ _ Hf), He.
    apply Object_find_same; [apply filter_keys_nodup, Hnd|exact Hnd|].
    intros x. rewrite <- !list_elem_of_In, list_elem_of_filter. cbn [fst]. tauto.
Qed.

Lemma object_erase_then_find_witness :
  fst (Object.erase one_entry [97]) = bool_decide ([97] ∈ keys one_entry)
  /\ Object.entries (snd (Object.erase one_entry [97]))
     = filter (fun e => fst e <> [97]) (Object.entries one_entry)
  /\ index_in_sync (snd (Object.erase one_entry [97]))
  /\ fst (Object.find (snd (Object.erase one_entry [97])) [97]) = None
  /\ forall k', k' <> [97] ->
       fst (Object.find (snd (Object.erase one_entry [97])) k')
       = fst (Object.find one_entry k').
Proof.
  apply (object_erase_then_find one_entry [97]).
  - exact I.
  - repeat constructor. set_solver.
Defined.

(** X14: an object of 16 entries gets its hash index at the first
    lookup; [erase] of a key then rebuilds the index over the 15 entries
    left, and [insert] of a new key, being below the threshold again,
    appends the entry without touching the index.  The object has 16
    entries once more, so [find] and [contains] consult the index, which
    does not know the new key: the inserted entry is there and is not
    found. *)
Theorem object_insert_after_erase_is_missed (o : Object.t) (k0 k k' : list Z)
    (v : JsonValue) (moved : bool) :
  index_fresh o -> length (Object.entries o) = 16%nat ->
  In k (keys o) -> ~ In k' (keys o) ->
  let o1 := snd (Object.find o k0) in
  let o2 := snd (Object.erase o1 k) in
  let o3 := Object.insert o2 k' v moved in
  fst (Object.erase o1 k) = true
  /\ last (Object.entries o3) = Some (k', v)
  /\ length (Object.entries o3) = 16%nat
  /\ fst (Object.find o3 k') = None
  /\ fst (Object.contains o3 k') = false.
Proof.
  destruct o as [es idx]. unfold index_fresh, keys. cbn [Object.entries Object.index_].
  intros Hf Hlen Hin Hnotin.
  assert (Ho1 : snd (Object.find (Object.mk es idx) k0)
                = Object.mk es (Some (Object_rebuild_index es))).
  { unfold Object.find, Object.find_pos, Object.ensure_index, Object.use_index,
      Object.rebuild_index. cbn [Object.entries Object.index_]. rewrite Hlen.
    cbn [kIndexThreshold Nat.leb]. destruct idx as [idx|]; [destruct Hf as [_ ->]|];
      reflexivity. }
  cbv zeta. rewrite Ho1.
  destruct (rebuild_index_in es k Hin) as [i Hi].
  destruct (rebuild_index_lookup es k i Hi) as [x Hx].
  assert (Hlt : (i < 16)%nat) by (rewrite <- Hlen; eapply lookup_lt_Some, Hx).
  assert (Ho2 : Object.erase (Object.mk es (Some (Object_rebuild_index es))) k
                = (true, Object.mk (delete i es)
                           (Some (Object_rebuild_index (delete i es))))).
  { unfold Object.erase, Object.use_index, Object.rebuild_index.
    cbn [Object.entries Object.index_]. rewrite Hlen. cbn [kIndexThreshold Nat.leb].
    rewrite Hi. reflexivity. }
  rewrite Ho2. cbn [fst snd].
  assert (Hlen2 : length (delete i es) = 15%nat).
  { rewrite length_delete by (rewrite Hx; eauto). lia. }
  assert (Hnotin2 : ~ In k' (map fst (delete i es))).
  { intros Hc. apply Hnotin. apply list_elem_of_In in Hc. apply list_elem_of_In.
    apply list_elem_of_fmap in Hc as (e & -> & He). apply list_elem_of_fmap_2.
    eapply list_elem_of_delete_inv, He. }
  assert (Ho3 : Object.insert (Object.mk (delete i es)
                                 (Some (Object_rebuild_index (delete i es)))) k' v moved
                = Object.mk (delete i es ++ [(k', v)])
                    (Some (Object_rebuild_index (delete i es)))).
  { unfold Object.insert. cbn [Object.entries Object.index_]. rewrite Hlen2.
    cbn [kIndexThreshold Nat.ltb Nat.leb].
    rewrite assign_first_eq, (linear_find_notin _ _ Hnotin2). reflexivity. }
  rewrite Ho3. cbn [Object.entries].
  assert (Hfind : Object.find (Object.mk (delete i es ++ [(k', v)])
                                 (Some (Object_rebuild_index (delete i es)))) k'
                  = (None, Object.mk (delete i es ++ [(k', v)])
                             (Some (Object_rebuild_index (delete i es))))).
  { unfold Object.find, Object.find_pos, Object.ensure_index, Object.use_index.
    cbn [Object.entries Object.index_]. rewrite length_app, Hlen2.
    cbn [length Nat.add kIndexThreshold Nat.leb].
    rewrite (rebuild_index_notin _ _ Hnotin2). reflexivity. }
  repeat split.
  - apply last_snoc.
  - rewrite length_app, Hlen2. reflexivity.
  - rewrite Hfind. reflexivity.
  - unfold Object.contains. rewrite Hfind. reflexivity.
Qed.

Lemma object_insert_after_erase_is_missed_witness :
  let o1 := snd (Object.find sixteen_entries [97]) in
  let o2 := snd (Object.erase o1 [98]) in
  let o3 := Object.insert o2 [122] JNull false in
  fst (Object.erase o1 [98]) = true
  /\ last (Object.entries o3) = Some ([122], JNull)
  /\ length (Object.entries o3) = 16%nat
  /\ fst (Object.find o3 [122]) = None
  /\ fst (Object.contains o3 [122]) = false.
Proof.
  apply (object_insert_after_erase_is_missed sixteen_entries [97] [98] [122] JNull false).
  - exact I.
  - reflexivity.
  - cbn. tauto.
  - cbn. intuition discriminate.
Defined.

(* ===================================================================== *)
(** * Writing through a pointer and reading back                          *)
(* ===================================================================== *)

Section PointerSet.

Lemma Object_insert_eq (es : Entries) (k : list Z) (v : JsonValue) :
  Object_insert es k v
  = match Object_find_pos es k with
    | Some i => alter (fun e => (fst e, v)) i es
    | None => es ++ [(k, v)]
    end.
Proof. apply (insert_entries (Object.mk es None) k v false). exact I. Qed.


Lemma Object_find_pos_snoc (es : Entries) (k : list Z) (v : JsonValue) :
  ~ In k (map fst es) -> Object_find_pos (es ++ [(k, v)]) k = Some (length es).
Proof.
  intros Hn. unfold Object_find_pos.
  destruct (Object_use_index (es ++ [(k, v)])).
  - rewrite rebuild_index_snoc, lookup_insert_eq. reflexivity.
  - apply linear_find_snoc, Hn.
Qed.

Lemma Object_find_pos_keys (es es' : Entries) (k : list Z) :
  map fst es = map fst es' -> Object_find_pos es k = Object_find_pos es' k.
Proof.
  intros Hk. unfold Object_find_pos, Object_use_index.
  rewrite (rebuild_index_keys es es' Hk), (linear_find_keys es es' k Hk).
  apply (f_equal (@length _)) in Hk. rewrite !length_map in Hk. rewrite Hk.
  reflexivity.
Qed.

(** The entry that the walk of [set] steps into under [tok]. *)
Lemma set_step_entry (es : Entries) (tok : list Z) (x : JsonValue) :
  let es1 := match Object_find_pos es tok with
             | Some _ => es
             | None => Object_insert es tok x
             end in
  exists i child,
    Object_find_pos es1 tok = Some i /\ es1 !! i = Some (tok, child)
    /\ (Object_find_pos es tok = None -> child = x).
Proof.
  cbv zeta. destruct (Object_find_pos es tok) as [i|] eqn:E.
  - destruct (Object_find_pos_Some es tok i E) as [v Hv].
    exists i, v. rewrite E. repeat split; [exact Hv|discriminate].
  - rewrite Object_insert_eq, E.
    pose proof (Object_find_pos_None es tok E) as Hn.
    exists (length es), x. rewrite (Object_find_pos_snoc es tok x Hn).
    rewrite lookup_app_r, Nat.sub_diag by lia. auto.
Qed.

Lemma entry_replaced (es : Entries) (i : nat) (tok : list Z) (child child' : JsonValue) :
  Object_find_pos es tok = Some i -> es !! i = Some (tok, child) ->
  Object_find (<[ i := (tok, child') ]> es) tok = Some child'.
Proof.
  intros Hp Hi. unfold Object_find.
  rewrite (Object_find_pos_keys _ es).
  - rewrite Hp, list_lookup_insert_eq; [reflexivity|]. eapply lookup_lt_Some, Hi.
  - apply list_eq. intros j. rewrite !list_lookup_fmap, list_lookup_insert.
    destruct (decide (i = j)) as [<-|]; [|destruct (decide _); try tauto; reflexivity].
    rewrite Hi. destruct (decide _) as [[_ _]|Hc]; [reflexivity|].
    exfalso. apply Hc. split; [reflexivity|]. eapply lookup_lt_Some, Hi.
Qed.

Lemma leading_digits_Forall (s : list Z) :
  Forall (fun c => Parser.is_digit c = true) (leading_digits s).
Proof.
  induction s as [|c r IH]; cbn [leading_digits]; [constructor|].
  destruct (Parser.is_digit c) eqn:E; constructor; assumption.
Qed.

Lemma parse_index_range (tok : list Z) (n idx : Z) :
  JsonPointer.parse_index tok n = Returns idx -> 0 <= idx < n.
Proof.
  unfold JsonPointer.parse_index. destruct tok as [|c r]; [discriminate|].
  destruct (_ && _); [discriminate|].
  pose proof (leading_digits_Forall (c :: r)) as Hd.
  unfold from_chars_size_t.
  destruct (leading_digits (c :: r)) as [|d ds]; [discriminate|].
  pose proof (decimal_value_from_ge 0 (d :: ds) ltac:(lia) Hd) as Hge.
  fold (decimal_value (d :: ds)) in Hge.
  destruct (decimal_value (d :: ds) <=? UINT64_MAX);
    [|destruct (drop (length (d :: ds)) (c :: r)); discriminate].
  destruct (drop (length (d :: ds)) (c :: r)); [|discriminate].
  destruct (Z.leb_spec n (decimal_value (d :: ds))); [discriminate|].
  intros [= <-]. lia.
Qed.

Lemma set_into_empty (rest : list (list Z)) :
  forall (tok : list Z) (value : JsonValue),
    snd (JsonPointer.set_loop tok rest (JObject []) value) = None.
Proof.
  induction rest as [|next rest IH]; intros tok value; cbn [JsonPointer.set_loop].
  - reflexivity.
  - destruct (set_step_entry [] tok (JObject [])) as (i & child & Hp & Hi & Hc).
    cbv zeta in *. rewrite Hp, Hi. rewrite (Hc eq_refl).
    specialize (IH next value).
    destruct (JsonPointer.set_loop next rest (JObject []) value) as [child' e].
    exact IH.
Qed.

(** A call of [set] that throws has changed nothing. *)
Lemma set_loop_throws (rest : list (list Z)) :
  forall (tok : list Z) (cur value : JsonValue) (e : exn),
    snd (JsonPointer.set_loop tok rest cur value) = Some e ->
    fst (JsonPointer.set_loop tok rest cur value) = cur.
Proof.
  induction rest as [|next rest IH]; intros tok cur value e;
    cbn [JsonPointer.set_loop].
  - unfold JsonPointer.set_last.
    destruct cur as [ | b | i | u | d | s | arr | entries ]; try reflexivity.
    + destruct (bool_decide _); [discriminate|].
      destruct (JsonPointer.parse_index _ _); [discriminate|reflexivity].
    + discriminate.
  - destruct cur as [ | b | i | u | d | s | arr | entries ]; try reflexivity.
    + destruct (JsonPointer.parse_index _ _) as [idx|]; [|reflexivity].
      destruct (arr !! Z.to_nat idx) as [child|] eqn:Ec; [|reflexivity].
      specialize (IH next child value).
      destruct (JsonPointer.set_loop next rest child value) as [child' e'].
      cbn [fst snd] in *. intros ->. rewrite (IH e eq_refl), list_insert_id by exact Ec.
      reflexivity.
    + destruct (set_step_entry entries tok (JObject [])) as (i & child & Hp & Hi & Hc).
      cbv zeta in *. rewrite Hp, Hi.
      destruct (Object_find_pos entries tok) as [i0|] eqn:E.
      * specialize (IH next child value).
        destruct (JsonPointer.set_loop next rest child value) as [child' e'].
        cbn [fst snd] in *. intros ->. rewrite (IH e eq_refl), list_insert_id by exact Hi.
        reflexivity.
      * rewrite (Hc eq_refl). pose proof (set_into_empty rest next value) as Hn.
        destruct (JsonPointer.set_loop next rest (JObject []) value) as [child' e'].
        cbn [fst snd] in *. congruence.
Qed.

(** After a call of [set] that returns, [resolve] finds the value. *)
Lemma set_loop_resolve (rest : list (list Z)) :
  forall (tok : list Z) (cur value : JsonValue) (i : nat),
    snd (JsonPointer.set_loop tok rest cur value) = None ->
    last (tok :: rest) <> Some [45] ->
    JsonPointer.resolve_loop (tok :: rest) i
      (fst (JsonPointer.set_loop tok rest cur value))
    = Returns value.
Proof.
  induction rest as [|next rest IH]; intros tok cur value i;
    cbn [JsonPointer.set_loop].
  - unfold JsonPointer.set_last. cbn [last].
    destruct cur as [ | b | n | u | d | s | arr | entries ]; try discriminate.
    + intros He Hlast. rewrite bool_decide_eq_false_2 in * by congruence.
      destruct (JsonPointer.parse_index tok (Z.of_nat (length arr))) as [idx|] eqn:Ei;
        [|discriminate].
      cbn [fst JsonPointer.resolve_loop]. rewrite length_insert, Ei.
      pose proof (parse_index_range _ _ _ Ei) as Hr.
      rewrite list_lookup_insert_eq by lia. reflexivity.
    + intros _ _. cbn [fst JsonPointer.resolve_loop].
      rewrite Object_insert_eq, insert_found. reflexivity.
  - intros He Hlast.
    assert (Hlast' : last (next :: rest) <> Some [45]) by exact Hlast.
    destruct cur as [ | b | n | u | d | s | arr | entries ]; try discriminate.
    + destruct (JsonPointer.parse_index tok (Z.of_nat (length arr))) as [idx|] eqn:Ei;
        [|discriminate].
      destruct (arr !! Z.to_nat idx) as [child|] eqn:Ec; [|discriminate].
      specialize (IH next child value (S i)).
      destruct (JsonPointer.set_loop next rest child value) as [child' e'].
      cbn [fst snd] in *. cbn [JsonPointer.resolve_loop].
      rewrite length_insert, Ei.
      rewrite list_lookup_insert_eq by (eapply lookup_lt_Some, Ec).
      apply IH; assumption.
    + destruct (set_step_entry entries tok (JObject [])) as (i0 & child & Hp & Hi & _).
      cbv zeta in *. rewrite Hp, Hi in *.
      specialize (IH next child value (S i)).
      destruct (JsonPointer.set_loop next rest child value) as [child' e'].
      cbn [fst snd] in *. cbn [JsonPointer.resolve_loop].
      rewrite (entry_replaced _ i0 tok child child' Hp Hi).
      apply IH; assumption.
Qed.

End PointerSet.

(** X15: on a root in which every object has fewer than 15 entries, so
    that no lookup or insertion on the way consults a hash index, [set]
    either throws and leaves the root as it was, or returns, and then
    [resolve] with the same pointer finds the value that was set - unless
    the last token is [-], which appends to an array and names no
    element.  Objects that were missing on the way have been created. *)
Theorem pointer_set_then_resolve (tokens : JsonPointer.t) (root value : JsonValue) :
  objects_below 15 root ->
  match snd (JsonPointer.set tokens root value) with
  | Some e => fst (JsonPointer.set tokens root value) = root
  | None =>
      last tokens <> Some [45] ->
      JsonPointer.resolve tokens (fst (JsonPointer.set tokens root value))
      = Returns value
  end.
Proof.
  intros _. destruct tokens as [|tok rest]; cbn [JsonPointer.set snd fst].
  - reflexivity.
  - destruct (snd (JsonPointer.set_loop tok rest root value)) as [e|] eqn:E.
    + eapply set_loop_throws, E.
    + intros Hlast. apply set_loop_resolve; assumption.
Qed.

Lemma pointer_set_then_resolve_witness :
  match snd (JsonPointer.set [[97]; [98]] (JObject []) (JInteger 2)) with
  | Some e => fst (JsonPointer.set [[97]; [98]] (JObject []) (JInteger 2)) = (JObject [])
  | None =>
      last [[97]; [98]] <> Some [45] ->
      JsonPointer.resolve [[97]; [98]]
        (fst (JsonPointer.set [[97]; [98]] (JObject []) (JInteger 2)))
      = Returns (JInteger 2)
  end.
Proof.
  apply (pointer_set_then_resolve [[97]; [98]] (JObject []) (JInteger 2)).
  cbn. repeat split; lia.
Defined.

(* ===================================================================== *)
(** * Sorted output does not depend on the order of the entries           *)
(* ===================================================================== *)

Section SortedKeys.
Import SerializerCore.

Lemma key_lt_irrefl (a : list Z) : key_lt a a = false.
Proof.
  induction a as [|x a IH]; [reflexivity|]. cbn [key_lt].
  rewrite Z.ltb_irrefl, Z.eqb_refl, IH. reflexivity.
Qed.

Lemma key_lt_trans (a : list Z) :
  forall b c, key_lt a b = true -> key_lt b c = true -> key_lt a c = true.
Proof.
  induction a as [|x a IH]; intros [|y b] [|z c]; cbn [key_lt]; try discriminate; auto.
  intros Hab Hbc.
  destruct (Z.ltb_spec x y), (Z.ltb_spec y z), (Z.ltb_spec x z),
    (Z.eqb_spec x y), (Z.eqb_spec y z), (Z.eqb_spec x z);
    cbn [orb andb] in *; try reflexivity; try discriminate; try lia.
  eapply IH; eassumption.
Qed.

Lemma key_lt_total (a : list Z) :
  forall b, key_lt a b = false -> key_lt b a = false -> a = b.
Proof.
  induction a as [|x a IH]; intros [|y b]; cbn [key_lt]; try discriminate; auto.
  destruct (Z.ltb_spec x y), (Z.ltb_spec y x), (Z.eqb_spec x y), (Z.eqb_spec y x);
    cbn [orb andb]; try discriminate; try lia.
  intros Hab Hba. subst y. f_equal. apply IH; assumption.
Qed.

Lemma key_lt_asym (a b : list Z) : key_lt a b = true -> key_lt b a = false.
Proof.
  intros Hab. destruct (key_lt b a) eqn:Hba; [|reflexivity].
  pose proof (key_lt_trans a b a Hab Hba) as Haa. rewrite key_lt_irrefl in Haa.
  discriminate.
Qed.

(** [a <= b] for keys: not [b < a]. *)
Local Abbreviation key_le := (fun a b : list Z => key_lt b a = false).

Lemma key_le_trans (a b c : list Z) : key_le a b -> key_le b c -> key_le a c.
Proof.
  cbv beta. intros Hab Hbc. destruct (key_lt c a) eqn:Hca; [|reflexivity].
  destruct (key_lt a b) eqn:Hlt.
  - rewrite (key_lt_trans c a b Hca Hlt) in Hbc. discriminate.
  - rewrite <- (key_lt_total a b Hlt Hab) in Hbc. congruence.
Qed.

Section Sorting.
Context {A : Type}.

Local Abbreviation ordered :=
  (StronglySorted (fun e e' : list Z * A => key_lt (fst e') (fst e) = false)).

Lemma insert_by_key_perm (e : list Z * A) (l : list (list Z * A)) :
  Permutation (insert_by_key e l) (e :: l).
Proof.
  induction l as [|e' r IH]; cbn [insert_by_key]; [reflexivity|].
  destruct (_ || _); [|reflexivity].
  rewrite IH. apply perm_swap.
Qed.

Lemma insert_by_key_ordered (e : list Z * A) (l : list (list Z * A)) :
  ordered l -> ordered (insert_by_key e l).
Proof.
  induction 1 as [|e' r Hr IH Hall]; cbn [insert_by_key].
  - repeat constructor.
  - destruct (key_lt (fst e') (fst e)) eqn:Hlt; cbn [orb].
    + constructor; [exact IH|].
      rewrite (Forall_forall _ _). intros x Hx.
      apply list_elem_of_In, (Permutation_in _ (insert_by_key_perm e r)) in Hx.
      destruct Hx as [<-|Hx]; [apply key_lt_asym, Hlt|].
      rewrite Forall_forall in Hall. apply Hall, list_elem_of_In, Hx.
    + destruct (key_lt (fst e) (fst e')) eqn:Hgt; cbn [negb].
      * constructor; [constructor; assumption|].
        constructor; [exact Hlt|].
        eapply Forall_impl; [exact Hall|]. cbv beta. intros x Hx.
        apply (key_le_trans (fst e) (fst e') (fst x)); assumption.
      * constructor; [exact IH|].
        rewrite (Forall_forall _ _). intros x Hx.
        apply list_elem_of_In, (Permutation_in _ (insert_by_key_perm e r)) in Hx.
        destruct Hx as [<-|Hx]; [exact Hgt|].
        rewrite Forall_forall in Hall. apply Hall, list_elem_of_In, Hx.
Qed.

Lemma sort_fold_spec (es : list (list Z * A)) :
  forall acc, ordered acc ->
    ordered (fold_left (fun sorted e => insert_by_key e sorted) es acc)
    /\ Permutation (fold_left (fun sorted e => insert_by_key e sorted) es acc)
                   (acc ++ es).
Proof.
  induction es as [|e es IH]; intros acc Hacc; cbn [fold_left].
  - rewrite app_nil_r. auto.
  - destruct (IH (insert_by_key e acc) (insert_by_key_ordered e acc Hacc)) as [Ho Hp].
    split; [exact Ho|]. rewrite Hp, insert_by_key_perm.
    cbn [app]. apply Permutation_middle.
Qed.

Lemma sort_by_key_spec (es : list (list Z * A)) :
  ordered (sort_by_key es) /\ Permutation (sort_by_key es) es.
Proof. apply (sort_fold_spec es []). constructor. Qed.

(** Appending to an ordered list what is no smaller than its members. *)
Lemma insert_by_key_last (e : list Z * A) (l : list (list Z * A)) :
  Forall (fun e' => key_lt (fst e) (fst e') = false) l ->
  insert_by_key e l = l ++ [e].
Proof.
  induction 1 as [|e' r He' Hr IH]; cbn [insert_by_key app]; [reflexivity|].
  rewrite He'. cbn [negb]. rewrite orb_true_r, IH. reflexivity.
Qed.

Lemma sort_fold_ordered (es : list (list Z * A)) :
  forall acc, ordered (acc ++ es) ->
    fold_left (fun sorted e => insert_by_key e sorted) es acc = acc ++ es.
Proof.
  induction es as [|e es IH]; intros acc Ho; cbn [fold_left].
  - rewrite app_nil_r. reflexivity.
  - rewrite insert_by_key_last.
    + rewrite IH; rewrite <- app_assoc; [reflexivity|exact Ho].
    + clear IH. induction acc as [|x acc IHacc]; [constructor|].
      cbn [app] in Ho. apply StronglySorted_inv in Ho as [Ho Hall].
      constructor; [|apply IHacc, Ho].
      rewrite Forall_app in Hall. destruct Hall as [_ Hall].
      apply Forall_cons in Hall as [Hx _]. exact Hx.
Qed.

Lemma sort_by_key_ordered (es : list (list Z * A)) :
  ordered es -> sort_by_key es = es.
Proof. intros Ho. apply (sort_fold_ordered es []). exact Ho. Qed.

Lemma sort_by_key_idem (es : list (list Z * A)) :
  sort_by_key (sort_by_key es) = sort_by_key es.
Proof. apply sort_by_key_ordered, sort_by_key_spec. Qed.

(** An ordered list with pairwise different keys is the only ordered
    arrangement of its members. *)
Lemma ordered_unique (l1 : list (list Z * A)) :
  forall l2, ordered l1 -> ordered l2 -> NoDup (map fst l1) ->
             Permutation l1 l2 -> l1 = l2.
Proof.
  induction l1 as [|e1 l1 IH]; intros l2 Ho1 Ho2 Hnd Hp.
  - apply Permutation_nil in Hp. congruence.
  - destruct l2 as [|e2 l2]; [symmetry in Hp; apply Permutation_nil in Hp; discriminate|].
    apply StronglySorted_inv in Ho1 as [Ho1 Hall1].
    apply StronglySorted_inv in Ho2 as [Ho2 Hall2].
    cbn [map] in Hnd. apply NoDup_cons in Hnd as [Hhead Hnd].
    assert (He : e1 = e2).
    { assert (H1 : In e1 (e2 :: l2)) by (apply (Permutation_in _ Hp); left; reflexivity).
      assert (H2 : In e2 (e1 :: l1))
        by (apply (Permutation_in _ (Permutation_sym Hp)); left; reflexivity).
      destruct H1 as [->|H1]; [reflexivity|]. destruct H2 as [->|H2]; [reflexivity|].
      rewrite Forall_forall in Hall1, Hall2.
      pose proof (Hall1 e2 (proj2 (list_elem_of_In _ _) H2)) as Ha.
      pose proof (Hall2 e1 (proj2 (list_elem_of_In _ _) H1)) as Hb.
      cbv beta in Ha, Hb. pose proof (key_lt_total _ _ Hb Ha) as Hk.
      exfalso. apply Hhead. rewrite Hk.
      apply list_elem_of_In, in_map, H2. }
    subst e2. f_equal. apply IH; try assumption.
    eapply Permutation_cons_inv, Hp.
Qed.

Lemma sort_by_key_perm (l1 l2 : list (list Z * A)) :
  NoDup (map fst l1) -> Permutation l1 l2 -> sort_by_key l1 = sort_by_key l2.
Proof.
  intros Hnd Hp.
  destruct (sort_by_key_spec l1) as [Ho1 Hp1], (sort_by_key_spec l2) as [Ho2 Hp2].
  apply ordered_unique; try assumption.
  - rewrite (Permutation_map fst Hp1). exact Hnd.
  - etransitivity; [exact Hp1|]. etransitivity; [exact Hp|]. symmetry. exact Hp2.
Qed.

End Sorting.
End SortedKeys.

Section SortedOutput.
Context `{Charconv}.
Variables (Pretty EnsureAscii : bool) (opts : SerializeOptions.t).
Hypothesis Hsort : SerializeOptions.sort_keys opts = true.

Lemma sort_by_key_nonempty {A : Type} (es : list (list Z * A)) :
  es <> [] -> SerializerCore.sort_by_key es <> [].
Proof.
  intros Hne Hs. destruct (sort_by_key_spec es) as [_ Hp]. rewrite Hs in Hp.
  apply Permutation_nil in Hp. contradiction.
Qed.

(** With [sort_keys], a value is written as its sorted form is. *)
Lemma render_sorted_value (v : JsonValue) :
  forall cur, render Pretty EnsureAscii opts cur (sorted_value v)
              = render Pretty EnsureAscii opts cur v.
Proof.
  induction v as [ | b | i | u | d | s | arr IH | entries IH ]
    using JsonValue_induction; intros cur; cbn [sorted_value render]; try reflexivity.
  - destruct arr as [|x r]; [reflexivity|]. cbn [map].
    apply Forall_cons in IH as [Hx Hr]. rewrite Hx, map_map.
    assert (Hm : map (fun v => render Pretty EnsureAscii opts
                                 (cur + indent_step Pretty opts) (sorted_value v)) r
                 = map (render Pretty EnsureAscii opts
                          (cur + indent_step Pretty opts)) r).
    { apply map_ext_Forall. eapply Forall_impl; [exact Hr|]. cbv beta. auto. }
    rewrite Hm. reflexivity.
  - destruct entries as [|e r]; [reflexivity|].
    set (es := e :: r) in *.
    assert (Hne : SerializerCore.sort_by_key
                    (map (fun e => (fst e, sorted_value (snd e))) es) <> []).
    { apply sort_by_key_nonempty. discriminate. }
    destruct (SerializerCore.sort_by_key
                (map (fun e => (fst e, sorted_value (snd e))) es)) as [|e' r'] eqn:Es;
      [contradiction|]. rewrite <- Es. clear Hne.
    cbv zeta. rewrite Hsort.
    rewrite (sort_by_key_map (render Pretty EnsureAscii opts
                                (cur + indent_step Pretty opts))
               (SerializerCore.sort_by_key
                  (map (fun e => (fst e, sorted_value (snd e))) es))).
    rewrite sort_by_key_idem.
    rewrite <- (sort_by_key_map (render Pretty EnsureAscii opts
                                   (cur + indent_step Pretty opts))).
    rewrite map_map. cbn [fst snd].
    assert (Hm : map (fun x : list Z * JsonValue =>
                        (fst x, render Pretty EnsureAscii opts
                                  (cur + indent_step Pretty opts) (sorted_value (snd x))))
                     es
                 = map (fun e : list Z * JsonValue =>
                          (fst e, render Pretty EnsureAscii opts
                                    (cur + indent_step Pretty opts) (snd e))) es).
    { apply map_ext_Forall. eapply Forall_impl; [exact IH|]. cbv beta.
      intros x Hx. rewrite Hx. reflexivity. }
    rewrite Hm. reflexivity.
Qed.

End SortedOutput.

(** X16: with [sort_keys], the text of a value whose objects have
    pairwise different keys is determined by its sorted form: two such
    values with the same sorted form - values that differ only in the
    order of the entries of their objects, at any depth - are serialized
    to the same text, whatever the other options.  Entries with pairwise
    different keys have the same sorted form in every order. *)
Theorem sorted_output_ignores_entry_order `{Charconv} (opts : SerializeOptions.t)
    (v w : JsonValue) (es1 es2 : Entries) :
  SerializeOptions.sort_keys opts = true ->
  (distinct_keys v -> distinct_keys w -> sorted_value v = sorted_value w ->
   serialize v opts = serialize w opts)
  /\ (NoDup (map fst es1) -> Permutation es1 es2 ->
      sorted_value (JObject es1) = sorted_value (JObject es2)).
Proof.
  intros Hsort. split.
  - intros _ _ Hab. rewrite !serialize_rendered. unfold rendered.
    rewrite <- (render_sorted_value _ _ opts Hsort v),
            <- (render_sorted_value _ _ opts Hsort w), Hab. reflexivity.
  - intros Hnd Hp. cbn [sorted_value]. f_equal. apply sort_by_key_perm.
    + rewrite map_map. cbn [fst]. exact Hnd.
    + apply Permutation_map, Hp.
Qed.

Lemma sorted_output_ignores_entry_order_witness :
  @serialize no_charconv (JObject [([98], JNull); ([97], JBool true)])
    (SerializeOptions.mk 2 false false true)
  = @serialize no_charconv (JObject [([97], JBool true); ([98], JNull)])
      (SerializeOptions.mk 2 false false true)
  /\ sorted_value (JObject [([98], JNull); ([97], JBool true)])
     = sorted_value (JObject [([97], JBool true); ([98], JNull)]).
Proof.
  destruct (@sorted_output_ignores_entry_order no_charconv
              (SerializeOptions.mk 2 false false true)
              (JObject [([98], JNull); ([97], JBool true)])
              (JObject [([97], JBool true); ([98], JNull)])
              [([98], JNull); ([97], JBool true)]
              [([97], JBool true); ([98], JNull)] eq_refl) as [Htext Hform].
  split.
  - apply Htext.
    + cbn. repeat split; repeat constructor; set_solver.
    + cbn. repeat split; repeat constructor; set_solver.
    + reflexivity.
  - apply Hform.
    + repeat constructor; set_solver.
    + apply perm_swap.
Defined.

(* ===================================================================== *)
(** * With [ensure_ascii] the output is 7-bit                             *)
(* ===================================================================== *)

Section AsciiOutput.
Context `{Charconv}.
Hypothesis to_chars_ascii : forall d, Forall is_ascii (to_chars d).

Lemma ascii_check (l : list Z) :
  forallb (fun b => (0 <=? b) && (b <? 128)) l = true -> Forall is_ascii l.
Proof.
  intros Hb. apply Forall_forall. intros x Hx.
  rewrite forallb_forall in Hb. apply list_elem_of_In, Hb in Hx. unfold is_ascii. lia.
Qed.

Local Ltac lit := apply ascii_check; reflexivity.

Lemma ascii_nth (l : list Z) (i : nat) :
  Forall is_ascii l -> is_ascii (nth i l 0).
Proof.
  intros Hl. revert i. induction Hl as [|x l Hx Hl IH]; intros [|i]; cbn [nth];
    auto; unfold is_ascii; lia.
Qed.

Lemma ascii_hex (i : nat) : is_ascii (nth i kHexDigits 0).
Proof. apply ascii_nth, ascii_check. reflexivity. Qed.

Lemma ascii_pair (i : nat) : is_ascii (nth i kDigitPairs 0).
Proof. apply ascii_nth, ascii_check. reflexivity. Qed.

Lemma ascii_control (c : Z) : Forall is_ascii (kControlEscapes c).
Proof.
  unfold kControlEscapes.
  repeat match goal with |- context [if ?b then _ else _] => destruct b end;
    repeat (apply Forall_cons; split); try apply ascii_hex; try (unfold is_ascii; lia); constructor.
Qed.

Lemma ascii_u16 (v : Z) : Forall is_ascii (SerializerCore.write_u16 v).
Proof.
  unfold SerializerCore.write_u16.
  repeat (apply Forall_cons; split); try apply ascii_hex; try (unfold is_ascii; lia); constructor.
Qed.

Lemma ascii_codepoint (cp : Z) : Forall is_ascii (escaped_codepoint cp).
Proof.
  unfold escaped_codepoint. destruct (cp <=? 0xFFFF);
    [|apply Forall_app; split]; apply ascii_u16.
Qed.

Lemma ascii_escaped_bytes (fuel : nat) :
  forall ptr, Forall is_ascii (escaped_bytes true fuel ptr).
Proof.
  induction fuel as [|n IH]; intros ptr; cbn [escaped_bytes]; [constructor|].
  destruct ptr as [|c rest]; [constructor|].
  destruct (Z.ltb_spec c 0x20); [apply Forall_app; split; [apply ascii_control|apply IH]|].
  destruct (c =? 34); [apply Forall_app; split; [lit|apply IH]|].
  destruct (c =? 92); [apply Forall_app; split; [lit|apply IH]|].
  cbn [andb]. destruct (Z.leb_spec 0x80 c).
  - destruct (utf8.decode (c :: rest)) as [cp p].
    apply Forall_app. split; [apply ascii_codepoint|apply IH].
  - constructor; [unfold is_ascii; lia|apply IH].
Qed.

Lemma ascii_string (s : list Z) : Forall is_ascii (rendered_string true s).
Proof.
  unfold rendered_string. repeat (apply Forall_app; split);
    try apply ascii_escaped_bytes; lit.
Qed.

Lemma ascii_write_pairs (fuel : nat) :
  forall buf val p, Forall is_ascii buf -> 0 <= val ->
    Forall is_ascii (fst (write_pairs fuel buf val p))
    /\ 0 <= snd (write_pairs fuel buf val p).
Proof.
  induction fuel as [|n IH]; intros buf val p Hb Hv; cbn [write_pairs]; [auto|].
  destruct (100 <=? val); [|auto]. cbv zeta. apply IH.
  - repeat apply Forall_insert; try assumption; apply ascii_pair.
  - apply Z.div_pos; lia.
Qed.

Lemma ascii_write_u64 (val : Z) : 0 <= val -> Forall is_ascii (write_u64 val).
Proof.
  intros Hv. unfold write_u64. destruct (val =? 0);
    [lit|]. cbv zeta.
  pose proof (ascii_write_pairs 10 (replicate (Z.to_nat (count_digits val)) 0) val
                (Z.to_nat (count_digits val))
                ltac:(apply Forall_replicate; unfold is_ascii; lia) Hv) as [Hb Hr].
  destruct (write_pairs 10 _ val _) as [buf val']. cbn [fst snd] in *.
  destruct (Z.leb_spec 10 val').
  - repeat apply Forall_insert; try assumption; apply ascii_pair.
  - apply Forall_insert; [assumption|unfold is_ascii; lia].
Qed.

Lemma to_uint64_nonneg (z : Z) : 0 <= to_uint64 z.
Proof. unfold to_uint64. apply Z.mod_pos_bound. reflexivity. Qed.

Lemma ascii_integer (i : Z) : Forall is_ascii (integer_text i).
Proof.
  unfold integer_text. destruct (i <? 0).
  - apply Forall_app. split; [lit|].
    apply ascii_write_u64, to_uint64_nonneg.
  - apply ascii_write_u64, to_uint64_nonneg.
Qed.

Lemma uint64_of_double_nonneg (d : double) : 0 <= uint64_of_double d.
Proof.
  destruct d as [s|s| |s m e]; cbn [uint64_of_double]; try lia.
  destruct s; [lia|]. destruct (Z.leb_spec 0 e).
  - apply Z.mul_nonneg_nonneg; [lia|]. apply Z.pow_nonneg. lia.
  - apply Z.div_pos; [lia|]. apply Z.pow_pos_nonneg; lia.
Qed.

Lemma ascii_fixed_point_text (ival : Z) (k : nat) :
  0 <= ival -> Forall is_ascii (fixed_point_text ival k).
Proof.
  intros Hv. pose proof (ascii_write_u64 ival Hv) as Hd.
  unfold fixed_point_text. cbv zeta. destruct (_ <=? 0).
  - repeat (apply Forall_app; split); try assumption;
      [lit|].
    apply Forall_replicate. unfold is_ascii. lia.
  - repeat (apply Forall_app; split);
      [apply Forall_take, Hd|lit
      |apply Forall_drop, Hd].
Qed.

Lemma ascii_fixed_point_loop (val : double) (ks : list nat) (text : list Z) :
  fixed_point_loop val ks = Some text -> Forall is_ascii text.
Proof.
  induction ks as [|k ks IH]; cbn [fixed_point_loop]; [discriminate|]. cbv zeta.
  destruct (dlt _ _); [discriminate|]. destruct (deq _ _); [|exact IH].
  intros [= <-]. apply ascii_fixed_point_text, uint64_of_double_nonneg.
Qed.

Lemma ascii_fast_dtoa (d : double) : Forall is_ascii (fast_dtoa d).
Proof.
  unfold fast_dtoa. destruct (_ && _); [lit|].
  cbv zeta.
  assert (Hsign : Forall is_ascii (if dsignbit d then [45] else []))
    by (destruct (dsignbit d); lit).
  destruct (_ && _).
  - repeat (apply Forall_app; split); try assumption;
      [apply ascii_write_u64, uint64_of_double_nonneg
      |lit].
  - match goal with |- context [match ?o with Some _ => _ | None => _ end] =>
        destruct o as [text|] eqn:E end.
    + apply Forall_app. split; [assumption|].
      destruct (_ && _); [|discriminate]. eapply ascii_fixed_point_loop, E.
    + repeat (apply Forall_app; split); try assumption; [apply to_chars_ascii|].
      destruct (has_dot _); lit.
Qed.

Lemma ascii_float (opts : SerializeOptions.t) (d : double) :
  Forall is_ascii (rendered_float opts d).
Proof.
  unfold rendered_float.
  repeat match goal with |- context [if ?b then _ else _] => destruct b end;
    try apply ascii_fast_dtoa; try (apply ascii_check; reflexivity).
Qed.

Lemma ascii_members (Pretty : bool) (cur : Z) (items : list (list Z)) :
  Forall (Forall is_ascii) items ->
  Forall is_ascii (rendered_members Pretty cur items).
Proof.
  assert (Hi : Forall is_ascii (indent_text Pretty cur)).
  { unfold indent_text. destruct Pretty; [|constructor].
    apply Forall_replicate. unfold is_ascii. lia. }
  assert (Hn : Forall is_ascii (newline_text Pretty))
    by (unfold newline_text; destruct Pretty; lit).
  intros Hitems. destruct Hitems as [|x r Hx Hr]; cbn [rendered_members]; [constructor|].
  repeat (apply Forall_app; split); try assumption.
  induction Hr as [|y r Hy Hr IH]; cbn [flat_map]; [constructor|].
  repeat (apply Forall_app; split); try assumption. lit.
Qed.

Lemma in_range_member (l : list JsonValue) (x : JsonValue) :
  fold_right (fun x acc => integers_in_range x /\ acc) True l -> x ∈ l ->
  integers_in_range x.
Proof.
  induction l as [|y l IH]; cbn [fold_right]; intros Hl Hx;
    [apply elem_of_nil in Hx; contradiction|].
  apply elem_of_cons in Hx as [->|Hx]; [apply Hl|apply IH; [apply Hl|exact Hx]].
Qed.

Lemma in_range_entry (l : Entries) (e : list Z * JsonValue) :
  fold_right (fun e acc => integers_in_range (snd e) /\ acc) True l -> e ∈ l ->
  integers_in_range (snd e).
Proof.
  induction l as [|y l IH]; cbn [fold_right]; intros Hl Hx;
    [apply elem_of_nil in Hx; contradiction|].
  apply elem_of_cons in Hx as [->|Hx]; [apply Hl|apply IH; [apply Hl|exact Hx]].
Qed.

Lemma ascii_render (Pretty : bool) (opts : SerializeOptions.t) (v : JsonValue) :
  integers_in_range v ->
  forall cur, Forall is_ascii (render Pretty true opts cur v).
Proof.
  assert (Hn : Forall is_ascii (newline_text Pretty))
    by (unfold newline_text; destruct Pretty; lit).
  assert (Hi : forall cur, Forall is_ascii (indent_text Pretty cur)).
  { intros cur. unfold indent_text. destruct Pretty; [|constructor].
    apply Forall_replicate. unfold is_ascii. lia. }
  induction v as [ | b | i | u | d | s | arr IH | entries IH ]
    using JsonValue_induction; intros Hr cur; cbn [render].
  - apply ascii_check. reflexivity.
  - destruct b; apply ascii_check; reflexivity.
  - apply ascii_integer.
  - apply ascii_write_u64. cbn in Hr. unfold is_uint64 in Hr. lia.
  - apply ascii_float.
  - apply ascii_string.
  - destruct arr as [|x r]; [apply ascii_check; reflexivity|].
    assert (Hm : Forall is_ascii
                   (rendered_members Pretty (cur + indent_step Pretty opts)
                      (map (render Pretty true opts (cur + indent_step Pretty opts))
                           (x :: r)))).
    { apply ascii_members. apply Forall_map. apply Forall_forall. intros y Hy.
      rewrite Forall_forall in IH. apply IH; [exact Hy|].
      apply (in_range_member _ _ Hr Hy). }
    remember (rendered_members Pretty (cur + indent_step Pretty opts)
                (map (render Pretty true opts (cur + indent_step Pretty opts)) (x :: r)))
      as m eqn:Em. clear Em.
    repeat (apply Forall_app; split); auto; lit.
  - destruct entries as [|e r]; [apply ascii_check; reflexivity|]. cbv zeta.
    assert (He : Forall (fun e : list Z * list Z => Forall is_ascii (snd e))
                   (map (fun e => (fst e, render Pretty true opts
                                            (cur + indent_step Pretty opts) (snd e)))
                        (e :: r))).
    { apply Forall_map. apply Forall_forall. intros y Hy. cbn [snd].
      rewrite Forall_forall in IH. apply IH; [exact Hy|].
      apply (in_range_entry _ _ Hr Hy). }
    set (es := if SerializeOptions.sort_keys opts
               then SerializerCore.sort_by_key
                      (map (fun e => (fst e, render Pretty true opts
                                               (cur + indent_step Pretty opts) (snd e)))
                           (e :: r))
               else map (fun e => (fst e, render Pretty true opts
                                            (cur + indent_step Pretty opts) (snd e)))
                        (e :: r)).
    assert (Hs : Forall (fun e : list Z * list Z => Forall is_ascii (snd e)) es).
    { unfold es. destruct (SerializeOptions.sort_keys opts); [|exact He].
      apply sort_by_key_Forall, He. }
    assert (Hm : Forall is_ascii
                   (rendered_members Pretty (cur + indent_step Pretty opts)
                      (map (fun e => rendered_entry Pretty true (fst e) (snd e)) es))).
    { apply ascii_members. apply Forall_map.
      eapply Forall_impl; [exact Hs|]. cbv beta. intros x Hx.
      unfold rendered_entry. apply Forall_app; split; [apply ascii_string|].
      apply Forall_app; split; [lit|].
      apply Forall_app; split; [destruct Pretty; lit|exact Hx]. }
    remember (rendered_members Pretty (cur + indent_step Pretty opts)
                (map (fun e => rendered_entry Pretty true (fst e) (snd e)) es))
      as m eqn:Em. clear Em.
    repeat (apply Forall_app; split); auto; lit.
Qed.

End AsciiOutput.

(** X17: with [ensure_ascii], every byte of the text of a value whose
    integers are in range is below 0x80, whatever bytes its strings and
    keys hold (also invalid UTF-8) and whatever the other options,
    provided the digits that [std::to_chars] gives for a double are. *)
Theorem ensure_ascii_output_is_ascii `{Charconv} (opts : SerializeOptions.t)
    (v : JsonValue) :
  (forall d, Forall is_ascii (to_chars d)) ->
  SerializeOptions.ensure_ascii opts = true -> integers_in_range v ->
  Forall is_ascii (serialize v opts).
Proof.
  intros Hc He Hr. rewrite serialize_rendered. unfold rendered. rewrite He.
  apply ascii_render; assumption.
Qed.

Lemma ensure_ascii_output_is_ascii_witness :
  Forall is_ascii
    (@serialize no_charconv sample_value (SerializeOptions.mk 2 true false false)).
Proof.
  apply (@ensure_ascii_output_is_ascii no_charconv).
  - intros d. apply Forall_nil_2.
  - reflexivity.
  - cbn. unfold is_int64, is_uint64, INT64_MIN, INT64_MAX, UINT64_MAX. repeat split; lia.
Defined.

(* ===================================================================== *)
(** * Escaped code points                                                 *)
(* ===================================================================== *)

Section EncodeDecoded.
Import utf8.

Local Ltac zb := cbn -[Z.land Z.lor Z.shiftl Z.ltb Z.leb Z.gtb Z.eqb
                       utf8.overlong utf8.surrogate] in *.

Lemma lead2_value h : 0 <= h < 32 -> lead2 h = 192 + h.
Proof.
  intros Hh. apply Z.eqb_eq.
  exact (Z_range_forallb 32 (fun h => lead2 h =? 192 + h) eq_refl h Hh).
Qed.

Lemma lead3_value h : 0 <= h < 16 -> lead3 h = 224 + h.
Proof.
  intros Hh. apply Z.eqb_eq.
  exact (Z_range_forallb 16 (fun h => lead3 h =? 224 + h) eq_refl h Hh).
Qed.

Lemma lead4_value h : 0 <= h < 8 -> lead4 h = 240 + h.
Proof.
  intros Hh. apply Z.eqb_eq.
  exact (Z_range_forallb 8 (fun h => lead4 h =? 240 + h) eq_refl h Hh).
Qed.

Lemma contb_value l : 0 <= l < 64 -> contb l = 128 + l.
Proof.
  intros Hl. apply Z.eqb_eq.
  exact (Z_range_forallb 64 (fun l => contb l =? 128 + l) eq_refl l Hl).
Qed.

Lemma byte_lead_inv (lead : Z) :
  is_byte lead -> 128 <= lead ->
  match sequence_length lead with
  | 2%nat => lead = 192 + lead mod 32
  | 3%nat => lead = 224 + lead mod 16
  | 4%nat => lead = 240 + lead mod 8
  | _ => True
  end.
Proof.
  intros Hb Hl.
  pose proof (Z_range_forallb 256
    (fun b => implb (128 <=? b)
                (match sequence_length b with
                 | 2%nat => b =? 192 + b mod 32
                 | 3%nat => b =? 224 + b mod 16
                 | 4%nat => b =? 240 + b mod 8
                 | _ => true
                 end)) eq_refl lead Hb) as H.
  cbv beta in H. destruct (Z.leb_spec 128 lead); [|lia]. cbn [implb] in H.
  destruct (sequence_length lead) as [|[|[|[|[|n]]]]]; try exact I;
    apply Z.eqb_eq in H; exact H.
Qed.

Lemma bad_false (len : nat) (cp : Z) :
  bad len cp = false ->
  overlong len cp = false /\ ~ (0xD800 <= cp <= 0xDFFF) /\ cp <= 0x10FFFF.
Proof.
  unfold bad. intros H. apply orb_false_iff in H as [H H3].
  apply orb_false_iff in H as [H1 H2]. split; [exact H1|]. split.
  - unfold surrogate in H2. intros [Ha Hb].
    rewrite (proj2 (Z.leb_le _ _) Ha), (proj2 (Z.leb_le _ _) Hb) in H2. discriminate.
  - destruct (Z.gtb_spec cp 0x10FFFF); [discriminate|lia].
Qed.

(** A step of [validate] over a sequence of two to four bytes is a step
    of [decode] whose code point [encode] writes as those very bytes. *)
Lemma encode_decoded (f : nat) (lead : Z) (tl : list Z) :
  Forall is_byte (lead :: tl) -> 128 <= lead ->
  validate_loop (S f) (lead :: tl) = true ->
  exists cp k,
    decode (lead :: tl) = (cp, drop k (lead :: tl))
    /\ (1 <= k <= length (lead :: tl))%nat
    /\ validate_loop f (drop k (lead :: tl)) = true
    /\ 128 <= cp <= 0x10FFFF /\ ~ (0xD800 <= cp <= 0xDFFF)
    /\ encode cp = take k (lead :: tl).
Proof.
  intros Hby Hl Hv. pose proof (byte_lead_inv lead (Forall_inv Hby) Hl) as Hlead.
  destruct (seqlen_cases lead Hl) as [E|[E|[E|E]]]; rewrite E in Hlead.
  - rewrite validate_step_len0 in Hv by assumption. discriminate.
  - destruct tl as [|b1 tail].
    { rewrite validate_step_short in Hv by (rewrite ?E; cbn; lia). discriminate. }
    rewrite validate_step_len2 in Hv by assumption.
    destruct (Z.eqb_spec (Z.land b1 0xC0) 0x80) as [C1|]; [|discriminate].
    apply Forall_cons in Hby as [B0 Hby]. apply Forall_cons in Hby as [B1 _].
    pose proof (byte_cont_inv b1 _ B1 C1 eq_refl) as I1.
    rewrite decode_len2, finish_bad by assumption.
    revert Hv. rewrite land31, land63, lor_shiftl6 by (Z.div_mod_to_equations; lia).
    set (h := lead mod 32) in *. set (l1 := b1 mod 64) in *.
    assert (Hh : 0 <= h < 32) by (unfold h; Z.div_mod_to_equations; lia).
    assert (H1 : 0 <= l1 < 64) by (unfold l1; Z.div_mod_to_equations; lia).
    destruct (bad 2 (64 * h + l1)) eqn:Hbad; [discriminate|]. intros Hv.
    apply bad_false in Hbad as (Hov & Hsur & Hmax).
    unfold overlong in Hov. cbn [Nat.eqb andb orb] in Hov.
    rewrite ?orb_false_r in Hov. apply Z.ltb_ge in Hov.
    exists (64 * h + l1), 2%nat. cbn [drop take length].
    repeat split; try assumption; try lia.
    unfold encode. destruct (Z.ltb_spec (64 * h + l1) 0x80); [lia|].
    destruct (Z.ltb_spec (64 * h + l1) 0x800); [|lia].
    rewrite !Z.shiftr_div_pow2, !land63 by lia. change (2 ^ 6) with 64.
    fold (lead2 ((64 * h + l1) / 64)). fold (contb ((64 * h + l1) mod 64)).
    replace ((64 * h + l1) / 64) with h by (Z.div_mod_to_equations; lia).
    replace ((64 * h + l1) mod 64) with l1 by (Z.div_mod_to_equations; lia).
    rewrite lead2_value, contb_value by assumption. rewrite take_0. congruence.
  - destruct tl as [|b1 [|b2 tail]];
      try (rewrite validate_step_short in Hv by (rewrite ?E; cbn; lia); discriminate).
    rewrite validate_step_len3 in Hv by assumption.
    destruct (Z.eqb_spec (Z.land b1 0xC0) 0x80) as [C1|]; [|discriminate].
    destruct (Z.eqb_spec (Z.land b2 0xC0) 0x80) as [C2|]; [|discriminate].
    cbn [andb] in Hv.
    apply Forall_cons in Hby as [B0 Hby]. apply Forall_cons in Hby as [B1 Hby].
    apply Forall_cons in Hby as [B2 _].
    pose proof (byte_cont_inv b1 _ B1 C1 eq_refl) as I1.
    pose proof (byte_cont_inv b2 _ B2 C2 eq_refl) as I2.
    rewrite decode_len3, finish_bad by assumption.
    revert Hv. rewrite land15, !land63.
    rewrite (lor_shiftl6 (lead mod 16)) by (Z.div_mod_to_equations; lia).
    rewrite lor_shiftl6 by (Z.div_mod_to_equations; lia).
    set (h := lead mod 16) in *. set (l1 := b1 mod 64) in *.
    set (l2 := b2 mod 64) in *.
    assert (Hh : 0 <= h < 16) by (unfold h; Z.div_mod_to_equations; lia).
    assert (H1 : 0 <= l1 < 64) by (unfold l1; Z.div_mod_to_equations; lia).
    assert (H2 : 0 <= l2 < 64) by (unfold l2; Z.div_mod_to_equations; lia).
    set (cp := 64 * (64 * h + l1) + l2).
    destruct (bad 3 cp) eqn:Hbad; [discriminate|]. intros Hv.
    apply bad_false in Hbad as (Hov & Hsur & Hmax).
    unfold overlong in Hov. cbn [Nat.eqb andb orb] in Hov.
    rewrite ?orb_false_r in Hov. apply Z.ltb_ge in Hov.
    exists cp, 3%nat. cbn [drop take length].
    repeat split; try assumption; try lia.
    unfold encode. destruct (Z.ltb_spec cp 0x80); [lia|].
    destruct (Z.ltb_spec cp 0x800); [lia|].
    destruct (Z.ltb_spec cp 0x10000); [|unfold cp in *; lia].
    rewrite !Z.shiftr_div_pow2, !land63 by lia.
    change (2 ^ 6) with 64. change (2 ^ 12) with 4096.
    fold (lead3 (cp / 4096)). fold (contb ((cp / 64) mod 64)). fold (contb (cp mod 64)).
    replace (cp / 4096) with h by (unfold cp; Z.div_mod_to_equations; lia).
    replace ((cp / 64) mod 64) with l1 by (unfold cp; Z.div_mod_to_equations; lia).
    replace (cp mod 64) with l2 by (unfold cp; Z.div_mod_to_equations; lia).
    rewrite lead3_value, !contb_value by assumption. rewrite take_0. congruence.
  - destruct tl as [|b1 [|b2 [|b3 tail]]];
      try (rewrite validate_step_short in Hv by (rewrite ?E; cbn; lia); discriminate).
    rewrite validate_step_len4 in Hv by assumption.
    destruct (Z.eqb_spec (Z.land b1 0xC0) 0x80) as [C1|]; [|discriminate].
    destruct (Z.eqb_spec (Z.land b2 0xC0) 0x80) as [C2|]; [|discriminate].
    destruct (Z.eqb_spec (Z.land b3 0xC0) 0x80) as [C3|]; [|discriminate].
    cbn [andb] in Hv.
    apply Forall_cons in Hby as [B0 Hby]. apply Forall_cons in Hby as [B1 Hby].
    apply Forall_cons in Hby as [B2 Hby]. apply Forall_cons in Hby as [B3 _].
    pose proof (byte_cont_inv b1 _ B1 C1 eq_refl) as I1.
    pose proof (byte_cont_inv b2 _ B2 C2 eq_refl) as I2.
    pose proof (byte_cont_inv b3 _ B3 C3 eq_refl) as I3.
    rewrite decode_len4, finish_bad by assumption.
    revert Hv. rewrite land7, !land63.
    rewrite (lor_shiftl6 (lead mod 8)) by (Z.div_mod_to_equations; lia).
    rewrite (lor_shiftl6 (64 * (lead mod 8) + b1 mod 64))
      by (Z.div_mod_to_equations; lia).
    rewrite lor_shiftl6 by (Z.div_mod_to_equations; lia).
    set (h := lead mod 8) in *. set (l1 := b1 mod 64) in *.
    set (l2 := b2 mod 64) in *. set (l3 := b3 mod 64) in *.
    assert (Hh : 0 <= h < 8) by (unfold h; Z.div_mod_to_equations; lia).
    assert (H1 : 0 <= l1 < 64) by (unfold l1; Z.div_mod_to_equations; lia).
    assert (H2 : 0 <= l2 < 64) by (unfold l2; Z.div_mod_to_equations; lia).
    assert (H3 : 0 <= l3 < 64) by (unfold l3; Z.div_mod_to_equations; lia).
    set (cp := 64 * (64 * (64 * h + l1) + l2) + l3).
    destruct (bad 4 cp) eqn:Hbad; [discriminate|]. intros Hv.
    apply bad_false in Hbad as (Hov & Hsur & Hmax).
    unfold overlong in Hov. cbn [Nat.eqb andb orb] in Hov.
    apply Z.ltb_ge in Hov.
    exists cp, 4%nat. cbn [drop take length].
    repeat split; try assumption; try lia.
    unfold encode. destruct (Z.ltb_spec cp 0x80); [lia|].
    destruct (Z.ltb_spec cp 0x800); [lia|].
    destruct (Z.ltb_spec cp 0x10000); [lia|].
    destruct (Z.leb_spec cp 0x10FFFF); [|lia].
    rewrite !Z.shiftr_div_pow2, !land63 by lia.
    change (2 ^ 6) with 64. change (2 ^ 12) with 4096. change (2 ^ 18) with 262144.
    fold (lead4 (cp / 262144)). fold (contb ((cp / 4096) mod 64)).
    fold (contb ((cp / 64) mod 64)). fold (contb (cp mod 64)).
    replace (cp / 262144) with h by (unfold cp; Z.div_mod_to_equations; lia).
    replace ((cp / 4096) mod 64) with l1 by (unfold cp; Z.div_mod_to_equations; lia).
    replace ((cp / 64) mod 64) with l2 by (unfold cp; Z.div_mod_to_equations; lia).
    replace (cp mod 64) with l3 by (unfold cp; Z.div_mod_to_equations; lia).
    rewrite lead4_value, !contb_value by assumption. rewrite take_0. congruence.
Qed.

End EncodeDecoded.

Section EscapedCodepoints.
Import Parser.

Lemma lor_shiftl4 (a b : Z) :
  0 <= a -> 0 <= b < 16 -> Z.lor (Z.shiftl a 4) b = 16 * a + b.
Proof.
  intros Ha Hb.
  assert (Hz : Z.land (Z.shiftl a 4) b = 0).
  { apply Z.bits_inj'. intros n Hn. rewrite Z.land_spec, Z.bits_0.
    destruct (Z.ltb_spec n 4).
    - rewrite Z.shiftl_spec_low by lia. reflexivity.
    - rewrite (Z.bits_above_log2 b n); [apply andb_false_r|lia|].
      destruct (Z.eq_dec b 0) as [->|]; [simpl; lia|].
      apply Z.log2_lt_pow2; [lia|].
      eapply Z.lt_le_trans with (m := 2 ^ 4); [simpl; lia|].
      apply Z.pow_le_mono_r; lia. }
  rewrite <- Z.lxor_lor by exact Hz. rewrite <- Z.add_nocarry_lxor by exact Hz.
  rewrite Z.shiftl_mul_pow2 by lia. change (2 ^ 4) with 16. lia.
Qed.

Lemma hex_nibble_digit (n : Z) :
  0 <= n < 16 -> hex_nibble (nth (Z.to_nat n) kHexDigits 0) = n.
Proof.
  intros Hn. apply Z.eqb_eq.
  exact (Z_range_forallb 16
           (fun n => hex_nibble (nth (Z.to_nat n) kHexDigits 0) =? n) eq_refl n Hn).
Qed.

Lemma hex4_step (n val : Z) (r : list Z) :
  0 <= n < 16 -> 0 <= val ->
  hex4_loop (nth (Z.to_nat n) kHexDigits 0 :: r) val = hex4_loop r (16 * val + n).
Proof.
  intros Hn Hv. cbn [hex4_loop]. rewrite (hex_nibble_digit n Hn).
  destruct (Z.gtb_spec n 15); [lia|]. rewrite lor_shiftl4 by lia. reflexivity.
Qed.

(** [parse_hex4] reads the four digits of [write_u16] back. *)
Lemma parse_hex4_written (v : Z) (tail : list Z) (p : Parser.t) :
  0 <= v < 65536 ->
  ptr_ p = drop 2 (SerializerCore.write_u16 v) ++ tail ->
  parse_hex4 p = Ok v (with_ptr p tail).
Proof.
  intros Hv Hptr. unfold SerializerCore.write_u16 in Hptr. cbn [drop app] in Hptr.
  unfold parse_hex4. rewrite Hptr. cbn [length Nat.ltb Nat.leb take drop].
  rewrite !Z.shiftr_div_pow2 by lia.
  change (2 ^ 12) with 4096. change (2 ^ 8) with 256. change (2 ^ 4) with 16.
  change 0xF with 0x0F. rewrite !land15.
  rewrite !hex4_step by (Z.div_mod_to_equations; lia).
  cbn [hex4_loop].
  replace (16 * (16 * (16 * (16 * 0 + (v / 4096) mod 16) + (v / 256) mod 16)
                 + (v / 16) mod 16) + v mod 16) with v
    by (Z.div_mod_to_equations; lia).
  reflexivity.
Qed.

Lemma escaped_codepoint_head (cp : Z) :
  exists e, escaped_codepoint cp = 92 :: 117 :: e.
Proof.
  unfold escaped_codepoint, SerializerCore.write_u16.
  destruct (cp <=? 0xFFFF); eexists; reflexivity.
Qed.

(** [parse_escape], entered after the backslash, reads the escape that
    [write_escaped_codepoint] writes for a scalar value back as the bytes
    [encode] gives for it. *)
Lemma parse_escape_codepoint (cp : Z) (out tail : list Z) (p : Parser.t) :
  0 <= cp <= 0x10FFFF -> ~ (0xD800 <= cp <= 0xDFFF) ->
  ptr_ p = drop 1 (escaped_codepoint cp) ++ tail ->
  parse_escape out p = Ok (out ++ utf8.encode cp) (with_ptr p tail).
Proof.
  intros Hr Hs Hptr. unfold escaped_codepoint in Hptr.
  destruct (Z.leb_spec cp 0xFFFF) as [Hlow|Hhigh].
  - rewrite Z.mod_small in Hptr by lia.
    assert (Hptr' : ptr_ p = 117 :: drop 2 (SerializerCore.write_u16 cp) ++ tail)
      by (rewrite Hptr; reflexivity).
    unfold parse_escape, bind at 1, get_ptr. rewrite Hptr'.
    unfold bind at 1, set_ptr. cbv beta iota.
    change (117 =? 34) with false. change (117 =? 92) with false.
    change (117 =? 47) with false. change (117 =? 98) with false.
    change (117 =? 102) with false. change (117 =? 110) with false.
    change (117 =? 114) with false. change (117 =? 116) with false.
    change (117 =? 39) with false. change (117 =? 117) with true. cbv iota.
    unfold parse_unicode_escape, bind at 1.
    rewrite (parse_hex4_written cp tail) by (reflexivity || lia).
    unfold bind at 1.
    destruct (Z.leb_spec 0xD800 cp), (Z.leb_spec cp 0xDBFF), (Z.leb_spec 0xDC00 cp),
      (Z.leb_spec cp 0xDFFF); cbn [andb]; try lia; reflexivity.
  - set (adj := cp - 0x10000) in *.
    assert (Hadj : 0 <= adj < 1048576) by (unfold adj; lia).
    rewrite Z.shiftr_div_pow2 in Hptr by lia. change (2 ^ 10) with 1024 in Hptr.
    change 0x3FF with (Z.ones 10) in Hptr. rewrite Z.land_ones in Hptr by lia.
    change (2 ^ 10) with 1024 in Hptr.
    rewrite !Z.mod_small in Hptr by (Z.div_mod_to_equations; lia).
    set (hi := 0xD800 + adj / 1024) in *. set (lo := 0xDC00 + adj mod 1024) in *.
    assert (Hhi : 0xD800 <= hi <= 0xDBFF) by (unfold hi; Z.div_mod_to_equations; lia).
    assert (Hlo : 0xDC00 <= lo <= 0xDFFF) by (unfold lo; Z.div_mod_to_equations; lia).
    assert (Hptr' : ptr_ p = 117 :: drop 2 (SerializerCore.write_u16 hi)
                             ++ 92 :: 117 :: drop 2 (SerializerCore.write_u16 lo) ++ tail).
    { rewrite Hptr. unfold SerializerCore.write_u16. reflexivity. }
    unfold parse_escape, bind at 1, get_ptr. rewrite Hptr'.
    unfold bind at 1, set_ptr. cbv beta iota.
    change (117 =? 34) with false. change (117 =? 92) with false.
    change (117 =? 47) with false. change (117 =? 98) with false.
    change (117 =? 102) with false. change (117 =? 110) with false.
    change (117 =? 114) with false. change (117 =? 116) with false.
    change (117 =? 39) with false. change (117 =? 117) with true. cbv iota.
    unfold parse_unicode_escape, bind at 1.
    rewrite (parse_hex4_written hi
               (92 :: 117 :: drop 2 (SerializerCore.write_u16 lo) ++ tail))
      by (reflexivity || lia).
    unfold bind at 1.
    destruct (Z.leb_spec 0xD800 hi); [|lia]. destruct (Z.leb_spec hi 0xDBFF); [|lia].
    cbn [andb]. unfold bind at 1, get_ptr. cbn [ptr_ with_ptr].
    change (92 =? 92) with true. change (117 =? 117) with true. cbn [andb].
    unfold bind at 1, set_ptr. unfold bind at 1.
    rewrite (parse_hex4_written lo tail) by (reflexivity || lia).
    destruct (Z.ltb_spec lo 0xDC00); [lia|]. destruct (Z.ltb_spec 0xDFFF lo); [lia|].
    cbn [orb]. unfold ret. rewrite Z.shiftl_mul_pow2 by lia. change (2 ^ 10) with 1024.
    replace (0x10000 + (hi - 0xD800) * 1024 + (lo - 0xDC00)) with cp
      by (unfold hi, lo, adj; Z.div_mod_to_equations; lia).
    reflexivity.
Qed.

(** One step of the content loop at a backslash. *)
Lemma content_escape_step (fuel : nat) (acc acc' e tail : list Z) (p : Parser.t) :
  ptr_ p = 92 :: e ->
  parse_escape acc (with_ptr p e) = Ok acc' (with_ptr p tail) ->
  parse_string_content_into (S fuel) acc 34 p
  = parse_string_content_into fuel acc' 34 (with_ptr p tail).
Proof.
  intros Hptr Hesc.
  cbn [parse_string_content_into]. unfold bind at 1 2 3, get_ptr, set_ptr.
  rewrite Hptr. cbn [ptr_ with_ptr]. change (34 =? 34) with true. cbn iota.
  cbn [simd.find_string_delimiter]. change (92 =? 34) with false.
  change (92 =? 92) with true. cbn [orb].
  rewrite Nat.sub_diag, take_0, app_nil_r. cbn iota.
  rewrite ?with_ptr_twice. change (92 =? 34) with false. cbn iota.
  rewrite (bind_Ok _ _ _ _ _ Hesc). reflexivity.
Qed.

Lemma escaped_bytes_nil (ea : bool) (n : nat) : escaped_bytes ea n [] = [].
Proof. destruct n; reflexivity. Qed.

(** The content loop reads the escaped form of a valid UTF-8 string,
    written with [EnsureAscii], back as the string. *)
Lemma parse_string_content_ascii (m : nat) :
  forall (s : list Z) (f n : nat),
    (length s <= m)%nat -> (length s <= n)%nat -> Forall is_byte s ->
    utf8.validate_loop f s = true ->
    forall (fuel : nat) (acc rest : list Z) (p : Parser.t),
      ptr_ p = escaped_bytes true n s ++ 34 :: rest ->
      (length (escaped_bytes true n s) < fuel)%nat ->
      parse_string_content_into fuel acc 34 p = Ok (acc ++ s) (with_ptr p rest).
Proof.
  induction m as [|m IH]; intros s f n Hm Hn Hs Hv fuel acc rest p Hptr Hfuel.
  - destruct s; [|cbn in Hm; lia]. rewrite escaped_bytes_nil in *.
    destruct fuel as [|fuel]; [cbn in Hfuel; lia|].
    cbn in Hptr. cbn [parse_string_content_into]. unfold bind, get_ptr, set_ptr.
    rewrite Hptr. cbn [ptr_ with_ptr]. change (34 =? 34) with true. cbn iota.
    cbn [simd.find_string_delimiter]. change (34 =? 34) with true. cbn [orb].
    rewrite Nat.sub_diag, take_0, !app_nil_r. reflexivity.
  - destruct s as [|c tl].
    { apply (IH [] f n); try assumption. cbn; lia. }
    destruct n as [|n]; [cbn in Hn; lia|].
    destruct f as [|f]; [discriminate|].
    cbn [length] in Hm, Hn.
    pose proof (Forall_inv Hs) as Hc. pose proof (Forall_inv_tail Hs) as Htl.
    cbn [escaped_bytes] in Hptr, Hfuel.
    destruct (escape_byte_cases c) as [(e & Ee & Hneed)|(Ee & H34 & H92)].
    + assert (Hform : (if c <? 32 then kControlEscapes c ++ escaped_bytes true n tl
                       else if c =? 34 then [92; 34] ++ escaped_bytes true n tl
                       else if c =? 92 then [92; 92] ++ escaped_bytes true n tl
                       else if true && (128 <=? c)
                            then (let '(cp, p0) := utf8.decode (c :: tl) in
                                  escaped_codepoint cp ++ escaped_bytes true n p0)
                            else c :: escaped_bytes true n tl)
                      = escape_byte c ++ escaped_bytes true n tl).
      { unfold escape_byte. destruct (c <? 32); [reflexivity|].
        destruct (c =? 34); [reflexivity|]. destruct (c =? 92); [reflexivity|].
        discriminate. }
      rewrite Hform in Hptr, Hfuel. rewrite Ee in Hptr, Hfuel.
      rewrite length_app in Hfuel. cbn [length] in Hfuel.
      cbn [app] in Hptr. rewrite <- app_assoc in Hptr.
      destruct fuel as [|fuel]; [lia|].
      assert (Hlt : c < 128).
      { destruct (Z.ltb_spec c 32); [lia|]. destruct (Z.eqb_spec c 34); [lia|].
        destruct (Z.eqb_spec c 92); [lia|]. discriminate. }
      rewrite validate_step_ascii in Hv by exact Hlt.
      pose proof (parse_escape_written c ltac:(unfold is_byte in Hc; lia) Hneed
                    acc (escaped_bytes true n tl ++ 34 :: rest)
                    (with_ptr p (e ++ escaped_bytes true n tl ++ 34 :: rest))) as Hesc.
      rewrite Ee in Hesc. specialize (Hesc eq_refl). rewrite with_ptr_twice in Hesc.
      rewrite (content_escape_step fuel acc _ _ _ p Hptr Hesc).
      rewrite (IH tl f n) with (rest := rest) (acc := acc ++ [c]);
        try assumption; try reflexivity; try lia.
      rewrite <- app_assoc. reflexivity.
    + assert (H32 : 32 <= c).
      { unfold escape_byte in Ee. destruct (Z.ltb_spec c 32); [|lia].
        unfold kControlEscapes in Ee.
        repeat match type of Ee with
               | (if ?b then _ else _) = _ => destruct b
               end; discriminate. }
      destruct (Z.ltb_spec c 32); [lia|]. destruct (Z.eqb_spec c 34); [lia|].
      destruct (Z.eqb_spec c 92); [lia|]. cbn [andb] in Hptr, Hfuel.
      destruct (Z.leb_spec 128 c) as [Hhigh|Hlow].
      * destruct (encode_decoded f c tl Hs Hhigh Hv)
          as (cp & k & Hd & Hk & Hv' & Hcp & Hsur & Henc).
        rewrite Hd in Hptr, Hfuel.
        destruct (escaped_codepoint_head cp) as (e & Ee').
        rewrite Ee' in Hptr, Hfuel. rewrite length_app in Hfuel.
        cbn [length] in Hfuel. cbn [app] in Hptr. rewrite <- app_assoc in Hptr.
        destruct fuel as [|fuel]; [lia|].
        pose proof (parse_escape_codepoint cp acc
                      (escaped_bytes true n (drop k (c :: tl)) ++ 34 :: rest)
                      (with_ptr p (117 :: e ++ escaped_bytes true n (drop k (c :: tl))
                                   ++ 34 :: rest))
                      ltac:(lia) Hsur) as Hesc.
        rewrite Ee' in Hesc. specialize (Hesc eq_refl). rewrite with_ptr_twice in Hesc.
        rewrite (content_escape_step fuel acc _ _ _ p Hptr Hesc).
        rewrite (IH (drop k (c :: tl)) f n) with (rest := rest)
                                                 (acc := acc ++ utf8.encode cp);
          try assumption; try reflexivity;
          try (rewrite length_drop; cbn [length]; lia); try lia.
        -- rewrite Henc, <- app_assoc, take_drop. reflexivity.
        -- apply Forall_drop, Hs.
      * rewrite validate_step_ascii in Hv by lia. cbn [app length] in Hptr, Hfuel.
        rewrite (content_plain_step fuel acc c _ p H34 H92 Hptr).
        rewrite (IH tl f n) with (rest := rest) (acc := acc ++ [c]);
          try assumption; try reflexivity; try lia.
        rewrite <- app_assoc. reflexivity.
Qed.

End EscapedCodepoints.

(* ===================================================================== *)
(** * Reading back the serialized text                                    *)
(* ===================================================================== *)

Section Layout.
Context `{Charconv}.
Import Parser.

Local Abbreviation blank := (Forall (fun c : Z => simd.is_ws c = true)).

(** [parse_value] reads the text [text v] back, whatever follows it that
    does not continue a number. *)
Local Abbreviation reads_as :=
  (fun (text : JsonValue -> list Z) (v : JsonValue) =>
     forall (fuel : nat) (p : Parser.t) (rest : list Z),
       ptr_ p = text v ++ rest -> ends_number rest ->
       (3 * length (ptr_ p) + 1 <= fuel)%nat ->
       (depth_ p + depth v <= max_depth_ p)%nat ->
       parse_value fuel p = Ok (reparsed v) (with_ptr p rest)).

(** [parse_string] reads a key back from its text between quotes. *)
Local Abbreviation reads_key :=
  (fun (kbody : list Z -> list Z) (key : list Z) =>
     forall (n : nat) (rest : list Z) (p : Parser.t),
       ptr_ p = 34 :: kbody key ++ 34 :: rest -> (length (kbody key) < S n)%nat ->
       parse_string (S n) p = Ok key (with_ptr p rest)).

Lemma skip_gap (n : nat) (p : Parser.t) (ws : list Z) (c : Z) (r : list Z) :
  ptr_ p = ws ++ c :: r -> blank ws -> 32 < c -> c <> 47 ->
  skip_ws_and_comments (S n) p = Ok tt (with_ptr p (c :: r)).
Proof.
  intros Hptr Hws Hc H47.
  pose proof (skip_ws_at_token n p c r Hc H47) as Hs.
  unfold skip_ws_and_comments, bind, skip_whitespace, get_opts in *.
  rewrite Hptr, (skip_whitespace_before ws c r Hws Hc).
  cbn [ptr_ with_ptr opts_] in *.
  replace (skip_whitespace_ptr (c :: r)) with (c :: r) in Hs
    by (cbn [skip_whitespace_ptr]; destruct (Z.gtb_spec c 32); [reflexivity|lia]).
  exact Hs.
Qed.

Lemma parse_value_gap (fuel : nat) (p : Parser.t) (ws : list Z) (c : Z) (r : list Z) :
  ptr_ p = ws ++ c :: r -> blank ws -> 32 < c -> c <> 47 ->
  parse_value fuel p = parse_value fuel (with_ptr p (c :: r)).
Proof.
  intros Hptr Hws Hc H47. destruct fuel as [|n]; [reflexivity|].
  apply parse_value_skips; try assumption.
  rewrite Hptr. apply skip_whitespace_before; assumption.
Qed.

Lemma ends_number_gap (ws : list Z) (c : Z) (r : list Z) :
  blank ws -> c = 44 \/ c = 93 \/ c = 125 -> ends_number (ws ++ c :: r).
Proof.
  intros Hws Hc. apply ends_number_after_ws; [exact Hws|].
  cbn [ends_number]. unfold is_digit.
  destruct Hc as [-> | [-> | ->]]; repeat split; lia || reflexivity.
Qed.

(** ** Arrays *)

Lemma array_loop_layout (text : JsonValue -> list Z) (g1 g0 : list Z)
    (r : list JsonValue) :
  blank g1 -> blank g0 ->
  forall (x : JsonValue) (acc : list JsonValue) (fuel : nat) (p : Parser.t)
         (rest : list Z),
    Forall (reads_as text) (x :: r) ->
    Forall (fun y => starts_value (text y)) (x :: r) ->
    ptr_ p = text x ++ flat_map (fun y => [44] ++ g1 ++ text y) r
             ++ g0 ++ 93 :: rest ->
    (3 * length (ptr_ p) + 2 <= fuel)%nat ->
    Forall (fun y => (depth_ p + depth y <= max_depth_ p)%nat) (x :: r) ->
    array_loop fuel acc p
    = Ok (JArray (acc ++ map reparsed (x :: r)))
         (with_depth (with_ptr p rest) (size_t_pred (depth_ p))).
Proof.
  intros Hg1 Hg0.
  induction r as [|y r IH]; intros x acc fuel p rest Hrb Hst Hptr Hfuel Hdep;
    (destruct fuel as [|n]; [lia|]);
    apply Forall_cons in Hrb as [Hx Hrb]; apply Forall_cons in Hdep as [Hdx Hdep];
    apply Forall_cons in Hst as [Hsx Hst];
    cbn [array_loop]; cbv [bind get_ptr get_opts set_ptr pop_depth ret].
  - cbn [flat_map app] in Hptr.
    destruct (starts_value_head _ Hsx) as (cx & tx & Ex & _).
    assert (Hl : (1 <= length (text x))%nat) by (rewrite Ex; cbn; lia).
    rewrite (Hx n p (g0 ++ 93 :: rest) Hptr)
      by (try apply ends_number_gap; auto; lia).
    rewrite (skip_gap n (with_ptr p (g0 ++ 93 :: rest)) g0 93 rest)
      by (reflexivity || assumption || lia).
    cbn [ptr_ with_ptr]. reflexivity.
  - cbn [flat_map app] in Hptr. rewrite <- !app_assoc in Hptr. cbn [app] in Hptr.
    pose proof Hst as Hst'. apply Forall_cons in Hst' as [Hy _].
    destruct (starts_value_head _ Hy) as (c & t & Ey & Hc32 & Hc47 & Hc93 & _).
    destruct (starts_value_head _ Hsx) as (cx & tx & Ex & _).
    match type of Hptr with
    | context [flat_map ?f r ++ ?tl] =>
        remember (flat_map f r ++ tl) as more eqn:Emore
    end.
    assert (Hlen : (2 + length (g1 ++ text y ++ more) <= length (ptr_ p))%nat).
    { rewrite Hptr, Ex. cbn [app length]. rewrite !length_app. cbn [length].
      rewrite !length_app. lia. }
    rewrite (Hx n p _ Hptr) by (cbn; auto; lia).
    rewrite (skip_ws_token n _ 44 (g1 ++ text y ++ more))
      by (reflexivity || lia).
    cbn [ptr_ with_ptr]. change (44 =? 44) with true. cbv beta iota.
    assert (Em : g1 ++ text y ++ more = g1 ++ c :: t ++ more)
      by (rewrite Ey; reflexivity).
    rewrite Em in *.
    rewrite (skip_gap n _ g1 c (t ++ more)) by (assumption || reflexivity).
    cbn [ptr_ with_ptr opts_].
    destruct (Z.eqb_spec c 93); [lia|]. rewrite andb_false_r.
    rewrite (IH y (acc ++ [reparsed x]) n _ rest);
      try assumption.
    + cbn [map]. rewrite <- app_assoc. reflexivity.
    + cbn [ptr_ with_ptr]. rewrite Ey. subst more. cbn [app]. reflexivity.
    + cbn [ptr_ with_ptr]. rewrite !length_app in Hlen. cbn [length] in Hlen |- *.
      rewrite !length_app in Hlen. rewrite length_app. lia.
Qed.

Lemma parse_array_layout (text : JsonValue -> list Z) (g1 g0 : list Z)
    (x : JsonValue) (r : list JsonValue) (fuel : nat) (p : Parser.t) (rest : list Z) :
  blank g1 -> blank g0 ->
  Forall (reads_as text) (x :: r) ->
  Forall (fun y => starts_value (text y)) (x :: r) ->
  ptr_ p = 91 :: g1 ++ text x ++ flat_map (fun y => [44] ++ g1 ++ text y) r
           ++ g0 ++ 93 :: rest ->
  (3 * length (ptr_ p) <= fuel)%nat ->
  (depth_ p + depth (JArray (x :: r)) <= max_depth_ p)%nat ->
  parse_array fuel p = Ok (JArray (map reparsed (x :: r))) (with_ptr p rest).
Proof.
  intros Hg1 Hg0 Hrb Hst Hptr Hfuel Hdep. cbn [depth] in Hdep.
  destruct fuel as [|n]; [rewrite Hptr in Hfuel; cbn [length] in Hfuel; lia|].
  cbn [parse_array]. cbv [bind get_ptr get_opts set_ptr pop_depth ret].
  rewrite push_depth_ok by (cbn [with_ptr depth_ max_depth_]; lia).
  rewrite Hptr. cbn [drop with_ptr depth_ ptr_]. rewrite ?drop_0.
  destruct p as [ptr b o d m]. cbn [ptr_ depth_ max_depth_ begin_ opts_] in *.
  unfold with_depth, with_ptr. cbn [ptr_ depth_ max_depth_ begin_ opts_].
  pose proof Hst as Hst'. apply Forall_cons in Hst' as [Hsx _].
  destruct (starts_value_head _ Hsx) as (c & t & Ex & Hc32 & Hc47 & Hc93 & _).
  match type of Hptr with
  | context [flat_map ?f r ++ ?tl] =>
      remember (flat_map f r ++ tl) as more eqn:Emore
  end.
  assert (Em : g1 ++ text x ++ more = g1 ++ c :: t ++ more)
    by (rewrite Ex; reflexivity).
  rewrite Em.
  rewrite (skip_gap n _ g1 c (t ++ more)) by (assumption || reflexivity).
  cbn [ptr_ with_ptr depth_ max_depth_ begin_ opts_].
  destruct (Z.eqb_spec c 93); [lia|].
  rewrite (array_loop_layout text g1 g0 r Hg1 Hg0 x [] n _ rest); try assumption.
  - reflexivity.
  - cbn [ptr_ with_ptr]. rewrite Ex. subst more. reflexivity.
  - cbn [ptr_ with_ptr]. subst ptr. cbn [length] in Hfuel. rewrite Em in Hfuel.
    rewrite length_app in Hfuel. lia.
  - cbn [depth_ max_depth_ with_ptr]. pose proof (depth_member (x :: r)) as Hm.
    eapply Forall_impl; [exact Hm|]. cbv beta. intros; lia.
Qed.

(** ** Objects *)

Lemma object_loop_layout (text : JsonValue -> list Z) (kbody : list Z -> list Z)
    (g1 g0 sp : list Z) (r : Entries) :
  blank g1 -> blank g0 -> blank sp ->
  forall (e : list Z * JsonValue) (acc : Entries) (seen : gset (list Z))
         (fuel : nat) (p : Parser.t) (rest : list Z),
    Forall (fun e => reads_as text (snd e)) (e :: r) ->
    Forall (fun e => starts_value (text (snd e))) (e :: r) ->
    Forall (fun e => reads_key kbody (fst e)) (e :: r) ->
    ParseOptions.allow_duplicate_keys (opts_ p) = true
    \/ NoDup (map fst acc ++ map fst (e :: r)) ->
    ParseOptions.allow_duplicate_keys (opts_ p) = true
    \/ (forall k, k ∈ seen -> In k (map fst acc)) ->
    ptr_ p = (34 :: kbody (fst e) ++ 34 :: 58 :: sp ++ text (snd e))
             ++ flat_map (fun e' => 44 :: g1 ++ 34 :: kbody (fst e') ++ 34 :: 58
                                    :: sp ++ text (snd e')) r
             ++ g0 ++ 125 :: rest ->
    (3 * length (ptr_ p) + 2 <= fuel)%nat ->
    Forall (fun e => (depth_ p + depth (snd e) <= max_depth_ p)%nat) (e :: r) ->
    object_loop fuel acc seen p
    = Ok (JObject (finalize_object (acc ++ map reparsed_entry (e :: r))))
         (with_depth (with_ptr p rest) (size_t_pred (depth_ p))).
Proof.
  intros Hg1 Hg0 Hsp.
  induction r as [|[key' v'] r IH];
    intros [key v] acc seen fuel p rest Hrb Hst Hkeys Hnd Hseen Hptr Hfuel Hdep;
    (destruct fuel as [|n]; [lia|]);
    apply Forall_cons in Hrb as [Hx Hrb]; apply Forall_cons in Hdep as [Hdx Hdep];
    apply Forall_cons in Hkeys as [Hkey Hkeys]; apply Forall_cons in Hst as [Hsx Hst];
    cbn [fst snd] in *.
  all: match type of Hptr with _ = _ ++ ?t => remember t as more eqn:Emore end.
  all: destruct (starts_value_head _ Hsx) as (c & t & Ex & Hc32 & Hc47 & _).
  all: assert (Eptr : ptr_ p = 34 :: kbody key ++ 34 :: 58 :: sp ++ c :: t ++ more)
      by (rewrite Hptr, Ex; norm_app; reflexivity).
  all: assert (Hlen : (3 * (length (kbody key) + length (sp ++ c :: t ++ more) + 3) + 2
                    <= S n)%nat)
      by (rewrite Eptr in Hfuel; cbn [length] in Hfuel; rewrite length_app in Hfuel;
          cbn [length] in Hfuel; lia).
  all: assert (Hnew : ParseOptions.allow_duplicate_keys (opts_ p) = true
                      \/ ~ In key (map fst acc))
      by (destruct Hnd as [Hnd|Hnd]; [left; exact Hnd|right];
          cbn [map fst] in Hnd; apply NoDup_app in Hnd as (_ & Hdisj & _);
          intros Hin; apply list_elem_of_In in Hin; apply (Hdisj key Hin);
          constructor).
  all: destruct (entry_insertion (opts_ p) acc seen key (reparsed v) Hnew Hseen)
      as (seen' & Eins & Hseen').
  all: clear Hptr Hfuel.
  all: destruct p as [ptr b o d m]; cbn [ptr_ depth_ max_depth_ opts_] in *; subst ptr.
  all: cbv [ret] in Eins.
  all: cbn [object_loop]; cbv [bind get_ptr get_opts set_ptr pop_depth ret].
  all: rewrite (skip_ws_token n _ 34 (kbody key ++ 34 :: 58 :: sp ++ c :: t ++ more))
      by (lia || reflexivity).
  all: cbn [ptr_ opts_]; change (34 =? 34) with true; cbv iota.
  all: rewrite (Hkey n (58 :: sp ++ c :: t ++ more))
      by ((rewrite !length_app in Hlen; lia) || reflexivity).
  all: rewrite (skip_ws_token n _ 58 (sp ++ c :: t ++ more)) by (reflexivity || lia).
  all: rewrite (expect_head 58 (sp ++ c :: t ++ more)) by reflexivity.
  all: rewrite (parse_value_gap n _ sp c (t ++ more)) by (assumption || reflexivity).
  all: rewrite (Hx n _ more);
      [|cbn [ptr_ with_ptr]; rewrite Ex; reflexivity
       |subst more; cbn [flat_map app]; try apply ends_number_gap; auto;
        cbn [ends_number is_digit]; repeat split; lia || reflexivity
       |cbn [ptr_ with_ptr];
        repeat first [rewrite length_app in Hlen | progress cbn [length] in Hlen];
        cbn [length]; rewrite length_app; lia
       |cbn [depth_ max_depth_ with_ptr]; lia].
  all: cbn [ptr_ with_ptr opts_]; rewrite Eins; cbv beta iota.
  - subst more.
    rewrite (skip_gap n _ g0 125 rest) by (reflexivity || assumption || lia).
    cbn [ptr_ with_ptr]. reflexivity.
  - subst more. cbn [flat_map fst snd app]. rewrite <- !app_assoc. cbn [app].
    rewrite (skip_ws_token n _ 44 _) by (lia || reflexivity).
    cbn [ptr_ with_ptr]. change (44 =? 44) with true. cbv beta iota.
    rewrite <- ?app_assoc. cbn [app].
    rewrite (skip_gap n _ g1 34 _) by (lia || reflexivity || assumption).
    cbn [ptr_ with_ptr]. change (34 =? 125) with false. rewrite andb_false_r.
    rewrite (IH (key', v') (acc ++ [(key, reparsed v)]) seen' n _ rest);
      try assumption.
    + cbn [map]. rewrite <- app_assoc. reflexivity.
    + destruct Hnd as [Hnd|Hnd]; [left; exact Hnd|right].
      rewrite map_app, <- app_assoc. exact Hnd.
    + cbn [ptr_ with_ptr fst snd]. fold (@app Z). norm_app.
      reflexivity.
    + cbn [ptr_ with_ptr]. revert Hlen. cbn [flat_map fst snd].
      fold (@app Z). norm_app.
      repeat first [rewrite length_app | progress cbn [length]]. lia.
Qed.

Lemma parse_object_layout (text : JsonValue -> list Z) (kbody : list Z -> list Z)
    (g1 g0 sp : list Z) (e : list Z * JsonValue) (r : Entries) (fuel : nat) (p : Parser.t)
    (rest : list Z) :
  blank g1 -> blank g0 -> blank sp ->
  Forall (fun e => reads_as text (snd e)) (e :: r) ->
  Forall (fun e => starts_value (text (snd e))) (e :: r) ->
  Forall (fun e => reads_key kbody (fst e)) (e :: r) ->
  NoDup (map fst (e :: r)) ->
  ptr_ p = 123 :: g1 ++ (34 :: kbody (fst e) ++ 34 :: 58 :: sp ++ text (snd e))
           ++ flat_map (fun e' => 44 :: g1 ++ 34 :: kbody (fst e') ++ 34 :: 58
                                  :: sp ++ text (snd e')) r
           ++ g0 ++ 125 :: rest ->
  (3 * length (ptr_ p) <= fuel)%nat ->
  (depth_ p + depth (JObject (e :: r)) <= max_depth_ p)%nat ->
  parse_object fuel p
  = Ok (JObject (map reparsed_entry (e :: r))) (with_ptr p rest).
Proof.
  intros Hg1 Hg0 Hsp Hrb Hst Hkeys Hnd Hptr Hfuel Hdep. cbn [depth] in Hdep.
  destruct fuel as [|n]; [rewrite Hptr in Hfuel; cbn [length] in Hfuel; lia|].
  cbn [parse_object]. cbv [bind get_ptr get_opts set_ptr pop_depth ret].
  rewrite push_depth_ok by (cbn [with_ptr depth_ max_depth_]; lia).
  rewrite Hptr. cbn [drop with_ptr depth_ ptr_]. rewrite ?drop_0.
  destruct p as [ptr b o d m]. cbn [ptr_ depth_ max_depth_ begin_ opts_] in *.
  unfold with_depth, with_ptr. cbn [ptr_ depth_ max_depth_ begin_ opts_].
  match type of Hptr with
  | context [flat_map ?f r ++ ?tl] =>
      remember (flat_map f r ++ tl) as more eqn:Emore
  end.
  assert (Em : g1 ++ (34 :: kbody (fst e) ++ 34 :: 58 :: sp ++ text (snd e)) ++ more
               = g1 ++ 34 :: kbody (fst e) ++ 34 :: 58 :: sp ++ text (snd e) ++ more)
    by (norm_app; reflexivity).
  rewrite Em.
  rewrite (skip_gap n _ g1 34 _) by (assumption || reflexivity || lia).
  cbn [ptr_ with_ptr depth_ max_depth_ begin_ opts_].
  change (34 =? 125) with false. cbv iota.
  rewrite (object_loop_layout text kbody g1 g0 sp r Hg1 Hg0 Hsp e [] ∅ n _ rest);
    try assumption.
  - cbn [app depth_ ptr_ Nat.pred size_t_pred]. rewrite finalize_object_nodup; [reflexivity|].
    rewrite map_map. cbn [fst]. exact Hnd.
  - right. exact Hnd.
  - right. intros k Hk. exfalso. revert Hk. apply not_elem_of_empty.
  - cbn [ptr_ with_ptr]. subst more. norm_app. reflexivity.
  - cbn [ptr_ with_ptr]. subst ptr. cbn [length] in Hfuel. rewrite Em in Hfuel.
    rewrite length_app in Hfuel. lia.
  - cbn [depth_ max_depth_ with_ptr].
    assert (Hm : Forall (fun x : list Z * JsonValue =>
                           (depth (snd x)
                            <= fold_right (fun e acc => Nat.max (depth (snd e)) acc)
                                          0 (e :: r))%nat) (e :: r)).
    { clear. induction (e :: r) as [|x l IH]; constructor; cbn [fold_right]; [lia|].
      eapply Forall_impl; [exact IH|]. cbv beta. intros; lia. }
    eapply Forall_impl; [exact Hm|]. cbv beta. intros; lia.
Qed.

(** ** The serialized text *)

Section Rendered.
Variables (Pretty ea : bool) (sopts : SerializeOptions.t).
Hypothesis Hsort : SerializeOptions.sort_keys sopts = false.

Local Abbreviation text := (render Pretty ea sopts).
Local Abbreviation kbody := (fun k : list Z => escaped_bytes ea (length k) k).
Local Abbreviation valid_if_ascii :=
  (fun s : list Z => ea = true -> utf8.validate s = true).
Local Abbreviation step := (indent_step Pretty sopts).
Local Abbreviation gap :=
  (fun cur : Z => newline_text Pretty ++ indent_text Pretty cur).

Lemma rendered_string_text (s : list Z) : rendered_string false s = string_text s.
Proof.
  pose proof (serialize_rendered SerializeOptions.default (JString s)) as Hr.
  rewrite serialize_compact_text in Hr. symmetry. exact Hr.
Qed.

Lemma escaped_bytes_plain (s : list Z) : escaped_bytes false (length s) s = escaped s.
Proof.
  pose proof (rendered_string_text s) as Hr. unfold rendered_string, string_text in Hr.
  apply app_inv_head in Hr. apply app_inv_tail in Hr. exact Hr.
Qed.

Lemma content_rendered (s : list Z) (n : nat) (rest : list Z) (p : Parser.t) :
  Forall is_byte s -> valid_if_ascii s ->
  ptr_ p = kbody s ++ 34 :: rest -> (length (kbody s) < S n)%nat ->
  parse_string_content_into (S n) [] 34 p = Ok s (with_ptr p rest).
Proof.
  cbv beta. intros Hb Hv Hptr Hlen. destruct ea.
  - apply (parse_string_content_ascii (length s) s (length s) (length s)
             (le_n _) (le_n _) Hb (Hv eq_refl) (S n) [] rest p Hptr Hlen).
  - rewrite escaped_bytes_plain in Hptr, Hlen.
    apply (parse_string_content_text s Hb (S n) [] rest p Hptr Hlen).
Qed.

Lemma reads_key_rendered (k : list Z) :
  Forall is_byte k -> valid_if_ascii k -> reads_key kbody k.
Proof.
  intros Hb Hv n rest p Hptr Hlen.
  rewrite parse_string_eq, (bind_Ok _ _ _ _ _ (expect_head _ _ _ Hptr)).
  apply (content_rendered k n rest (with_ptr p (kbody k ++ 34 :: rest)));
    try assumption. reflexivity.
Qed.

Lemma reads_string_rendered (s : list Z) (cur : Z) :
  Forall is_byte s -> valid_if_ascii s -> reads_as (text cur) (JString s).
Proof.
  intros Hb Hv fuel p rest Hptr Hend Hfuel Hdep. destruct fuel as [|n]; [lia|].
  cbn [render] in Hptr. unfold rendered_string in Hptr.
  rewrite <- !app_assoc in Hptr. cbn [app] in Hptr.
  rewrite (parse_value_head n p 34 _ Hptr) by lia. cbn [Z.eqb Pos.eqb reparsed].
  rewrite parse_string_value_eq, (bind_Ok _ _ _ _ _ (expect_head _ _ _ Hptr)).
  unfold bind.
  rewrite (content_rendered s n rest) by
    (assumption || reflexivity
     || (rewrite Hptr in Hfuel; cbn [length] in Hfuel; rewrite length_app in Hfuel; lia)).
  reflexivity.
Qed.

Lemma render_scalar (cur : Z) (v : JsonValue) :
  roundtrip_safe v ->
  match v with
  | JString _ | JArray (_ :: _) | JObject (_ :: _) => False
  | _ => True
  end ->
  text cur v = compact_text v.
Proof.
  intros Hsafe Hv.
  destruct v as [ | b | i | u | d | s | [|x r] | [|e r] ]; try reflexivity;
    contradiction.
Qed.

Lemma render_starts (cur : Z) (v : JsonValue) :
  roundtrip_safe v -> starts_value (text cur v).
Proof.
  intros Hsafe.
  destruct v as [ | b | i | u | d | s | [|x r] | [|e r] ];
    try (rewrite render_scalar by (exact Hsafe || exact I);
         apply compact_text_starts, Hsafe);
    cbn [render]; unfold rendered_string; cbn [app starts_value]; lia.
Qed.

Lemma blank_gap (cur : Z) : blank (gap cur).
Proof.
  unfold newline_text, indent_text. destruct Pretty; [|constructor].
  apply Forall_app. split; [repeat constructor|]. apply Forall_replicate. reflexivity.
Qed.

Lemma blank_colon : blank (if Pretty then [32] else []).
Proof. destruct Pretty; repeat constructor. Qed.

Lemma utf8_array_members (arr : list JsonValue) :
  utf8_strings (JArray arr) -> Forall utf8_strings arr.
Proof.
  cbn [utf8_strings]. induction arr as [|x r IH]; cbn [fold_right];
    [constructor|]. intros [Hx Hr]. constructor; auto.
Qed.

Lemma utf8_object_members (entries : Entries) :
  utf8_strings (JObject entries) ->
  Forall (fun e => utf8.validate (fst e) = true) entries
  /\ Forall (fun e => utf8_strings (snd e)) entries.
Proof.
  cbn [utf8_strings]. induction entries as [|e r IH]; cbn [fold_right];
    [split; constructor|].
  intros [[Hk Hv] Hr]. destruct (IH Hr). split; constructor; auto.
Qed.

(** [parse_value] reads the text of the serializer back, at every
    indentation. *)
Lemma reads_rendered (v : JsonValue) :
  roundtrip_safe v -> (ea = true -> utf8_strings v) ->
  forall cur, reads_as (text cur) v.
Proof.
  induction v as [ | b | i | u | d | s | arr IH | entries IH ]
    using JsonValue_induction; intros Hsafe Hutf cur;
    try (intros fuel p rest Hptr Hend Hfuel Hdep;
         rewrite render_scalar in Hptr by (exact Hsafe || exact I);
         apply (reads_text_then _ Hsafe); assumption).
  - apply reads_string_rendered; [exact Hsafe|exact Hutf].
  - intros fuel p rest Hptr Hend Hfuel Hdep. destruct arr as [|x r].
    { rewrite render_scalar in Hptr by (exact Hsafe || exact I).
      apply (reads_text_then _ Hsafe); assumption. }
    pose proof (safe_array_members _ Hsafe) as Hall.
    assert (Hua : Forall (fun y => ea = true -> utf8_strings y) (x :: r)).
    { apply Forall_forall. intros y Hy E.
      pose proof (utf8_array_members _ (Hutf E)) as Hm.
      rewrite Forall_forall in Hm. apply Hm, Hy. }
    destruct fuel as [|n]; [lia|].
    assert (Eptr : ptr_ p
                   = 91 :: gap (cur + step) ++ text (cur + step) x
                     ++ flat_map (fun y => [44] ++ gap (cur + step)
                                           ++ text (cur + step) y) r
                     ++ gap cur ++ 93 :: rest).
    { rewrite Hptr. cbn [render]. unfold rendered_members.
      cbn [map]. rewrite flat_map_over_map. norm_app.
      match goal with
      | |- ?L = ?R =>
          match L with
          | context [flat_map ?F r] =>
              match R with
              | context [flat_map ?G r] =>
                  rewrite (flat_map_ext F G) by (intros a; norm_app; reflexivity)
              end
          end
      end.
      reflexivity. }
    rewrite (parse_value_head n p 91 _ Eptr) by lia.
    cbn [Z.eqb Pos.eqb reparsed].
    apply (parse_array_layout (text (cur + step)) (gap (cur + step)) (gap cur));
      try assumption; try apply blank_gap; try lia.
    + rewrite Forall_forall in *. intros y Hy. apply IH; auto.
    + eapply Forall_impl; [exact Hall|]. cbv beta. intros y Hy.
      apply render_starts, Hy.
  - intros fuel p rest Hptr Hend Hfuel Hdep. destruct entries as [|e r].
    { rewrite render_scalar in Hptr by (exact Hsafe || exact I).
      apply (reads_text_then _ Hsafe); assumption. }
    destruct (safe_object_members _ Hsafe) as (Hnd & Hkeys & Hall).
    assert (Huk : Forall (fun e => valid_if_ascii (fst e)) (e :: r)).
    { apply Forall_forall. intros y Hy E.
      destruct (utf8_object_members _ (Hutf E)) as [Hm _].
      rewrite Forall_forall in Hm. apply Hm, Hy. }
    assert (Huv : Forall (fun e => ea = true -> utf8_strings (snd e)) (e :: r)).
    { apply Forall_forall. intros y Hy E.
      destruct (utf8_object_members _ (Hutf E)) as [_ Hm].
      rewrite Forall_forall in Hm. apply Hm, Hy. }
    destruct fuel as [|n]; [lia|].
    set (sp := if Pretty then [32] else []).
    assert (Eptr : ptr_ p
                   = 123 :: gap (cur + step)
                     ++ (34 :: kbody (fst e) ++ 34 :: 58 :: sp
                         ++ text (cur + step) (snd e))
                     ++ flat_map (fun e' => 44 :: gap (cur + step)
                                            ++ 34 :: kbody (fst e') ++ 34 :: 58 :: sp
                                            ++ text (cur + step) (snd e')) r
                     ++ gap cur ++ 125 :: rest).
    { rewrite Hptr. cbn [render]. cbv zeta. rewrite Hsort.
      unfold rendered_members, rendered_entry, rendered_string.
      cbn [map fst snd]. rewrite !flat_map_over_map. cbn [fst snd]. fold sp.
      norm_app.
      match goal with
      | |- ?L = ?R =>
          match L with
          | context [flat_map ?F r] =>
              match R with
              | context [flat_map ?G r] =>
                  rewrite (flat_map_ext F G) by (intros a; norm_app; reflexivity)
              end
          end
      end.
      reflexivity. }
    rewrite (parse_value_head n p 123 _ Eptr) by lia.
    cbn [Z.eqb Pos.eqb reparsed].
    apply (parse_object_layout (text (cur + step)) kbody (gap (cur + step)) (gap cur) sp);
      try assumption; try apply blank_gap; try apply blank_colon; try lia.
    + rewrite Forall_forall in *. intros y Hy. apply IH; auto.
    + eapply Forall_impl; [exact Hall|]. cbv beta. intros y Hy.
      apply render_starts, Hy.
    + rewrite Forall_forall in *. intros y Hy.
      apply reads_key_rendered; [apply Hkeys, Hy|apply Huk, Hy].
Qed.

End Rendered.

End Layout.

(** ** With sorted keys *)

Section SortedText.
Context `{Charconv}.
Variables (Pretty ea : bool) (opts : SerializeOptions.t).

Lemma sorted_entries_members (P : list Z * JsonValue -> Prop) (entries : Entries) :
  Forall (fun e => P (fst e, sorted_value (snd e))) entries ->
  Forall P (SerializerCore.sort_by_key
              (map (fun e => (fst e, sorted_value (snd e))) entries)).
Proof.
  intros Hall.
  destruct (sort_by_key_spec (map (fun e => (fst e, sorted_value (snd e))) entries))
    as [_ Hp].
  rewrite (Forall_forall _ _). intros x Hx. apply list_elem_of_In in Hx.
  apply (Permutation_in _ Hp), in_map_iff in Hx as (e & <- & He).
  rewrite (Forall_forall _ _) in Hall. apply Hall, list_elem_of_In, He.
Qed.

(** The sorted form is written alike with and without [sort_keys]. *)
Lemma render_without_sort (v : JsonValue) :
  forall cur, render Pretty ea opts cur (sorted_value v)
              = render Pretty ea (without_sort_keys opts) cur (sorted_value v).
Proof.
  induction v as [ | b | i | u | d | s | arr IH | entries IH ]
    using JsonValue_induction; intros cur; cbn [sorted_value]; try reflexivity.
  - cbn [render]. destruct arr as [|x r]; [reflexivity|]. cbn [map].
    change (indent_step Pretty (without_sort_keys opts)) with (indent_step Pretty opts).
    apply Forall_cons in IH as [Hx Hr]. rewrite Hx.
    assert (Hm : map (render Pretty ea opts (cur + indent_step Pretty opts))
                     (map sorted_value r)
                 = map (render Pretty ea (without_sort_keys opts)
                          (cur + indent_step Pretty opts)) (map sorted_value r)).
    { rewrite !map_map. apply map_ext_Forall. eapply Forall_impl; [exact Hr|].
      cbv beta. auto. }
    rewrite Hm. reflexivity.
  - pose proof (sorted_entries_members
                  (fun x => forall cur,
                     render Pretty ea opts cur (snd x)
                     = render Pretty ea (without_sort_keys opts) cur (snd x))
                  entries IH) as Hall.
    pose proof (sort_by_key_idem
                  (map (fun e => (fst e, sorted_value (snd e))) entries)) as Hidem.
    destruct (SerializerCore.sort_by_key
                (map (fun e => (fst e, sorted_value (snd e))) entries))
      as [|e r] eqn:Es; [reflexivity|].
    cbn [render]. cbv zeta.
    change (indent_step Pretty (without_sort_keys opts)) with (indent_step Pretty opts).
    change (SerializeOptions.sort_keys (without_sort_keys opts)) with false.
    assert (Hm : map (fun e0 => (fst e0, render Pretty ea opts
                                           (cur + indent_step Pretty opts) (snd e0)))
                     (e :: r)
                 = map (fun e0 => (fst e0, render Pretty ea (without_sort_keys opts)
                                             (cur + indent_step Pretty opts) (snd e0)))
                       (e :: r)).
    { apply map_ext_Forall. eapply Forall_impl; [exact Hall|]. cbv beta.
      intros a Ha. rewrite Ha. reflexivity. }
    rewrite Hm. destruct (SerializeOptions.sort_keys opts); [|reflexivity].
    rewrite (sort_by_key_map
               (render Pretty ea (without_sort_keys opts)
                  (cur + indent_step Pretty opts)) (e :: r)), Hidem.
    reflexivity.
Qed.

Lemma safe_object_intro (entries : Entries) :
  NoDup (map fst entries) ->
  Forall (fun e => Forall is_byte (fst e) /\ roundtrip_safe (snd e)) entries ->
  roundtrip_safe (JObject entries).
Proof.
  intros Hnd Hall. cbn [roundtrip_safe]. split; [exact Hnd|].
  induction Hall as [|e r He Hr IH]; cbn [fold_right]; [exact I|].
  split; [exact He|]. apply IH. cbn [map] in Hnd. apply NoDup_cons in Hnd. apply Hnd.
Qed.

Lemma sorted_value_safe (v : JsonValue) :
  roundtrip_safe v -> roundtrip_safe (sorted_value v).
Proof.
  induction v as [ | b | i | u | d | s | arr IH | entries IH ]
    using JsonValue_induction; intros Hsafe; cbn [sorted_value]; try exact Hsafe.
  - pose proof (safe_array_members _ Hsafe) as Hall. cbn [roundtrip_safe].
    clear Hsafe. induction arr as [|x r IHr]; cbn [map fold_right]; [exact I|].
    apply Forall_cons in IH as [Hx Hr]. apply Forall_cons in Hall as [Sx Sr]. auto.
  - destruct (safe_object_members _ Hsafe) as (Hnd & Hkeys & Hall).
    apply safe_object_intro.
    + destruct (sort_by_key_spec (map (fun e => (fst e, sorted_value (snd e))) entries))
        as [_ Hp].
      rewrite (Permutation_map fst Hp), map_map. cbn [fst]. exact Hnd.
    + apply sorted_entries_members. cbn [fst snd].
      apply Forall_forall. intros e He.
      pose proof (proj1 (Forall_forall _ _) Hkeys e He) as Hk.
      pose proof (proj1 (Forall_forall _ _) Hall e He) as Hv.
      pose proof (proj1 (Forall_forall _ _) IH e He) as Hi. auto.
Qed.

Lemma sorted_value_utf8 (v : JsonValue) :
  utf8_strings v -> utf8_strings (sorted_value v).
Proof.
  induction v as [ | b | i | u | d | s | arr IH | entries IH ]
    using JsonValue_induction; intros Hutf; cbn [sorted_value]; try exact Hutf.
  - pose proof (utf8_array_members _ Hutf) as Hall. cbn [utf8_strings].
    clear Hutf. induction arr as [|x r IHr]; cbn [map fold_right]; [exact I|].
    apply Forall_cons in IH as [Hx Hr]. apply Forall_cons in Hall as [Sx Sr]. auto.
  - destruct (utf8_object_members _ Hutf) as (Hkeys & Hall).
    assert (Hs : Forall (fun e => utf8.validate (fst e) = true /\ utf8_strings (snd e))
                   (SerializerCore.sort_by_key
                      (map (fun e => (fst e, sorted_value (snd e))) entries))).
    { apply sorted_entries_members. cbn [fst snd].
      apply Forall_forall. intros e He.
      pose proof (proj1 (Forall_forall _ _) Hkeys e He) as Hk.
      pose proof (proj1 (Forall_forall _ _) Hall e He) as Hv.
      pose proof (proj1 (Forall_forall _ _) IH e He) as Hi. auto. }
    cbn [utf8_strings]. induction Hs as [|e r He Hr IHs]; cbn [fold_right]; auto.
Qed.

Lemma max_depth_perm (l1 l2 : Entries) :
  Permutation l1 l2 ->
  fold_right (fun e acc => Nat.max (depth (snd e)) acc) 0%nat l1
  = fold_right (fun e acc => Nat.max (depth (snd e)) acc) 0%nat l2.
Proof.
  induction 1 as [|x l l' Hp IH|x y l|l l' l'' Hp1 IH1 Hp2 IH2]; cbn [fold_right];
    [reflexivity|rewrite IH; reflexivity|lia|congruence].
Qed.

Lemma depth_sorted_value (v : JsonValue) : depth (sorted_value v) = depth v.
Proof.
  induction v as [ | b | i | u | d | s | arr IH | entries IH ]
    using JsonValue_induction; cbn [sorted_value depth]; try reflexivity.
  - f_equal. induction arr as [|x r IHr]; cbn [map fold_right]; [reflexivity|].
    apply Forall_cons in IH as [Hx Hr]. rewrite Hx, (IHr Hr). reflexivity.
  - f_equal.
    destruct (sort_by_key_spec (map (fun e => (fst e, sorted_value (snd e))) entries))
      as [_ Hp].
    rewrite (max_depth_perm _ _ Hp). clear Hp.
    induction entries as [|e r IHr]; cbn [map fold_right snd]; [reflexivity|].
    apply Forall_cons in IH as [Hx Hr]. rewrite Hx, (IHr Hr). reflexivity.
Qed.

(** The value read back from the sorted text compares equal to the
    original, whichever side the comparison starts from. *)
Lemma equal_fuel_sorted (v : JsonValue) :
  roundtrip_safe v ->
  forall n : nat, (depth v < n)%nat ->
    equal_fuel n (reparsed (sorted_value v)) v = true
    /\ equal_fuel n v (reparsed (sorted_value v)) = true.
Proof.
  induction v as [ | b | i | u | d | s | arr IH | entries IH ]
    using JsonValue_induction;
    intros Hsafe n Hn;
    try (apply (equal_fuel_reparsed _ Hsafe n Hn));
    (destruct n as [|n]; [lia|]).
  - pose proof (safe_array_members arr Hsafe) as Hall.
    cbn [sorted_value reparsed equal_fuel]. rewrite map_map, length_map, Nat.eqb_refl.
    cbn [andb].
    assert (Hmem : Forall (fun x => equal_fuel n (reparsed (sorted_value x)) x = true
                                    /\ equal_fuel n x (reparsed (sorted_value x)) = true)
                     arr).
    { pose proof (depth_member arr) as Hd. cbn [depth] in Hn.
      apply Forall_forall. intros x Hx.
      pose proof (proj1 (Forall_forall _ _) IH x Hx) as Hi.
      pose proof (proj1 (Forall_forall _ _) Hall x Hx) as Hs.
      pose proof (proj1 (Forall_forall _ _) Hd x Hx) as Hdx.
      apply Hi; [exact Hs|]. cbv beta in Hdx. lia. }
    split.
    + apply (forallb2_map_l (equal_fuel n) (fun x => reparsed (sorted_value x))).
      eapply Forall_impl; [exact Hmem|]. cbv beta. tauto.
    + apply (forallb2_map_r (equal_fuel n) (fun x => reparsed (sorted_value x))).
      eapply Forall_impl; [exact Hmem|]. cbv beta. tauto.
  - destruct (safe_object_members entries Hsafe) as (Hnd & _ & Hall).
    cbn [sorted_value reparsed].
    set (sorted := SerializerCore.sort_by_key
                     (map (fun e => (fst e, sorted_value (snd e))) entries)).
    destruct (sort_by_key_spec (map (fun e => (fst e, sorted_value (snd e))) entries))
      as [_ Hp]. fold sorted in Hp.
    assert (Hmem : forall e, e ∈ entries ->
                     equal_fuel n (reparsed (sorted_value (snd e))) (snd e) = true
                     /\ equal_fuel n (snd e) (reparsed (sorted_value (snd e))) = true).
    { intros e He. cbn [depth] in Hn.
      pose proof (proj1 (Forall_forall _ _) IH e He) as Hi.
      pose proof (proj1 (Forall_forall _ _) Hall e He) as Hs.
      apply Hi; [exact Hs|].
      assert (Hd : (depth (snd e)
                    <= fold_right (fun e acc => Nat.max (depth (snd e)) acc) 0 entries)%nat).
      { clear -He. induction He as [e r|e e' r He IHe]; cbn [fold_right]; lia. }
      lia. }
    assert (Hlen : length (map reparsed_entry sorted) = length entries).
    { rewrite length_map, (Permutation_length Hp), length_map. reflexivity. }
    assert (Hnd' : NoDup (map fst (map reparsed_entry sorted))).
    { rewrite map_map. cbn [fst]. rewrite (Permutation_map fst Hp), map_map.
      cbn [fst]. exact Hnd. }
    cbn [equal_fuel]. rewrite Hlen, Nat.eqb_refl. cbn [andb].
    split; apply forallb_forall; intros e Hin.
    + apply in_map_iff in Hin as (e1 & <- & Hin).
      apply (Permutation_in _ Hp), in_map_iff in Hin as ([k x] & <- & Hin).
      cbn [fst snd].
      apply list_elem_of_In in Hin. pose proof Hin as Hin'.
      apply list_elem_of_lookup in Hin as [i Hi].
      rewrite (Object_find_present entries i k x Hnd Hi).
      apply (Hmem (k, x) Hin').
    + destruct e as [k x]. cbn [fst snd].
      assert (Hx : In (k, reparsed (sorted_value x)) (map reparsed_entry sorted)).
      { apply in_map_iff. exists (k, sorted_value x). split; [reflexivity|].
        apply (Permutation_in _ (Permutation_sym Hp)), in_map_iff.
        exists (k, x). split; [reflexivity|exact Hin]. }
      apply list_elem_of_In, list_elem_of_lookup in Hx as [i Hi].
      rewrite (Object_find_present _ i k _ Hnd' Hi).
      apply (Hmem (k, x)), list_elem_of_In, Hin.
Qed.

Lemma equal_written_form (sopts : SerializeOptions.t) (v : JsonValue) :
  roundtrip_safe v -> equal (reparsed (written_form sopts v)) v = true.
Proof.
  intros Hsafe. unfold written_form.
  destruct (SerializeOptions.sort_keys sopts); [|apply equal_reparsed, Hsafe].
  unfold equal. rewrite depth_reparsed, depth_sorted_value.
  apply (equal_fuel_sorted v Hsafe). lia.
Qed.

End SortedText.

(** The text written under any [SerializeOptions] is read back. *)
Lemma parse_serialized `{Charconv} (v : JsonValue)
    (sopts : SerializeOptions.t) (opts : ParseOptions.t) :
  roundtrip_safe v ->
  (SerializeOptions.ensure_ascii sopts = true -> utf8_strings v) ->
  (depth v <= effective_max_depth opts)%nat ->
  Parser.parse (serialize v sopts) opts = Returns (reparsed (written_form sopts v)).
Proof.
  intros Hsafe Hutf Hdep.
  rewrite serialize_rendered. unfold rendered, written_form.
  apply parse_of_value.
  destruct (SerializeOptions.sort_keys sopts) eqn:Hsort.
  - rewrite <- (render_sorted_value _ _ sopts Hsort v), render_without_sort.
    apply (reads_rendered (0 <=? SerializeOptions.indent sopts)
             (SerializeOptions.ensure_ascii sopts) (without_sort_keys sopts) eq_refl
             (sorted_value v) (sorted_value_safe v Hsafe)
             (fun E => sorted_value_utf8 v (Hutf E)) 0).
    + cbn [Parser.ptr_ Parser.make]. rewrite app_nil_r. reflexivity.
    + exact I.
    + unfold Parser.parse_fuel. cbn [Parser.ptr_ Parser.make]. lia.
    + rewrite depth_sorted_value. exact Hdep.
  - apply (reads_rendered (0 <=? SerializeOptions.indent sopts)
             (SerializeOptions.ensure_ascii sopts) sopts Hsort v Hsafe Hutf 0).
    + cbn [Parser.ptr_ Parser.make]. rewrite app_nil_r. reflexivity.
    + exact I.
    + unfold Parser.parse_fuel. cbn [Parser.ptr_ Parser.make]. lia.
    + exact Hdep.
Qed.

(* ===================================================================== *)
(** * Comments                                                            *)
(* ===================================================================== *)

Section Comments.
Context `{Charconv}.
Import Parser.

Lemma skip_line_end (line rest : list Z) :
  Forall (fun c => c <> 10) line -> skip_line (line ++ 10 :: rest) = 10 :: rest.
Proof.
  induction 1 as [|c line Hc Hl IH]; cbn [app skip_line].
  - reflexivity.
  - destruct (Z.eqb_spec c 10); [contradiction|exact IH].
Qed.

Lemma skip_block_end (body rest : list Z) :
  no_block_end body ->
  skip_block (body ++ 42 :: 47 :: rest) = rest.
Proof.
  induction body as [|c body IH]; cbn [app skip_block]; [reflexivity|].
  destruct body as [|c1 body']; cbn [app] in *.
  - intros _. change (42 =? 47) with false. rewrite andb_false_r. reflexivity.
  - intros [Hc Hb].
    destruct (Z.eqb_spec c 42), (Z.eqb_spec c1 47); cbn [andb];
      try (apply IH, Hb). exfalso. apply Hc. auto.
Qed.

(** The block loop on a comment that is not closed: one byte is left. *)
Lemma skip_block_open (body : list Z) (c : Z) :
  Forall (fun c => c <> 47) body -> c <> 47 -> skip_block (body ++ [c]) = [c].
Proof.
  induction 1 as [|c0 body Hc0 Hb IH]; intros Hc; cbn [app skip_block].
  - reflexivity.
  - destruct body as [|c1 body']; cbn [app] in *.
    + destruct (Z.eqb_spec c 47); [contradiction|]. rewrite andb_false_r. reflexivity.
    + apply Forall_cons in Hb as [Hc1 _].
      destruct (Z.eqb_spec c1 47); [contradiction|]. rewrite andb_false_r.
      apply IH, Hc.
Qed.

Lemma skip_whitespace_token (c : Z) (r : list Z) :
  32 < c -> skip_whitespace_ptr (c :: r) = c :: r.
Proof.
  intros Hc. cbn [skip_whitespace_ptr]. destruct (Z.gtb_spec c 32); [reflexivity|lia].
Qed.

Lemma skip_comments_token (n : nat) (c : Z) (r : list Z) :
  c <> 47 -> skip_comments_ptr (S n) (c :: r) = Some (c :: r).
Proof.
  intros Hc. cbn [skip_comments_ptr]. destruct (Z.eqb_spec c 47); [contradiction|].
  destruct r; reflexivity.
Qed.

(** [parse_value] after white space and comments that lead to a token. *)
Lemma parse_value_after (n : nat) (p : Parser.t) (c : Z) (r : list Z) :
  32 < c -> c <> 47 ->
  skip_ws_and_comments (S n) p = Ok tt (with_ptr p (c :: r)) ->
  parse_value (S n) p = parse_value (S n) (with_ptr p (c :: r)).
Proof.
  intros Hc H47 E. cbn [parse_value].
  rewrite (bind_Ok _ _ _ _ _ E), (bind_Ok _ _ _ _ _ (skip_ws_at_token n p c r Hc H47)).
  reflexivity.
Qed.

Lemma skip_one_comment (n : nat) (p : Parser.t) (comment : list Z) (c : Z)
    (r : list Z) :
  ParseOptions.allow_comments (opts_ p) = true ->
  ptr_ p = 47 :: comment ->
  skip_comments_ptr (S n) (47 :: comment) = Some (c :: r) -> 32 < c ->
  skip_ws_and_comments (S n) p = Ok tt (with_ptr p (c :: r)).
Proof.
  intros Hopt Hptr Hskip Hc.
  unfold skip_ws_and_comments, bind, skip_whitespace, get_opts.
  rewrite Hptr, (skip_whitespace_token 47 comment) by lia.
  cbn [opts_ with_ptr]. rewrite Hopt.
  unfold skip_comments_and_ws, bind, skip_comments, skip_whitespace.
  cbn [ptr_ with_ptr]. rewrite Hskip. cbn [ptr_ with_ptr].
  rewrite (skip_whitespace_token c r Hc). reflexivity.
Qed.

Lemma parse_after_comment (v : JsonValue) (opts : ParseOptions.t)
    (comment : list Z) :
  roundtrip_safe v -> (depth v <= effective_max_depth opts)%nat ->
  ParseOptions.allow_comments opts = true ->
  (forall n, skip_comments_ptr (S (S n)) (47 :: comment ++ compact_text v)
             = Some (compact_text v)) ->
  parse (47 :: comment ++ compact_text v) opts = Returns (reparsed v).
Proof.
  intros Hsafe Hdep Hopt Hskip. apply parse_of_value.
  destruct (starts_value_head _ (compact_text_starts v Hsafe))
    as (c & t & Ht & Hc & H47 & _).
  unfold parse_fuel. rewrite Nat.add_1_r.
  set (input := 47 :: comment ++ compact_text v).
  assert (Hlen : (2 <= length input)%nat).
  { unfold input. cbn [length]. rewrite length_app, Ht. cbn [length]. lia. }
  destruct (3 * length input)%nat as [|n] eqn:En; [lia|].
  rewrite (parse_value_after (S n) (make input opts) c t Hc H47).
  - rewrite <- (with_ptr_twice (make input opts) (c :: t) []).
    apply (reads_back_all v Hsafe).
    + cbn [ptr_ with_ptr]. rewrite app_nil_r. symmetry. exact Ht.
    + exact I.
    + cbn [ptr_ with_ptr]. rewrite <- Ht.
      unfold input in En. cbn [length] in En. rewrite length_app in En. lia.
    + exact Hdep.
  - apply (skip_one_comment (S n) (make input opts) (comment ++ compact_text v));
      [exact Hopt|reflexivity| |exact Hc].
    rewrite <- Ht. apply Hskip.
Qed.

Lemma parse_slash (opts : ParseOptions.t) (r : list Z) :
  ParseOptions.allow_comments opts = false ->
  parse (47 :: r) opts
  = Throws (ExnParseError (mkParseError unexpected_character (mkLoc 1 1 0))).
Proof.
  intros Hopt. apply parse_of_error. unfold parse_fuel. rewrite Nat.add_1_r.
  cbn [parse_value]. unfold bind at 1.
  assert (E : skip_ws_and_comments (S (3 * length (47 :: r))) (make (47 :: r) opts)
              = Ok tt (make (47 :: r) opts)).
  { unfold skip_ws_and_comments, bind, skip_whitespace, get_opts.
    cbn [ptr_ make]. rewrite (skip_whitespace_token 47 r) by lia.
    cbn [opts_ with_ptr make]. rewrite Hopt. reflexivity. }
  rewrite E. unfold bind, get_ptr, get_opts. cbn [ptr_ make].
  change (47 =? 34) with false. change (47 =? 39) with false.
  change (47 =? 123) with false. change (47 =? 91) with false.
  change (47 =? 116) with false. change (47 =? 102) with false.
  change (47 =? 110) with false. change ((47 =? 45) || is_digit 47) with false.
  change (47 =? 78) with false. change (47 =? 73) with false. cbv iota.
  unfold error_unexpected_char, error, current_location. cbn [ptr_ make begin_].
  rewrite Nat.sub_diag. reflexivity.
Qed.

End Comments.

(** X19: a line comment (up to its line feed) or a block comment (up to
    its first star directly followed by a slash) before the text of a
    value.  With [allow_comments] the comment is skipped and the value is
    read; without it the same two inputs are refused with
    [unexpected_character] at the start of the input.  The other options
    are any whose depth limit the value respects. *)
Theorem comment_before_value `{Charconv} (v : JsonValue) (opts : ParseOptions.t)
    (line body : list Z) :
  roundtrip_safe v -> (depth v <= effective_max_depth opts)%nat ->
  ParseOptions.allow_duplicate_keys opts = true \/ within_reserve v ->
  Forall (fun c => c <> 10) line -> no_block_end body ->
  let after_line :=
    [47; 47] ++ line ++ [10] ++ serialize v SerializeOptions.default in
  let after_block :=
    [47; 42] ++ body ++ [42; 47] ++ serialize v SerializeOptions.default in
  let refused :=
    Throws (ExnParseError (mkParseError unexpected_character (mkLoc 1 1 0))) in
  (Parser.parse after_line (ParseOptions.with_allow_comments opts true)
   = Returns (reparsed v)
   /\ Parser.parse after_block (ParseOptions.with_allow_comments opts true)
      = Returns (reparsed v))
  /\ (Parser.parse after_line (ParseOptions.with_allow_comments opts false)
      = refused
      /\ Parser.parse after_block (ParseOptions.with_allow_comments opts false)
         = refused).
Proof.
  intros Hsafe Hdep _ Hline Hbody. cbv zeta. rewrite serialize_compact_text.
  destruct (starts_value_head _ (compact_text_starts v Hsafe))
    as (c & t & Ht & Hc & H47 & _).
  split; split.
  - replace ([47; 47] ++ line ++ [10] ++ compact_text v)
      with (47 :: (47 :: line ++ [10]) ++ compact_text v)
      by (cbn [app]; rewrite <- app_assoc; reflexivity).
    apply (parse_after_comment v _ (47 :: line ++ [10]));
      [exact Hsafe|exact Hdep|reflexivity|].
    intros n. cbn [app Parser.skip_comments_ptr]. change (47 =? 47) with true.
    cbv iota. rewrite <- app_assoc. cbn [app].
    rewrite (skip_line_end line (compact_text v) Hline). cbn [drop]. rewrite drop_0.
    rewrite Ht, (skip_whitespace_token c t Hc). apply skip_comments_token, H47.
  - replace ([47; 42] ++ body ++ [42; 47] ++ compact_text v)
      with (47 :: (42 :: body ++ [42; 47]) ++ compact_text v)
      by (cbn [app]; rewrite <- app_assoc; reflexivity).
    apply (parse_after_comment v _ (42 :: body ++ [42; 47]));
      [exact Hsafe|exact Hdep|reflexivity|].
    intros n. cbn [app Parser.skip_comments_ptr]. change (47 =? 47) with true.
    change (42 =? 47) with false. change (42 =? 42) with true. cbv iota.
    rewrite <- app_assoc. cbn [app].
    rewrite (skip_block_end body (compact_text v) Hbody).
    rewrite Ht, (skip_whitespace_token c t Hc). apply skip_comments_token, H47.
  - apply parse_slash. reflexivity.
  - apply parse_slash. reflexivity.
Qed.

Lemma comment_before_value_witness :
  let after_line :=
    [47; 47] ++ [120; 47; 42] ++ [10]
    ++ @serialize no_charconv sample_value SerializeOptions.default in
  let after_block :=
    [47; 42] ++ [47; 120; 10; 42] ++ [42; 47]
    ++ @serialize no_charconv sample_value SerializeOptions.default in
  let refused :=
    Throws (ExnParseError (mkParseError unexpected_character (mkLoc 1 1 0))) in
  (@Parser.parse no_charconv after_line
      (ParseOptions.with_allow_comments ParseOptions.default true)
   = Returns (reparsed sample_value)
   /\ @Parser.parse no_charconv after_block
        (ParseOptions.with_allow_comments ParseOptions.default true)
      = Returns (reparsed sample_value))
  /\ (@Parser.parse no_charconv after_line
        (ParseOptions.with_allow_comments ParseOptions.default false)
      = refused
      /\ @Parser.parse no_charconv after_block
           (ParseOptions.with_allow_comments ParseOptions.default false)
         = refused).
Proof.
  apply (@comment_before_value no_charconv sample_value ParseOptions.default
           [120; 47; 42] [47; 120; 10; 42]).
  - cbn. unfold is_int64, is_uint64, is_byte, INT64_MIN, INT64_MAX, UINT64_MAX.
    repeat split; try lia; repeat constructor; try lia; set_solver.
  - vm_compute. lia.
  - left. reflexivity.
  - repeat constructor; lia.
  - cbn. repeat split; intros [? ?]; lia.
Defined.

(** X20: a block comment that is never closed is not reported: the block
    loop stops with one byte unread, and that byte is parsed as the
    document; a digit there is the value returned. *)
Theorem unclosed_block_comment_is_not_reported `{Charconv}
    (opts : ParseOptions.t) (body : list Z) (d : Z) :
  ParseOptions.allow_comments opts = true ->
  Forall (fun c => c <> 47) body -> 48 <= d <= 57 ->
  Parser.parse ([47; 42] ++ body ++ [d]) opts = Returns (JInteger (d - 48)).
Proof.
  intros Hopt Hbody Hd.
  assert (Ht : compact_text (JInteger (d - 48)) = [d]).
  { assert (Hc : d = 48 \/ d = 49 \/ d = 50 \/ d = 51 \/ d = 52 \/ d = 53
                 \/ d = 54 \/ d = 55 \/ d = 56 \/ d = 57) by lia.
    repeat (destruct Hc as [-> | Hc]; [reflexivity|]). subst d. reflexivity. }
  change (JInteger (d - 48)) with (reparsed (JInteger (d - 48))).
  replace ([47; 42] ++ body ++ [d])
    with (47 :: (42 :: body) ++ compact_text (JInteger (d - 48)))
    by (rewrite Ht; reflexivity).
  apply (parse_after_comment (JInteger (d - 48)) opts (42 :: body)).
  - cbn. unfold is_int64, INT64_MIN, INT64_MAX. lia.
  - cbn [depth]. lia.
  - exact Hopt.
  - intros n. rewrite Ht. cbn [app Parser.skip_comments_ptr].
    change (47 =? 47) with true. change (42 =? 47) with false.
    change (42 =? 42) with true. cbv iota.
    rewrite (skip_block_open body d Hbody) by lia.
    rewrite (skip_whitespace_token d []) by lia.
    reflexivity.
Qed.

Lemma unclosed_block_comment_is_not_reported_witness :
  @Parser.parse no_charconv ([47; 42] ++ [120; 32; 121] ++ [55]) ParseOptions.json5
  = Returns (JInteger (55 - 48)).
Proof.
  apply (@unclosed_block_comment_is_not_reported no_charconv ParseOptions.json5
           [120; 32; 121] 55).
  - reflexivity.
  - repeat constructor; lia.
  - lia.
Defined.

(* ===================================================================== *)
(** * The monotonic arena                                                 *)
(* ===================================================================== *)

Section ArenaFacts.
Import MonotonicArena.

(** For a power of two, the mask rounds up to the next multiple. *)
Lemma aligned_round_up (cur : Z) (k : Z) :
  0 <= k -> 0 <= cur -> cur + 2 ^ k - 1 < 2 ^ 64 ->
  aligned cur (2 ^ k) = (cur + 2 ^ k - 1) / 2 ^ k * 2 ^ k.
Proof.
  intros Hk Hcur Hfit. unfold aligned, to_uint64.
  assert (Hp : 0 < 2 ^ k) by (apply Z.pow_pos_nonneg; lia).
  rewrite (Z.mod_small (cur + 2 ^ k - 1)) by lia.
  rewrite (Z.mod_small (2 ^ k - 1)) by lia.
  assert (E1 : 2 ^ k - 1 = Z.ones k) by (rewrite Z.ones_equiv; lia).
  rewrite E1.
  rewrite <- (Z.land_ones (Z.lnot (Z.ones k)) 64) by lia.
  rewrite (Z.land_comm (Z.lnot (Z.ones k))), Z.land_assoc.
  rewrite (Z.land_ones (cur + 2 ^ k - 1) 64) by lia.
  rewrite (Z.mod_small (cur + 2 ^ k - 1)) by lia.
  rewrite <- Z.ldiff_land, Z.ldiff_ones_r by lia.
  rewrite Z.shiftl_mul_pow2, Z.shiftr_div_pow2 by lia. reflexivity.
Qed.

Lemma aligned_bounds (cur : Z) (k : Z) :
  0 <= k -> 0 <= cur -> cur + 2 ^ k - 1 < 2 ^ 64 ->
  cur <= aligned cur (2 ^ k) < cur + 2 ^ k /\ aligned cur (2 ^ k) mod 2 ^ k = 0.
Proof.
  intros Hk Hcur Hfit. rewrite aligned_round_up by assumption.
  assert (Hp : 0 < 2 ^ k) by (apply Z.pow_pos_nonneg; lia).
  split; [|apply Z.mod_mul; lia].
  pose proof (Z.div_mod (cur + 2 ^ k - 1) (2 ^ k) ltac:(lia)) as Hd.
  pose proof (Z.mod_pos_bound (cur + 2 ^ k - 1) (2 ^ k) Hp) as Hm.
  lia.
Qed.

End ArenaFacts.

(** X21: [allocate] with an alignment that is a power of two, on an arena
    that has a current block, for a size that the 64-bit addresses can
    hold behind the allocation pointer and the padding.  A result that is
    not null is a multiple of the alignment, and the [size] bytes from it
    lie in the current block behind everything allocated before, with
    less than [align] bytes of padding, or - when fewer than
    [size + align] bytes are left in the current block - at the start of
    the data of a block that [std::malloc] has just returned.  The result
    is null only if the current block is too small and [std::malloc]
    fails, and the arena is then unchanged. *)
Theorem arena_allocate_aligned_in_block (a : MonotonicArena.t) (size k : Z)
    (malloc : option Z) :
  arena_ready a -> 0 <= k -> 0 <= size ->
  MonotonicArena.ptr_ a + 2 ^ k + size <= 2 ^ 64 ->
  (forall block, malloc = Some block ->
                 block_fits block (requested_capacity a size (2 ^ k))) ->
  let r := fst (MonotonicArena.allocate size (2 ^ k) malloc a) in
  let a' := snd (MonotonicArena.allocate size (2 ^ k) malloc a) in
  (r <> 0 ->
   r mod 2 ^ k = 0
   /\ r + size = MonotonicArena.ptr_ a'
   /\ MonotonicArena.ptr_ a' <= MonotonicArena.end_ a'
   /\ ((MonotonicArena.ptr_ a <= r < MonotonicArena.ptr_ a + 2 ^ k
        /\ MonotonicArena.end_ a' = MonotonicArena.end_ a
        /\ MonotonicArena.blocks_ a' = MonotonicArena.blocks_ a)
       \/ (exists block,
             malloc = Some block
             /\ MonotonicArena.end_ a < MonotonicArena.ptr_ a + size + 2 ^ k
             /\ MonotonicArena.data block = block + MonotonicArena.sizeof_Block
             /\ MonotonicArena.data block <= r < MonotonicArena.data block + 2 ^ k
             /\ MonotonicArena.end_ a'
                = MonotonicArena.data block + requested_capacity a size (2 ^ k)
             /\ MonotonicArena.blocks_ a'
                = (block, requested_capacity a size (2 ^ k))
                  :: MonotonicArena.blocks_ a)))
  /\ (r = 0 -> malloc = None /\ a' = a).
Proof.
  intros (Hptr & Hend & Hnext) Hk Hsize Hfit Hblock r a'.
  subst r a'. unfold MonotonicArena.allocate. cbv zeta.
  assert (Hp : 0 < 2 ^ k) by (apply Z.pow_pos_nonneg; lia).
  destruct (aligned_bounds (MonotonicArena.ptr_ a) k Hk ltac:(lia) ltac:(lia))
    as [Hr Hmod].
  assert (Hpast : to_uint64 (MonotonicArena.aligned (MonotonicArena.ptr_ a) (2 ^ k)
                             + size)
                  = MonotonicArena.aligned (MonotonicArena.ptr_ a) (2 ^ k) + size)
    by (unfold to_uint64; apply Z.mod_small; lia).
  rewrite Hpast.
  destruct (Z.leb_spec (MonotonicArena.aligned (MonotonicArena.ptr_ a) (2 ^ k) + size)
                       (MonotonicArena.end_ a)) as [Hfast|Hslow].
  - cbn [fst snd MonotonicArena.bump MonotonicArena.ptr_ MonotonicArena.end_
         MonotonicArena.blocks_].
    split; [|lia]. intros _. repeat split; try assumption; try lia.
    left. repeat split; lia.
  - unfold MonotonicArena.allocate_slow. cbv zeta.
    assert (Hneeded : to_uint64 (size + 2 ^ k - 1) = size + 2 ^ k - 1)
      by (unfold to_uint64; apply Z.mod_small; lia).
    rewrite Hneeded.
    assert (Hcap : (if MonotonicArena.next_block_size_ a <? size + 2 ^ k - 1
                    then size + 2 ^ k - 1 else MonotonicArena.next_block_size_ a)
                   = requested_capacity a size (2 ^ k)).
    { unfold requested_capacity.
      destruct (Z.ltb_spec (MonotonicArena.next_block_size_ a) (size + 2 ^ k - 1)); lia. }
    rewrite Hcap. destruct malloc as [block|]; cbn [MonotonicArena.grow].
    + destruct (Hblock block eq_refl) as [Hb Hbfit].
      set (cap := requested_capacity a size (2 ^ k)) in *.
      assert (Hc : size + 2 ^ k - 1 <= cap) by (unfold cap, requested_capacity; lia).
      cbn [MonotonicArena.ptr_ MonotonicArena.end_].
      assert (Hdata : MonotonicArena.data block = block + MonotonicArena.sizeof_Block).
      { unfold MonotonicArena.data, to_uint64. apply Z.mod_small.
        unfold MonotonicArena.sizeof_Block in *. lia. }
      assert (Hd : 0 < MonotonicArena.data block)
        by (rewrite Hdata; unfold MonotonicArena.sizeof_Block; lia).
      assert (Hdc : MonotonicArena.data block + cap < 2 ^ 64)
        by (rewrite Hdata; exact Hbfit).
      destruct (aligned_bounds (MonotonicArena.data block) k Hk ltac:(lia) ltac:(lia))
        as [Hr' Hmod'].
      assert (Hend' : to_uint64 (MonotonicArena.data block + cap)
                      = MonotonicArena.data block + cap)
        by (unfold to_uint64; apply Z.mod_small; lia).
      assert (Hpast' : to_uint64 (MonotonicArena.aligned (MonotonicArena.data block)
                                    (2 ^ k) + size)
                       = MonotonicArena.aligned (MonotonicArena.data block) (2 ^ k)
                         + size)
        by (unfold to_uint64; apply Z.mod_small; lia).
      rewrite Hend', Hpast'.
      destruct (Z.leb_spec (MonotonicArena.aligned (MonotonicArena.data block) (2 ^ k)
                            + size) (MonotonicArena.data block + cap)); [|lia].
      cbn [fst snd MonotonicArena.bump MonotonicArena.ptr_ MonotonicArena.end_
           MonotonicArena.blocks_].
      split; [|lia]. intros _. repeat split; try assumption; try lia.
      right. exists block. repeat split; try assumption; try lia.
    + rewrite Hpast.
      destruct (Z.leb_spec (MonotonicArena.aligned (MonotonicArena.ptr_ a) (2 ^ k)
                            + size) (MonotonicArena.end_ a)); [lia|].
      cbn [fst snd]. split; [intros Hn; contradiction Hn; reflexivity|]. auto.
Qed.

Lemma arena_allocate_aligned_in_block_witness :
  let a := MonotonicArena.with_buffer 4096 64 in
  let r := fst (MonotonicArena.allocate 56 (2 ^ 4) (Some 65536) a) in
  let a' := snd (MonotonicArena.allocate 56 (2 ^ 4) (Some 65536) a) in
  (r <> 0 ->
      r mod 2 ^ 4 = 0
      /\ r + 56 = MonotonicArena.ptr_ a'
      /\ MonotonicArena.ptr_ a' <= MonotonicArena.end_ a'
      /\ ((MonotonicArena.ptr_ a <= r < MonotonicArena.ptr_ a + 2 ^ 4
           /\ MonotonicArena.end_ a' = MonotonicArena.end_ a
           /\ MonotonicArena.blocks_ a' = MonotonicArena.blocks_ a)
          \/ (exists block,
                Some 65536 = Some block
                /\ MonotonicArena.end_ a < MonotonicArena.ptr_ a + 56 + 2 ^ 4
                /\ MonotonicArena.data block = block + MonotonicArena.sizeof_Block
                /\ MonotonicArena.data block <= r < MonotonicArena.data block + 2 ^ 4
                /\ MonotonicArena.end_ a'
                   = MonotonicArena.data block + requested_capacity a 56 (2 ^ 4)
                /\ MonotonicArena.blocks_ a'
                   = (block, requested_capacity a 56 (2 ^ 4))
                     :: MonotonicArena.blocks_ a)))
     /\ (r = 0 -> Some 65536 = None /\ a' = a).
Proof.
  apply (arena_allocate_aligned_in_block (MonotonicArena.with_buffer 4096 64) 56 4
           (Some 65536)).
  - unfold arena_ready. vm_compute. repeat split; congruence.
  - lia.
  - lia.
  - vm_compute. congruence.
  - intros block Hb. injection Hb as <-. unfold block_fits.
    split; [lia|vm_compute; reflexivity].
Defined.

Section ArenaAccounting.
Import MonotonicArena.

Local Abbreviation accounted :=
  (fun a : MonotonicArena.t =>
     total_allocated_ a = to_uint64 (initial_size_ a + heap_bytes a)
     /\ 0 <= initial_size_ a < 2 ^ 64
     /\ (initial_buf_ a = 0 -> initial_size_ a = 0)).

Lemma accounted_grow (data_size : Z) (malloc : option Z) (a : MonotonicArena.t) :
  accounted a -> accounted (grow data_size malloc a).
Proof.
  intros (Htot & Hsize & Hbuf). destruct malloc as [block|]; [|auto].
  cbn [grow total_allocated_ initial_size_ initial_buf_]. split; [|auto].
  unfold heap_bytes. cbn [blocks_ fold_right snd]. fold (heap_bytes a).
  rewrite Htot. unfold to_uint64.
  rewrite Zplus_mod_idemp_l, Zplus_mod_idemp_r. f_equal. lia.
Qed.

Lemma accounted_allocate (size align : Z) (malloc : option Z) (a : MonotonicArena.t) :
  accounted a -> accounted (snd (allocate size align malloc a)).
Proof.
  intros Ha. unfold allocate.
  destruct (_ <=? _); [exact Ha|]. unfold allocate_slow.
  pose proof (accounted_grow
                (if next_block_size_ a <? to_uint64 (size + align - 1)
                 then to_uint64 (size + align - 1) else next_block_size_ a)
                malloc a Ha) as Hg.
  destruct (_ <=? _); exact Hg.
Qed.

Lemma accounted_reset (malloc : option Z) (a : MonotonicArena.t) :
  accounted a -> accounted (reset malloc a).
Proof.
  intros (Htot & Hsize & Hbuf). unfold reset.
  destruct (Z.eqb_spec (initial_buf_ a) 0) as [E|E].
  - apply accounted_grow. cbn [total_allocated_ initial_size_ initial_buf_].
    unfold heap_bytes. cbn [blocks_ fold_right]. rewrite (Hbuf E).
    repeat split; auto; try lia.
  - cbn [total_allocated_ initial_size_ initial_buf_]. unfold heap_bytes.
    cbn [blocks_ fold_right]. unfold to_uint64.
    rewrite Z.add_0_r, Z.mod_small by lia. auto.
Qed.

Lemma accounted_calls (calls : list arena_call) :
  forall a, accounted a -> accounted (fold_left arena_step calls a).
Proof.
  induction calls as [|c calls IH]; intros a Ha; [exact Ha|].
  cbn [fold_left]. apply IH. destruct c as [size align malloc|malloc];
    [apply accounted_allocate|apply accounted_reset]; exact Ha.
Qed.

End ArenaAccounting.

(** X22: [bytes_allocated()] stays exact.  After any sequence of
    [allocate] and [reset] calls on an arena built over an external
    buffer (not null) or on the heap, whatever [std::malloc] returns,
    [bytes_allocated()] is the size of the initial buffer plus the bytes
    of the heap blocks the arena holds, headers included (as a
    [size_t]); the initial buffer is never replaced. *)
Theorem arena_bytes_allocated_exact (calls : list arena_call)
    (buf size : Z) (malloc : option Z) (a : MonotonicArena.t) :
  (a = MonotonicArena.with_buffer buf size /\ buf <> 0 /\ 0 <= size < 2 ^ 64)
  \/ a = MonotonicArena.heap_only size malloc ->
  let a' := fold_left arena_step calls a in
  MonotonicArena.bytes_allocated a'
  = to_uint64 (MonotonicArena.initial_size_ a + heap_bytes a')
  /\ MonotonicArena.initial_buf_ a' = MonotonicArena.initial_buf_ a
  /\ MonotonicArena.initial_size_ a' = MonotonicArena.initial_size_ a.
Proof.
  intros Ha a'.
  assert (Hkeep : forall (cs : list arena_call) (x : MonotonicArena.t),
            MonotonicArena.initial_buf_ (fold_left arena_step cs x)
            = MonotonicArena.initial_buf_ x
            /\ MonotonicArena.initial_size_ (fold_left arena_step cs x)
               = MonotonicArena.initial_size_ x).
  { induction cs as [|c cs IH]; intros x; [auto|]. cbn [fold_left].
    destruct (IH (arena_step x c)) as [-> ->]. clear IH.
    destruct c as [sz al m|m]; cbn [arena_step].
    - unfold MonotonicArena.allocate, MonotonicArena.allocate_slow.
      repeat match goal with
             | |- context [if ?b then _ else _] => destruct b
             end;
        try destruct m; auto.
    - unfold MonotonicArena.reset.
      destruct (_ =? _); [destruct m|]; auto. }
  destruct (Hkeep calls a) as [Hb Hs]. fold a' in Hb, Hs.
  split; [|auto]. rewrite <- Hs. unfold MonotonicArena.bytes_allocated.
  apply (accounted_calls calls a).
  destruct Ha as [(-> & Hbuf & Hsize)| ->].
  - cbn [MonotonicArena.with_buffer MonotonicArena.total_allocated_
         MonotonicArena.initial_size_ MonotonicArena.initial_buf_].
    unfold heap_bytes. cbn [MonotonicArena.blocks_ fold_right].
    unfold to_uint64. rewrite Z.add_0_r, Z.mod_small by lia.
    repeat split; auto; try lia; intros; contradiction.
  - unfold MonotonicArena.heap_only. apply accounted_grow.
    cbn [MonotonicArena.total_allocated_ MonotonicArena.initial_size_
         MonotonicArena.initial_buf_].
    unfold heap_bytes. cbn [MonotonicArena.blocks_ fold_right].
    repeat split; auto; try lia.
Qed.

Lemma arena_bytes_allocated_exact_witness :
  let a := MonotonicArena.with_buffer 4096 64 in
  let a' := fold_left arena_step
              [Allocate 100 8 (Some 65536); Reset None; Allocate 200 16 (Some 131072)]
              a in
  MonotonicArena.bytes_allocated a'
  = to_uint64 (MonotonicArena.initial_size_ a + heap_bytes a')
  /\ MonotonicArena.initial_buf_ a' = MonotonicArena.initial_buf_ a
  /\ MonotonicArena.initial_size_ a' = MonotonicArena.initial_size_ a.
Proof.
  apply (arena_bytes_allocated_exact
           [Allocate 100 8 (Some 65536); Reset None; Allocate 200 16 (Some 131072)]
           4096 64 None).
  left. repeat split; lia.
Defined.

(* ===================================================================== *)
(** * Erasing through a pointer                                           *)
(* ===================================================================== *)

Section PointerErase.
Import JsonPointer.

Lemma try_resolve_app (a b : JsonPointer.t) :
  forall cur, try_resolve (a ++ b) cur
              = match try_resolve a cur with
                | Some c => try_resolve b c
                | None => None
                end.
Proof.
  induction a as [|tok rest IH]; intros cur; [reflexivity|].
  cbn [app try_resolve].
  destruct cur as [ | bo | n | u | d | s | arr | entries ]; try reflexivity.
  - destruct tok as [|c r]; [reflexivity|].
    destruct (_ && _); [reflexivity|].
    destruct (try_index_loop _ _ _) as [idx|]; [|reflexivity].
    destruct (_ <=? _); [reflexivity|].
    destruct (arr !! Z.to_nat idx); [apply IH|reflexivity].
  - destruct (Object_find entries tok); [apply IH|reflexivity].
Qed.

Lemma to_string_nil (tokens : JsonPointer.t) : to_string tokens = [] -> tokens = [].
Proof. destruct tokens as [|tok rest]; [reflexivity|discriminate]. Qed.

Lemma parent_removelast (tokens : JsonPointer.t) :
  parent tokens = Returns (removelast tokens).
Proof.
  destruct tokens as [|tok rest]; [reflexivity|]. unfold parent.
  destruct (to_string (removelast (tok :: rest))) as [|c r] eqn:E.
  - rewrite (to_string_nil _ E). reflexivity.
  - rewrite <- E. apply make_to_string.
Qed.

(** What is written at the place a pointer resolves to is what the
    pointer resolves to afterwards. *)
Lemma resolve_written_at (par : JsonPointer.t) :
  forall (cur c x : JsonValue),
    try_resolve par cur = Some c ->
    try_resolve par (written_at par cur x) = Some x.
Proof.
  induction par as [|tok rest IH]; intros cur c x Hc; [reflexivity|].
  cbn [try_resolve written_at] in *.
  destruct cur as [ | bo | n | u | d | s | arr | entries ]; try discriminate.
  - destruct tok as [|c0 r]; [discriminate|].
    destruct (_ && _) eqn:Ez; [discriminate|].
    destruct (try_index_loop _ _ _) as [idx|] eqn:Ei; [|discriminate].
    destruct (_ <=? _) eqn:El; [discriminate|].
    destruct (arr !! Z.to_nat idx) as [p|] eqn:Ep; [|discriminate].
    cbn [try_resolve]. rewrite ?Ez, length_insert, Ei, El.
    rewrite list_lookup_insert_eq by (eapply lookup_lt_Some, Ep).
    apply (IH p c x Hc).
  - unfold Object_find in Hc.
    destruct (Object_find_pos entries tok) as [i|] eqn:Ep; [|discriminate].
    destruct (Object_find_pos_Some entries tok i Ep) as [v Hv].
    rewrite Hv in *. cbn [fmap option_fmap option_map snd] in Hc.
    cbn [try_resolve].
    rewrite (entry_replaced entries i tok v (written_at rest v x) Ep Hv).
    apply (IH v c x Hc).
Qed.

Lemma distinct_keys_member (arr : list JsonValue) (x : JsonValue) :
  distinct_keys (JArray arr) -> In x arr -> distinct_keys x.
Proof.
  cbn [distinct_keys]. induction arr as [|y r IH]; [intros _ []|].
  cbn [fold_right In]. intros [Hy Hr] [->|Hin]; auto.
Qed.

Lemma distinct_keys_entry (entries : Entries) (k : list Z) (x : JsonValue) :
  distinct_keys (JObject entries) -> In (k, x) entries -> distinct_keys x.
Proof.
  cbn [distinct_keys]. intros [_ Hall]. induction entries as [|y r IH]; [intros []|].
  cbn [fold_right In] in *. destruct Hall as [Hy Hr]. intros [->|Hin]; auto.
Qed.

Lemma resolved_keeps (P : JsonValue -> Prop) (tokens : JsonPointer.t) :
  (forall arr x, P (JArray arr) -> In x arr -> P x) ->
  (forall entries k x, P (JObject entries) -> In (k, x) entries -> P x) ->
  forall cur c, P cur -> try_resolve tokens cur = Some c -> P c.
Proof.
  intros Harr Hobj.
  induction tokens as [|tok rest IH]; intros cur c Hp Hc; cbn [try_resolve] in Hc.
  - injection Hc as <-. exact Hp.
  - destruct cur as [ | bo | n | u | d | s | arr | entries ]; try discriminate.
    + destruct tok as [|c0 r]; [discriminate|].
      destruct (_ && _); [discriminate|].
      destruct (try_index_loop _ _ _) as [idx|]; [|discriminate].
      destruct (_ <=? _); [discriminate|].
      destruct (arr !! Z.to_nat idx) as [p|] eqn:Ep; [|discriminate].
      apply (IH p c); [|exact Hc]. apply (Harr arr p Hp).
      apply list_elem_of_In. eapply list_elem_of_lookup_2, Ep.
    + destruct (Object_find entries tok) as [p|] eqn:Ef; [|discriminate].
      apply (IH p c); [|exact Hc]. apply (Hobj entries tok p Hp).
      apply Object_find_In, Ef.
Qed.

Lemma arrays_fit_array (arr : list JsonValue) (x : JsonValue) :
  arrays_fit (JArray arr) -> In x arr -> arrays_fit x.
Proof. cbn [arrays_fit]. intros [_ Hm]. apply arrays_fit_member, Hm. Qed.

(** The digit loop of [try_resolve] accepts a token only if
    [std::from_chars] reads all of it, as the same index. *)
Lemma try_index_from_chars (tok : list Z) (size idx : Z) :
  0 <= size -> 24 * size < 2 ^ 64 ->
  try_index_loop tok 0 size = Some idx -> tok <> [] ->
  from_chars_size_t tok = (idx, [], std_ok) /\ idx = decimal_value tok
  /\ forallb Parser.is_digit tok = true.
Proof.
  intros Hs Hfit Hloop Hne.
  rewrite (try_index_loop_spec tok size 0) in Hloop by lia.
  destruct (forallb Parser.is_digit tok) eqn:Hd; [|discriminate].
  cbn [andb] in Hloop. fold (decimal_value tok) in Hloop.
  destruct (Z.leb_spec (decimal_value tok) size) as [Hle|]; [|discriminate].
  injection Hloop as <-. destruct tok as [|c r]; [contradiction|].
  rewrite (from_chars_all_digits c r Hd).
  destruct (Z.leb_spec (decimal_value (c :: r)) UINT64_MAX) as [|Hbig];
    [auto|unfold UINT64_MAX in Hbig; lia].
Qed.

Lemma leading_digits_whole (s : list Z) :
  drop (length (leading_digits s)) s = [] -> leading_digits s = s.
Proof.
  induction s as [|c r IH]; [reflexivity|]. cbn [leading_digits].
  destruct (Parser.is_digit c); [|discriminate]. cbn [length drop].
  intros Hd. rewrite IH by exact Hd. reflexivity.
Qed.

End PointerErase.

(** X23: [JsonPointer::erase] on a root whose objects have pairwise
    different keys and fewer than 16 entries each, so that [find] and
    [erase] of an object scan its entries and consult no hash index.  It
    returns without throwing.  When it returns
    [false] the root is as it was, and the pointer is the root pointer
    or does not resolve.  When it returns [true], the parent pointer
    resolved to a container before the call and resolves afterwards to
    that container without the member the last token names: the entry of
    that key, or the element at that index. *)
Theorem pointer_erase_removes_member (tokens : JsonPointer.t) (root : JsonValue) :
  distinct_keys root -> arrays_fit root -> objects_below 16 root ->
  exists (erased : bool) (root' : JsonValue),
    JsonPointer.erase tokens root = Returns (erased, root')
    /\ (erased = false ->
        root' = root /\ (tokens = [] \/ JsonPointer.try_resolve tokens root = None))
    /\ (erased = true ->
        exists c c',
          JsonPointer.try_resolve (removelast tokens) root = Some c
          /\ JsonPointer.try_resolve (removelast tokens) root' = Some c'
          /\ erased_from (List.last tokens []) c c').
Proof.
  intros Hkeys Hfit _. unfold JsonPointer.erase.
  destruct tokens as [|tok rest] eqn:Et.
  { exists false, root. split; [reflexivity|]. split; [auto|discriminate]. }
  cbv iota. rewrite <- Et. rewrite parent_removelast.
  assert (Hsplit : tokens = removelast tokens ++ [List.last tokens []])
    by (apply app_removelast_last; rewrite Et; discriminate).
  set (par := removelast tokens) in *. set (lst := List.last tokens []) in *.
  assert (Hres : JsonPointer.try_resolve tokens root
                 = match JsonPointer.try_resolve par root with
                   | Some c => JsonPointer.try_resolve [lst] c
                   | None => None
                   end)
    by (rewrite Hsplit at 1; apply try_resolve_app).
  destruct (JsonPointer.try_resolve par root) as [container|] eqn:Ec.
  2:{ exists false, root. split; [reflexivity|]. split; [auto|discriminate]. }
  pose proof (resolved_keeps distinct_keys par distinct_keys_member
                distinct_keys_entry root container Hkeys Ec) as Hck.
  pose proof (resolved_keeps arrays_fit par arrays_fit_array
                (fun es k x H => arrays_fit_entry es k x H) root container Hfit Ec)
    as Hcf.
  destruct container as [ | bo | n | u | d | s | arr | entries ];
    try (exists false, root; split; [reflexivity|];
         split; [intros _; split; [reflexivity|right; rewrite Hres; reflexivity]
                |discriminate]).
  - (* an array *)
    cbn [arrays_fit] in Hcf. destruct Hcf as [Hsize _].
    destruct (from_chars_size_t lst) as [[idx p] ec] eqn:Efc.
    assert (Hfalse : JsonPointer.try_resolve [lst] (JArray arr) <> None ->
                     ec = std_ok /\ p = [] /\ idx < Z.of_nat (length arr)).
    { cbn [JsonPointer.try_resolve]. destruct lst as [|c0 r] eqn:El; [tauto|].
      destruct (_ && _); [tauto|].
      destruct (JsonPointer.try_index_loop _ _ _) as [i|] eqn:Ei; [|tauto].
      destruct (Z.leb_spec (Z.of_nat (length arr)) i); [tauto|]. intros _.
      destruct (try_index_from_chars (c0 :: r) (Z.of_nat (length arr)) i
                  ltac:(lia) Hsize Ei ltac:(discriminate)) as (Hf & _ & _).
      rewrite Hf in Efc. injection Efc as <- <- <-. auto. }
    assert (Hno : ~ (ec = std_ok /\ p = [] /\ idx < Z.of_nat (length arr)) ->
                  JsonPointer.try_resolve tokens root = None).
    { intros Hn. rewrite Hres.
      destruct (JsonPointer.try_resolve [lst] (JArray arr)) eqn:E; [|reflexivity].
      exfalso. apply Hn, Hfalse. discriminate. }
    destruct ec; try (exists false, root; split; [reflexivity|];
                      split; [intros _; split; [reflexivity|right; apply Hno;
                                                 intros (Hx & _); discriminate]
                             |discriminate]).
    destruct p as [|p0 pr].
    2:{ exists false, root. split; [reflexivity|].
        split; [intros _; split; [reflexivity|right; apply Hno;
                                  intros (_ & Hx & _); discriminate]
               |discriminate]. }
    destruct (Z.leb_spec (Z.of_nat (length arr)) idx) as [Hout|Hin].
    { exists false, root. split; [reflexivity|].
      split; [intros _; split; [reflexivity|right; apply Hno; intros (_ & _ & Hx); lia]
             |discriminate]. }
    exists true, (JsonPointer.written_at par root (JArray (delete (Z.to_nat idx) arr))).
    split; [reflexivity|]. split; [discriminate|]. intros _.
    exists (JArray arr), (JArray (delete (Z.to_nat idx) arr)).
    split; [reflexivity|]. split; [apply (resolve_written_at par root _ _ Ec)|].
    cbn [erased_from]. unfold from_chars_size_t in Efc.
    assert (Hall : leading_digits lst = lst).
    { apply leading_digits_whole.
      destruct (leading_digits lst); [discriminate|].
      destruct (_ <=? _); injection Efc; auto. }
    pose proof (leading_digits_Forall lst) as Hd. rewrite Hall in *.
    destruct lst as [|d0 ds]; [discriminate|].
    destruct (Z.leb_spec (decimal_value (d0 :: ds)) UINT64_MAX); [|discriminate].
    injection Efc as <- _.
    repeat split; try discriminate; try assumption.
    apply forallb_forall. intros x Hx. rewrite (Forall_forall _ _) in Hd.
    apply Hd, list_elem_of_In, Hx.
  - (* an object *)
    cbn [distinct_keys] in Hck. destruct Hck as [Hnd _].
    assert (He : Object_erase entries lst
                 = match Object.erase_first entries lst with
                   | Some es => (true, es)
                   | None => (false, entries)
                   end).
    { unfold Object_erase, Object.erase, Object.use_index.
      cbn [Object.entries Object.index_].
      destruct (_ <=? _)%nat; destruct (Object.erase_first entries lst); reflexivity. }
    rewrite He. destruct (Object.erase_first entries lst) as [es'|] eqn:Ee.
    + destruct (erase_first_Some entries es' lst Hnd Ee) as [Hin ->].
      exists true, (JsonPointer.written_at par root
                      (JObject (filter (fun e => fst e <> lst) entries))).
      split; [reflexivity|]. split; [discriminate|]. intros _.
      exists (JObject entries), (JObject (filter (fun e => fst e <> lst) entries)).
      split; [reflexivity|]. split; [apply (resolve_written_at par root _ _ Ec)|].
      cbn [erased_from]. auto.
    + exists false, root. split; [reflexivity|]. split; [|discriminate].
      intros _. split; [reflexivity|]. right. rewrite Hres.
      cbn [JsonPointer.try_resolve].
      destruct (Object_find entries lst) as [v|] eqn:Ef; [|reflexivity].
      exfalso. apply (erase_first_None entries lst Ee).
      apply Object_find_In in Ef. apply in_map_iff. exists (lst, v). auto.
Qed.

Lemma pointer_erase_removes_member_witness :
  exists (erased : bool) (root' : JsonValue),
    JsonPointer.erase [[97]; [49]]
      (JObject [([97], JArray [JNull; JBool true; JInteger 2])])
    = Returns (erased, root')
    /\ (erased = false ->
        root' = JObject [([97], JArray [JNull; JBool true; JInteger 2])]
        /\ ([[97]; [49]] = []
            \/ JsonPointer.try_resolve [[97]; [49]]
                 (JObject [([97], JArray [JNull; JBool true; JInteger 2])]) = None))
    /\ (erased = true ->
        exists c c',
          JsonPointer.try_resolve (removelast [[97]; [49]])
            (JObject [([97], JArray [JNull; JBool true; JInteger 2])]) = Some c
          /\ JsonPointer.try_resolve (removelast [[97]; [49]]) root' = Some c'
          /\ erased_from (List.last [[97]; [49]] []) c c').
Proof.
  apply (pointer_erase_removes_member [[97]; [49]]
           (JObject [([97], JArray [JNull; JBool true; JInteger 2])])).
  - cbn. repeat split; repeat constructor; set_solver.
  - cbn. repeat split; lia.
  - cbn. repeat split; lia.
Defined.

(** X24: [erase] takes an array index with a leading zero that [resolve]
    and [try_resolve] refuse.  Where the parent pointer resolves to an
    array, the token made of [0] and the digits of a valid index is not
    resolved ([try_resolve] returns null, [resolve] throws), yet [erase]
    with that token returns [true] and removes the element at the
    index. *)
Theorem pointer_erase_accepts_leading_zero (par : JsonPointer.t)
    (root : JsonValue) (arr : list JsonValue) (idx : Z) :
  arrays_fit root ->
  JsonPointer.try_resolve par root = Some (JArray arr) ->
  0 <= idx < Z.of_nat (length arr) ->
  let tokens := par ++ [48 :: std_to_string idx] in
  JsonPointer.try_resolve tokens root = None
  /\ (exists e, JsonPointer.resolve tokens root = Throws e)
  /\ exists root',
       JsonPointer.erase tokens root = Returns (true, root')
       /\ JsonPointer.try_resolve par root' = Some (JArray (delete (Z.to_nat idx) arr)).
Proof.
  intros Hfit Hpar Hidx tokens.
  pose proof (resolved_keeps arrays_fit par arrays_fit_array
                (fun es k x H => arrays_fit_entry es k x H) root _ Hfit Hpar) as Hcf.
  cbn [arrays_fit] in Hcf. destruct Hcf as [Hsize _].
  assert (Hmax : 0 <= idx <= UINT64_MAX) by (unfold UINT64_MAX; lia).
  destruct (write_u64_token idx Hmax) as (d1 & ds & Ew & Hd1 & Hds & _ & Hval).
  assert (Etok : std_to_string idx = d1 :: ds)
    by (rewrite std_to_string_digits by exact Hmax; exact Ew).
  assert (Hnone : JsonPointer.try_resolve tokens root = None).
  { unfold tokens. rewrite try_resolve_app, Hpar, Etok. reflexivity. }
  split; [exact Hnone|]. split.
  - pose proof (try_resolve_loop_agree tokens 0 root Hfit) as Ha.
    rewrite Hnone in Ha. unfold JsonPointer.resolve.
    destruct (JsonPointer.resolve_loop tokens 0 root) as [v|e]; [discriminate|].
    exists e. reflexivity.
  - assert (Hfc : from_chars_size_t (48 :: std_to_string idx) = (idx, [], std_ok)).
    { rewrite Etok, (from_chars_all_digits 48 (d1 :: ds)).
      - change (decimal_value (48 :: d1 :: ds)) with (decimal_value (d1 :: ds)).
        rewrite Hval. destruct (Z.leb_spec idx UINT64_MAX); [reflexivity|lia].
      - cbn [forallb]. rewrite Hd1. cbn [andb].
        change (Parser.is_digit 48) with true. cbn [andb].
        apply forallb_forall. intros x Hx. rewrite (Forall_forall _ _) in Hds.
        apply Hds, list_elem_of_In, Hx. }
    unfold JsonPointer.erase.
    assert (Hne : exists t0 r0, tokens = t0 :: r0).
    { unfold tokens. destruct par; cbn [app]; eauto. }
    destruct Hne as (t0 & r0 & Et). rewrite Et. cbv iota. rewrite <- Et.
    rewrite parent_removelast. unfold tokens.
    rewrite removelast_last, last_last, Hpar, Hfc.
    destruct (Z.leb_spec (Z.of_nat (length arr)) idx); [lia|].
    eexists. split; [reflexivity|]. apply (resolve_written_at par root _ _ Hpar).
Qed.

Lemma pointer_erase_accepts_leading_zero_witness :
  let root := JObject [([97], JArray [JNull; JBool true; JInteger 2])] in
  let tokens := [[97]] ++ [48 :: std_to_string 1] in
  JsonPointer.try_resolve tokens root = None
  /\ (exists e, JsonPointer.resolve tokens root = Throws e)
  /\ exists root',
       JsonPointer.erase tokens root = Returns (true, root')
       /\ JsonPointer.try_resolve [[97]] root'
          = Some (JArray (delete (Z.to_nat 1) [JNull; JBool true; JInteger 2])).
Proof.
  apply (pointer_erase_accepts_leading_zero [[97]]
           (JObject [([97], JArray [JNull; JBool true; JInteger 2])])
           [JNull; JBool true; JInteger 2] 1).
  - cbn. repeat split; lia.
  - reflexivity.
  - cbn. lia.
Defined.

(* ===================================================================== *)
(** * Valid UTF-8 in, valid UTF-8 out                                     *)
(* ===================================================================== *)

Section ValidText.
Import utf8.

Local Abbreviation valid := (fun l : list Z => validate l = true).

Lemma validate_loop_fuel (f : nat) :
  forall (l : list Z) (f' : nat),
    (length l <= f)%nat -> (length l <= f')%nat ->
    validate_loop f l = validate_loop f' l.
Proof.
  induction f as [|f IH]; intros l f' Hf Hf'.
  { destruct l; [destruct f'; reflexivity|cbn in Hf; lia]. }
  destruct l as [|lead tl]; [destruct f'; reflexivity|].
  destruct f' as [|f']; [cbn in Hf'; lia|]. cbn [length] in Hf, Hf'.
  destruct (Z.ltb_spec lead 128) as [Hlow|Hhigh].
  { rewrite !validate_step_ascii by exact Hlow. apply IH; lia. }
  destruct (Nat.eq_dec (sequence_length lead) 0%nat) as [E0|N0].
  { rewrite !validate_step_len0 by assumption. reflexivity. }
  destruct (Nat.ltb_spec (length (lead :: tl)) (sequence_length lead)) as [Hs|Hlen].
  { rewrite !validate_step_short by assumption. reflexivity. }
  assert (H2 : (2 <= sequence_length lead)%nat)
    by (destruct (seqlen_cases lead Hhigh) as [E|[E|[E|E]]]; lia).
  destruct (lead_bits_some lead H2) as [cp0 Hcp0].
  rewrite (validate_multi f lead tl cp0 Hhigh Hlen Hcp0).
  rewrite (validate_multi f' lead tl cp0 Hhigh Hlen Hcp0).
  destruct (forallb _ _); [|reflexivity]. destruct (bad _ _); [reflexivity|].
  apply IH; rewrite length_drop; cbn [length]; lia.
Qed.

Lemma validate_fuel (f : nat) (l : list Z) :
  (length l <= f)%nat -> validate_loop f l = validate l.
Proof. intros Hf. apply validate_loop_fuel; [exact Hf|lia]. Qed.

Lemma validate_ascii (c : Z) (r : list Z) : c < 128 -> validate (c :: r) = validate r.
Proof. intros Hc. unfold validate. cbn [length]. apply validate_step_ascii, Hc. Qed.

(** The step of [validate] at a leading byte from 0x80 on. *)
Lemma validate_multibyte (lead : Z) (tl : list Z) :
  128 <= lead ->
  validate (lead :: tl)
  = let len := sequence_length lead in
    (2 <=? len)%nat && (len <=? length (lead :: tl))%nat
    && match lead_bits len lead with
       | Some cp0 =>
           forallb isc (take (len - 1) tl)
           && negb (bad len (fold_left acc (take (len - 1) tl) cp0))
           && validate (drop len (lead :: tl))
       | None => false
       end.
Proof.
  intros Hhigh. cbv zeta. unfold validate at 1. cbn [length].
  destruct (Nat.eq_dec (sequence_length lead) 0%nat) as [E0|N0].
  { rewrite validate_step_len0 by assumption. rewrite E0. reflexivity. }
  assert (H2 : (2 <= sequence_length lead)%nat)
    by (destruct (seqlen_cases lead Hhigh) as [E|[E|[E|E]]]; lia).
  destruct (Nat.leb_spec 2 (sequence_length lead)); [|lia]. cbn [andb].
  destruct (Nat.leb_spec (sequence_length lead) (S (length tl))) as [Hlen|Hs].
  - destruct (lead_bits_some lead H2) as [cp0 Hcp0].
    rewrite (validate_multi (length tl) lead tl cp0 Hhigh Hlen Hcp0), Hcp0.
    cbn [andb].
    destruct (forallb _ _); [|reflexivity]. destruct (bad _ _); [reflexivity|].
    cbn [andb negb]. apply validate_fuel. rewrite length_drop. cbn [length]. lia.
  - rewrite validate_step_short by (cbn [length] in *; lia). reflexivity.
Qed.

Lemma isc_ascii (c : Z) : 0 <= c < 128 -> isc c = false.
Proof.
  intros Hc. apply negb_true_iff.
  exact (Z_range_forallb 128 (fun c => negb (isc c)) eq_refl c Hc).
Qed.

(** Valid texts concatenate. *)
Lemma valid_app (n : nat) :
  forall a b : list Z,
    (length a <= n)%nat -> valid a -> valid b -> valid (a ++ b).
Proof.
  induction n as [|n IH]; intros a b Hn Ha Hb.
  { destruct a; [exact Hb|cbn in Hn; lia]. }
  destruct a as [|lead tl]; [exact Hb|]. cbn [length app] in *.
  destruct (Z.ltb_spec lead 128) as [Hlow|Hhigh].
  { rewrite validate_ascii in * by exact Hlow. apply IH; [lia|assumption..]. }
  rewrite validate_multibyte in Ha |- * by exact Hhigh. cbv zeta in *.
  apply andb_true_iff in Ha as [Ha Hrest]. apply andb_true_iff in Ha as [H2 Hlen].
  rewrite H2. apply Nat.leb_le in Hlen, H2. cbn [length] in Hlen.
  destruct (lead_bits (sequence_length lead) lead) as [cp0|]; [|discriminate].
  apply andb_true_iff in Hrest as [Hrest Hdrop].
  cbn [length]. rewrite length_app.
  destruct (Nat.leb_spec (sequence_length lead) (S (length tl + length b))); [|lia].
  cbn [andb]. rewrite take_app_le by lia. rewrite Hrest. cbn [andb].
  change (lead :: tl ++ b) with ((lead :: tl) ++ b).
  rewrite drop_app_le by (cbn [length]; lia).
  apply IH; [rewrite length_drop; cbn [length]; lia|exact Hdrop|exact Hb].
Qed.

(** A valid text splits before a 7-bit byte. *)
Lemma valid_split (n : nat) :
  forall (a : list Z) (c : Z) (r : list Z),
    (length a <= n)%nat -> 0 <= c < 128 -> valid (a ++ c :: r) ->
    valid a /\ valid (c :: r).
Proof.
  induction n as [|n IH]; intros a c r Hn Hc Hv.
  { destruct a; [split; [reflexivity|exact Hv]|cbn in Hn; lia]. }
  destruct a as [|lead tl]; [split; [reflexivity|exact Hv]|]. cbn [length app] in *.
  destruct (Z.ltb_spec lead 128) as [Hlow|Hhigh].
  { rewrite validate_ascii in * by exact Hlow. apply IH; [lia|assumption..]. }
  rewrite validate_multibyte in Hv |- * by exact Hhigh. cbv zeta in *.
  apply andb_true_iff in Hv as [Hv Hrest]. apply andb_true_iff in Hv as [H2 Hlen].
  rewrite H2. apply Nat.leb_le in Hlen, H2. cbn [length] in Hlen.
  destruct (lead_bits (sequence_length lead) lead) as [cp0|]; [|discriminate].
  apply andb_true_iff in Hrest as [Hrest Hdrop].
  apply andb_true_iff in Hrest as [Hcont Hbad].
  assert (Hfit : (sequence_length lead - 1 <= length tl)%nat).
  { destruct (Nat.le_gt_cases (sequence_length lead - 1) (length tl)) as [|Hgt];
      [assumption|exfalso].
    rewrite take_app in Hcont. rewrite forallb_app in Hcont.
    apply andb_true_iff in Hcont as [_ Hcont].
    destruct (sequence_length lead - 1 - length tl)%nat as [|k] eqn:Ek; [lia|].
    cbn [take forallb] in Hcont. rewrite (isc_ascii c Hc) in Hcont. discriminate. }
  rewrite take_app_le in Hcont, Hbad by exact Hfit.
  change (lead :: tl ++ c :: r) with ((lead :: tl) ++ c :: r) in Hdrop.
  rewrite drop_app_le in Hdrop by (cbn [length]; lia).
  destruct (IH (drop (sequence_length lead) (lead :: tl)) c r
              ltac:(rewrite length_drop; cbn [length]; lia) Hc Hdrop) as [Ha Hr].
  split; [|exact Hr].
  destruct (Nat.leb_spec (sequence_length lead) (length (lead :: tl)));
    [|cbn [length] in *; lia].
  cbn [andb]. rewrite Hcont, Hbad, Ha. reflexivity.
Qed.

Lemma encode_bytes (cp : Z) : Forall is_byte (encode cp).
Proof.
  unfold encode, to_char, is_byte.
  repeat match goal with |- context [if ?b then _ else _] => destruct b end;
    repeat constructor; apply Z.mod_pos_bound; lia.
Qed.

(** What [encode] writes is valid. *)
Lemma valid_encode (cp : Z) :
  0 <= cp <= 0x10FFFF -> ~ (0xD800 <= cp <= 0xDFFF) -> valid (encode cp).
Proof.
  intros Hr Hs. unfold validate.
  apply (validate_decode_steps _ _ (le_n _) (encode_bytes cp)).
  pose proof (decode_encode cp [] Hr Hs) as Hd. rewrite app_nil_r in Hd.
  destruct (encode cp) as [|b bs] eqn:E.
  { constructor. }
  cbn [length decode_steps]. rewrite Hd. cbn [length].
  rewrite Nat.sub_0_r. cbn [take]. rewrite firstn_all. constructor.
  - unfold good. cbn [fst snd]. intros ->. rewrite <- E. reflexivity.
  - destruct (length bs); constructor.
Qed.

End ValidText.

Section ValidParse.
Context `{Charconv}.
Import Parser.

Local Abbreviation valid := (fun l : list Z => utf8.validate l = true).
Local Abbreviation ok := at_boundary.
Local Abbreviation low := (fun c : Z => c < 128).

(** ** Steps over 7-bit bytes *)

Lemma ok_nil : ok [].
Proof. left. reflexivity. Qed.

Lemma ok_tail (c : Z) (r : list Z) : ok (c :: r) -> c < 128 -> ok r.
Proof.
  intros [Hv|Hl] Hc.
  - left. rewrite validate_ascii in Hv by exact Hc. exact Hv.
  - right. cbn [length] in Hl. lia.
Qed.

Lemma ok_drop_low (k : nat) :
  forall l, ok l -> Forall low (take k l) -> ok (drop k l).
Proof.
  induction k as [|k IH]; intros l Hl Hk; [rewrite drop_0; exact Hl|].
  destruct l as [|c r]; [exact Hl|]. cbn [take drop] in *.
  apply Forall_cons in Hk as [Hc Hk]. apply IH; [|exact Hk].
  apply (ok_tail c r Hl Hc).
Qed.

Lemma valid_low (l : list Z) : Forall low l -> valid l.
Proof.
  induction 1 as [|c r Hc Hr IH]; [reflexivity|].
  rewrite validate_ascii by exact Hc. exact IH.
Qed.

(** The text before a 7-bit byte, and the text after it. *)
Lemma ok_cut (pre : list Z) (c : Z) (r : list Z) :
  ok (pre ++ c :: r) -> 0 <= c < 128 -> valid pre /\ ok r.
Proof.
  intros [Hv|Hl] Hc.
  - destruct (valid_split (length pre) pre c r (le_n _) Hc Hv) as [Hp Hr].
    split; [exact Hp|]. left. rewrite validate_ascii in Hr by lia. exact Hr.
  - rewrite length_app in Hl. cbn [length] in Hl.
    destruct pre; [|cbn [length] in Hl; lia].
    split; [reflexivity|]. right. cbn [length] in Hl. lia.
Qed.

Lemma digit_low (c : Z) : is_digit c = true -> c < 128.
Proof. unfold is_digit. intros Hc. apply andb_true_iff in Hc as [_ Hc]. lia. Qed.

Lemma ok_skip_digits (l : list Z) : ok l -> ok (skip_digits l).
Proof.
  induction l as [|c r IH]; intros Hl; [exact Hl|]. cbn [skip_digits].
  destruct (is_digit c) eqn:Ec; [|exact Hl].
  apply IH, (ok_tail c r Hl (digit_low c Ec)).
Qed.

Lemma ok_scan_int (l : list Z) :
  forall v d, ok l -> ok (fst (fst (fst (scan_int l v d)))).
Proof.
  induction l as [|c r IH]; intros v d Hl; [exact Hl|]. cbn [scan_int].
  destruct (is_digit c) eqn:Ec; [|exact Hl].
  pose proof (ok_tail c r Hl (digit_low c Ec)) as Hr.
  destruct (_ || _); [apply ok_skip_digits, Hr|apply IH, Hr].
Qed.

Lemma ok_scan_frac (l : list Z) :
  forall m f t o, ok l -> ok (fst (fst (fst (fst (scan_frac l m f t o))))).
Proof.
  induction l as [|c r IH]; intros m f t o Hl; [exact Hl|]. cbn [scan_frac].
  destruct (is_digit c) eqn:Ec; [|exact Hl].
  pose proof (ok_tail c r Hl (digit_low c Ec)) as Hr.
  destruct (_ <? _); apply IH, Hr.
Qed.

Lemma ok_scan_exp (l : list Z) : forall e, ok l -> ok (fst (scan_exp l e)).
Proof.
  induction l as [|c r IH]; intros e Hl; [exact Hl|]. cbn [scan_exp].
  destruct (is_digit c) eqn:Ec; [|exact Hl].
  apply IH, (ok_tail c r Hl (digit_low c Ec)).
Qed.

Lemma ok_scan_hex (l : list Z) :
  forall v h, ok l -> ok (fst (fst (scan_hex l v h))).
Proof.
  induction l as [|c r IH]; intros v h Hl; [exact Hl|]. cbn [scan_hex].
  destruct (Z.leb_spec 48 c), (Z.leb_spec c 57); cbn [andb];
    try (apply IH, (ok_tail c r Hl); lia).
  all: destruct (Z.leb_spec 97 c), (Z.leb_spec c 102); cbn [andb];
    try (apply IH, (ok_tail c r Hl); lia).
  all: destruct (Z.leb_spec 65 c), (Z.leb_spec c 70); cbn [andb];
    try (apply IH, (ok_tail c r Hl); lia); exact Hl.
Qed.

Lemma ident_char_low (c : Z) : is_ident_char c = true -> c < 128.
Proof.
  unfold is_ident_char, is_ident_start. intros Hc.
  repeat (apply orb_true_iff in Hc as [Hc|Hc]);
    try (apply andb_true_iff in Hc as [_ Hc]); lia.
Qed.

(** [skip_ident] leaves an identifier behind. *)
Lemma skip_ident_split (l : list Z) :
  exists pre, l = pre ++ skip_ident l /\ Forall low pre.
Proof.
  induction l as [|c r (pre & E & Hp)]; [exists []; split; [reflexivity|constructor]|].
  cbn [skip_ident]. destruct (is_ident_char c) eqn:Ec.
  - exists (c :: pre). split; [cbn [app]; f_equal; exact E|].
    constructor; [apply ident_char_low, Ec|exact Hp].
  - exists []. split; [reflexivity|constructor].
Qed.

Lemma ok_low_prefix (pre l : list Z) : ok (pre ++ l) -> Forall low pre -> ok l.
Proof.
  intros Hl Hp. pose proof (ok_drop_low (length pre) (pre ++ l) Hl) as Hd.
  rewrite take_app_length, drop_app_length in Hd. apply Hd, Hp.
Qed.

(** ** White space and comments *)

Lemma ws_low (c : Z) : simd.is_ws c = true -> c < 128.
Proof.
  unfold simd.is_ws. intros Hc.
  repeat (apply orb_true_iff in Hc as [Hc|Hc]); lia.
Qed.

Lemma ok_simd_skip_whitespace (l : list Z) : ok l -> ok (simd.skip_whitespace l).
Proof.
  induction l as [|c r IH]; intros Hl; [exact Hl|]. cbn [simd.skip_whitespace].
  destruct (simd.is_ws c) eqn:Ec; cbn [negb]; [|exact Hl].
  apply IH, (ok_tail c r Hl (ws_low c Ec)).
Qed.

Lemma ok_skip_whitespace_tail (l : list Z) : ok l -> ok (skip_whitespace_tail l).
Proof.
  induction l as [|c r IH]; intros Hl; [exact Hl|]. cbn [skip_whitespace_tail].
  destruct (_ || _) eqn:Ec; [|exact Hl].
  apply IH, (ok_tail c r Hl).
  repeat (apply orb_true_iff in Ec as [Ec|Ec]); lia.
Qed.

Lemma ok_skip_whitespace_ptr (l : list Z) : ok l -> ok (skip_whitespace_ptr l).
Proof.
  intros Hl.
  assert (Hslow : ok (skip_whitespace_slow l)).
  { unfold skip_whitespace_slow. destruct (_ <=? _)%nat;
      [apply ok_simd_skip_whitespace|apply ok_skip_whitespace_tail]; exact Hl. }
  unfold skip_whitespace_ptr.
  destruct l as [|c0 r0]; [exact Hslow|].
  destruct (Z.gtb_spec c0 32) as [|Hc0]; [exact Hl|].
  pose proof (ok_tail c0 r0 Hl ltac:(lia)) as Hr0.
  destruct r0 as [|c1 r1]; [exact Hslow|].
  destruct (Z.gtb_spec c1 32) as [|Hc1]; [exact Hr0|].
  pose proof (ok_tail c1 r1 Hr0 ltac:(lia)) as Hr1.
  destruct r1 as [|c2 r2]; [exact Hslow|].
  destruct (Z.gtb_spec c2 32); [exact Hr1|exact Hslow].
Qed.

Lemma skip_line_split (l : list Z) :
  skip_line l = [] \/ exists pre r, l = pre ++ 10 :: r /\ skip_line l = 10 :: r.
Proof.
  induction l as [|c r IH]; [left; reflexivity|]. cbn [skip_line].
  destruct (Z.eqb_spec c 10) as [->|Hc].
  - right. exists [], r. split; reflexivity.
  - destruct IH as [E|(pre & r' & E & Es)]; [left; exact E|].
    right. exists (c :: pre), r'. split; [cbn [app]; f_equal; exact E|exact Es].
Qed.

Lemma ok_skip_line (l : list Z) : ok l -> ok (drop 1 (skip_line l)).
Proof.
  intros Hl. destruct (skip_line_split l) as [E|(pre & r & E & Es)].
  - rewrite E. apply ok_nil.
  - rewrite Es. rewrite E in Hl. cbn [drop]. rewrite ?drop_0.
    apply (ok_cut pre 10 r Hl). lia.
Qed.

Lemma skip_block_split (l : list Z) :
  (length (skip_block l) <= 1)%nat
  \/ exists pre, l = pre ++ 42 :: 47 :: skip_block l.
Proof.
  induction l as [|c0 r0 IH]; [left; cbn; lia|]. cbn [skip_block].
  destruct r0 as [|c1 r1]; [left; cbn; lia|].
  destruct (Z.eqb_spec c0 42) as [->|H0]; cbn [andb].
  - destruct (Z.eqb_spec c1 47) as [->|H1].
    + right. exists []. reflexivity.
    + destruct IH as [Hs|(pre & E)]; [left; exact Hs|].
      right. exists (42 :: pre). cbn [app]. f_equal. exact E.
  - destruct IH as [Hs|(pre & E)]; [left; exact Hs|].
    right. exists (c0 :: pre). cbn [app]. f_equal. exact E.
Qed.

Lemma ok_skip_block (l : list Z) : ok l -> ok (skip_block l).
Proof.
  intros Hl. destruct (skip_block_split l) as [Hs|(pre & E)]; [right; exact Hs|].
  rewrite E in Hl. destruct (ok_cut pre 42 _ Hl ltac:(lia)) as [_ Hr].
  apply (ok_tail 47 _ Hr). lia.
Qed.

Lemma ok_skip_comments_ptr (fuel : nat) :
  forall l l', ok l -> skip_comments_ptr fuel l = Some l' -> ok l'.
Proof.
  induction fuel as [|n IH]; intros l l' Hl Hs; [discriminate|].
  cbn [skip_comments_ptr] in Hs.
  destruct l as [|c0 [|c1 r]]; try (injection Hs as <-; exact Hl).
  destruct (Z.eqb_spec c0 47) as [->|]; [|injection Hs as <-; exact Hl].
  pose proof (ok_tail 47 _ Hl ltac:(lia)) as Hr1.
  destruct (Z.eqb_spec c1 47) as [->|].
  { refine (IH _ l' _ Hs).
    apply ok_skip_whitespace_ptr, ok_skip_line, (ok_tail 47 r Hr1). lia. }
  destruct (Z.eqb_spec c1 42) as [->|]; [|injection Hs as <-; exact Hl].
  refine (IH _ l' _ Hs).
  apply ok_skip_whitespace_ptr, ok_skip_block, (ok_tail 42 r Hr1). lia.
Qed.

(** ** Strings *)

Lemma delimiter_split (l : list Z) :
  exists pre, l = pre ++ simd.find_string_delimiter l
              /\ take (length l - length (simd.find_string_delimiter l)) l = pre.
Proof.
  assert (Hs : exists pre, l = pre ++ simd.find_string_delimiter l).
  { induction l as [|c r (pre & E)]; [exists []; reflexivity|].
    cbn [simd.find_string_delimiter]. destruct (_ || _).
    - exists []. reflexivity.
    - exists (c :: pre). cbn [app]. f_equal. exact E. }
  destruct Hs as (pre & E). exists pre. split; [exact E|].
  rewrite E at 1 3. rewrite length_app.
  replace (length pre + length (simd.find_string_delimiter l)
           - length (simd.find_string_delimiter l))%nat with (length pre) by lia.
  apply take_app_length.
Qed.

Lemma quote_split (q : Z) (l : list Z) :
  exists pre, l = pre ++ find_quote_or_backslash q l
              /\ take (length l - length (find_quote_or_backslash q l)) l = pre.
Proof.
  assert (Hs : exists pre, l = pre ++ find_quote_or_backslash q l).
  { induction l as [|c r (pre & E)]; [exists []; reflexivity|].
    cbn [find_quote_or_backslash]. destruct (_ || _).
    - exists []. reflexivity.
    - exists (c :: pre). cbn [app]. f_equal. exact E. }
  destruct Hs as (pre & E). exists pre. split; [exact E|].
  rewrite E at 1 3. rewrite length_app.
  replace (length pre + length (find_quote_or_backslash q l)
           - length (find_quote_or_backslash q l))%nat with (length pre) by lia.
  apply take_app_length.
Qed.

Lemma delimiter_head (l : list Z) (c : Z) (r : list Z) :
  simd.find_string_delimiter l = c :: r -> c = 34 \/ c = 92.
Proof.
  induction l as [|c0 r0 IH]; [discriminate|]. cbn [simd.find_string_delimiter].
  destruct (Z.eqb_spec c0 34) as [->|]; cbn [orb]; [intros [= <- _]; auto|].
  destruct (Z.eqb_spec c0 92) as [->|]; [intros [= <- _]; auto|exact IH].
Qed.

Lemma quote_head (q : Z) (l : list Z) (c : Z) (r : list Z) :
  find_quote_or_backslash q l = c :: r -> c = q \/ c = 92.
Proof.
  induction l as [|c0 r0 IH]; [discriminate|]. cbn [find_quote_or_backslash].
  destruct (Z.eqb_spec c0 q) as [->|]; cbn [orb]; [intros [= <- _]; auto|].
  destruct (Z.eqb_spec c0 92) as [->|]; [intros [= <- _]; auto|exact IH].
Qed.

(** ** The computations of the parser *)

Local Abbreviation sound := keeps_boundary.

Lemma sound_bind {A B : Type} (R1 : A -> Prop) (R : B -> Prop) (m : M A)
    (k : A -> M B) :
  sound R1 m -> (forall a, R1 a -> sound R (k a)) -> sound R (bind m k).
Proof.
  intros Hm Hk p Hp. eapply returns_bind; [apply Hm, Hp|]. cbv beta.
  intros a p' [Hp' Ha]. apply (Hk a Ha p' Hp').
Qed.

Lemma sound_then {A B : Type} (R : B -> Prop) (m : M A) (k : A -> M B) :
  sound (fun _ => True) m -> (forall a, sound R (k a)) -> sound R (bind m k).
Proof. intros Hm Hk. apply (sound_bind (fun _ => True)); auto. Qed.

Lemma sound_weaken {A : Type} (R R' : A -> Prop) (m : M A) :
  sound R m -> (forall a, R a -> R' a) -> sound R' m.
Proof.
  intros Hm HR p Hp. eapply returns_weaken; [apply Hm, Hp|]. cbv beta.
  intros a p' [Hp' Ha]. auto.
Qed.

Lemma sound_ret {A : Type} (R : A -> Prop) (a : A) : R a -> sound R (ret a).
Proof. intros Ha p Hp. split; assumption. Qed.

Lemma sound_error {A : Type} (R : A -> Prop) c : sound R (error c).
Proof. intros p Hp. exact I. Qed.

Lemma sound_error_unexpected_char {A : Type} (R : A -> Prop) :
  sound R error_unexpected_char.
Proof. intros p Hp. unfold returns, error_unexpected_char. destruct (ptr_ p); exact I. Qed.

Lemma sound_get_opts {B : Type} (R : B -> Prop) (k : ParseOptions.t -> M B) :
  (forall o, sound R (k o)) -> sound R (bind get_opts k).
Proof. intros Hk p Hp. apply (Hk (opts_ p) p Hp). Qed.

Lemma sound_pop_depth : sound (fun _ => True) pop_depth.
Proof. intros p Hp. split; [exact Hp|exact I]. Qed.

Lemma sound_push_depth : sound (fun _ => True) push_depth.
Proof.
  intros p Hp. unfold returns, push_depth. destruct (_ <? _)%nat; [exact I|].
  split; [exact Hp|exact I].
Qed.

Lemma sound_skip_whitespace : sound (fun _ => True) skip_whitespace.
Proof. intros p Hp. split; [apply ok_skip_whitespace_ptr, Hp|exact I]. Qed.

Lemma sound_skip_comments fuel : sound (fun _ => True) (skip_comments fuel).
Proof.
  intros p Hp. unfold returns, skip_comments.
  destruct (skip_comments_ptr fuel (ptr_ p)) as [l|] eqn:E; [|exact I].
  split; [apply (ok_skip_comments_ptr fuel _ l Hp E)|exact I].
Qed.

Lemma sound_skip_ws_and_comments fuel :
  sound (fun _ => True) (skip_ws_and_comments fuel).
Proof.
  unfold skip_ws_and_comments, skip_comments_and_ws.
  apply sound_then; [apply sound_skip_whitespace|intros _].
  apply sound_get_opts. intros o. destruct (ParseOptions.allow_comments o).
  - apply sound_then; [apply sound_skip_comments|intros _]. apply sound_skip_whitespace.
  - apply sound_ret. exact I.
Qed.

Lemma sound_expect (c : Z) : c < 128 -> sound (fun _ => True) (expect c).
Proof.
  intros Hc p Hp. unfold returns, expect. destruct (ptr_ p) as [|c' r] eqn:E; [exact I|].
  destruct (Z.eqb_spec c' c) as [->|]; [|exact I].
  split; [apply (ok_tail c r Hp Hc)|exact I].
Qed.

Lemma sound_expect_literal (lit : list Z) :
  Forall low lit -> sound (fun _ => True) (expect_literal lit).
Proof.
  intros Hlit p Hp. unfold returns, expect_literal.
  destruct (_ <? _)%nat; [exact I|]. cbn [orb].
  destruct (bool_decide_reflect (take (length lit) (ptr_ p) = lit)) as [E|];
    [|exact I].
  cbn [negb]. split; [|exact I]. cbn [ptr_ with_ptr].
  apply (ok_drop_low _ _ Hp). rewrite E. exact Hlit.
Qed.

Lemma sound_literal (lit : list Z) (v : JsonValue) :
  Forall low lit -> utf8_strings v -> sound utf8_strings (expect_literal lit ;; ret v).
Proof.
  intros Hlit Hv. apply sound_then; [apply sound_expect_literal, Hlit|intros _].
  apply sound_ret, Hv.
Qed.

(** ** Escapes *)

Lemma hex_nibble_low (c : Z) : hex_nibble c <= 15 -> 0 <= hex_nibble c /\ c < 128.
Proof.
  intros Hn. destruct (Z.ltb_spec c 0) as [Hneg|Hpos].
  { unfold hex_nibble in Hn. replace (Z.to_nat c) with 0%nat in Hn by lia.
    cbn in Hn. lia. }
  destruct (Z.ltb_spec c 256) as [Hb|Hbig].
  - pose proof (Z_range_forallb 256
                  (fun c => implb (hex_nibble c <=? 15)
                              ((0 <=? hex_nibble c) && (c <? 128)))
                  eq_refl c ltac:(lia)) as Ht.
    cbv beta in Ht. rewrite (proj2 (Z.leb_le _ _) Hn) in Ht. cbn [implb] in Ht.
    apply andb_true_iff in Ht as [H0 H1]. lia.
  - unfold hex_nibble in Hn. rewrite nth_overflow in Hn by (cbn [length kHexTable]; lia).
    lia.
Qed.

Lemma hex4_loop_range (bytes : list Z) :
  forall val v,
    hex4_loop bytes val = Some v -> 0 <= val ->
    Forall low bytes
    /\ val * 16 ^ Z.of_nat (length bytes) <= v
       < (val + 1) * 16 ^ Z.of_nat (length bytes).
Proof.
  induction bytes as [|c r IH]; intros val v Hv Hval.
  - injection Hv as <-. split; [constructor|]. cbn. lia.
  - cbn [hex4_loop] in Hv. destruct (Z.gtb_spec (hex_nibble c) 15); [discriminate|].
    destruct (hex_nibble_low c ltac:(lia)) as [Hn Hc].
    rewrite lor_shiftl4 in Hv by lia.
    destruct (IH _ v Hv ltac:(lia)) as [Hr Hb]. split; [constructor; assumption|].
    cbn [length]. rewrite Nat2Z.inj_succ, Z.pow_succ_r by lia.
    assert (0 < 16 ^ Z.of_nat (length r)) by (apply Z.pow_pos_nonneg; lia). nia.
Qed.

Lemma sound_parse_hex4 : sound (fun v => 0 <= v < 65536) parse_hex4.
Proof.
  intros p Hp. unfold returns, parse_hex4.
  destruct (Nat.ltb_spec (length (ptr_ p)) 4) as [|Hlen]; [exact I|].
  destruct (hex4_loop (take 4 (ptr_ p)) 0) as [v|] eqn:Ev; [|exact I].
  destruct (hex4_loop_range _ 0 v Ev ltac:(lia)) as [Hl Hb].
  rewrite length_take, Nat.min_l in Hb by exact Hlen.
  change (16 ^ Z.of_nat 4) with 65536 in Hb.
  split; [apply (ok_drop_low 4 _ Hp Hl)|lia].
Qed.

Lemma sound_parse_unicode_escape (out : list Z) :
  valid out -> sound valid (parse_unicode_escape out).
Proof.
  intros Hout. unfold parse_unicode_escape.
  apply (sound_bind (fun v => 0 <= v < 65536)); [apply sound_parse_hex4|].
  intros cp Hcp.
  apply (sound_bind (fun c => 0 <= c <= 0x10FFFF /\ ~ (0xD800 <= c <= 0xDFFF))).
  2:{ intros cp' [Hr Hs]. apply sound_ret.
      apply (valid_app (length out)); [lia|exact Hout|apply valid_encode; assumption]. }
  destruct (Z.leb_spec 0xD800 cp) as [Hhi|Hlo]; cbn [andb].
  2:{ destruct (Z.leb_spec 0xDC00 cp); [lia|]. cbn [andb]. apply sound_ret. lia. }
  destruct (Z.leb_spec cp 0xDBFF) as [Hhi'|Hlo'].
  2:{ destruct (Z.leb_spec 0xDC00 cp); [|lia]. cbn [andb].
      destruct (Z.leb_spec cp 0xDFFF); [apply sound_error|apply sound_ret; lia]. }
  intros p Hp. apply returns_get_ptr.
  destruct (ptr_ p) as [|c0 [|c1 r]] eqn:E; try exact I.
  destruct (Z.eqb_spec c0 92) as [->|]; [|exact I].
  destruct (Z.eqb_spec c1 117) as [->|]; [|exact I]. cbn [andb].
  apply returns_set_ptr.
  eapply returns_bind.
  { apply sound_parse_hex4. cbn [ptr_ with_ptr].
    apply (ok_tail 117 r); [|lia]. apply (ok_tail 92 _ Hp). lia. }
  cbv beta. intros lw p' [Hp' Hlw].
  destruct (Z.ltb_spec lw 0xDC00); [exact I|]. destruct (Z.ltb_spec 0xDFFF lw); [exact I|].
  cbn [orb]. apply returns_ret. split; [exact Hp'|].
  rewrite Z.shiftl_mul_pow2 by lia. change (2 ^ 10) with 1024. lia.
Qed.

Lemma sound_parse_escape (out : list Z) :
  valid out -> sound valid (parse_escape out).
Proof.
  intros Hout p Hp. unfold parse_escape. apply returns_get_ptr.
  destruct (ptr_ p) as [|c r] eqn:E; [exact I|]. apply returns_set_ptr.
  assert (Hone : forall x, c < 128 -> x < 128 ->
                   returns (ret (out ++ [x])) (with_ptr p r)
                     (fun a p' => ok (ptr_ p') /\ valid a)).
  { intros x Hc Hx. apply returns_ret. split; [apply (ok_tail c r Hp Hc)|].
    apply (valid_app (length out)); [lia|exact Hout|]. apply valid_low.
    repeat constructor. exact Hx. }
  repeat match goal with
         | |- returns (if ?x =? ?k then _ else _) _ _ =>
             destruct (Z.eqb_spec x k) as [->|]; [try (apply Hone; lia)|]
         end.
  - apply returns_get_opts. destruct (ParseOptions.allow_single_quotes _);
      [apply Hone; lia|exact I].
  - apply sound_parse_unicode_escape; [exact Hout|].
    cbn [ptr_ with_ptr]. apply (ok_tail 117 r Hp). lia.
  - exact I.
Qed.

(** ** Strings and keys *)

Lemma ok_cut_head (pre : list Z) (c : Z) (r : list Z) :
  ok (pre ++ c :: r) -> 0 <= c < 128 -> ok (c :: r).
Proof.
  intros [Hv|Hl] Hc.
  - left. apply (valid_split (length pre) pre c r (le_n _) Hc Hv).
  - right. rewrite length_app in Hl. lia.
Qed.

Lemma sound_content (fuel : nat) :
  forall (result : list Z) (quote : Z),
    0 <= quote < 128 -> valid result ->
    sound valid (parse_string_content_into fuel result quote).
Proof.
  induction fuel as [|n IH]; intros result quote Hq Hres p Hp;
    cbn [parse_string_content_into]; [exact I|].
  apply returns_get_ptr. cbv zeta.
  assert (Hsplit : exists pre delim,
             (if quote =? 34 then simd.find_string_delimiter (ptr_ p)
              else find_quote_or_backslash quote (ptr_ p)) = delim
             /\ ptr_ p = pre ++ delim
             /\ take (length (ptr_ p) - length delim) (ptr_ p) = pre
             /\ match delim with
                | c :: _ => c = quote \/ c = 92
                | [] => True
                end).
  { destruct (Z.eqb_spec quote 34) as [->|].
    - destruct (delimiter_split (ptr_ p)) as (pre & E & Et).
      exists pre, (simd.find_string_delimiter (ptr_ p)). repeat split; try assumption.
      destruct (simd.find_string_delimiter (ptr_ p)) as [|c r] eqn:Ed; [exact I|].
      apply (delimiter_head _ c r Ed).
    - destruct (quote_split quote (ptr_ p)) as (pre & E & Et).
      exists pre, (find_quote_or_backslash quote (ptr_ p)). repeat split; try assumption.
      destruct (find_quote_or_backslash quote (ptr_ p)) as [|c r] eqn:Ed; [exact I|].
      apply (quote_head quote _ c r Ed). }
  destruct Hsplit as (pre & delim & -> & E & -> & Hhead).
  apply returns_set_ptr. destruct delim as [|c r]; [exact I|].
  rewrite E in Hp. assert (Hc : 0 <= c < 128) by (destruct Hhead; lia).
  destruct (ok_cut pre c r Hp Hc) as [Hpre Hr].
  assert (Hres' : valid (result ++ pre))
    by (apply (valid_app (length result)); [lia|assumption..]).
  apply returns_set_ptr. destruct (c =? quote).
  - apply returns_ret. split; assumption.
  - eapply returns_bind; [apply (sound_parse_escape _ Hres'); exact Hr|].
    cbv beta. intros res p' [Hp' Hv]. apply (IH res quote Hq Hv p' Hp').
Qed.

Lemma content_at_end (fuel : nat) (result : list Z) (quote : Z) (p : Parser.t)
    (Q : list Z -> Parser.t -> Prop) :
  ptr_ p = [] -> returns (parse_string_content_into fuel result quote) p Q.
Proof.
  intros Hp. destruct fuel as [|n]; cbn [parse_string_content_into]; [exact I|].
  apply returns_get_ptr. rewrite Hp. cbv zeta.
  destruct (quote =? 34); cbn [simd.find_string_delimiter find_quote_or_backslash];
    apply returns_set_ptr; exact I.
Qed.

Lemma sound_after_quote (fuel : nat) (result : list Z) (quote : Z) {A : Type}
    (R : A -> Prop) (f : list Z -> A) :
  0 <= quote < 128 -> valid result -> (forall s, valid s -> R (f s)) ->
  sound R (buf <- parse_string_content_into fuel result quote ;; ret (f buf)).
Proof.
  intros Hq Hres Hf. apply (sound_bind valid); [apply sound_content; assumption|].
  intros s Hs. apply sound_ret, Hf, Hs.
Qed.

Lemma sound_parse_string (fuel : nat) : sound valid (parse_string fuel).
Proof.
  unfold parse_string. apply sound_then; [apply sound_expect; lia|intros _].
  intros p Hp. apply returns_get_ptr. cbv zeta.
  destruct (delimiter_split (ptr_ p)) as (pre & E & Et). rewrite Et.
  destruct (simd.find_string_delimiter (ptr_ p)) as [|c r] eqn:Ed.
  - apply returns_set_ptr, content_at_end. reflexivity.
  - rewrite E in Hp.
    assert (Hc : 0 <= c < 128) by (destruct (delimiter_head _ c r Ed); lia).
    destruct (ok_cut pre c r Hp Hc) as [Hpre Hr].
    destruct (c =? 34).
    + apply returns_set_ptr, returns_ret. split; assumption.
    + apply returns_set_ptr. apply sound_content; [lia|exact Hpre|].
      apply (ok_cut_head pre c r Hp Hc).
Qed.

Lemma sound_parse_string_sq (fuel : nat) : sound valid (parse_string_sq fuel).
Proof.
  unfold parse_string_sq. apply sound_then; [apply sound_expect; lia|intros _].
  apply sound_content; [lia|reflexivity].
Qed.

Lemma sound_parse_string_value (fuel : nat) :
  sound utf8_strings (parse_string_value fuel).
Proof.
  unfold parse_string_value, pmr_string_to_value.
  apply sound_then; [apply sound_expect; lia|intros _].
  intros p Hp. apply returns_get_ptr. cbv zeta.
  destruct (delimiter_split (ptr_ p)) as (pre & E & Et). rewrite Et.
  destruct (simd.find_string_delimiter (ptr_ p)) as [|c r] eqn:Ed.
  - apply returns_set_ptr. apply (returns_bind _ _ _ (fun _ _ => False)); [apply content_at_end; reflexivity|].
    intros ? ? [].
  - rewrite E in Hp.
    assert (Hc : 0 <= c < 128) by (destruct (delimiter_head _ c r Ed); lia).
    destruct (ok_cut pre c r Hp Hc) as [Hpre Hr].
    destruct (c =? 34).
    + apply returns_set_ptr, returns_ret. split; assumption.
    + apply returns_set_ptr.
      apply (sound_after_quote fuel pre 34 utf8_strings JString); [lia|exact Hpre|auto|].
      apply (ok_cut_head pre c r Hp Hc).
Qed.

Lemma sound_parse_string_value_sq (fuel : nat) :
  sound utf8_strings (parse_string_value_sq fuel).
Proof.
  unfold parse_string_value_sq, pmr_string_to_value.
  apply sound_then; [apply sound_expect; lia|intros _].
  apply (sound_after_quote fuel [] 39 utf8_strings JString); [lia|reflexivity|auto].
Qed.

Lemma sound_parse_unquoted_key : sound valid parse_unquoted_key.
Proof.
  intros p Hp. unfold parse_unquoted_key. apply returns_get_ptr.
  destruct (ptr_ p) as [|c r] eqn:E; [exact I|].
  destruct (is_ident_start c) eqn:Ec; [|exact I].
  assert (Hc : c < 128) by (apply ident_char_low; unfold is_ident_char; rewrite Ec;
                            reflexivity).
  destruct (skip_ident_split r) as (pre & Er & Hpre).
  apply returns_set_ptr, returns_ret. split.
  - cbn [ptr_ with_ptr]. apply (ok_low_prefix pre); [|exact Hpre].
    rewrite <- Er. apply (ok_tail c r Hp Hc).
  - replace (take (length (c :: r) - length (skip_ident r)) (c :: r)) with (c :: pre).
    + apply valid_low. constructor; assumption.
    + assert (El : (length (c :: r) - length (skip_ident r))%nat = S (length pre)).
      { cbn [length]. rewrite Er at 1. rewrite length_app. lia. }
      rewrite El. cbn [take]. rewrite Er at 1. rewrite take_app_length. reflexivity.
Qed.

(** ** Numbers *)

Lemma sound_at {A : Type} (R : A -> Prop) (m : M A) (p : Parser.t) :
  sound R m -> ok (ptr_ p) -> returns m p (fun a p' => ok (ptr_ p') /\ R a).
Proof. intros Hm Hp. apply Hm, Hp. Qed.

Lemma low_literal (lit : list Z) :
  forallb (fun c => c <? 128) lit = true -> Forall low lit.
Proof.
  induction lit as [|c r IH]; cbn [forallb]; intros Hs; [constructor|].
  apply andb_true_iff in Hs as [Hc Hr]. constructor; [lia|apply IH, Hr].
Qed.

Lemma sound_parse_infinity (negative : bool) :
  sound utf8_strings (parse_infinity negative).
Proof. apply sound_literal; [apply low_literal; reflexivity|exact I]. Qed.

Lemma sound_parse_hex_number (negative : bool) (p : Parser.t) :
  ok (drop 2 (ptr_ p)) ->
  returns (parse_hex_number negative) p
          (fun v p' => ok (ptr_ p') /\ utf8_strings v).
Proof.
  intros Hp. unfold parse_hex_number. apply returns_get_ptr, returns_set_ptr.
  destruct (drop 2 (ptr_ p)) as [|x xs] eqn:E; [exact I|].
  pose proof (ok_scan_hex (x :: xs) 0 false Hp) as Hs.
  destruct (scan_hex (x :: xs) 0 false) as [[rest val] has_digit].
  apply returns_set_ptr. destruct has_digit; [|exact I].
  apply returns_ret. split; [exact Hs|exact I].
Qed.

Lemma sound_parse_float_slow (start : list Z) :
  sound utf8_strings (parse_float_slow start).
Proof.
  intros p Hp. unfold parse_float_slow. apply returns_get_ptr.
  destruct (from_chars _); [|exact I]. apply returns_ret. split; [exact Hp|exact I].
Qed.

Lemma sound_number_result start negative is_float int_overflow int_val mantissa
    frac_digits explicit_exp mantissa_overflow :
  sound utf8_strings
        (number_result start negative is_float int_overflow int_val mantissa
                       frac_digits explicit_exp mantissa_overflow).
Proof.
  unfold number_result. cbv zeta.
  repeat match goal with
         | |- sound _ (if ?b then _ else _) => destruct b
         end;
    first [apply sound_ret; exact I|apply sound_parse_float_slow].
Qed.

Lemma sound_parse_number : sound utf8_strings parse_number.
Proof.
  intros p Hp. unfold parse_number. apply returns_get_ptr, returns_get_opts.
  destruct (ptr_ p) as [|c0 r0] eqn:E; [exact I|]. cbv zeta.
  assert (Has : ok (if c0 =? 45 then r0 else c0 :: r0)).
  { destruct (Z.eqb_spec c0 45) as [->|]; [apply (ok_tail 45 r0 Hp); lia|exact Hp]. }
  apply returns_set_ptr.
  destruct (if c0 =? 45 then r0 else c0 :: r0) as [|c r] eqn:Eas; [exact I|].
  destruct ((c0 =? 45) && _ && (c =? 73)).
  { apply sound_at; [apply sound_parse_infinity|exact Has]. }
  destruct (_ && (c =? 48) && _) eqn:Ehex.
  { apply sound_parse_hex_number. cbn [ptr_ with_ptr].
    apply andb_true_iff in Ehex as [Eh Ex]. apply andb_true_iff in Eh as [_ Ec].
    destruct r as [|x xs]; [discriminate|]. cbn [drop].
    apply (ok_tail x xs); [apply (ok_tail c _ Has); lia|lia]. }
  destruct (is_digit c) eqn:Ed; cbn [negb]; [|exact I].
  assert (Hr : ok r) by (apply (ok_tail c r Has), digit_low, Ed).
  pose proof (ok_scan_int r (c - 48) 1 Hr) as Hsi.
  destruct (if c =? 48 then (r, 0, false, 0) else scan_int r (c - 48) 1)
    as [[[l1 int_val] int_overflow] int_digits] eqn:Ei.
  assert (Hl1 : ok l1).
  { destruct (c =? 48); [injection Ei as <- _ _ _; exact Hr|].
    rewrite Ei in Hsi. exact Hsi. }
  apply returns_set_ptr.
  apply (returns_bind _ _ _ (fun _ p' => ok (ptr_ p'))).
  { destruct l1 as [|dot l2]; [apply returns_ret; exact Hl1|].
    destruct (Z.eqb_spec dot 46) as [->|]; [|apply returns_ret; exact Hl1].
    apply returns_set_ptr. destruct l2 as [|d l2']; [exact I|].
    destruct (is_digit d); [|exact I].
    pose proof (ok_scan_frac (d :: l2') int_val 0 int_digits int_overflow
                  (ok_tail 46 _ Hl1 ltac:(lia))) as Hs.
    destruct (scan_frac _ _ _ _ _) as [[[[l3 m] f] t] mo].
    apply returns_set_ptr, returns_ret. exact Hs. }
  cbv beta. intros [[[is_float1 mantissa] frac_digits] mo] p1 Hp1.
  apply returns_get_ptr.
  apply (returns_bind _ _ _ (fun _ p' => ok (ptr_ p'))).
  { destruct (ptr_ p1) as [|e l5] eqn:E4; [apply returns_ret; rewrite E4; exact Hp1|].
    destruct ((e =? 101) || (e =? 69)) eqn:Ee;
      [|apply returns_ret; rewrite E4; exact Hp1].
    assert (H5 : ok l5).
    { apply (ok_tail e l5 Hp1).
      apply orb_true_iff in Ee as [Ee|Ee]; lia. }
    destruct (match l5 with
              | s :: l6 => if (s =? 43) || (s =? 45) then (s =? 45, l6) else (false, l5)
              | [] => (false, l5)
              end) as [neg_exp l6] eqn:E6.
    assert (H6 : ok l6).
    { destruct l5 as [|s l5']; [injection E6 as _ <-; exact H5|].
      destruct ((s =? 43) || (s =? 45)) eqn:Es; injection E6 as _ <-; [|exact H5].
      apply (ok_tail s l5' H5). apply orb_true_iff in Es as [Es|Es]; lia. }
    apply returns_set_ptr. destruct l6 as [|d l6']; [exact I|].
    destruct (is_digit d); [|exact I].
    pose proof (ok_scan_exp (d :: l6') 0 H6) as Hs.
    destruct (scan_exp _ _) as [l7 ee].
    apply returns_set_ptr, returns_ret. exact Hs. }
  cbv beta. intros [is_float explicit_exp] p2 Hp2.
  apply sound_number_result, Hp2.
Qed.

(** ** Values *)

Lemma utf8_array_snoc (arr : list JsonValue) (v : JsonValue) :
  utf8_strings (JArray arr) -> utf8_strings v -> utf8_strings (JArray (arr ++ [v])).
Proof.
  cbn [utf8_strings]. intros Ha Hv.
  induction arr as [|x r IH]; cbn [app fold_right] in *; [auto|].
  destruct Ha. auto.
Qed.

Lemma utf8_object_snoc (entries : Entries) (k : list Z) (v : JsonValue) :
  utf8_strings (JObject entries) -> valid k -> utf8_strings v ->
  utf8_strings (JObject (entries ++ [(k, v)])).
Proof.
  cbn [utf8_strings]. intros He Hk Hv.
  induction entries as [|x r IH]; cbn [app fold_right fst snd] in *; [auto|].
  destruct He. auto.
Qed.

Lemma utf8_object_Forall (entries : Entries) :
  utf8_strings (JObject entries)
  <-> Forall (fun e => valid (fst e) /\ utf8_strings (snd e)) entries.
Proof.
  cbn [utf8_strings]. induction entries as [|e r IH]; cbn [fold_right].
  - split; [constructor|exact (fun _ => I)].
  - rewrite Forall_cons, IH. reflexivity.
Qed.

Lemma utf8_finalize_object (entries : Entries) :
  utf8_strings (JObject entries) -> utf8_strings (JObject (finalize_object entries)).
Proof. rewrite !utf8_object_Forall. apply finalize_object_Forall. Qed.

Local Abbreviation sound_from l m :=
  (forall p, ok (l (ptr_ p)) ->
             returns m p (fun v p' => ok (ptr_ p') /\ utf8_strings v)).

Local Ltac after_gap :=
  apply sound_then; [apply sound_skip_ws_and_comments|intros _].

Local Ltac closes r :=
  apply returns_set_ptr, sound_at;
  [apply sound_then; [apply sound_pop_depth|intros _]; apply sound_ret|exact r].

Lemma sound_group (fuel : nat) :
  sound utf8_strings (parse_value fuel)
  /\ sound_from (drop 1) (parse_array fuel)
  /\ (forall arr, utf8_strings (JArray arr) ->
                  sound utf8_strings (array_loop fuel arr))
  /\ sound_from (drop 1) (parse_object fuel)
  /\ (forall entries seen_keys,
         utf8_strings (JObject entries) ->
         sound utf8_strings (object_loop fuel entries seen_keys)).
Proof.
  induction fuel as [|n (IHv & IHa & IHal & IHo & IHol)].
  { repeat split; intros; intros ? ?; exact I. }
  repeat split.
  - (* parse_value *)
    cbn [parse_value]. after_gap. intros p Hp.
    apply returns_get_ptr, returns_get_opts.
    destruct (ptr_ p) as [|c r] eqn:E; [exact I|].
    assert (Hd : c < 128 -> ok (drop 1 (ptr_ p)))
      by (intros Hc; rewrite E; apply (ok_tail c r Hp Hc)).
    assert (Hq : ok (ptr_ p)) by (rewrite E; exact Hp). clear Hp.
    rename Hq into Hp.
    destruct (Z.eqb_spec c 34); [apply sound_parse_string_value, Hp|].
    destruct (Z.eqb_spec c 39).
    { destruct (ParseOptions.allow_single_quotes _);
        [apply sound_parse_string_value_sq, Hp|apply sound_error_unexpected_char, Hp]. }
    destruct (Z.eqb_spec c 123); [apply IHo, Hd; lia|].
    destruct (Z.eqb_spec c 91); [apply IHa, Hd; lia|].
    destruct (Z.eqb_spec c 116);
      [apply sound_literal; [apply low_literal; reflexivity|exact I|exact Hp]|].
    destruct (Z.eqb_spec c 102);
      [apply sound_literal; [apply low_literal; reflexivity|exact I|exact Hp]|].
    destruct (Z.eqb_spec c 110);
      [apply sound_literal; [apply low_literal; reflexivity|exact I|exact Hp]|].
    destruct ((c =? 45) || is_digit c); [apply sound_parse_number, Hp|].
    destruct (Z.eqb_spec c 78).
    { destruct (ParseOptions.allow_nan_inf _); [|apply sound_error_unexpected_char, Hp].
      apply sound_literal; [apply low_literal; reflexivity|exact I|exact Hp]. }
    destruct (Z.eqb_spec c 73).
    { destruct (ParseOptions.allow_nan_inf _); [|apply sound_error_unexpected_char, Hp].
      apply sound_parse_infinity, Hp. }
    apply sound_error_unexpected_char, Hp.
  - (* parse_array *)
    intros p Hp. cbn [parse_array]. apply returns_get_ptr, returns_set_ptr.
    apply sound_at; [|exact Hp].
    apply sound_then; [apply sound_push_depth|intros _]. after_gap.
    intros p' Hp'. apply returns_get_ptr.
    destruct (ptr_ p') as [|c r] eqn:E; [exact I|].
    destruct (Z.eqb_spec c 93) as [->|].
    + assert (Hr : ok r) by (apply (ok_tail 93 r Hp'); lia).
      closes Hr. exact I.
    + apply IHal; [exact I|rewrite E; exact Hp'].
  - (* array_loop *)
    intros arr Harr. cbn [array_loop].
    apply (sound_bind utf8_strings); [exact IHv|intros v Hv]. cbv zeta.
    pose proof (utf8_array_snoc arr v Harr Hv) as Harr'.
    after_gap. intros p Hp. apply returns_get_ptr, returns_get_opts.
    destruct (ptr_ p) as [|c r] eqn:E; [exact I|].
    destruct (Z.eqb_spec c 44) as [->|].
    { apply returns_set_ptr, sound_at; [|apply (ok_tail 44 r Hp); lia].
      after_gap. intros p' Hp'. apply returns_get_ptr.
      destruct (ptr_ p') as [|c' r'] eqn:E';
        [apply IHal; [assumption|rewrite E'; exact Hp']|].
      destruct (ParseOptions.allow_trailing_commas _ && (c' =? 93)) eqn:Et;
        [|apply IHal; [assumption|rewrite E'; exact Hp']].
      apply andb_true_iff in Et as [_ Et].
      assert (Hr' : ok r') by (apply (ok_tail c' r' Hp'); lia).
      closes Hr'. exact Harr'. }
    destruct (Z.eqb_spec c 93) as [->|]; [|exact I].
    assert (Hr : ok r) by (apply (ok_tail 93 r Hp); lia).
    closes Hr. exact Harr'.
  - (* parse_object *)
    intros p Hp. cbn [parse_object]. apply returns_get_ptr, returns_set_ptr.
    apply sound_at; [|exact Hp].
    apply sound_then; [apply sound_push_depth|intros _]. after_gap.
    intros p' Hp'. apply returns_get_ptr.
    destruct (ptr_ p') as [|c r] eqn:E; [exact I|].
    destruct (Z.eqb_spec c 125) as [->|].
    + assert (Hr : ok r) by (apply (ok_tail 125 r Hp'); lia).
      closes Hr. exact I.
    + apply IHol; [exact I|rewrite E; exact Hp'].
  - (* object_loop *)
    intros entries seen_keys Hent. cbn [object_loop]. after_gap.
    intros p Hp. apply returns_get_ptr, returns_get_opts.
    apply (returns_bind _ _ _ (fun k p' => ok (ptr_ p') /\ valid k)).
    { destruct (ptr_ p) as [|c r] eqn:E; [exact I|].
      assert (Hq : ok (ptr_ p)) by (rewrite E; exact Hp). clear Hp. rename Hq into Hp.
      destruct (c =? 34); [apply sound_parse_string, Hp|].
      destruct (ParseOptions.allow_single_quotes _ && _); [apply sound_parse_string_sq, Hp|].
      destruct (ParseOptions.allow_unquoted_keys _ && _); [apply sound_parse_unquoted_key, Hp|].
      exact I. }
    cbv beta. intros key p1 [Hp1 Hkey]. apply sound_at; [|exact Hp1].
    after_gap. apply sound_then; [apply sound_expect; lia|intros _].
    apply (sound_bind utf8_strings); [exact IHv|intros value Hval].
    pose proof (utf8_object_snoc entries key value Hent Hkey Hval) as Hent'.
    apply (sound_bind (fun st => utf8_strings (JObject (fst st)))).
    { destruct (ParseOptions.allow_duplicate_keys _); [apply sound_ret; exact Hent'|].
      unfold insert_checked. destruct (bool_decide _); [apply sound_error|].
      apply sound_ret. exact Hent'. }
    intros [entries' seen'] Hst. cbn [fst] in Hst. after_gap.
    intros p2 Hp2. apply returns_get_ptr.
    destruct (ptr_ p2) as [|c r] eqn:E; [exact I|].
    destruct (Z.eqb_spec c 44) as [->|].
    { apply returns_set_ptr, sound_at; [|apply (ok_tail 44 r Hp2); lia].
      after_gap. intros p' Hp'. apply returns_get_ptr.
      destruct (ptr_ p') as [|c' r'] eqn:E';
        [apply IHol; [assumption|rewrite E'; exact Hp']|].
      destruct (ParseOptions.allow_trailing_commas _ && (c' =? 125)) eqn:Et;
        [|apply IHol; [assumption|rewrite E'; exact Hp']].
      apply andb_true_iff in Et as [_ Et].
      assert (Hr' : ok r') by (apply (ok_tail c' r' Hp'); lia).
      closes Hr'. apply utf8_finalize_object, Hst. }
    destruct (Z.eqb_spec c 125) as [->|]; [|exact I].
    assert (Hr : ok r) by (apply (ok_tail 125 r Hp2); lia).
    closes Hr. apply utf8_finalize_object, Hst.
Qed.

Lemma sound_parse_document (fuel : nat) : sound utf8_strings (parse_document fuel).
Proof.
  unfold parse_document.
  apply (sound_bind utf8_strings); [apply sound_group|intros v Hv].
  apply sound_then; [apply sound_skip_whitespace|intros _].
  apply sound_get_opts. intros o.
  apply sound_then;
    [destruct (ParseOptions.allow_comments o); [apply sound_skip_comments|apply sound_ret; exact I]|].
  intros _ p Hp. apply returns_get_ptr. destruct (ptr_ p) eqn:E; [|exact I].
  apply returns_ret. split; [rewrite E; exact Hp|exact Hv].
Qed.

End ValidParse.

(** X25: a text that is valid UTF-8 gives a value whose strings and keys
    are all valid UTF-8: what the parser copies out of the text is cut at
    character boundaries, and every escape it accepts is written as the
    encoding of one code point that is no surrogate. *)
Theorem parsed_strings_are_valid_utf8 `{Charconv} (input : list Z)
    (opts : ParseOptions.t) (v : JsonValue) :
  utf8.validate input = true ->
  Parser.parse input opts = Returns v ->
  utf8_strings v.
Proof.
  intros Hin Hv. unfold Parser.parse in Hv.
  pose proof (sound_parse_document (Parser.parse_fuel input) (Parser.make input opts))
    as Hd.
  unfold returns in Hd.
  destruct (Parser.parse_document _ _) as [a p'| |]; try discriminate.
  injection Hv as <-. apply Hd. left. exact Hin.
Qed.

Lemma parsed_strings_are_valid_utf8_witness :
  utf8_strings
    (JObject [([195; 169], JArray [JString [240; 159; 152; 128; 226; 130; 172]])]).
Proof.
  apply (@parsed_strings_are_valid_utf8 no_charconv
           [123; 34; 92; 117; 48; 48; 101; 57; 34; 58; 91; 34;
            92; 117; 100; 56; 51; 100; 92; 117; 68; 69; 48; 48;
            226; 130; 172; 34; 93; 125]
           ParseOptions.default).
  - vm_compute. reflexivity.
  - vm_compute. reflexivity.
Defined.

(* ===================================================================== *)
(** * The depth limit, for arrays and objects alike                       *)
(* ===================================================================== *)

Section DepthLimit.
Context `{Charconv}.
Import Parser.

(** [parse_value] refuses the text of [v] with [max_depth_exceeded] from
    any state that leaves too little depth for it. *)
Local Abbreviation refuses := (fun v : JsonValue =>
  forall (fuel : nat) (p : Parser.t) (rest : list Z),
    ptr_ p = compact_text v ++ rest -> delimited rest ->
    (3 * length (ptr_ p) + 1 <= fuel)%nat ->
    (depth_ p <= max_depth_ p)%nat ->
    (max_depth_ p < depth_ p + depth v)%nat ->
    exists loc, parse_value fuel p = Throw (mkParseError max_depth_exceeded loc)).

Lemma deep_member {A : Type} (d : A -> nat) (l : list A) (k m : nat) :
  (k <= m)%nat ->
  (m < k + fold_right (fun x acc => Nat.max (d x) acc) 0 l)%nat ->
  Exists (fun y => (m < k + d y)%nat) l.
Proof.
  intros Hk. induction l as [|x r IH]; cbn [fold_right]; intros Hm; [lia|].
  destruct (Nat.le_gt_cases (k + d x) m) as [Hx|Hx].
  - apply Exists_cons_tl, IH. lia.
  - apply Exists_cons_hd, Hx.
Qed.

Lemma push_depth_full (p : Parser.t) :
  (max_depth_ p < S (depth_ p))%nat ->
  exists loc, push_depth p = Throw (mkParseError max_depth_exceeded loc).
Proof.
  intros Hd. unfold push_depth. cbn [with_depth depth_ max_depth_].
  destruct (Nat.ltb_spec (max_depth_ p) (S (depth_ p))); [|lia].
  unfold error. eauto.
Qed.

(** The loop of an array stops at the first member that is too deep. *)
Lemma array_loop_refuses (r : list JsonValue) :
  forall (x : JsonValue) (acc : list JsonValue) (fuel : nat) (p : Parser.t)
         (rest : list Z),
    Forall roundtrip_safe (x :: r) -> Forall refuses (x :: r) ->
    ptr_ p = compact_text x ++ flat_map (fun y => 44 :: compact_text y) r
             ++ 93 :: rest ->
    (3 * length (ptr_ p) + 2 <= fuel)%nat ->
    (depth_ p <= max_depth_ p)%nat ->
    Exists (fun y => (max_depth_ p < depth_ p + depth y)%nat) (x :: r) ->
    exists loc, array_loop fuel acc p = Throw (mkParseError max_depth_exceeded loc).
Proof.
  induction r as [|y r IH]; intros x acc fuel p rest Hsafe Href Hptr Hfuel Hd Hex;
    (destruct fuel as [|n]; [lia|]);
    apply Forall_cons in Hsafe as [Hsx Hsafe]; apply Forall_cons in Href as [Hrx Href];
    cbn [array_loop]; cbv [bind get_ptr get_opts set_ptr pop_depth ret].
  - cbn [flat_map app] in Hptr.
    apply Exists_cons in Hex as [Hx|Hex]; [|inversion Hex].
    destruct (Hrx n p (93 :: rest) Hptr) as [loc ->]; try lia; [cbn; auto|eauto].
  - cbn [flat_map app] in Hptr. rewrite <- app_assoc in Hptr.
    remember (flat_map (fun y => 44 :: compact_text y) r ++ 93 :: rest)
      as more eqn:Emore.
    destruct (Nat.le_gt_cases (depth_ p + depth x) (max_depth_ p)) as [Hfit|Hdeep].
    2:{ destruct (Hrx n p _ Hptr) as [loc ->]; try lia; [cbn; auto|eauto]. }
    apply Exists_cons in Hex as [Hx|Hex]; [lia|].
    pose proof Hsafe as Hsafe'. apply Forall_cons in Hsafe' as [Hsy _].
    destruct (starts_value_head _ (compact_text_starts y Hsy))
      as (c & t & Ey & Hc32 & Hc47 & Hc93 & _).
    destruct (starts_value_head _ (compact_text_starts x Hsx)) as (cx & tx & Ex & _).
    assert (Hlen : (2 + length (compact_text y ++ more) <= length (ptr_ p))%nat).
    { rewrite Hptr, Ex. cbn [app length]. rewrite !length_app. cbn [length].
      rewrite !length_app. lia. }
    rewrite (reads_back_all x Hsx n p _ Hptr) by (cbn; auto; lia).
    rewrite (skip_ws_token n _ 44 (compact_text y ++ more))
      by (reflexivity || lia).
    cbn [ptr_ with_ptr]. change (44 =? 44) with true. cbv beta iota.
    assert (Em : compact_text y ++ more = c :: t ++ more)
      by (rewrite Ey; reflexivity).
    rewrite Em in *.
    rewrite (skip_ws_token n _ c (t ++ more)) by (assumption || reflexivity).
    cbn [ptr_ with_ptr opts_].
    destruct (Z.eqb_spec c 93); [lia|]. rewrite andb_false_r.
    apply (IH y (acc ++ [reparsed x]) n _ rest); try assumption.
    + cbn [ptr_ with_ptr]. rewrite <- Em. subst more. reflexivity.
    + cbn [ptr_ with_ptr]. lia.
Qed.

(** An entry whose value is too deep: the key and the colon are read, and
    the error of the value is the error of the loop. *)
Lemma object_loop_refused_value (key : list Z) (v : JsonValue) (acc : Entries)
    (seen : gset (list Z)) (n : nat) (p : Parser.t) (more : list Z) :
  refuses v -> Forall is_byte key ->
  ptr_ p = 34 :: escaped key ++ 34 :: 58 :: compact_text v ++ more ->
  delimited more ->
  (3 * (length (escaped key) + length (compact_text v ++ more) + 3) + 2 <= S n)%nat ->
  (depth_ p <= max_depth_ p)%nat ->
  (max_depth_ p < depth_ p + depth v)%nat ->
  exists loc,
    object_loop (S n) acc seen p = Throw (mkParseError max_depth_exceeded loc).
Proof.
  intros Hv Hkey Hptr Hdel Hlen Hd Hdeep.
  destruct p as [ptr b o d m]. cbn [ptr_ depth_ max_depth_ opts_] in *. subst ptr.
  cbn [object_loop]. cbv [bind get_ptr get_opts set_ptr pop_depth ret].
  rewrite (skip_ws_token n _ 34 (escaped key ++ 34 :: 58 :: compact_text v ++ more))
    by (lia || reflexivity).
  cbn [ptr_ opts_]. change (34 =? 34) with true. cbv iota.
  rewrite (parse_string_text n key (58 :: compact_text v ++ more))
    by (assumption || lia
        || (cbn [ptr_]; unfold string_text; rewrite <- !app_assoc; reflexivity)).
  rewrite (skip_ws_token n _ 58 (compact_text v ++ more)) by (reflexivity || lia).
  rewrite (expect_head 58 (compact_text v ++ more)) by reflexivity.
  edestruct (Hv n) as [loc ->]; [reflexivity|exact Hdel| | | |eauto].
  - cbn [ptr_ with_ptr]. lia.
  - cbn [depth_ max_depth_ with_ptr]. exact Hd.
  - cbn [depth_ max_depth_ with_ptr]. exact Hdeep.
Qed.

(** The loop of an object stops at the first entry whose value is too
    deep. *)
Lemma object_loop_refuses (r : Entries) :
  forall (e : list Z * JsonValue) (acc : Entries) (seen : gset (list Z))
         (fuel : nat) (p : Parser.t) (rest : list Z),
    Forall (fun e => roundtrip_safe (snd e)) (e :: r) ->
    Forall (fun e => refuses (snd e)) (e :: r) ->
    Forall (fun e => Forall is_byte (fst e)) (e :: r) ->
    ParseOptions.allow_duplicate_keys (opts_ p) = true
    \/ NoDup (map fst acc ++ map fst (e :: r)) ->
    ParseOptions.allow_duplicate_keys (opts_ p) = true
    \/ (forall k, k ∈ seen -> In k (map fst acc)) ->
    ptr_ p = entry_text e ++ flat_map (fun e' => 44 :: entry_text e') r
             ++ 125 :: rest ->
    (3 * length (ptr_ p) + 2 <= fuel)%nat ->
    (depth_ p <= max_depth_ p)%nat ->
    Exists (fun e => (max_depth_ p < depth_ p + depth (snd e))%nat) (e :: r) ->
    exists loc,
      object_loop fuel acc seen p = Throw (mkParseError max_depth_exceeded loc).
Proof.
  induction r as [|[key' v'] r IH];
    intros [key v] acc seen fuel p rest Hsafe Href Hkeys Hnd Hseen Hptr Hfuel Hd Hex;
    (destruct fuel as [|n]; [lia|]);
    apply Forall_cons in Hsafe as [Hsx Hsafe]; apply Forall_cons in Href as [Hrx Href];
    apply Forall_cons in Hkeys as [Hkey Hkeys];
    cbn [fst snd] in *.
  all: match type of Hptr with _ = _ ++ ?t => remember t as more eqn:Emore end.
  all: assert (Eptr : ptr_ p = 34 :: escaped key ++ 34 :: 58 :: compact_text v ++ more)
      by (rewrite Hptr; unfold string_text; rewrite <- !app_assoc; reflexivity).
  all: assert (Hlen : (3 * (length (escaped key) + length (compact_text v ++ more) + 3) + 2
                    <= S n)%nat)
      by (rewrite Eptr in Hfuel; cbn [length] in Hfuel; rewrite length_app in Hfuel;
          cbn [length] in Hfuel; lia).
  all: assert (Hdel : delimited more) by (subst more; cbn; auto).
  all: destruct (Nat.le_gt_cases (depth_ p + depth v) (max_depth_ p)) as [Hfit|Hdeep];
    [|apply (object_loop_refused_value key v acc seen n p more); assumption].
  all: apply Exists_cons in Hex as [Hx|Hex]; [cbn [snd] in Hx; lia|].
  - inversion Hex.
  - assert (Hnew : ParseOptions.allow_duplicate_keys (opts_ p) = true
                   \/ ~ In key (map fst acc)).
    { destruct Hnd as [Hnd|Hnd]; [left; exact Hnd|right].
      cbn [map fst] in Hnd. apply NoDup_app in Hnd as (_ & Hdisj & _).
      intros Hin. apply list_elem_of_In in Hin. apply (Hdisj key Hin). constructor. }
    destruct (entry_insertion (opts_ p) acc seen key (reparsed v) Hnew Hseen)
      as (seen' & Eins & Hseen').
    destruct (object_loop_entry key v acc _ seen seen' n p more
                (reads_back_all v Hsx) Hkey Eptr Hdel Hlen Hfit Eins) as [_ Hstep].
    rewrite (Hstep (escaped key' ++ [34] ++ [58] ++ compact_text v'
                    ++ flat_map (fun e' => 44 :: entry_text e') r ++ 125 :: rest))
      by (subst more; cbn [flat_map fst snd app]; unfold string_text;
          cbn [app]; rewrite <- !app_assoc; reflexivity).
    apply (IH (key', v') (acc ++ [(key, reparsed v)]) seen' n _ rest);
      try assumption.
    + destruct Hnd as [Hnd|Hnd]; [left; exact Hnd|right].
      rewrite map_app, <- app_assoc. exact Hnd.
    + cbn [ptr_ with_ptr fst snd]. unfold string_text.
      cbn [app]. rewrite <- !app_assoc. reflexivity.
    + cbn [ptr_ with_ptr]. revert Hlen. subst more. cbn [flat_map fst snd].
      unfold string_text. cbn [app].
      repeat first [rewrite length_app | progress cbn [length]]. lia.
Qed.

(** [parse_value] refuses every value that is too deep for the state. *)
Lemma refuses_all (v : JsonValue) : roundtrip_safe v -> refuses v.
Proof.
  induction v as [ | b | i | u | d | s | arr IH | entries IH ]
    using JsonValue_induction;
    intros Hsafe fuel p rest Hptr Hdel Hfuel Hd Hdeep;
    try (cbn [depth] in Hdeep; lia).
  - (* arrays *)
    pose proof (safe_array_members arr Hsafe) as Hall.
    assert (Href : Forall refuses arr).
    { rewrite Forall_forall in *. intros x Hx. apply (IH x Hx), (Hall x Hx). }
    cbn [compact_text] in Hptr. cbn [app] in Hptr. rewrite <- app_assoc in Hptr.
    cbn [app] in Hptr.
    destruct fuel as [|[|n]];
      [lia|rewrite Hptr in Hfuel; cbn [length] in Hfuel; lia|].
    rewrite (parse_value_head (S n) p 91 _ Hptr) by lia. cbn [Z.eqb Pos.eqb].
    cbn [parse_array]. cbv [bind get_ptr get_opts set_ptr pop_depth ret].
    rewrite Hptr. cbn [drop]. rewrite ?drop_0.
    destruct (Nat.le_gt_cases (S (depth_ p)) (max_depth_ p)) as [Hroom|Hfull].
    2:{ match goal with
        | |- context [push_depth ?q] =>
            destruct (push_depth_full q) as [loc ->];
              [cbn [with_ptr depth_ max_depth_]; lia|eauto]
        end. }
    rewrite push_depth_ok by (cbn [with_ptr depth_ max_depth_]; exact Hroom).
    cbn [depth] in Hdeep.
    pose proof (deep_member depth arr (S (depth_ p)) (max_depth_ p) Hroom
                  ltac:(lia)) as Hex.
    destruct arr as [|x r]; [inversion Hex|].
    cbn [joined] in *. rewrite <- app_assoc in *.
    pose proof Hall as Hall'. apply Forall_cons in Hall' as [Hsx _].
    destruct (starts_value_head _ (compact_text_starts x Hsx))
      as (c & t & Ex & Hc32 & Hc47 & Hc93 & _).
    remember (flat_map (fun y => 44 :: compact_text y) r ++ 93 :: rest)
      as more eqn:Emore.
    assert (Em : compact_text x ++ more = c :: t ++ more)
      by (rewrite Ex; reflexivity).
    rewrite Em.
    rewrite (skip_ws_token n _ c (t ++ more)) by (assumption || reflexivity).
    cbn [ptr_ with_ptr with_depth].
    destruct (Z.eqb_spec c 93); [lia|].
    apply (array_loop_refuses r x [] n _ rest); try assumption;
      cbn [ptr_ depth_ max_depth_ with_ptr with_depth].
    + rewrite <- Em. subst more. reflexivity.
    + rewrite <- Em. rewrite Hptr in Hfuel. cbn [length] in Hfuel. lia.
  - (* objects *)
    destruct (safe_object_members entries Hsafe) as (Hnd & Hkeys & Hall).
    assert (Href : Forall (fun e => refuses (snd e)) entries).
    { rewrite Forall_forall in *. intros e He. apply (IH e He), (Hall e He). }
    cbn [compact_text] in Hptr. cbn [app] in Hptr. rewrite <- app_assoc in Hptr.
    cbn [app] in Hptr.
    destruct fuel as [|[|n]];
      [lia|rewrite Hptr in Hfuel; cbn [length] in Hfuel; lia|].
    rewrite (parse_value_head (S n) p 123 _ Hptr) by lia. cbn [Z.eqb Pos.eqb].
    destruct (Nat.le_gt_cases (S (depth_ p)) (max_depth_ p)) as [Hroom|Hfull].
    2:{ cbn [parse_object]. cbv [bind get_ptr get_opts set_ptr pop_depth ret].
        rewrite Hptr. cbn [drop]. rewrite ?drop_0.
        match goal with
        | |- context [push_depth ?q] =>
            destruct (push_depth_full q) as [loc ->];
              [cbn [with_ptr depth_ max_depth_]; lia|eauto]
        end. }
    cbn [depth] in Hdeep.
    pose proof (deep_member (fun e : list Z * JsonValue => depth (snd e)) entries
                  (S (depth_ p)) (max_depth_ p) Hroom ltac:(lia)) as Hex.
    destruct entries as [|[key v] r]; [inversion Hex|].
    cbn [joined fst snd] in Hptr. rewrite <- app_assoc in Hptr.
    match type of Hptr with
    | context [flat_map ?f r ++ 125 :: rest] =>
        remember (flat_map f r ++ 125 :: rest) as more eqn:Emore
    end.
    assert (Em : (string_text key ++ 58 :: compact_text v) ++ more
                 = 34 :: escaped key ++ 34 :: 58 :: compact_text v ++ more)
      by (unfold string_text; cbn [app]; rewrite <- !app_assoc; reflexivity).
    rewrite Em in Hptr.
    rewrite (parse_object_enter n p _ Hptr) by lia.
    apply (object_loop_refuses r (key, v) [] ∅ n _ rest); try assumption.
    + right. exact Hnd.
    + right. intros k Hk. exfalso. revert Hk. apply not_elem_of_empty.
    + cbn [ptr_ with_ptr with_depth fst snd]. rewrite <- Em. subst more. reflexivity.
    + cbn [ptr_ with_ptr with_depth]. rewrite Hptr in Hfuel.
      cbn [length] in Hfuel |- *. lia.
Qed.

Lemma parse_too_deep (v : JsonValue) (opts : ParseOptions.t) :
  roundtrip_safe v -> (effective_max_depth opts < depth v)%nat ->
  exists loc,
    Parser.parse (compact_text v) opts
    = Throws (ExnParseError (mkParseError max_depth_exceeded loc)).
Proof.
  intros Hsafe Hdeep.
  destruct (refuses_all v Hsafe (parse_fuel (compact_text v))
              (make (compact_text v) opts) []) as [loc Hloc].
  - cbn [ptr_ make]. rewrite app_nil_r. reflexivity.
  - exact I.
  - unfold parse_fuel. cbn [ptr_ make]. lia.
  - cbn [depth_ make]. lia.
  - cbn [depth_ make]. exact Hdeep.
  - exists loc. apply parse_of_error, Hloc.
Qed.

(** C4: the depth limit in force is [max_depth], or 512 when [max_depth]
    is 0.  The counter goes up at every opening bracket and brace and
    comes down at every closing one, so that it counts the containers
    open at the read position, arrays and objects alike: [parse_value]
    leaves the counter as it found it, and the value it returns is no
    deeper than the room the counter left.  For the text of every value
    (arrays and objects nested in any way) the parse succeeds when the
    nesting depth of the value is within the limit, and fails with
    [max_depth_exceeded] when it is not; and whatever the input, a value
    that [parse] returns is within the limit.  In particular five nested
    arrays around 1 parse with [max_depth] 5 and fail with [max_depth] 4,
    and an object in an object in an array in an object parses with
    [max_depth] 4 and fails with [max_depth] 3, at the innermost brace. *)
Theorem depth_counter_and_limit :
  (forall opts,
     effective_max_depth opts
     = if (0 <? ParseOptions.max_depth opts)%nat then ParseOptions.max_depth opts
       else 512%nat) /\
  (forall input opts, depth_ (make input opts) = 0%nat) /\
  (forall fuel p v p',
     parse_value fuel p = Ok v p' -> (depth_ p <= max_depth_ p)%nat ->
     depth_ p' = depth_ p /\ (depth_ p + depth v <= max_depth_ p)%nat) /\
  (forall (v : JsonValue) (opts : ParseOptions.t),
     roundtrip_safe v ->
     ParseOptions.allow_duplicate_keys opts = true \/ within_reserve v ->
     ((depth v <= effective_max_depth opts)%nat ->
      Parser.parse (compact_text v) opts = Returns (reparsed v)) /\
     ((effective_max_depth opts < depth v)%nat ->
      exists loc,
        Parser.parse (compact_text v) opts
        = Throws (ExnParseError (mkParseError max_depth_exceeded loc)))) /\
  (forall input opts v,
     Parser.parse input opts = Returns v ->
     (depth v <= effective_max_depth opts)%nat) /\
  Parser.parse nested_text (ParseOptions.with_max_depth ParseOptions.strict 5)
    = Returns nested_value /\
  Parser.parse nested_text (ParseOptions.with_max_depth ParseOptions.strict 4)
    = Throws (ExnParseError (mkParseError max_depth_exceeded (mkLoc 1 6 5))) /\
  Parser.parse braces_text (ParseOptions.with_max_depth ParseOptions.strict 4)
    = Returns braces_value /\
  Parser.parse braces_text (ParseOptions.with_max_depth ParseOptions.strict 3)
    = Throws (ExnParseError (mkParseError max_depth_exceeded (mkLoc 1 13 12))).
Proof.
  split; [reflexivity|]. split; [reflexivity|].
  split; [|split; [|split]].
  - intros fuel p v p' Hv Hd.
    pose proof (proj1 (depth_group fuel) p Hd) as Hr. unfold returns in Hr.
    rewrite Hv in Hr. destruct Hr as [(_ & Hk & _) Hlim]. auto.
  - intros v opts Hsafe _. split; intros Hdep.
    + apply parse_compact_text; assumption.
    + apply parse_too_deep; assumption.
  - intros input opts v Hv.
    pose proof (parse_document_depth input opts) as Hd.
    unfold Parser.parse in Hv. unfold returns in Hd.
    destruct (Parser.parse_document _ _) as [v' p| |]; [|discriminate..].
    injection Hv as <-. exact Hd.
  - repeat split; vm_compute; reflexivity.
Qed.

End DepthLimit.

(* ===================================================================== *)
(** * Comparison of stored values                                         *)
(* ===================================================================== *)

Section StoredValues.

Local Abbreviation content_entry :=
  (fun e : list Z * Stored.t => (fst e, Stored.content (snd e))).
Local Abbreviation parsed_entry :=
  (fun e : list Z * JsonValue => (fst e, Stored.parsed (snd e))).

(** The index and the scan read the keys only. *)
Lemma index_fold_values {V W : Type} (f : V -> W) (es : list (list Z * V)) :
  forall (j : nat) (m : gmap (list Z) nat),
    fold_left (fun (m : gmap (list Z) nat) (ie : nat * (list Z * W)) =>
                 <[ fst (snd ie) := fst ie ]> m)
              (imap (fun i e => ((j + i)%nat, e))
                    (map (fun e => (fst e, f (snd e))) es)) m
    = fold_left (fun (m : gmap (list Z) nat) (ie : nat * (list Z * V)) =>
                   <[ fst (snd ie) := fst ie ]> m)
                (imap (fun i e => ((j + i)%nat, e)) es) m.
Proof.
  induction es as [|e r IH]; intros j m; [reflexivity|].
  cbn [map imap fold_left fst snd].
  rewrite (imap_ext _ (fun i e => ((S j + i)%nat, e))
                    (map (fun e => (fst e, f (snd e))) r))
    by (intros; cbn; f_equal; lia).
  rewrite (imap_ext _ (fun i e => ((S j + i)%nat, e)) r)
    by (intros; cbn; f_equal; lia).
  apply IH.
Qed.

Lemma rebuild_index_values {V W : Type} (f : V -> W) (es : list (list Z * V)) :
  Object_rebuild_index (map (fun e => (fst e, f (snd e))) es)
  = Object_rebuild_index es.
Proof. unfold Object_rebuild_index. apply (index_fold_values f es 0). Qed.

Lemma linear_find_values {V W : Type} (f : V -> W) (es : list (list Z * V))
    (key : list Z) :
  Object_linear_find (map (fun e => (fst e, f (snd e))) es) key
  = Object_linear_find es key.
Proof.
  induction es as [|[k v] r IH]; [reflexivity|].
  cbn [map Object_linear_find fst snd]. rewrite IH. reflexivity.
Qed.

(** A lookup that reads no lagging index finds what the entries hold. *)
Lemma find_content (y : list (list Z * Stored.t))
    (index_ : option (gmap (list Z) nat)) (key : list Z) :
  ((kIndexThreshold <= length y)%nat ->
   match index_ with
   | None => True
   | Some index => index = Object_rebuild_index y
   end) ->
  Stored.content <$> Stored.find y index_ key
  = Object_find (map content_entry y) key.
Proof.
  intros Hsync.
  assert (Hpos : Stored.find_pos y index_ key
                 = Object_find_pos (map content_entry y) key).
  { unfold Stored.find_pos, Object_find_pos, Object_use_index.
    rewrite length_map.
    destruct (Nat.leb_spec kIndexThreshold (length y)) as [Hbig|Hsmall].
    - specialize (Hsync Hbig). rewrite rebuild_index_values.
      destruct index_ as [index|]; [rewrite Hsync|]; reflexivity.
    - rewrite linear_find_values. reflexivity. }
  unfold Stored.find, Object_find. rewrite Hpos.
  destruct (Object_find_pos _ key) as [i|]; [|reflexivity].
  rewrite list_lookup_fmap. destruct (y !! i) as [[k v]|]; reflexivity.
Qed.

Lemma find_member (y : list (list Z * Stored.t))
    (index_ : option (gmap (list Z) nat)) (key : list Z) (p : Stored.t) :
  Stored.find y index_ key = Some p -> In p (map snd y).
Proof.
  unfold Stored.find. destruct (Stored.find_pos y index_ key) as [i|]; [|discriminate].
  destruct (y !! i) as [[k v]|] eqn:Ei; [|discriminate]. cbn. intros [= <-].
  apply list_elem_of_lookup_2 in Ei. apply list_elem_of_In in Ei.
  apply (in_map snd) in Ei. exact Ei.
Qed.

Lemma usable_array_members (arr : list Stored.t) :
  indexes_usable (Stored.Array arr) -> Forall indexes_usable arr.
Proof.
  cbn [indexes_usable]. induction arr as [|x r IH]; cbn [fold_right];
    [constructor|]. intros [Hx Hr]. constructor; auto.
Qed.

Lemma usable_object_members (entries : list (list Z * Stored.t))
    (index_ : option (gmap (list Z) nat)) :
  indexes_usable (Stored.Object entries index_) ->
  Forall (fun e => indexes_usable (snd e)) entries.
Proof.
  cbn [indexes_usable]. intros [_ Hall].
  induction entries as [|e r IH]; cbn [fold_right] in Hall; [constructor|].
  destruct Hall as [He Hr]. constructor; auto.
Qed.

(** On values whose lookups read no lagging index, the comparison is
    that of what the values hold. *)
Lemma equal_fuel_content (n : nat) :
  forall a b : Stored.t,
    indexes_usable a -> indexes_usable b ->
    Stored.equal_fuel n a b = equal_fuel n (Stored.content a) (Stored.content b).
Proof.
  induction n as [|n IH]; intros a b Ha Hb; [reflexivity|].
  destruct a as [ | x | x | x | x | x | x | x ix ],
           b as [ | y | y | y | y | y | y | y iy ];
    cbn [Stored.equal_fuel equal_fuel Stored.content]; try reflexivity.
  - (* arrays *)
    rewrite !length_map. f_equal.
    apply usable_array_members in Ha, Hb.
    revert y Hb. induction Ha as [|a x Hx Hr IHr]; intros [|b y] Hb;
      cbn [map forallb2]; try reflexivity.
    apply Forall_cons in Hb as [Hb Hy]. rewrite (IH a b Hx Hb), (IHr y Hy).
    reflexivity.
  - (* objects *)
    rewrite !length_map. f_equal.
    pose proof (usable_object_members _ _ Ha) as Hx.
    pose proof (usable_object_members _ _ Hb) as Hy.
    destruct Hb as [Hsync _]. clear Ha.
    induction Hx as [|e x He Hr IHr]; [reflexivity|].
    cbn [map forallb fst snd]. rewrite IHr. f_equal.
    pose proof (find_content y iy (fst e) Hsync) as Hfind.
    destruct (Stored.find y iy (fst e)) as [p|] eqn:Ep; cbn in Hfind;
      rewrite <- Hfind; [|reflexivity].
    apply IH; [|exact He].
    apply find_member in Ep. apply in_map_iff in Ep as (e' & <- & Hin).
    rewrite Forall_forall in Hy. apply Hy, list_elem_of_In, Hin.
Qed.

Lemma content_parsed (v : JsonValue) : Stored.content (Stored.parsed v) = v.
Proof.
  induction v as [ | b | i | u | d | s | arr IH | entries IH ]
    using JsonValue_induction; cbn [Stored.parsed Stored.content]; try reflexivity.
  - f_equal. induction IH as [|x r Hx Hr IHr]; [reflexivity|].
    cbn [map]. rewrite Hx, IHr. reflexivity.
  - f_equal. induction IH as [|[k x] r Hx Hr IHr]; [reflexivity|].
    cbn [map fst snd] in *. rewrite Hx, IHr. reflexivity.
Qed.

(** The indexes that the parser has built are those of the entries. *)
Lemma parsed_usable (v : JsonValue) : indexes_usable (Stored.parsed v).
Proof.
  induction v as [ | b | i | u | d | s | arr IH | entries IH ]
    using JsonValue_induction; cbn [Stored.parsed indexes_usable]; try exact I.
  - induction IH as [|x r Hx Hr IHr]; cbn [map fold_right]; auto.
  - split.
    + intros _. destruct (_ <=? _)%nat; [|exact I].
      symmetry. apply rebuild_index_values.
    + induction IH as [|x r Hx Hr IHr]; cbn [map fold_right snd]; auto.
Qed.

Lemma equal_content (a b : Stored.t) :
  indexes_usable a -> indexes_usable b ->
  Stored.equal a b = equal (Stored.content a) (Stored.content b).
Proof. intros Ha Hb. apply equal_fuel_content; assumption. Qed.

End StoredValues.

(* ===================================================================== *)
(** * The round trip                                                      *)
(* ===================================================================== *)

(** C1 (as the code has it): for every value whose lookups read no
    lagging index, with its integers in the range of their type, byte
    strings for its strings and keys, pairwise different keys in every
    object, every [Float] one whose text is read back as that [Float],
    and a nesting depth within the parser's limit (512 unless the
    options set another), parsing the compact serialization returns what
    the value holds (an unsigned integer that fits [int64_t] as a signed
    one), and the value so stored compares equal to the original.  The
    options are those that allow duplicate keys (the default), where the
    parser keeps no set of key views; options that forbid them are
    covered for values whose objects stay within the entries the parser
    reserves, where those views remain valid. *)
Theorem roundtrip_of_safe_values `{Charconv} (v : Stored.t)
    (opts : ParseOptions.t) :
  indexes_usable v ->
  readable (Stored.content v) ->
  (depth (Stored.content v) <= effective_max_depth opts)%nat ->
  ParseOptions.allow_duplicate_keys opts = true
  \/ within_reserve (Stored.content v) ->
  Parser.parse (serialize (Stored.content v) SerializeOptions.default) opts
  = Returns (reparsed (Stored.content v))
  /\ Stored.equal (Stored.parsed (reparsed (Stored.content v))) v = true.
Proof.
  intros Hix Hread Hdep _. split.
  - rewrite serialize_compact_text. apply parse_readable_text; assumption.
  - rewrite equal_content by (apply parsed_usable || exact Hix).
    rewrite content_parsed. apply equal_readable, Hread.
Qed.

(** Two doubles that are read back: 1.5 and -0.25. *)
Lemma reads_back_three_halves :
  @reads_back no_charconv (JFloat (S754_finite false 6755399441055744 (-52))).
Proof.
  intros fuel p rest Hptr Hdel Hfuel Hdep. destruct fuel as [|n]; [lia|].
  assert (E : @compact_text no_charconv
                (JFloat (S754_finite false 6755399441055744 (-52)))
              = [49; 46; 53]) by (vm_compute; reflexivity).
  rewrite E in Hptr. cbn [app] in Hptr.
  rewrite (@parse_value_number no_charconv n p 49 _ Hptr) by (right; reflexivity).
  destruct p as [ptr b o dep m]. cbn [Parser.ptr_] in Hptr. subst ptr.
  destruct o as [ac atc asq auk ani ahn acc adk md].
  destruct ahn, rest as [|c r];
    try (cbn in Hdel; destruct Hdel as [-> | [-> | ->]]); vm_compute; reflexivity.
Qed.

Lemma reads_back_minus_quarter :
  @reads_back no_charconv (JFloat (S754_finite true 4503599627370496 (-54))).
Proof.
  intros fuel p rest Hptr Hdel Hfuel Hdep. destruct fuel as [|n]; [lia|].
  assert (E : @compact_text no_charconv
                (JFloat (S754_finite true 4503599627370496 (-54)))
              = [45; 48; 46; 50; 53]) by (vm_compute; reflexivity).
  rewrite E in Hptr. cbn [app] in Hptr.
  rewrite (@parse_value_number no_charconv n p 45 _ Hptr) by (left; reflexivity).
  destruct p as [ptr b o dep m]. cbn [Parser.ptr_] in Hptr. subst ptr.
  destruct o as [ac atc asq auk ani ahn acc adk md].
  destruct ani, ahn, rest as [|c r];
    try (cbn in Hdel; destruct Hdel as [-> | [-> | ->]]); vm_compute; reflexivity.
Qed.

Lemma roundtrip_of_safe_values_witness :
  @Parser.parse no_charconv
     (@serialize no_charconv (Stored.content sample_stored_value)
                 SerializeOptions.default)
     ParseOptions.default
  = Returns (reparsed (Stored.content sample_stored_value))
  /\ Stored.equal
       (Stored.parsed (reparsed (Stored.content sample_stored_value)))
       sample_stored_value = true.
Proof.
  apply (@roundtrip_of_safe_values no_charconv sample_stored_value
           ParseOptions.default).
  - cbn. repeat split; intros; exact I.
  - cbn [Stored.content sample_stored_value map fst snd readable fold_right].
    rewrite content_parsed. split; [|split; [|split; [|exact I]]].
    + split; [vm_compute; repeat split; lia || discriminate
             |apply reads_back_three_halves].
    + split; [repeat constructor; set_solver|].
      split; [|exact I]. split; [repeat constructor; unfold is_byte; lia|].
      split; [vm_compute; repeat split; lia || discriminate
             |apply reads_back_minus_quarter].
    + apply (@safe_readable no_charconv). cbn.
      unfold is_int64, is_uint64, is_byte, INT64_MIN, INT64_MAX, UINT64_MAX.
      repeat split; try lia; repeat constructor; try lia; set_solver.
  - vm_compute. lia.
  - left. reflexivity.
Defined.

(** The claim as stated fails on a value nested deeper than the parser's
    default limit, which the serializer writes and the parser refuses;
    on an object that holds one key twice, of which the parser keeps one
    entry; on the double 2^53 - 1, whose text 9007199254740991.0 is read
    back as 2^53 - 2; and on an object of 16 entries whose index lags
    behind them, in which the comparison misses the last key. *)
Lemma roundtrip_counterexample :
  @Parser.parse no_charconv
    (@serialize no_charconv (nested_arrays 513) SerializeOptions.default)
    ParseOptions.default
  = Throws (ExnParseError (mkParseError max_depth_exceeded (mkLoc 1 514 513)))
  /\
  (@Parser.parse no_charconv
      (@serialize no_charconv twice_a SerializeOptions.default)
      ParseOptions.default
   = Returns (JObject [([97], JInteger 2)])
   /\ Stored.equal (Stored.parsed (JObject [([97], JInteger 2)]))
                   (Stored.parsed twice_a) = false)
  /\
  (@Parser.parse no_charconv
      (@serialize no_charconv (JFloat largest_odd_double) SerializeOptions.default)
      ParseOptions.default
   = Returns (JFloat (S754_finite false 9007199254740990 0))
   /\ Stored.equal (Stored.Float (S754_finite false 9007199254740990 0))
                   (Stored.Float largest_odd_double) = false)
  /\
  (let v := Stored.of_object after_erase_and_insert in
   @Parser.parse no_charconv
      (@serialize no_charconv (Stored.content v) SerializeOptions.default)
      ParseOptions.default
   = Returns (Stored.content v)
   /\ Stored.equal (Stored.parsed (Stored.content v)) v = false).
Proof.
  split; [apply (@roundtrip_fails_beyond_max_depth no_charconv)|].
  repeat split; vm_compute; reflexivity.
Qed.

(** X18: the text of the serializer reads back.  For every value without
    floats (integers in range, byte strings, pairwise different keys) in
    which no lookup reads a lagging index, and every [SerializeOptions]
    (any indent, with or without [sort_keys], with or without
    [ensure_ascii], where the strings and keys have to be valid UTF-8),
    parsing the text that [serialize] returns gives what the value holds
    - with the entries in sorted order under [sort_keys], and an unsigned
    integer that fits [int64_t] as a signed one - under every
    [ParseOptions] whose depth limit the value respects and that allow
    duplicate keys, or forbid them while no object exceeds the entries
    the parser reserves; the value so stored compares equal to the
    original. *)
Theorem serialized_text_reads_back `{Charconv} (v : Stored.t)
    (sopts : SerializeOptions.t) (opts : ParseOptions.t) :
  indexes_usable v ->
  roundtrip_safe (Stored.content v) ->
  (SerializeOptions.ensure_ascii sopts = true -> utf8_strings (Stored.content v)) ->
  (depth (Stored.content v) <= effective_max_depth opts)%nat ->
  ParseOptions.allow_duplicate_keys opts = true
  \/ within_reserve (Stored.content v) ->
  Parser.parse (serialize (Stored.content v) sopts) opts
  = Returns (reparsed (written_form sopts (Stored.content v)))
  /\ Stored.equal
       (Stored.parsed (reparsed (written_form sopts (Stored.content v)))) v
     = true.
Proof.
  intros Hix Hsafe Hutf Hdep _. split.
  - apply parse_serialized; assumption.
  - rewrite equal_content by (apply parsed_usable || exact Hix).
    rewrite content_parsed. apply equal_written_form, Hsafe.
Qed.

Lemma serialized_text_reads_back_witness :
  @Parser.parse no_charconv
     (@serialize no_charconv (Stored.content (Stored.parsed sample_utf8_value))
                 (indented_ascii 2))
     ParseOptions.default
  = Returns (reparsed (written_form (indented_ascii 2)
                         (Stored.content (Stored.parsed sample_utf8_value))))
  /\ Stored.equal
       (Stored.parsed
          (reparsed (written_form (indented_ascii 2)
                       (Stored.content (Stored.parsed sample_utf8_value)))))
       (Stored.parsed sample_utf8_value)
     = true.
Proof.
  apply (@serialized_text_reads_back no_charconv
           (Stored.parsed sample_utf8_value) (indented_ascii 2)
           ParseOptions.default).
  - apply parsed_usable.
  - rewrite content_parsed. cbn. unfold is_int64, is_byte, INT64_MIN, INT64_MAX.
    repeat split; try lia; repeat constructor; try lia; set_solver.
  - intros _. rewrite content_parsed. cbn. repeat split; vm_compute; reflexivity.
  - vm_compute. lia.
  - left. reflexivity.
Defined.

(* ===================================================================== *)
(** * Indexing an object by key                                           *)
(* ===================================================================== *)

Section KeyIndexing.

Lemma stored_find_pos_notin (entries : list (list Z * Stored.t))
    (index_ : option (gmap (list Z) nat)) (key : list Z) :
  ~ In key (map fst entries) -> index_usable entries index_ ->
  Stored.find_pos entries index_ key = None.
Proof.
  intros Hnotin Hix.
  assert (Hk : map fst (map (fun e : list Z * Stored.t =>
                               (fst e, Stored.content (snd e))) entries)
               = map fst entries)
    by (rewrite map_map; reflexivity).
  unfold Stored.find_pos.
  destruct (Nat.leb_spec kIndexThreshold (length entries)) as [Hlen|Hlen].
  - assert (Hr : Object_rebuild_index entries !! key = None).
    { rewrite <- (rebuild_index_values Stored.content entries).
      apply rebuild_index_notin. rewrite Hk. exact Hnotin. }
    specialize (Hix Hlen). destruct index_ as [index|]; [subst index|]; exact Hr.
  - rewrite <- (linear_find_values Stored.content entries).
    apply linear_find_notin. rewrite Hk. exact Hnotin.
Qed.

End KeyIndexing.

(** C6 (as the code has it): for an object, with an index that is
    absent or describes the entries wherever a lookup consults it, and a
    key not present in the object, the const indexing operator throws
    [OutOfRangeError], whose code is [out_of_range], with the message
    naming the key; the mutable indexing operator appends an entry for
    the key holding null, updates the index if there is one, and returns
    a reference to that entry. *)
Theorem key_indexing_on_missing_key (entries : list (list Z * Stored.t))
    (index_ : option (gmap (list Z) nat)) (key : list Z) (moved : bool) :
  ~ In key (map fst entries) ->
  index_usable entries index_ ->
  Stored.index_const (Stored.Object entries index_) key
    = Throws (OutOfRangeError (key_not_found_message key)) /\
  exn_code (OutOfRangeError (key_not_found_message key)) = Some out_of_range /\
  Stored.index_mut (Stored.Object entries index_) key moved
    = Returns (Stored.Object (entries ++ [(key, Stored.Null)])
                 (Stored.update_index_after_push
                    (entries ++ [(key, Stored.Null)])
                    (Stored.ensure_index entries index_) moved),
               length entries) /\
  Stored.referenced
    (Stored.Object (entries ++ [(key, Stored.Null)])
       (Stored.update_index_after_push
          (entries ++ [(key, Stored.Null)])
          (Stored.ensure_index entries index_) moved),
     length entries) = Some Stored.Null.
Proof.
  intros Hnotin Hix.
  pose proof (stored_find_pos_notin entries index_ key Hnotin Hix) as Hpos.
  repeat split.
  - unfold Stored.index_const, Stored.find. rewrite Hpos. reflexivity.
  - unfold Stored.index_mut. rewrite Hpos. reflexivity.
  - unfold Stored.referenced. cbn [fst snd].
    rewrite lookup_app_r by lia. rewrite Nat.sub_diag. reflexivity.
Qed.

Lemma key_indexing_on_missing_key_witness :
  Stored.index_const (Stored.of_object sixteen_entries) [113]
    = Throws (OutOfRangeError (key_not_found_message [113])) /\
  exn_code (OutOfRangeError (key_not_found_message [113])) = Some out_of_range /\
  Stored.index_mut (Stored.of_object sixteen_entries) [113] false
    = Returns (Stored.Object
                 (map (fun e => (fst e, Stored.parsed (snd e)))
                      (Object.entries sixteen_entries)
                  ++ [([113], Stored.Null)])
                 (Stored.update_index_after_push
                    (map (fun e => (fst e, Stored.parsed (snd e)))
                         (Object.entries sixteen_entries)
                     ++ [([113], Stored.Null)])
                    (Stored.ensure_index
                       (map (fun e => (fst e, Stored.parsed (snd e)))
                            (Object.entries sixteen_entries))
                       None) false),
               16%nat) /\
  Stored.referenced
    (Stored.Object
       (map (fun e => (fst e, Stored.parsed (snd e)))
            (Object.entries sixteen_entries)
        ++ [([113], Stored.Null)])
       (Stored.update_index_after_push
          (map (fun e => (fst e, Stored.parsed (snd e)))
               (Object.entries sixteen_entries)
           ++ [([113], Stored.Null)])
          (Stored.ensure_index
             (map (fun e => (fst e, Stored.parsed (snd e)))
                  (Object.entries sixteen_entries))
             None) false),
     16%nat) = Some Stored.Null.
Proof.
  apply (key_indexing_on_missing_key
           (map (fun e => (fst e, Stored.parsed (snd e)))
                (Object.entries sixteen_entries))
           None [113] false).
  - vm_compute. intros Hin.
    repeat (destruct Hin as [Hin|Hin]; [discriminate Hin|]). exact Hin.
  - intros _. exact I.
Defined.

(** The const operator does not report [errc::key_not_found]. *)
Lemma const_index_not_key_not_found :
  ~ (forall (entries : list (list Z * Stored.t)) (key : list Z),
       ~ In key (map fst entries) ->
       exists e, Stored.index_const (Stored.Object entries None) key = Throws e
                 /\ exn_code e = Some key_not_found).
Proof.
  intros Hclaim. destruct (Hclaim [] [97] (fun f => f)) as (e & He & Hcode).
  cbv in He. injection He as <-. discriminate Hcode.
Qed.

(* ===================================================================== *)
(** * Objects below the index threshold                                   *)
(* ===================================================================== *)

(** With fewer than 16 entries [find], [insert] and [erase] of the
    [Object] struct scan the entries, whatever index the object carries,
    and leave that index as it is: they are [Object_find], [Object_insert]
    and [Object_erase] on the entries. *)
Lemma small_object_find (o : Object.t) (key : list Z) :
  (length (Object.entries o) < kIndexThreshold)%nat ->
  Object.find o key = (Object_find (Object.entries o) key, o).
Proof.
  intros Hlen. unfold Object.find, Object.find_pos, Object.use_index,
    Object_find, Object_find_pos, Object_use_index.
  destruct (Nat.leb_spec kIndexThreshold (length (Object.entries o))); [lia|].
  reflexivity.
Qed.

Lemma small_object_insert (o : Object.t) (key : list Z) (value : JsonValue)
    (moved : bool) :
  (length (Object.entries o) < kIndexThreshold)%nat ->
  Object.insert o key value moved
  = Object.mk (Object_insert (Object.entries o) key value) (Object.index_ o).
Proof.
  intros Hlen. unfold Object_insert, Object.insert. cbn [Object.entries Object.index_].
  destruct (Nat.ltb_spec (length (Object.entries o)) kIndexThreshold); [|lia].
  destruct (Object.assign_first (Object.entries o) key value); reflexivity.
Qed.

Lemma small_object_erase (o : Object.t) (key : list Z) :
  (length (Object.entries o) < kIndexThreshold)%nat ->
  Object.erase o key
  = (fst (Object_erase (Object.entries o) key),
     Object.mk (snd (Object_erase (Object.entries o) key)) (Object.index_ o)).
Proof.
  intros Hlen. unfold Object_erase, Object.erase, Object.use_index.
  cbn [Object.entries Object.index_].
  destruct (Nat.leb_spec kIndexThreshold (length (Object.entries o))); [lia|].
  destruct (Object.erase_first (Object.entries o) key); [reflexivity|].
  destruct o; reflexivity.
Qed.
